(** * A shallow embedding of the signals runtime (core.ts, array.ts)

    The tracker graph, the phase record, the update cycle and the sequence
    layer are embedded as functions over an explicit [World]: the arena of
    tracker records, the registered effect closures, the backing arrays and
    the process-wide [stateData].  Closures handed to the library (derivation
    functions, batch callbacks, effect callbacks) are trees of library calls
    ([prog]); the runtime interprets them ([runProg]). *)

From Stdlib Require Import ZifyBool.
From stdpp Require Import base numbers list option.

Set Warnings "-register-all,-clear-no-such-hyp,-inconsistent-scopes".
Set Default Proof Using "Type".

Open Scope Z_scope.

(** ** JavaScript containers *)

(** A [Set] of object references, in insertion order (the order in which
    [for ... of] and [const [first] = set] visit it). *)
Module JsSet.
Definition has (x : nat) (s : list nat) : bool := bool_decide (x ∈ s).
Definition add (x : nat) (s : list nat) : list nat :=
  if has x s then s else s ++ [x].
Definition delete (x : nat) (s : list nat) : list nat :=
  filter (λ y, y ≠ x) s.
(** [for (const x of xs) s.add(x)] *)
Definition addAll (xs : list nat) (s : list nat) : list nat :=
  foldl (λ acc x, add x acc) s xs.
End JsSet.

(** An [Array]: its index slots ([None] is a hole, read back as
    [undefined]) and the non-index properties an assignment at a negative
    key creates. *)
Section JsArray.
Context {T : Type}.

Record JsArray := mkArray { slots : list (option T); props : list (Z * T) }.

Definition arrayOf (l : list T) : JsArray := mkArray (Some <$> l) [].

Definition arr_length (a : JsArray) : Z := Z.of_nat (length (slots a)).

(** [a[i]]; [None] stands for [undefined]. *)
Definition arr_get (a : JsArray) (i : Z) : option T :=
  if i <? 0 then snd <$> List.find (λ p, fst p =? i) (props a)
  else mjoin (slots a !! Z.to_nat i).

(** [a[i] = v]: in range it overwrites, past the end it extends the array
    with holes, at a negative key it sets a property and leaves the
    elements alone. *)
Definition arr_set (a : JsArray) (i : Z) (v : T) : JsArray :=
  if i <? 0 then
    mkArray (slots a) ((i, v) :: List.filter (λ p, negb (fst p =? i)) (props a))
  else
    let n := Z.to_nat i in
    if (n <? length (slots a))%nat then mkArray (<[n := Some v]> (slots a)) (props a)
    else mkArray (slots a ++ replicate (n - length (slots a)) None ++ [Some v]) (props a).

(** [a.splice(start, deleteCount, ...items)] with the clamping of
    [Array.prototype.splice]. *)
Definition arr_splice (a : JsArray) (start deleteCount : Z) (items : list T) : JsArray :=
  let len := arr_length a in
  let actualStart := if start <? 0 then Z.max (len + start) 0 else Z.min start len in
  let actualDeleteCount := Z.min (Z.max deleteCount 0) (len - actualStart) in
  mkArray (take (Z.to_nat actualStart) (slots a)
             ++ (Some <$> items)
             ++ drop (Z.to_nat (actualStart + actualDeleteCount)) (slots a))
          (props a).

(** The elements a flattening ([flatMap]) or a comparison sees: holes are
    skipped. *)
Definition arr_elements (a : JsArray) : list T := omap id (slots a).
End JsArray.
Arguments JsArray : clear implicits.

(** [a.map(func)]: a new array, holes preserved, no extra properties. *)
Definition arr_map {A B} (func : A → B) (a : JsArray A) : JsArray B :=
  mkArray (List.map (option_map func) (slots a)) [].

(** ** Edit scripts (array.ts) *)

Inductive Change (T : Type) :=
| Insert (index : Z) (values : list T)
| Delete (startIndex : Z) (length : Z)
| Move (oldIndex : Z) (newIndex : Z)
| Replace (index : Z) (newValue : T).
Arguments Insert {T}. Arguments Delete {T}. Arguments Move {T}. Arguments Replace {T}.

Record Changes (T : Type) := mkChanges { changes : list (Change T); newLength : Z }.
Arguments mkChanges {T}. Arguments changes {T}. Arguments newLength {T}.

(** ** Values *)

(** What a tracker or an array slot holds.  Numbers are compared by value;
    an edit-script object [{changes, newLength}] lives at an address and is
    compared by that address, as [!==] does. *)
Inductive Value :=
| VNull
| VNum (n : Z)
| VChanges (addr : nat) (c : Changes Value).

(** [a === b] *)
Definition strictEq (a b : Value) : bool :=
  match a, b with
  | VNull, VNull => true
  | VNum x, VNum y => x =? y
  | VChanges p _, VChanges q _ => (p =? q)%nat
  | _, _ => false
  end.

(** The taxonomy of thrown errors.  core.ts and array.ts throw plain
    [Error]s; they are classified by what their message reports. *)
Inductive Error :=
| PhaseViolation          (* "Can only ... when the mode is ..." *)
| RangeViolation          (* "index ... is out of (its) range", "... is below 0" *)
| UnimplementedOperation  (* "TODO: Implement move" *)
| Unreachable             (* "Unreachable" *)
| TypeError               (* raised by the host: a member missing on the receiver *)
| DanglingHandle.         (* a handle outside the arena; no JS reference can be one *)

(** ** Closures as trees of library calls *)

(** Handles are indices: of a tracker in the arena, of an effect closure, of
    a backing array. *)
Abbreviation TrackerId := nat.
Abbreviation EffectId := nat.
Abbreviation ArrayId := nat.

Inductive TrackerType := State | Derived.

Inductive Mode :=
| Normal | UpdatingState | CreatingEffect | RunningEffects
| CreatingDerivedSignal | UpdatingDerivedSignals.

(** The members a closure can reach: the accessors of a signal handle, the
    backing arrays the sequence layer closes over, object allocation,
    [throw], and [Tick], a side effect on the closure's own surroundings (the
    run counters of the unit tests). *)
Inductive Call : Type → Type :=
| GetValue (s : TrackerId) : Call Value
| HasChangedSinceLastDerivationExecution (s : TrackerId) : Call bool
| HasChangedWhileUpdatingState (s : TrackerId) : Call bool
| SetValue (s : TrackerId) (newValue : Value) : Call unit
| Update (s : TrackerId) (callback : Value → Value) : Call unit
| ReadMode : Call Mode
| ArrayRead (a : ArrayId) : Call (JsArray Value)
| ArrayWrite (a : ArrayId) (contents : JsArray Value) : Call unit
| NewChanges (c : Changes Value) : Call Value
| ThrowError (e : Error) : Call Empty_set
| Tick (counter : nat) : Call unit.

Inductive prog (A : Type) : Type :=
| Ret (a : A)
| Vis {X : Type} (c : Call X) (k : X → prog A).
Arguments Ret {A}. Arguments Vis {A X}.

Fixpoint pbind {A B} (p : prog A) (k : A → prog B) : prog B :=
  match p with
  | Ret a => k a
  | Vis c h => Vis c (λ x, pbind (h x) k)
  end.

Definition call {X} (c : Call X) : prog X := Vis c Ret.
Definition throw {A} (e : Error) : prog A :=
  Vis (ThrowError e) (λ x : Empty_set, match x with end).

Declare Scope prog_scope.
Delimit Scope prog_scope with prog.
Bind Scope prog_scope with prog.
Notation "x <- m ;; k" := (pbind m (λ x, k))
  (at level 100, m at next level, right associativity) : prog_scope.
Notation "m ;;; k" := (pbind m (λ _, k))
  (at level 100, right associativity) : prog_scope.

(** ** The tracker graph and the phase record (core.ts) *)

(** [GeneralTracker] with the fields of [DerivedTracker]; a state tracker
    carries no [upstreamSignals] and no [func], which is [[]] and [Ret VNull]
    here. *)
Record Tracker := mkTracker {
  type : TrackerType;
  value : Value;
  hasChanged : bool;
  downstreamSignals : list TrackerId;
  downstreamEffects : list EffectId;
  upstreamSignals : list TrackerId;
  func : prog Value;
}.

(** The closure [run] that [effect] builds: its sources and the callback. *)
Record Effect := mkEffect {
  from : list TrackerId;
  onUpdate : list (Value * bool) → prog unit;
}.

Inductive StateData :=
| SNormal
| SUpdatingState (changedSignals : list TrackerId)
                 (staleDerivedSignals : list TrackerId)
                 (staleEffects : list EffectId)
| SCreatingEffect
| SRunningEffects (changedSignals : list TrackerId)
| SCreatingDerivedSignal (derivationsBeingComputed : list TrackerId)
| SUpdatingDerivedSignals (changedSignals : list TrackerId)
                          (staleDerivedSignals : list TrackerId)
                          (staleEffects : list EffectId)
                          (freshDerivedSignals : list TrackerId)
                          (derivationsBeingComputed : list TrackerId).

Definition mode (sd : StateData) : Mode :=
  match sd with
  | SNormal => Normal
  | SUpdatingState _ _ _ => UpdatingState
  | SCreatingEffect => CreatingEffect
  | SRunningEffects _ => RunningEffects
  | SCreatingDerivedSignal _ => CreatingDerivedSignal
  | SUpdatingDerivedSignals _ _ _ _ _ => UpdatingDerivedSignals
  end.

Global Instance Mode_eq_dec : EqDecision Mode.
Proof. solve_decision. Defined.
Global Instance TrackerType_eq_dec : EqDecision TrackerType.
Proof. solve_decision. Defined.
Global Instance Error_eq_dec : EqDecision Error.
Proof. solve_decision. Defined.

(** Everything the library's functions reach: the arena of trackers (a
    handle is an index into it), the effect closures, the backing arrays,
    the module variable [stateData], the allocator of object addresses, the
    handles registered with [derivationRegistry], and the log of [Tick]s. *)
Record World := mkWorld {
  trackers : list Tracker;
  effects : list Effect;
  arrays : list (JsArray Value);
  stateData : StateData;
  nextAddress : nat;
  derivationRegistry : list TrackerId;
  ticks : list nat;
}.

Definition emptyWorld : World := mkWorld [] [] [] SNormal 0 [] [].

Definition withTrackers (f : list Tracker → list Tracker) (w : World) : World :=
  mkWorld (f (trackers w)) (effects w) (arrays w) (stateData w)
          (nextAddress w) (derivationRegistry w) (ticks w).
Definition withStateData (sd : StateData) (w : World) : World :=
  mkWorld (trackers w) (effects w) (arrays w) sd
          (nextAddress w) (derivationRegistry w) (ticks w).
Definition withArrays (f : list (JsArray Value) → list (JsArray Value)) (w : World) : World :=
  mkWorld (trackers w) (effects w) (f (arrays w)) (stateData w)
          (nextAddress w) (derivationRegistry w) (ticks w).

(** ** The monad of library functions

    A call returns, throws, or does not come back (the recursion outran its
    fuel).  A throw keeps the world as the call left it: nothing in the
    source rolls back. *)
Inductive Outcome (A : Type) :=
| Done (a : A) (w : World)
| Throw (e : Error) (w : World)
| OutOfFuel.
Arguments Done {A}. Arguments Throw {A}. Arguments OutOfFuel {A}.

Definition M (A : Type) : Type := World → Outcome A.

Definition ret {A} (a : A) : M A := λ w, Done a w.
Definition raise {A} (e : Error) : M A := λ w, Throw e w.
Definition bind {A B} (m : M A) (k : A → M B) : M B :=
  λ w, match m w with
       | Done a w' => k a w'
       | Throw e w' => Throw e w'
       | OutOfFuel => OutOfFuel
       end.

Declare Scope M_scope.
Delimit Scope M_scope with M.
Notation "x <- m ;; k" := (bind m (λ x, k))
  (at level 100, m at next level, right associativity) : M_scope.
Notation "m ;;; k" := (bind m (λ _, k))
  (at level 100, right associativity) : M_scope.
Open Scope M_scope.

Definition getWorld : M World := λ w, Done w w.
Definition modifyWorld (f : World → World) : M unit := λ w, Done tt (f w).
Definition getStateData : M StateData := λ w, Done (stateData w) w.
Definition setStateData (sd : StateData) : M unit := modifyWorld (withStateData sd).

Definition getTracker (t : TrackerId) : M Tracker :=
  λ w, match trackers w !! t with
       | Some tr => Done tr w
       | None => Throw DanglingHandle w
       end.
Definition modifyTracker (t : TrackerId) (f : Tracker → Tracker) : M unit :=
  λ w, match trackers w !! t with
       | Some tr => Done tt (withTrackers (λ ts, <[t := f tr]> ts) w)
       | None => Throw DanglingHandle w
       end.

Definition setValue (v : Value) (tr : Tracker) : Tracker :=
  mkTracker (type tr) v (hasChanged tr) (downstreamSignals tr)
            (downstreamEffects tr) (upstreamSignals tr) (func tr).
Definition setHasChanged (b : bool) (tr : Tracker) : Tracker :=
  mkTracker (type tr) (value tr) b (downstreamSignals tr)
            (downstreamEffects tr) (upstreamSignals tr) (func tr).
Definition setDownstreamSignals (s : list TrackerId) (tr : Tracker) : Tracker :=
  mkTracker (type tr) (value tr) (hasChanged tr) s
            (downstreamEffects tr) (upstreamSignals tr) (func tr).
Definition setDownstreamEffects (s : list EffectId) (tr : Tracker) : Tracker :=
  mkTracker (type tr) (value tr) (hasChanged tr) (downstreamSignals tr)
            s (upstreamSignals tr) (func tr).
Definition setUpstreamSignals (s : list TrackerId) (tr : Tracker) : Tracker :=
  mkTracker (type tr) (value tr) (hasChanged tr) (downstreamSignals tr)
            (downstreamEffects tr) s (func tr).

(** [for (const x of xs) body(x)] *)
Fixpoint forEach {A} (xs : list A) (body : A → M unit) : M unit :=
  match xs with
  | [] => ret tt
  | x :: rest => body x ;;; forEach rest body
  end.

(** [xs.map(f)] for an [f] with effects. *)
Fixpoint mapM {A B} (f : A → M B) (xs : list A) : M (list B) :=
  match xs with
  | [] => ret []
  | x :: rest => y <- f x ;; ys <- mapM f rest ;; ret (y :: ys)
  end.

Definition getEffect (e : EffectId) : M Effect :=
  λ w, match effects w !! e with
       | Some eff => Done eff w
       | None => Throw DanglingHandle w
       end.
Definition readArray (a : ArrayId) : M (JsArray Value) :=
  λ w, match arrays w !! a with
       | Some arr => Done arr w
       | None => Throw DanglingHandle w
       end.
Definition writeArray (a : ArrayId) (contents : JsArray Value) : M unit :=
  λ w, match arrays w !! a with
       | Some _ => Done tt (withArrays (λ l, <[a := contents]> l) w)
       | None => Throw DanglingHandle w
       end.

(** Object creation: a new tracker, closure, array or edit-script object
    gets the next free index or address. *)
Definition allocTracker (tr : Tracker) : M TrackerId :=
  λ w, Done (length (trackers w)) (withTrackers (λ ts, ts ++ [tr]) w).
Definition allocEffect (eff : Effect) : M EffectId :=
  λ w, Done (length (effects w))
            (mkWorld (trackers w) (effects w ++ [eff]) (arrays w) (stateData w)
                     (nextAddress w) (derivationRegistry w) (ticks w)).
Definition allocArray (contents : JsArray Value) : M ArrayId :=
  λ w, Done (length (arrays w)) (withArrays (λ l, l ++ [contents]) w).
Definition newChanges (c : Changes Value) : M Value :=
  λ w, Done (VChanges (nextAddress w) c)
            (mkWorld (trackers w) (effects w) (arrays w) (stateData w)
                     (S (nextAddress w)) (derivationRegistry w) (ticks w)).
Definition tick (counter : nat) : M unit :=
  modifyWorld (λ w, mkWorld (trackers w) (effects w) (arrays w) (stateData w)
                            (nextAddress w) (derivationRegistry w) (ticks w ++ [counter])).
Definition withRegistry (f : list TrackerId → list TrackerId) (w : World) : World :=
  mkWorld (trackers w) (effects w) (arrays w) (stateData w)
          (nextAddress w) (f (derivationRegistry w)) (ticks w).

(** *** Updates of the fields of [stateData]

    Each is applied just after the source has checked the mode, so the
    record has the field; on the other records they leave it as it is. *)

(** [stateData.derivationsBeingComputed.push(d)] *)
Definition pushDerivation (d : TrackerId) (sd : StateData) : StateData :=
  match sd with
  | SUpdatingDerivedSignals c s e f stack => SUpdatingDerivedSignals c s e f (stack ++ [d])
  | SCreatingDerivedSignal stack => SCreatingDerivedSignal (stack ++ [d])
  | _ => sd
  end.
(** [stateData.derivationsBeingComputed.pop()] *)
Definition popDerivation (sd : StateData) : StateData :=
  match sd with
  | SUpdatingDerivedSignals c s e f stack => SUpdatingDerivedSignals c s e f (removelast stack)
  | SCreatingDerivedSignal stack => SCreatingDerivedSignal (removelast stack)
  | _ => sd
  end.
(** [stateData.staleDerivedSignals.delete(d)] *)
Definition deleteStale (d : TrackerId) (sd : StateData) : StateData :=
  match sd with
  | SUpdatingDerivedSignals c s e f stack => SUpdatingDerivedSignals c (JsSet.delete d s) e f stack
  | SUpdatingState c s e => SUpdatingState c (JsSet.delete d s) e
  | _ => sd
  end.
(** [stateData.changedSignals.push(t)] *)
Definition pushChanged (t : TrackerId) (sd : StateData) : StateData :=
  match sd with
  | SUpdatingDerivedSignals c s e f stack => SUpdatingDerivedSignals (c ++ [t]) s e f stack
  | SUpdatingState c s e => SUpdatingState (c ++ [t]) s e
  | SRunningEffects c => SRunningEffects (c ++ [t])
  | _ => sd
  end.
(** [for (const signal of t.downstreamSignals) stateData.staleDerivedSignals.add(signal)]
    and [for (const effect of t.downstreamEffects) stateData.staleEffects.add(effect)] *)
Definition addStale (signals : list TrackerId) (effs : list EffectId) (sd : StateData) : StateData :=
  match sd with
  | SUpdatingDerivedSignals c s e f stack =>
      SUpdatingDerivedSignals c (JsSet.addAll signals s) (JsSet.addAll effs e) f stack
  | SUpdatingState c s e => SUpdatingState c (JsSet.addAll signals s) (JsSet.addAll effs e)
  | _ => sd
  end.
(** [stateData.freshDerivedSignals.add(t)] *)
Definition addFresh (t : TrackerId) (sd : StateData) : StateData :=
  match sd with
  | SUpdatingDerivedSignals c s e f stack => SUpdatingDerivedSignals c s e (JsSet.add t f) stack
  | _ => sd
  end.

Definition staleOf (sd : StateData) : list TrackerId :=
  match sd with
  | SUpdatingDerivedSignals _ s _ _ _ | SUpdatingState _ s _ => s
  | _ => []
  end.
Definition staleEffectsOf (sd : StateData) : list EffectId :=
  match sd with
  | SUpdatingDerivedSignals _ _ e _ _ | SUpdatingState _ _ e => e
  | _ => []
  end.
Definition freshOf (sd : StateData) : list TrackerId :=
  match sd with
  | SUpdatingDerivedSignals _ _ _ f _ => f
  | _ => []
  end.
Definition changedOf (sd : StateData) : list TrackerId :=
  match sd with
  | SUpdatingDerivedSignals c _ _ _ _ | SUpdatingState c _ _ | SRunningEffects c => c
  | _ => []
  end.
Definition stackOf (sd : StateData) : list TrackerId :=
  match sd with
  | SUpdatingDerivedSignals _ _ _ _ k | SCreatingDerivedSignal k => k
  | _ => []
  end.

Definition modifyStateData (f : StateData → StateData) : M unit :=
  modifyWorld (λ w, withStateData (f (stateData w)) w).

(** *** core.ts *)

Definition getDerivationBeingComputed : M (option TrackerId) :=
  sd <- getStateData ;;
  match sd with
  | SCreatingDerivedSignal stack
  | SUpdatingDerivedSignals _ _ _ _ stack => ret (list.last stack)
  | _ => ret None
  end.

Definition removeTrackerDependencies (tracker : TrackerId) : M unit :=
  tr <- getTracker tracker ;;
  forEach (upstreamSignals tr) (λ dependency,
    dep <- getTracker dependency ;;
    let removed := JsSet.has tracker (downstreamSignals dep) in
    modifyTracker dependency
      (λ d, setDownstreamSignals (JsSet.delete tracker (downstreamSignals d)) d) ;;;
    if removed then ret tt else raise Unreachable) ;;;
  modifyTracker tracker (setUpstreamSignals []).

Definition handleDerivationLinking (tracker : TrackerId) : M unit :=
  derivation <- getDerivationBeingComputed ;;
  match derivation with
  | Some d =>
      modifyTracker tracker
        (λ t, setDownstreamSignals (JsSet.add d (downstreamSignals t)) t) ;;;
      modifyTracker d
        (λ t, setUpstreamSignals (JsSet.add tracker (upstreamSignals t)) t)
  | None => ret tt
  end.

(** [handleValueChange] of [state] *)
Definition handleValueChange (tracker : TrackerId) : M unit :=
  sd <- getStateData ;;
  match mode sd with
  | UpdatingState =>
      tr <- getTracker tracker ;;
      if hasChanged tr then ret tt else
        modifyTracker tracker (setHasChanged true) ;;;
        modifyStateData (pushChanged tracker) ;;;
        modifyStateData (addStale (downstreamSignals tr) (downstreamEffects tr))
  | _ => raise PhaseViolation
  end.

Section Interpreter.
(** [updateSignal], as the getters of a derived signal call it. *)
Variable pull : TrackerId → M unit.

(** The accessors of the handles [state] and [derive] return.  [SetValue],
    [Update] and [hasChangedWhileUpdatingState] are members of [State]
    only; a [Derived] receiver has none of them. *)
Definition handle {X} (c : Call X) : M X :=
  match c in Call X return M X with
  | GetValue s =>
      tr <- getTracker s ;;
      match type tr with
      | State =>
          handleDerivationLinking s ;;;
          tr' <- getTracker s ;; ret (value tr')
      | Derived =>
          sd <- getStateData ;;
          match mode sd with
          | UpdatingState => raise PhaseViolation
          | _ =>
              handleDerivationLinking s ;;;
              sd' <- getStateData ;;
              match mode sd' with
              | UpdatingDerivedSignals => pull s
              | _ => ret tt
              end ;;;
              tr' <- getTracker s ;; ret (value tr')
          end
      end
  | HasChangedSinceLastDerivationExecution s =>
      tr <- getTracker s ;;
      sd <- getStateData ;;
      match type tr with
      | State =>
          (* mode !== CreatingDerivedSignal && mode !== UpdatingDerivedSignals
             && stateData.mode: Mode.Normal is 0, so it passes too *)
          match mode sd with
          | CreatingDerivedSignal | UpdatingDerivedSignals | Normal => ret (hasChanged tr)
          | _ => raise PhaseViolation
          end
      | Derived =>
          match mode sd with
          | UpdatingDerivedSignals => pull s ;;; tr' <- getTracker s ;; ret (hasChanged tr')
          | CreatingDerivedSignal => ret (hasChanged tr)
          | _ => raise PhaseViolation
          end
      end
  | HasChangedWhileUpdatingState s =>
      tr <- getTracker s ;;
      sd <- getStateData ;;
      match type tr with
      | State =>
          match mode sd with
          | UpdatingState => ret (hasChanged tr)
          | _ => raise PhaseViolation
          end
      | Derived => raise TypeError
      end
  | SetValue s newValue =>
      tr <- getTracker s ;;
      sd <- getStateData ;;
      match type tr with
      | State =>
          match mode sd with
          | UpdatingState =>
              if strictEq (value tr) newValue then ret tt
              else modifyTracker s (setValue newValue) ;;; handleValueChange s
          | _ => raise PhaseViolation
          end
      | Derived => raise TypeError
      end
  | Update s callback =>
      tr <- getTracker s ;;
      sd <- getStateData ;;
      match type tr with
      | State =>
          match mode sd with
          | UpdatingState =>
              modifyTracker s (λ t, setValue (callback (value t)) t) ;;;
              handleValueChange s
          | _ => raise PhaseViolation
          end
      | Derived => raise TypeError
      end
  | ReadMode => sd <- getStateData ;; ret (mode sd)
  | ArrayRead a => readArray a
  | ArrayWrite a contents => writeArray a contents
  | NewChanges c => newChanges c
  | ThrowError e => raise e
  | Tick counter => tick counter
  end.

Fixpoint runProg {A} (p : prog A) : M A :=
  match p with
  | Ret a => ret a
  | Vis c k => x <- handle c ;; runProg (k x)
  end.

Definition updateDerivedSignal (derivedSignal : TrackerId) : M unit :=
  sd <- getStateData ;;
  match mode sd with
  | UpdatingDerivedSignals =>
      removeTrackerDependencies derivedSignal ;;;
      tr <- getTracker derivedSignal ;;
      let oldValue := value tr in
      modifyStateData (pushDerivation derivedSignal) ;;;
      v <- runProg (func tr) ;;
      modifyTracker derivedSignal (setValue v) ;;;
      modifyStateData popDerivation ;;;
      modifyStateData (deleteStale derivedSignal) ;;;
      if strictEq v oldValue then ret tt else
        tr' <- getTracker derivedSignal ;;
        if hasChanged tr' then raise Unreachable else
          modifyTracker derivedSignal (setHasChanged true) ;;;
          modifyStateData (pushChanged derivedSignal) ;;;
          modifyStateData (addStale (downstreamSignals tr') (downstreamEffects tr'))
  | _ => raise Unreachable
  end.

(** The closure [run] of [effect]: read every source, then call back. *)
Definition runEffect (e : EffectId) : M unit :=
  eff <- getEffect e ;;
  infos <- mapM (λ f, v <- handle (GetValue f) ;;
                      tr <- getTracker f ;;
                      ret (v, hasChanged tr)) (from eff) ;;
  runProg (onUpdate eff infos).
End Interpreter.

(** [updateSignal]: the recursive pull.  The loop runs over the upstream set
    the tracker has on entry: that [Set] object is replaced, not emptied, when
    the tracker is recomputed, and only a read by the tracker's own running
    function adds to it, which needs the very tracker to be entered again and
    then never comes back. *)
Fixpoint updateSignal (fuel : nat) (tracker : TrackerId) : M unit :=
  match fuel with
  | O => λ _, OutOfFuel
  | S fuel' =>
      sd <- getStateData ;;
      match mode sd with
      | UpdatingDerivedSignals =>
          if JsSet.has tracker (freshOf sd) then ret tt else
            tr <- getTracker tracker ;;
            forEach (upstreamSignals tr) (λ signal,
              s <- getTracker signal ;;
              match type s with
              | Derived => updateSignal fuel' signal
              | State => ret tt
              end) ;;;
            sd' <- getStateData ;;
            (if JsSet.has tracker (staleOf sd')
             then updateDerivedSignal (updateSignal fuel') tracker
             else ret tt) ;;;
            modifyStateData (addFresh tracker)
      | _ => raise Unreachable
      end
  end.

(** The [while (true)] of [updateState]. *)
Fixpoint resolveStale (fuel : nat) (rounds : nat) : M unit :=
  match rounds with
  | O => λ _, OutOfFuel
  | S rounds' =>
      sd <- getStateData ;;
      match staleOf sd with
      | [] => ret tt
      | first :: _ =>
          updateDerivedSignal (updateSignal fuel) first ;;;
          modifyStateData (addFresh first) ;;;
          resolveStale fuel rounds'
      end
  end.

Definition updateState (fuel : nat) (run : prog unit) : M unit :=
  sd <- getStateData ;;
  match mode sd with
  | Normal =>
      setStateData (SUpdatingState [] [] []) ;;;
      runProg (updateSignal fuel) run ;;;
      sd1 <- getStateData ;;
      (* {...stateData, mode: UpdatingDerivedSignals, derivationsBeingComputed: [],
          freshDerivedSignals: new Set} *)
      setStateData (SUpdatingDerivedSignals (changedOf sd1) (staleOf sd1)
                                            (staleEffectsOf sd1) [] []) ;;;
      resolveStale fuel fuel ;;;
      sd2 <- getStateData ;;
      match stackOf sd2 with
      | _ :: _ => raise Unreachable
      | [] =>
          let staleEffects := staleEffectsOf sd2 in
          setStateData (SRunningEffects (changedOf sd2)) ;;;
          forEach staleEffects (runEffect (updateSignal fuel)) ;;;
          sd3 <- getStateData ;;
          forEach (changedOf sd3) (λ signal,
            tr <- getTracker signal ;;
            if hasChanged tr then modifyTracker signal (setHasChanged false)
            else raise Unreachable) ;;;
          setStateData SNormal
      end
  | _ => raise PhaseViolation
  end.

(** [state(value)]; the handle is the index of the new tracker. *)
Definition state (v : Value) : M TrackerId :=
  allocTracker (mkTracker State v false [] [] [] (Ret VNull)).

(** [derive(func)].  The tracker object is built before the mode is checked
    in the source; the arena takes it once the check has passed, so that a
    refused call leaves no unreferenced record behind. *)
Definition derive (fuel : nat) (f : prog Value) : M TrackerId :=
  sd <- getStateData ;;
  match mode sd with
  | Normal =>
      tracker <- allocTracker (mkTracker Derived VNull false [] [] [] f) ;;
      setStateData (SCreatingDerivedSignal [tracker]) ;;;
      v <- runProg (updateSignal fuel) f ;;
      modifyTracker tracker (setValue v) ;;;
      setStateData SNormal ;;;
      modifyWorld (withRegistry (λ r, r ++ [tracker])) ;;;
      ret tracker
  | _ => raise PhaseViolation
  end.

(** [effect(...from, onUpdate)]: core.ts returns nothing. *)
Definition effect (fuel : nat) (sources : list TrackerId)
    (callback : list (Value * bool) → prog unit) : M unit :=
  sd <- getStateData ;;
  match mode sd with
  | Normal =>
      run <- allocEffect (mkEffect sources callback) ;;
      setStateData SCreatingEffect ;;;
      runEffect (updateSignal fuel) run ;;;
      setStateData SNormal ;;;
      forEach sources (λ source,
        modifyTracker source
          (λ t, setDownstreamEffects (JsSet.add run (downstreamEffects t)) t))
  | _ => raise PhaseViolation
  end.

(** The host calling back the cleanup [derive] registered for a handle it
    has reclaimed: [() => removeTrackerDependencies(tracker)]. *)
Definition reclaim (handle : TrackerId) : M unit :=
  w <- getWorld ;;
  if JsSet.has handle (derivationRegistry w) then
    modifyWorld (withRegistry (JsSet.delete handle)) ;;;
    removeTrackerDependencies handle
  else ret tt.

(** ** The sequence layer (array.ts) *)

Section UpdateArrayFromChanges.
Context {T : Type}.

(** [updateArrayFromChanges(array, changes)]: the records are applied in
    order to the array; a [Move] throws where it stands, the records before
    it already applied. *)
Fixpoint updateArrayFromChanges (array : JsArray T) (cs : list (Change T))
    : JsArray T * option Error :=
  match cs with
  | [] => (array, None)
  | Delete startIndex len :: rest =>
      updateArrayFromChanges (arr_splice array startIndex len []) rest
  | Insert index values :: rest =>
      updateArrayFromChanges (arr_splice array index 0 values) rest
  | Move _ _ :: _ => (array, Some UnimplementedOperation)
  | Replace index newValue :: rest =>
      updateArrayFromChanges (arr_set array index newValue) rest
  end.
End UpdateArrayFromChanges.

(** The same on a backing array that a closure holds by reference. *)
Definition updateArrayFromChangesAt (array : ArrayId) (c : Changes Value) : prog unit :=
  (a <- call (ArrayRead array) ;;
   let '(a', err) := updateArrayFromChanges a (changes c) in
   call (ArrayWrite array a') ;;;
   match err with
   | Some e => throw e
   | None => Ret tt
   end)%prog.

(** An [ImmutableArray]: the backing array, the changes signal, and whether
    [value] is the plain field of [ArrayStateClass] or the getter of a derived
    array, which checks the mode. *)
Record ImmutableArray := mkImmutableArray {
  arrValue : ArrayId;
  arrChanges : TrackerId;
  arrIsDerived : bool;
}.

(** A callback [c => ...] on the edit-script object a changes tracker holds
    (by its type, [State<Changes<T>>], it holds nothing else). *)
Definition onChanges (f : Changes Value → Changes Value) (v : Value) : Value :=
  match v with
  | VChanges addr c => VChanges addr (f c)
  | _ => v
  end.

Definition pushChange (extra : Z) (change : Change Value) (c : Changes Value) : Changes Value :=
  mkChanges (changes c ++ [change]) (newLength c + extra).

Module ArrayStateClass.
(** [if (this.changes.hasChangedWhileUpdatingState === false)
      this.changes.value = {changes: [], newLength: this.value.length}] *)
Definition resetOnFirstMutation (this : ImmutableArray) : prog unit :=
  (changed <- call (HasChangedWhileUpdatingState (arrChanges this)) ;;
   if changed : bool then Ret tt else
     a <- call (ArrayRead (arrValue this)) ;;
     fresh <- call (NewChanges (mkChanges [] (arr_length a))) ;;
     call (SetValue (arrChanges this) fresh))%prog.

Definition insertAt (this : ImmutableArray) (index : Z) (values : list Value) : prog unit :=
  (a <- call (ArrayRead (arrValue this)) ;;
   if (index <? 0) || (index >? arr_length a) then throw RangeViolation else
     resetOnFirstMutation this ;;;
     call (Update (arrChanges this)
             (onChanges (pushChange (Z.of_nat (length values)) (Insert index values)))) ;;;
     a' <- call (ArrayRead (arrValue this)) ;;
     call (ArrayWrite (arrValue this) (arr_splice a' index 0 values)))%prog.

Definition append (this : ImmutableArray) (values : list Value) : prog unit :=
  (a <- call (ArrayRead (arrValue this)) ;;
   insertAt this (arr_length a) values)%prog.

Definition insert (this : ImmutableArray) (values : list Value) : prog unit :=
  insertAt this 0 values.

Definition delete (this : ImmutableArray) (startIndex : Z) (endIndex : option Z) : prog unit :=
  (if startIndex <? 0 then throw RangeViolation else
     let endIndex := default startIndex endIndex in
     a <- call (ArrayRead (arrValue this)) ;;
     if (endIndex <? startIndex) || (endIndex >? arr_length a - 1)
     then throw RangeViolation else
       resetOnFirstMutation this ;;;
       let len := endIndex - startIndex + 1 in
       call (Update (arrChanges this)
               (onChanges (pushChange (- len) (Delete startIndex len)))) ;;;
       a' <- call (ArrayRead (arrValue this)) ;;
       call (ArrayWrite (arrValue this) (arr_splice a' startIndex len [])))%prog.

(** [func(elem)] changes the element where it is; the slot then holds
    [func elem], an object at the same address. *)
Definition update (this : ImmutableArray) (index : Z) (func : Value → Value) : prog unit :=
  (a <- call (ArrayRead (arrValue this)) ;;
   match arr_get a index with
   | None => throw RangeViolation
   | Some elem =>
       resetOnFirstMutation this ;;;
       a' <- call (ArrayRead (arrValue this)) ;;
       call (ArrayWrite (arrValue this) (arr_set a' index (func elem))) ;;;
       call (Update (arrChanges this)
               (onChanges (pushChange 0 (Replace index (func elem)))))
   end)%prog.

Definition replace (this : ImmutableArray) (index : Z) (newValue : Value) : prog unit :=
  (resetOnFirstMutation this ;;;
   a <- call (ArrayRead (arrValue this)) ;;
   call (ArrayWrite (arrValue this) (arr_set a index newValue)) ;;;
   call (Update (arrChanges this)
           (onChanges (pushChange 0 (Replace index newValue)))))%prog.

Definition move (this : ImmutableArray) (oldIndex newIndex : Z) : prog unit :=
  (resetOnFirstMutation this ;;;
   throw UnimplementedOperation)%prog.
End ArrayStateClass.

(** [get value()] of an [ImmutableArray]. *)
Definition arrayValue (a : ImmutableArray) : prog (JsArray Value) :=
  (if arrIsDerived a then
     m <- call ReadMode ;;
     match m with
     | Normal => call (ArrayRead (arrValue a))
     | _ => throw PhaseViolation
     end
   else call (ArrayRead (arrValue a)))%prog.

(** [arrayState(value)]: [new ArrayStateClass(value)]. *)
Definition arrayState (v : list Value) : M ImmutableArray :=
  cell <- allocArray (arrayOf v) ;;
  fresh <- newChanges (mkChanges [] (Z.of_nat (length v))) ;;
  changesSignal <- state fresh ;;
  ret (mkImmutableArray cell changesSignal false).

(** The rewriting of one record in [map]. *)
Definition mapChange (func : Value → Value) (change : Change Value) : Change Value :=
  match change with
  | Insert index values => Insert index (List.map func values)
  | Replace index newValue => Replace index (func newValue)
  | other => other
  end.

(** The function [map] hands to [derive]. *)
Definition mapDerivation (value : ArrayId) (inChanges : TrackerId) (func : Value → Value)
    : prog Value :=
  (v1 <- call (GetValue inChanges) ;;
   match v1 with
   | VChanges _ c1 =>
       let rewritten := List.map (mapChange func) (changes c1) in
       v2 <- call (GetValue inChanges) ;;
       match v2 with
       | VChanges _ c2 =>
           let out := mkChanges rewritten (newLength c2) in
           o <- call (NewChanges out) ;;
           updateArrayFromChangesAt value out ;;;
           Ret o
       | _ => throw TypeError
       end
   | _ => throw TypeError
   end)%prog.

(** [map(inValue, inChanges, func)], with [func] a function of the element
    alone. *)
Definition map (fuel : nat) (inValue : ArrayId) (inChanges : TrackerId)
    (func : Value → Value) : M ImmutableArray :=
  a <- readArray inValue ;;
  value <- allocArray (arr_map func a) ;;
  derivedChanges <- derive fuel (mapDerivation value inChanges func) ;;
  ret (mkImmutableArray value derivedChanges true).

(** [array.map(func)], the method of both kinds of array. *)
Definition mapOf (fuel : nat) (a : ImmutableArray) (func : Value → Value) : M ImmutableArray :=
  map fuel (arrValue a) (arrChanges a) func.

(** A part of a [join]: what [isSpreadImmutableArray] and [isSignal] tell
    apart. *)
Inductive Part :=
| Literal (v : Value)
| Single (signal : TrackerId)
| Spread (array : ImmutableArray).

Definition spread (array : ImmutableArray) : Part := Spread array.

(** The callback of [parts.flatMap] in [join]. *)
Definition partElements (part : Part) : prog (list Value) :=
  (match part with
   | Spread array => a <- arrayValue array ;; Ret (arr_elements a)
   | Single signal => v <- call (GetValue signal) ;; Ret [v]
   | Literal v => Ret [v]
   end)%prog.

Fixpoint flatMapParts (parts : list Part) : prog (list Value) :=
  (match parts with
   | [] => Ret []
   | part :: rest =>
       here <- partElements part ;;
       there <- flatMapParts rest ;;
       Ret (here ++ there)
   end)%prog.

(** The inner [for (const change of changes.changes)] of [join]: every
    record moved by the running offset; a [Move] throws. *)
Fixpoint offsetChanges (index : Z) (cs : list (Change Value)) : option (list (Change Value)) :=
  match cs with
  | [] => Some []
  | Insert i values :: rest => (Insert (index + i) values ::.) <$> offsetChanges index rest
  | Delete s len :: rest => (Delete (index + s) len ::.) <$> offsetChanges index rest
  | Move _ _ :: _ => None
  | Replace i v :: rest => (Replace (index + i) v ::.) <$> offsetChanges index rest
  end.

(** The [for (const part of parts)] of [join]. *)
Fixpoint joinParts (parts : list Part) (index : Z) (updates : list (Change Value))
    : prog (Z * list (Change Value)) :=
  (match parts with
   | [] => Ret (index, updates)
   | Spread array :: rest =>
       v <- call (GetValue (arrChanges array)) ;;
       match v with
       | VChanges _ c =>
           changed <- call (HasChangedSinceLastDerivationExecution (arrChanges array)) ;;
           if changed : bool then
             match offsetChanges index (changes c) with
             | Some moved => joinParts rest (index + newLength c) (updates ++ moved)
             | None => throw UnimplementedOperation
             end
           else joinParts rest (index + newLength c) updates
       | _ => throw TypeError
       end
   | Single signal :: rest =>
       v <- call (GetValue signal) ;;
       changed <- call (HasChangedSinceLastDerivationExecution signal) ;;
       joinParts rest (index + 1)
                 (if changed : bool then updates ++ [Replace index v] else updates)
   | Literal _ :: rest => joinParts rest (index + 1) updates
   end)%prog.

(** The function [join] hands to [derive]. *)
Definition joinDerivation (value : ArrayId) (parts : list Part) : prog Value :=
  (r <- joinParts parts 0 [] ;;
   let out := mkChanges (snd r) (fst r) in
   o <- call (NewChanges out) ;;
   updateArrayFromChangesAt value out ;;;
   Ret o)%prog.

Definition join (fuel : nat) (parts : list Part) : M ImmutableArray :=
  elements <- runProg (updateSignal fuel) (flatMapParts parts) ;;
  value <- allocArray (arrayOf elements) ;;
  derivedChanges <- derive fuel (joinDerivation value parts) ;;
  ret (mkImmutableArray value derivedChanges true).

(** ** Arithmetic of the example closures *)

(** A numeric operator applied to a tracker's value; what the examples do
    with a value that is no number is never looked at. *)
Definition onNumber (f : Z → Z) (v : Value) : Value :=
  match v with
  | VNum n => VNum (f n)
  | _ => VNull
  end.

Definition numbers : list Z → list Value := List.map VNum.

(** How often a counter was ticked. *)
Definition runs (counter : nat) (w : World) : nat :=
  length (filter (λ c, c = counter) (ticks w)).

Definition valueOf (t : TrackerId) (w : World) : option Value :=
  value <$> trackers w !! t.

Definition elementsOf (a : ImmutableArray) (w : World) : option (list Value) :=
  arr_elements <$> arrays w !! arrValue a.

(** The world a call leaves behind, and the one it returns in. *)
Definition worldOf {A} (o : Outcome A) : option World :=
  match o with
  | Done _ w | Throw _ w => Some w
  | OutOfFuel => None
  end.
Definition returned {A} (o : Outcome A) : option World :=
  match o with
  | Done _ w => Some w
  | _ => None
  end.

(** ** The diamond of the unit test "does not unnecersarily recalculate
    derived signals and effects" *)
Module Diamond.
Definition count : TrackerId := 0%nat.
Definition doubled : TrackerId := 1%nat.
Definition modulo : TrackerId := 2%nat.
Definition doubleModulo : TrackerId := 3%nat.

(** The fields of [numberOfTimesThingsHaveRan]. *)
Definition ranDoubled : nat := 0%nat.
Definition ranModulo : nat := 1%nat.
Definition ranDoubleModulo : nat := 2%nat.
Definition ranDoubleModuloEffect : nat := 3%nat.

Definition doubledFunc : prog Value :=
  (call (Tick ranDoubled) ;;;
   c <- call (GetValue count) ;; Ret (onNumber (λ n, n * 2) c))%prog.
Definition moduloFunc : prog Value :=
  (call (Tick ranModulo) ;;;
   c <- call (GetValue count) ;; Ret (onNumber (λ n, Z.rem n 4) c))%prog.
Definition doubleModuloFunc : prog Value :=
  (call (Tick ranDoubleModulo) ;;;
   m <- call (GetValue modulo) ;; Ret (onNumber (λ n, n * 2) m))%prog.

Definition build (fuel : nat) : M unit :=
  state (VNum 1) ;;;
  derive fuel doubledFunc ;;;
  derive fuel moduloFunc ;;;
  derive fuel doubleModuloFunc ;;;
  effect fuel [doubleModulo] (λ _, call (Tick ranDoubleModuloEffect)).

(** [count.value += 2] *)
Definition addTwo : prog unit :=
  (c <- call (GetValue count) ;;
   call (SetValue count (onNumber (λ n, n + 2) c)))%prog.
Definition batch : prog unit := (addTwo ;;; addTwo)%prog.

Definition snapshot (w : World) :=
  (valueOf count w, valueOf doubled w, valueOf modulo w, valueOf doubleModulo w,
   (runs ranDoubled w, runs ranModulo w, runs ranDoubleModulo w,
    runs ranDoubleModuloEffect w)).
End Diamond.

(** ** A projection made after its source was edited *)
Module MapAfterBatch.
Definition source : ImmutableArray := mkImmutableArray 0%nat 0%nat false.
Definition twice : Value → Value := onNumber (λ e, e * 2).

(** [const a = arrayState([1, 2, 3]); updateState(() => a.append(4));
    const m = a.map(e => e * 2)] *)
Definition scenario (fuel : nat) : M ImmutableArray :=
  a <- arrayState (numbers [1; 2; 3]) ;;
  updateState fuel (ArrayStateClass.append a (numbers [4])) ;;;
  mapOf fuel a twice.

(** The element-wise recomputation from the source's current value. *)
Definition fromScratch (func : Value → Value) (src : ImmutableArray) (w : World)
    : option (list Value) :=
  List.map func <$> elementsOf src w.
End MapAfterBatch.

(** ** [replace] past the end of the array *)
Module ReplaceOutOfRange.
Definition array : ImmutableArray := mkImmutableArray 0%nat 0%nat false.

(** [const a = arrayState([1, 2, 3]); updateState(() => a.replace(5, 9))] *)
Definition scenario (fuel : nat) : M unit :=
  a <- arrayState (numbers [1; 2; 3]) ;;
  updateState fuel (ArrayStateClass.replace a 5 (VNum 9)).
End ReplaceOutOfRange.

(** The mutating members of a state handle and of an array state. *)
Inductive Mutation :=
| SetValueOf (s : TrackerId) (newValue : Value)
| UpdateOf (s : TrackerId) (callback : Value → Value)
| InsertAt (a : ImmutableArray) (index : Z) (values : list Value)
| InsertFront (a : ImmutableArray) (values : list Value)
| Append (a : ImmutableArray) (values : list Value)
| DeleteAt (a : ImmutableArray) (startIndex : Z) (endIndex : option Z)
| UpdateAt (a : ImmutableArray) (index : Z) (func : Value → Value)
| ReplaceAt (a : ImmutableArray) (index : Z) (newValue : Value)
| MoveAt (a : ImmutableArray) (oldIndex newIndex : Z).

Definition mutation (m : Mutation) : prog unit :=
  match m with
  | SetValueOf s v => call (SetValue s v)
  | UpdateOf s callback => call (Update s callback)
  | InsertAt a index values => ArrayStateClass.insertAt a index values
  | InsertFront a values => ArrayStateClass.insert a values
  | Append a values => ArrayStateClass.append a values
  | DeleteAt a startIndex endIndex => ArrayStateClass.delete a startIndex endIndex
  | UpdateAt a index func => ArrayStateClass.update a index func
  | ReplaceAt a index newValue => ArrayStateClass.replace a index newValue
  | MoveAt a oldIndex newIndex => ArrayStateClass.move a oldIndex newIndex
  end.

Definition isStateHandle (w : World) (s : TrackerId) : Prop :=
  ∃ tr, trackers w !! s = Some tr ∧ type tr = State.
Definition isArrayState (w : World) (a : ImmutableArray) : Prop :=
  isStateHandle w (arrChanges a) ∧ is_Some (arrays w !! arrValue a).
Definition receiverOf (m : Mutation) : TrackerId + ImmutableArray :=
  match m with
  | SetValueOf s _ | UpdateOf s _ => inl s
  | InsertAt a _ _ | InsertFront a _ | Append a _ | DeleteAt a _ _
  | UpdateAt a _ _ | ReplaceAt a _ _ | MoveAt a _ _ => inr a
  end.
Definition receiverOk (w : World) (m : Mutation) : Prop :=
  match receiverOf m with
  | inl s => isStateHandle w s
  | inr a => isArrayState w a
  end.

(** The range checks of [insertAt], [delete] and [update]; [replace] and
    [move] have none. *)
Definition rangeCheckFails (w : World) (m : Mutation) : bool :=
  match m with
  | InsertAt a index _ =>
      match arrays w !! arrValue a with
      | Some arr => (index <? 0) || (index >? arr_length arr)
      | None => false
      end
  | DeleteAt a startIndex endIndex =>
      match arrays w !! arrValue a with
      | Some arr =>
          (startIndex <? 0)
          || (default startIndex endIndex <? startIndex)
          || (default startIndex endIndex >? arr_length arr - 1)
      | None => false
      end
  | UpdateAt a index _ =>
      match arrays w !! arrValue a with
      | Some arr => bool_decide (arr_get arr index = None)
      | None => false
      end
  | _ => false
  end.


(** The world a sequence of top-level calls builds from nothing. *)
Definition worldAfter {A} (m : M A) : World :=
  match m emptyWorld with
  | Done _ w | Throw _ w => w
  | OutOfFuel => emptyWorld
  end.

(** ** The unit test "does not let you mutate an array state outside of an
    updateState call", and an insertion past the end *)
Module OutsideBatch.
Definition array : ImmutableArray := mkImmutableArray 0%nat 0%nat false.
Definition world : World := worldAfter (arrayState (numbers [1; 2; 3])).
End OutsideBatch.

(** ** A state with one derived reader, inside a batch *)
Module InPlaceUpdate.
Definition source : TrackerId := 0%nat.
Definition reader : TrackerId := 1%nat.
Definition world (fuel : nat) : World :=
  withStateData (SUpdatingState [] [] [])
    (worldAfter (state (VNum 1) ;;;
                 derive fuel (v <- call (GetValue source) ;; Ret v)%prog)).
(** [source.update(v => {})] *)
Definition noChange : Value → Value := λ v, v.
End InPlaceUpdate.

(** ** [move] in the batch after an edit *)
Module MoveAfterEdit.
Definition array : ImmutableArray := mkImmutableArray 0%nat 0%nat false.
Definition edited (fuel : nat) : World :=
  worldAfter (a <- arrayState (numbers [1; 2; 3]) ;;
              updateState fuel (ArrayStateClass.append a (numbers [4]))).
End MoveAfterEdit.

(** ** An effect on a state

    The unit test "allows you to remove an effect", up to its call of
    [remove()] on what [effect] returned: [effect] (core.ts 286-306) returns
    nothing. *)
Module RemoveEffect.
Definition count : TrackerId := 0%nat.
Definition world : World := worldAfter (state (VNum 2)).
Definition callback : list (Value * bool) → prog unit := λ _, call (Tick 0).
(** After [effect(count, callback)]. *)
Definition subscribed : World :=
  worldAfter (state (VNum 2) ;;; effect 1 [count] callback).
End RemoveEffect.

(** ** Marking a state

    What [handleValueChange] leaves of a write of [newValue] to the state
    [s], whose record was [tr]. *)
Definition marked (s : TrackerId) (tr : Tracker) (newValue : Value) (w w' : World) : Prop :=
  (∃ tr', trackers w' !! s = Some tr' ∧ value tr' = newValue ∧ hasChanged tr' = true)
  ∧ if hasChanged tr then stateData w' = stateData w
    else changedOf (stateData w') = changedOf (stateData w) ++ [s]
         ∧ (∀ d, d ∈ staleOf (stateData w')
                 ↔ d ∈ downstreamSignals tr ∨ d ∈ staleOf (stateData w))
         ∧ (∀ e, e ∈ staleEffectsOf (stateData w')
                 ↔ e ∈ downstreamEffects tr ∨ e ∈ staleEffectsOf (stateData w)).


(** ** The graph between operations *)

Definition downstreamOf (w : World) (a : TrackerId) : list TrackerId :=
  match trackers w !! a with
  | Some t => downstreamSignals t
  | None => []
  end.
Definition upstreamOf (w : World) (b : TrackerId) : list TrackerId :=
  match trackers w !! b with
  | Some t => upstreamSignals t
  | None => []
  end.

(** A in B.upstreamSignals if and only if B in A.downstreamSignals. *)
Definition adjacencySymmetric (w : World) : Prop :=
  ∀ a b, a ∈ upstreamOf w b ↔ b ∈ downstreamOf w a.

(** What the graph algorithms rely on besides: an upstream set lists a
    tracker once, and the derivations in progress and the registered handles
    are trackers of the arena. *)
Record graphOk (w : World) : Prop := mkGraphOk {
  graph_symmetric : adjacencySymmetric w;
  graph_upstream_nodup : ∀ t, NoDup (upstreamOf w t);
  graph_stack_valid :
    ∀ d, d ∈ stackOf (stateData w) → (d < length (trackers w))%nat;
  graph_registry_valid :
    ∀ d, d ∈ derivationRegistry w → (d < length (trackers w))%nat;
}.

(** The public operations: creating a state, a derived signal, an effect or
    an array (state, map, join); using the accessors and the array methods of
    handles at top level ([OpAccess]: reads and mutations); an update cycle;
    and the host's cleanup of a reclaimed derived handle. *)
Inductive Operation :=
| OpState (v : Value)
| OpDerive (f : prog Value)
| OpEffect (sources : list TrackerId) (callback : list (Value * bool) → prog unit)
| OpAccess (p : prog unit)
| OpUpdateState (run : prog unit)
| OpReclaim (handle : TrackerId)
| OpArrayState (v : list Value)
| OpMap (a : ImmutableArray) (func : Value → Value)
| OpJoin (parts : list Part).

Definition perform (fuel : nat) (op : Operation) : M unit :=
  match op with
  | OpState v => state v ;;; ret tt
  | OpDerive f => derive fuel f ;;; ret tt
  | OpEffect sources callback => effect fuel sources callback
  | OpAccess p => runProg (updateSignal fuel) p
  | OpUpdateState run => updateState fuel run
  | OpReclaim handle => reclaim handle
  | OpArrayState v => arrayState v ;;; ret tt
  | OpMap a func => mapOf fuel a func ;;; ret tt
  | OpJoin parts => join fuel parts ;;; ret tt
  end.

(** The worlds between operations: what any sequence of public operations,
    returning or throwing, leaves behind. *)
Inductive reachable : World → Prop :=
| reachable_empty : reachable emptyWorld
| reachable_step fuel op w w' :
    reachable w → worldOf (perform fuel op w) = Some w' → reachable w'.

(** ** The subscription of an effect *)

(** The closure [e] is in the downstream-effect set of the tracker [s]. *)
Definition subscribedTo (s : TrackerId) (e : EffectId) (w : World) : Prop :=
  ∃ tr, trackers w !! s = Some tr ∧ e ∈ downstreamEffects tr.

(** The worlds that any sequence of public operations, returning or
    throwing, leads to from [w0]. *)
Inductive laterThan (w0 : World) : World → Prop :=
| later_now : laterThan w0 w0
| later_step fuel op w w' :
    laterThan w0 w → worldOf (perform fuel op w) = Some w' → laterThan w0 w'.

(** Hoare triples over [M]: from a world in [P], a return satisfies [Q] and
    a throw leaves a world in [E]. *)
Definition holdsAfter {A} (o : Outcome A) (Q : A → World → Prop) (E : World → Prop) : Prop :=
  match o with
  | Done a w' => Q a w'
  | Throw _ w' => E w'
  | OutOfFuel => True
  end.
Inductive triple {A} (P : World → Prop) (m : M A)
    (Q : A → World → Prop) (E : World → Prop) : Prop :=
| Triple : (∀ w, P w → holdsAfter (m w) Q E) → triple P m Q E.

(** A call that keeps [I] whatever it does. *)
Abbreviation keeps I m := (triple I m (λ _, I) I).

(** What a change of the adjacency sets leaves alone. *)
Definition sameCore (tr tr' : Tracker) : Prop :=
  type tr' = type tr ∧ value tr' = value tr ∧ hasChanged tr' = hasChanged tr
  ∧ downstreamEffects tr' = downstreamEffects tr ∧ func tr' = func tr.

Definition coreKept (w w' : World) : Prop :=
  length (trackers w') = length (trackers w)
  ∧ (∀ i tr, trackers w !! i = Some tr →
             ∃ tr', trackers w' !! i = Some tr' ∧ sameCore tr tr')
  ∧ effects w' = effects w ∧ arrays w' = arrays w
  ∧ stateData w' = stateData w ∧ nextAddress w' = nextAddress w
  ∧ derivationRegistry w' = derivationRegistry w ∧ ticks w' = ticks w.

(** The loop of [removeTrackerDependencies] on [t], with the dependencies
    [done] behind it: [t] has left their downstream sets and nothing else
    moved. *)
Definition severing (t : TrackerId) (done : list TrackerId) (w0 w : World) : Prop :=
  (∀ a b, b ∈ downstreamOf w a ↔ a ∈ upstreamOf w0 b ∧ ¬ (b = t ∧ a ∈ done))
  ∧ (∀ b, upstreamOf w b = upstreamOf w0 b)
  ∧ coreKept w0 w
  ∧ (∀ x, x ∉ done → trackers w !! x = trackers w0 !! x).

(** The world a list of public operations leaves behind. *)
Fixpoint afterOperations (fuel : nat) (ops : list Operation) (w : World) : option World :=
  match ops with
  | [] => Some w
  | op :: rest =>
      match worldOf (perform fuel op w) with
      | Some w' => afterOperations fuel rest w'
      | None => None
      end
  end.

(** The unit test "allows a derived signal to be freed while the signal(s)
    from which it is derived are still being used". *)
Module FreedDerived.
Definition source : TrackerId := 0%nat.
Definition derived : TrackerId := 1%nat.
Definition operations : list Operation :=
  [OpState (VNum 1);
   OpDerive (v <- call (GetValue source) ;; Ret (onNumber (λ n, n * 2) v))%prog].
Definition world : World := default emptyWorld (afterOperations 1 operations emptyWorld).
End FreedDerived.

Module DiamondOperations.
Definition operations : list Operation :=
  [OpState (VNum 1);
   OpDerive Diamond.doubledFunc;
   OpDerive Diamond.moduloFunc;
   OpDerive Diamond.doubleModuloFunc;
   OpEffect [Diamond.doubleModulo] (λ _, call (Tick Diamond.ranDoubleModuloEffect));
   OpUpdateState Diamond.batch].
Definition world : World := default emptyWorld (afterOperations 3 operations emptyWorld).
End DiamondOperations.

(** ** Consistency of cached values *)

(** Values for which [===] is equality of what they hold: numbers and
    [null]. *)
Definition primitive (v : Value) : Prop :=
  match v with
  | VChanges _ _ => False
  | _ => True
  end.

(** A derivation function of tracker [d] that only reads the values of
    signals created before [d] and returns a primitive value. *)
Fixpoint reader (d : TrackerId) (p : prog Value) : Prop :=
  match p with
  | Ret v => primitive v
  | Vis c k =>
      match c in Call X return (X → Prop) → Prop with
      | GetValue s => λ rest, (s < d)%nat ∧ ∀ v, rest v
      | _ => λ _, False
      end (λ x, reader d (k x))
  end.

(** The function evaluated afresh against the cached values [ts]: what it
    returns and which trackers it reads. *)
Fixpoint evaluate (ts : list Tracker) (p : prog Value) : option (Value * list TrackerId) :=
  match p with
  | Ret v => Some (v, [])
  | Vis c k =>
      match c in Call X return (X → option (Value * list TrackerId)) → _ with
      | GetValue s => λ rest,
          match ts !! s with
          | Some tr =>
              match rest (value tr) with
              | Some (v, rs) => Some (v, s :: rs)
              | None => None
              end
          | None => None
          end
      | _ => λ _, None
      end (λ x, evaluate ts (k x))
  end.

(** The cached value of a derived tracker is what its function computes
    afresh, and its upstream set is what that computation reads. *)
Definition consistent (ts : list Tracker) (tr : Tracker) : Prop :=
  ∃ rs, evaluate ts (func tr) = Some (value tr, rs)
        ∧ ∀ u, u ∈ upstreamSignals tr ↔ u ∈ rs.

(** What holds of the trackers in every phase: the graph is well formed, a
    state has no upstream, a derived tracker has a [reader] for function and a
    primitive cached value, and upstream trackers are older. *)
Record wellFormed (w : World) : Prop := mkWellFormed {
  wf_graph : graphOk w;
  wf_state : ∀ x tr, trackers w !! x = Some tr → type tr = State →
                     upstreamSignals tr = [];
  wf_derived : ∀ x tr, trackers w !! x = Some tr → type tr = Derived →
                       reader x (func tr) ∧ primitive (value tr);
  wf_below : ∀ x u, u ∈ upstreamOf w x → (u < x)%nat;
}.

(** Between update cycles: the mode is normal, no flag is set, and every
    derived tracker is consistent. *)
Record settled (w : World) : Prop := mkSettled {
  settled_mode : stateData w = SNormal;
  settled_wf : wellFormed w;
  settled_flags : ∀ x tr, trackers w !! x = Some tr → hasChanged tr = false;
  settled_consistent : ∀ x tr, trackers w !! x = Some tr → type tr = Derived →
                               consistent (trackers w) tr;
}.

Definition isDerived (w : World) (x : TrackerId) : Prop :=
  ∃ tr, trackers w !! x = Some tr ∧ type tr = Derived.

(** During an update cycle: a derived tracker that is not stale is
    consistent, a flagged tracker is in the changed list, and what is stale
    is a derived tracker. *)
Record tracking (w : World) : Prop := mkTracking {
  tracking_wf : wellFormed w;
  tracking_consistent :
    ∀ x tr, trackers w !! x = Some tr → type tr = Derived →
            x ∉ staleOf (stateData w) → consistent (trackers w) tr;
  tracking_flags :
    ∀ x tr, trackers w !! x = Some tr → hasChanged tr = true →
            x ∈ changedOf (stateData w);
  tracking_stale : ∀ x, x ∈ staleOf (stateData w) → isDerived w x;
}.

(** While the batch callback runs: the readers of a flagged state are
    stale. *)
Record collecting (w : World) : Prop := mkCollecting {
  collecting_mode : mode (stateData w) = UpdatingState;
  collecting_tracking : tracking w;
  collecting_stale :
    ∀ x tr, trackers w !! x = Some tr → hasChanged tr = true →
            ∀ d, d ∈ downstreamSignals tr → d ∈ staleOf (stateData w);
  collecting_derived :
    ∀ x tr, trackers w !! x = Some tr → type tr = Derived → hasChanged tr = false;
}.

(** While stale trackers are resolved: a fresh tracker is not stale, the
    derived upstream of a fresh tracker is fresh, and the derivations in
    progress are stale and not fresh. *)
Record resolving (w : World) : Prop := mkResolving {
  resolving_mode : mode (stateData w) = UpdatingDerivedSignals;
  resolving_tracking : tracking w;
  resolving_fresh : ∀ x, x ∈ freshOf (stateData w) → x ∉ staleOf (stateData w);
  resolving_upstream :
    ∀ x u, x ∈ freshOf (stateData w) → u ∈ upstreamOf w x → isDerived w u →
           u ∈ freshOf (stateData w);
  resolving_stack :
    ∀ x, x ∈ stackOf (stateData w) →
         x ∈ staleOf (stateData w) ∧ x ∉ freshOf (stateData w);
}.

(** What resolving the trackers up to [t] leaves alone: the trackers created
    after [t], the type and function of every tracker, the value of every
    state and of every tracker that was fresh; and what was fresh stays
    fresh. *)
Record frame (t : TrackerId) (w w' : World) : Prop := mkFrame {
  frame_length : length (trackers w') = length (trackers w);
  frame_above : ∀ x, (t < x)%nat → trackers w' !! x = trackers w !! x;
  frame_kept :
    ∀ x tr, trackers w !! x = Some tr →
            ∃ tr', trackers w' !! x = Some tr'
                   ∧ type tr' = type tr ∧ func tr' = func tr
                   ∧ (type tr = State ∨ x ∈ freshOf (stateData w) →
                      value tr' = value tr);
  frame_fresh : ∀ x, x ∈ freshOf (stateData w) → x ∈ freshOf (stateData w');
}.

(** What [updateSignal] guarantees when it returns, for a derived tracker
    older than every derivation in progress. *)
Definition pullSpec (pull : TrackerId → M unit) : Prop :=
  ∀ t w w',
    resolving w → (∀ y, y ∈ stackOf (stateData w) → (t < y)%nat) →
    isDerived w t → pull t w = Done tt w' →
    resolving w' ∧ frame t w w'
    ∧ stackOf (stateData w') = stackOf (stateData w)
    ∧ t ∈ freshOf (stateData w').

(** The record of the derivation in progress but for its upstream set. *)
Definition ownKept (d : TrackerId) (w w' : World) : Prop :=
  ∃ trd trd', trackers w !! d = Some trd ∧ trackers w' !! d = Some trd'
              ∧ sameCore trd trd'
              ∧ downstreamSignals trd' = downstreamSignals trd.

(** Two worlds with the same trackers, phase record and registry: they
    differ by arrays, effects, addresses or ticks only. *)
Definition sameGraph (w w' : World) : Prop :=
  trackers w' = trackers w ∧ stateData w' = stateData w
  ∧ derivationRegistry w' = derivationRegistry w.

(** The calls that write to a state. *)
Definition writes {X} (c : Call X) : Prop :=
  match c with
  | SetValue _ _ | Update _ _ => True
  | _ => False
  end.

(** While the tracker [t] is created: every other derived tracker is
    consistent and no flag is set. *)
Record creating (t : TrackerId) (w : World) : Prop := mkCreating {
  creating_wf : wellFormed w;
  creating_flags : ∀ x tr, trackers w !! x = Some tr → hasChanged tr = false;
  creating_consistent :
    ∀ x tr, trackers w !! x = Some tr → type tr = Derived → x ≠ t →
            consistent (trackers w) tr;
}.


(** ** A derivation that reads a change flag

    [derive(() => source.value
                  + (source.hasChangedSinceLastDerivationExecution ? 100 : 0))],
    as in the unit test "allows you to see if a signal has changed since
    the last time a derivation was ran". *)
Module FlagReader.
Definition source : TrackerId := 0%nat.
Definition flagged : TrackerId := 1%nat.
Definition flaggedFunc : prog Value :=
  (v <- call (GetValue source) ;;
   c <- call (HasChangedSinceLastDerivationExecution source) ;;
   Ret (onNumber (λ n, n + (if c : bool then 100 else 0)) v))%prog.
Definition operations : list Operation :=
  [OpState (VNum 1); OpDerive flaggedFunc].
Definition world : World := default emptyWorld (afterOperations 2 operations emptyWorld).
(** [source.value = 5] *)
Definition batch : prog unit := call (SetValue source (VNum 5)).
Definition after : World := default emptyWorld (returned (updateState 2 batch world)).
End FlagReader.

(** ** The diamond with functions that only read *)
Module PureDiamond.
Definition doubledFunc : prog Value :=
  (c <- call (GetValue Diamond.count) ;; Ret (onNumber (λ n, n * 2) c))%prog.
Definition moduloFunc : prog Value :=
  (c <- call (GetValue Diamond.count) ;; Ret (onNumber (λ n, Z.rem n 4) c))%prog.
Definition doubleModuloFunc : prog Value :=
  (m <- call (GetValue Diamond.modulo) ;; Ret (onNumber (λ n, n * 2) m))%prog.
Definition build (fuel : nat) : M unit :=
  state (VNum 1) ;;;
  derive fuel doubledFunc ;;;
  derive fuel moduloFunc ;;;
  derive fuel doubleModuloFunc ;;;
  ret tt.
Definition world : World := worldAfter (build 3).
Definition after : World := default emptyWorld (returned (updateState 3 Diamond.batch world)).
End PureDiamond.


(** ** Scripts within bounds *)

(** A script every record of which is within the bounds that [insertAt],
    [delete] and [update] check before they record it, on an array of [len]
    elements: an insertion at [0 .. len], a deletion of a stretch that
    exists, a replacement of an element that exists. *)
Fixpoint scriptFits {T} (len : Z) (cs : list (Change T)) : bool :=
  match cs with
  | [] => true
  | Insert index values :: rest =>
      (0 <=? index) && (index <=? len)
      && scriptFits (len + Z.of_nat (length values)) rest
  | Delete startIndex count :: rest =>
      (0 <=? startIndex) && (0 <=? count) && (startIndex + count <=? len)
      && scriptFits (len - count) rest
  | Move _ _ :: _ => false
  | Replace index _ :: rest =>
      (0 <=? index) && (index <? len) && scriptFits len rest
  end.

(** ** What the changes signal records *)

(** In a batch, the changes signal of the array state [this] is flagged and
    holds the script [c], and the backing array is [cur]. *)
Definition holding (this : ImmutableArray) (c : Changes Value) (cur : JsArray Value)
    (w : World) : Prop :=
  mode (stateData w) = UpdatingState
  ∧ ∃ tr addr, trackers w !! arrChanges this = Some tr ∧ type tr = State
               ∧ hasChanged tr = true ∧ value tr = VChanges addr c
               ∧ arrays w !! arrValue this = Some cur.

(** The script recorded so far in this batch turns [base] into the backing
    array, and its [newLength] is the length of the backing array. *)
Definition recorded (this : ImmutableArray) (base : JsArray Value) (w : World) : Prop :=
  ∃ c cur, holding this c cur w
           ∧ updateArrayFromChanges base (changes c) = (cur, None)
           ∧ newLength c = arr_length cur.

(** An array state in a batch whose backing array was [base] when the batch
    began: either it was edited in this batch and the edits are recorded, or
    it was not edited yet, and its changes signal holds a script object made
    earlier. *)
Definition scripted (this : ImmutableArray) (base : JsArray Value) (w : World) : Prop :=
  recorded this base w
  ∨ (mode (stateData w) = UpdatingState
     ∧ ∃ tr addr c, trackers w !! arrChanges this = Some tr ∧ type tr = State
                    ∧ hasChanged tr = false ∧ value tr = VChanges addr c
                    ∧ (addr < nextAddress w)%nat
                    ∧ arrays w !! arrValue this = Some base).

(** The edits that pass the range checks of [insertAt], [delete] and
    [update]; a [replace], which has no check, at an index below the
    length. *)
Definition recordable (w : World) (m : Mutation) : bool :=
  match m with
  | InsertAt _ _ _ | DeleteAt _ _ _ | UpdateAt _ _ _ => negb (rangeCheckFails w m)
  | InsertFront _ _ | Append _ _ => true
  | ReplaceAt a index _ =>
      match arrays w !! arrValue a with
      | Some arr => index <? arr_length arr
      | None => false
      end
  | _ => false
  end.

(** ** A batch that changes nothing *)

(** In a batch, nothing is stale as long as the changed list is empty. *)
Definition nothingMarked (w : World) : Prop :=
  mode (stateData w) = UpdatingState
  ∧ (changedOf (stateData w) = [] →
     staleOf (stateData w) = [] ∧ staleEffectsOf (stateData w) = []).

(** ** What keeps an update cycle from failing *)

(** The effect closures subscribed to a tracker of [w]. *)
Definition subscribed (w : World) (e : EffectId) : Prop :=
  ∃ x tr, trackers w !! x = Some tr ∧ e ∈ downstreamEffects tr.

(** During an update cycle on an arena of [n] trackers with the effect
    closures [effs]: a flagged derived tracker is fresh, or is one of the
    [pending] ones that are about to be; the changed list has no duplicate
    and lists flagged trackers; and the effects that are downstream or stale
    are among [E]. *)
Record sound (n : nat) (effs : list Effect) (E : EffectId → Prop)
    (pending : list TrackerId) (w : World) : Prop := mkSound {
  sound_flagged :
    ∀ x tr, trackers w !! x = Some tr → type tr = Derived → hasChanged tr = true →
            x ∈ freshOf (stateData w) ∨ x ∈ pending;
  sound_changed : NoDup (changedOf (stateData w));
  sound_marks :
    ∀ x, x ∈ changedOf (stateData w) →
         ∃ tr, trackers w !! x = Some tr ∧ hasChanged tr = true;
  sound_length : length (trackers w) = n;
  sound_effects : effects w = effs;
  sound_subscribed :
    ∀ x tr e, trackers w !! x = Some tr → e ∈ downstreamEffects tr → E e;
  sound_staleEffects : ∀ e, e ∈ staleEffectsOf (stateData w) → E e;
}.

(** What [updateSignal] needs to return, for the trackers below [bound]. *)
Definition pullReturns (n : nat) (effs : list Effect) (E : EffectId → Prop)
    (bound : nat) (pull : TrackerId → M unit) : Prop :=
  ∀ t w,
    resolving w → sound n effs E [] w →
    (∀ y, y ∈ stackOf (stateData w) → (t < y)%nat) →
    isDerived w t → (t < bound)%nat →
    ∃ w', pull t w = Done tt w' ∧ sound n effs E [] w'.

(** The trackers of the arena that are not fresh yet. *)
Definition notFresh (w : World) : list TrackerId :=
  filter (λ x, x ∉ freshOf (stateData w)) (seq 0 (length (trackers w))).

(** ** Programs of readers *)

(** The operations of a program all of whose derivation functions only read
    older trackers and return numbers or null: creating states, array states,
    such derived signals and effects, reading handles, and batches. *)
Definition readerOperation (w : World) (op : Operation) : Prop :=
  match op with
  | OpState _ | OpEffect _ _ | OpAccess _ | OpUpdateState _ | OpArrayState _ => True
  | OpDerive f => reader (length (trackers w)) f
  | OpReclaim _ | OpMap _ _ | OpJoin _ => False
  end.

(** The worlds such a program reaches when each of its operations returns. *)
Inductive built : World → Prop :=
| built_empty : built emptyWorld
| built_step fuel op w w' :
    built w → readerOperation w op → perform fuel op w = Done tt w' → built w'.

(** ** Projections at their creation *)

(** An array state of three numbers, the parts of a join around it, and a
    function to map it by. *)
Module Projections.
Definition source : ImmutableArray := mkImmutableArray 0%nat 0%nat false.
Definition world : World := worldAfter (arrayState (numbers [1; 2; 3])).
Definition parts : list Part := [Literal (VNum (-2)); spread source; Literal (VNum 7)].
Definition twice : Value → Value := onNumber (λ n, n * 2).
Definition mapped : World :=
  worldAfter (a <- arrayState (numbers [1; 2; 3]) ;; mapOf 1 a twice).
Definition joined : World :=
  worldAfter (arrayState (numbers [1; 2; 3]) ;;; join 1 parts).
End Projections.

(** ** A map that follows its source *)

(** The callback of a batch that edits arrays: the edits, in order. *)
Fixpoint edits (ms : list Mutation) : prog unit :=
  (match ms with
   | [] => Ret tt
   | m :: rest => mutation m ;;; edits rest
   end)%prog.

(** Between update cycles, [mapped] is the map by [f] of the array state
    [this], it is up to date, its derivation is the only reader of the
    changes signal of [this], and nothing reads its own changes signal.  The
    two script objects were allocated earlier. *)
Record follows (this mapped : ImmutableArray) (f : Value → Value) (w : World) : Prop :=
  mkFollows {
  follows_mode : stateData w = SNormal;
  follows_arrays : arrValue this ≠ arrValue mapped;
  follows_source :
    ∃ addr c ups fn,
      trackers w !! arrChanges this
      = Some (mkTracker State (VChanges addr c) false [arrChanges mapped] [] ups fn)
      ∧ (addr < nextAddress w)%nat;
  follows_derivation :
    ∃ addr c,
      trackers w !! arrChanges mapped
      = Some (mkTracker Derived (VChanges addr c) false [] [] [arrChanges this]
                (mapDerivation (arrValue mapped) (arrChanges this) f))
      ∧ (addr < nextAddress w)%nat;
  follows_value :
    ∃ a b, arrays w !! arrValue this = Some a ∧ arrays w !! arrValue mapped = Some b
           ∧ slots b = slots (arr_map f a);
}.

(** The world in the course of an update cycle that touches nothing but the
    records of the two changes trackers, the two backing arrays, the phase
    record and the allocator. *)
Definition during (w : World) (this mapped : ImmutableArray)
    (source derivation : Tracker) (a b : JsArray Value)
    (sd : StateData) (next : nat) : World :=
  mkWorld (<[arrChanges mapped := derivation]> (<[arrChanges this := source]> (trackers w)))
          (effects w)
          (<[arrValue mapped := b]> (<[arrValue this := a]> (arrays w)))
          sd next (derivationRegistry w) (ticks w).

(** What holds of the result of a call, if it returned. *)
Definition whenDone {A} (o : Outcome A) (Q : A → World → Prop) : Prop :=
  match o with
  | Done a w => Q a w
  | _ => True
  end.

(** The edits that check their index before they record it: [insertAt],
    [insert], [append], [delete], and [update] at an index that is not
    negative ([replace] checks nothing, and a negative key reads a
    property). *)
Definition checked (m : Mutation) : bool :=
  match m with
  | InsertAt _ _ _ | InsertFront _ _ | Append _ _ | DeleteAt _ _ _ => true
  | UpdateAt _ index _ => 0 <=? index
  | _ => false
  end.

(** The record of the changes signal of an array state once it was edited
    in the running batch: flagged, its script, an object made in this batch,
    turns [base] into the backing array [a], and [reader] is stale.  With
    [fit], the script is within bounds. *)
Definition edited (this : ImmutableArray) (reader : TrackerId) (base : JsArray Value)
    (source0 : Tracker) (next0 : nat) (fit : bool)
    (source : Tracker) (a : JsArray Value) (sd : StateData) (next : nat) : Prop :=
  ∃ addr c,
    source = setHasChanged true (setValue (VChanges addr c) source0)
    ∧ sd = SUpdatingState [arrChanges this] [reader] []
    ∧ updateArrayFromChanges base (changes c) = (a, None)
    ∧ (addr < next)%nat ∧ (next0 ≤ next)%nat
    ∧ (fit = true → scriptFits (arr_length base) (changes c) = true).

(** ** A join that follows a part *)

(** The parts of [join(...pre, spread(this), ...post)]. *)
Definition around (pre post : list Value) (this : ImmutableArray) : list Part :=
  (Literal <$> pre) ++ spread this :: (Literal <$> post).

(** Between update cycles, [joined] is the join of the values [pre], the
    array state [this] and the values [post], it is up to date, its
    derivation is the only reader of the changes signal of [this], and
    nothing reads its own changes signal. *)
Record joins (pre post : list Value) (this joined : ImmutableArray) (w : World) : Prop :=
  mkJoins {
  joins_mode : stateData w = SNormal;
  joins_arrays : arrValue this ≠ arrValue joined;
  joins_source :
    ∃ addr c ups fn,
      trackers w !! arrChanges this
      = Some (mkTracker State (VChanges addr c) false [arrChanges joined] [] ups fn)
      ∧ (addr < nextAddress w)%nat;
  joins_derivation :
    ∃ addr c,
      trackers w !! arrChanges joined
      = Some (mkTracker Derived (VChanges addr c) false [] [] [arrChanges this]
                (joinDerivation (arrValue joined) (around pre post this)))
      ∧ (addr < nextAddress w)%nat;
  joins_value :
    ∃ a p, arrays w !! arrValue this = Some a
           ∧ arrays w !! arrValue joined
             = Some (mkArray ((Some <$> pre) ++ slots a ++ (Some <$> post)) p);
}.

(** An array state of three numbers and its map by doubling, with a batch
    of three edits. *)
Module Following.
Definition source : ImmutableArray := mkImmutableArray 0%nat 0%nat false.
Definition mapped : ImmutableArray := mkImmutableArray 1%nat 1%nat true.
Definition twice : Value → Value := onNumber (λ n, n * 2).
Definition made : M unit :=
  a <- arrayState (numbers [1; 2; 3]) ;; mapOf 1 a twice ;;; ret tt.
Definition world : World := worldAfter made.
Definition batch : list Mutation :=
  [Append source (numbers [4]); DeleteAt source 0 None; ReplaceAt source 1 (VNum 9)].
(** The world as the callback of the batch leaves it. *)
Definition edited : World :=
  worldAfter (made ;;; setStateData (SUpdatingState [] [] []) ;;;
              runProg (updateSignal 2) (edits batch)).
End Following.

(** An array state of three numbers joined between two values, with a
    batch of three edits. *)
Module Joining.
Definition source : ImmutableArray := mkImmutableArray 0%nat 0%nat false.
Definition joined : ImmutableArray := mkImmutableArray 1%nat 1%nat true.
Definition made : M unit :=
  a <- arrayState (numbers [1; 2; 3]) ;;
  join 1 (around [VNum (-2)] [VNum 7] a) ;;; ret tt.
Definition world : World := worldAfter made.
Definition batch : list Mutation :=
  [Append source (numbers [4]); DeleteAt source 0 None;
   InsertAt source 1 (numbers [9])].
(** The world as the callback of the batch leaves it. *)
Definition edited : World :=
  worldAfter (made ;;; setStateData (SUpdatingState [] [] []) ;;;
              runProg (updateSignal 2) (edits batch)).
End Joining.

(** ** The diamond whose functions only read, with an effect on two of its
    derived signals *)
Module Watched.
Definition callback : list (Value * bool) → prog unit := λ _, call (Tick 0).
Definition build (fuel : nat) : M unit :=
  PureDiamond.build fuel ;;;
  effect fuel [Diamond.doubled; Diamond.doubleModulo] callback.
Definition world : World := worldAfter (build 3).
Definition after : World := default emptyWorld (returned (updateState 3 Diamond.batch world)).
End Watched.
(** * Properties *)

(** ** The diamond *)

(** C2. In the diamond graph (state count = 1, doubled = count * 2,
    modulo = count % 4, doubleModulo = modulo * 2, an effect on
    doubleModulo), every function and the effect have run once after the
    graph is built, with doubled = 2, modulo = 1, doubleModulo = 2; the batch
    [count += 2; count += 2] returns with count = 5, doubled recomputed once
    (to 10), modulo recomputed once (still 1), and neither doubleModulo's
    function nor the effect run again. *)
Theorem diamond_batch_recomputes_only_what_changed (k : nat) :
  let fuel := (3 + k)%nat in
  ∃ built final,
    Diamond.build fuel emptyWorld = Done tt built
    ∧ Diamond.snapshot built
      = (Some (VNum 1), Some (VNum 2), Some (VNum 1), Some (VNum 2),
         (1, 1, 1, 1)%nat)
    ∧ updateState fuel Diamond.batch built = Done tt final
    ∧ Diamond.snapshot final
      = (Some (VNum 5), Some (VNum 10), Some (VNum 1), Some (VNum 2),
         (2, 2, 1, 1)%nat).
Proof.
  intros fuel; subst fuel.
  eexists _, _.
  split; [vm_compute; reflexivity|].
  split; [vm_compute; reflexivity|].
  split; vm_compute; reflexivity.
Qed.

(** ** Projections *)

(** C3 (the code departs from it). A [map] made from an array that an
    earlier batch edited runs its derivation at creation, which applies the
    source's last edit script once more to the freshly mapped array: the
    projection of [[1; 2; 3; 4]] under [e => e * 2] is [[2; 4; 6; 8; 8]], not
    the element-wise [[2; 4; 6; 8]]. *)
Theorem map_created_after_batch_replays_script (k : nat) :
  let fuel := (2 + k)%nat in
  ∃ m w,
    MapAfterBatch.scenario fuel emptyWorld = Done m w
    ∧ elementsOf MapAfterBatch.source w = Some (numbers [1; 2; 3; 4])
    ∧ elementsOf m w = Some (numbers [2; 4; 6; 8; 8])
    ∧ MapAfterBatch.fromScratch MapAfterBatch.twice MapAfterBatch.source w
      = Some (numbers [2; 4; 6; 8])
    ∧ elementsOf m w
      ≠ MapAfterBatch.fromScratch MapAfterBatch.twice MapAfterBatch.source w.
Proof.
  intros fuel; subst fuel.
  eexists _, _.
  split; [vm_compute; reflexivity|].
  repeat split; try (vm_compute; reflexivity).
  vm_compute. discriminate.
Qed.

(** ** Range checks *)

(** C6 (the code departs from it). [replace] has no range check: inside a
    batch, [replace(5, 9)] on [[1; 2; 3]] returns, the backing array grows to
    six slots with two holes, and the script records [Replace 5 9] while
    [newLength] stays 3. *)
Theorem replace_out_of_range_mutates (k : nat) :
  let fuel := (1 + k)%nat in
  ∃ w addr,
    ReplaceOutOfRange.scenario fuel emptyWorld = Done tt w
    ∧ arrays w !! arrValue ReplaceOutOfRange.array
      = Some (mkArray [Some (VNum 1); Some (VNum 2); Some (VNum 3); None; None;
                       Some (VNum 9)] [])
    ∧ valueOf (arrChanges ReplaceOutOfRange.array) w
      = Some (VChanges addr (mkChanges [Replace 5 (VNum 9)] 3)).
Proof.
  intros fuel; subst fuel.
  eexists _, _.
  split; [vm_compute; reflexivity|].
  split; vm_compute; reflexivity.
Qed.

Ltac unfoldM :=
  unfold bind, ret, raise, getTracker, getStateData, getWorld, readArray,
    modifyTracker, modifyStateData, modifyWorld, setStateData, writeArray,
    newChanges, tick, getEffect.

Lemma runProg_pbind pull {A B} (p : prog A) (k : A → prog B) w :
  runProg pull (pbind p k) w =
  bind (runProg pull p) (λ a, runProg pull (k a)) w.
Proof.
  revert w. induction p as [a|X c h IH]; intros w; simpl; [done|].
  unfold bind in *. destruct (handle pull c w) as [x w'| |]; [|done..].
  apply IH.
Qed.

Lemma runProg_call pull {X} (c : Call X) w :
  runProg pull (call c) w = handle pull c w.
Proof. simpl. unfold bind, ret. by destruct (handle pull c w). Qed.

Lemma hasChangedWhileUpdatingState_outside pull w s tr :
  trackers w !! s = Some tr → type tr = State →
  mode (stateData w) ≠ UpdatingState →
  handle pull (HasChangedWhileUpdatingState s) w = Throw PhaseViolation w.
Proof.
  intros Htr Hty Hmode. simpl. unfoldM. rewrite Htr, Hty.
  destruct (mode (stateData w)); done.
Qed.

Lemma resetOnFirstMutation_outside pull w a :
  isArrayState w a → mode (stateData w) ≠ UpdatingState →
  runProg pull (ArrayStateClass.resetOnFirstMutation a) w = Throw PhaseViolation w.
Proof.
  intros [(tr & Htr & Hty) _] Hmode. unfold ArrayStateClass.resetOnFirstMutation.
  rewrite runProg_pbind. unfold bind at 1. rewrite runProg_call.
  by rewrite (hasChangedWhileUpdatingState_outside _ _ _ tr).
Qed.

Lemma readArray_Some w a arr :
  arrays w !! a = Some arr → readArray a w = Done arr w.
Proof. unfold readArray. by intros ->. Qed.

Lemma runProg_Vis pull {A X} (c : Call X) (k : X → prog A) w :
  runProg pull (Vis c k) w = bind (handle pull c) (λ x, runProg pull (k x)) w.
Proof. reflexivity. Qed.

Ltac stepProg :=
  rewrite ?runProg_pbind; unfold bind at 1; rewrite ?runProg_call;
  change (handle ?p (ArrayRead ?a)) with (readArray a).

(** C4. Outside a batch every mutation of a state or of an array state ([set
    value], [update(fn)], [insertAt], [append], [insert], [delete],
    [update(index, fn)], [replace], [move]) throws and leaves the world as it
    was.  The error is a phase violation, except that [insertAt], [delete]
    and [update(index, fn)] check their index first and throw a range
    violation when it is out of range. *)
Theorem mutation_outside_batch_fails pull (w : World) (m : Mutation) :
  mode (stateData w) ≠ UpdatingState →
  receiverOk w m →
  runProg pull (mutation m) w
  = Throw (if rangeCheckFails w m then RangeViolation else PhaseViolation) w.
Proof.
  intros Hmode Hok.
  destruct m as [s v|s cb|a i vs|a vs|a vs|a s e|a i f|a i v|a i j];
    unfold receiverOk in Hok; simpl in Hok.
  - destruct Hok as (tr & Htr & Hty). simpl. unfoldM. rewrite Htr, Hty.
    destruct (mode (stateData w)); done.
  - destruct Hok as (tr & Htr & Hty). simpl. unfoldM. rewrite Htr, Hty.
    destruct (mode (stateData w)); done.
  - pose proof Hok as [_ [arr Harr]].
    unfold mutation, ArrayStateClass.insertAt, rangeCheckFails. rewrite Harr.
    stepProg. rewrite (readArray_Some _ _ _ Harr).
    destruct ((i <? 0) || (i >? arr_length arr)); [done|].
    stepProg. by rewrite resetOnFirstMutation_outside.
  - pose proof Hok as [_ [arr Harr]].
    unfold mutation, ArrayStateClass.insert, ArrayStateClass.insertAt, rangeCheckFails.
    stepProg. rewrite (readArray_Some _ _ _ Harr).
    replace ((0 <? 0) || (0 >? arr_length arr)) with false
      by (unfold arr_length; lia).

    stepProg. by rewrite resetOnFirstMutation_outside.
  - pose proof Hok as [_ [arr Harr]].
    unfold mutation, ArrayStateClass.append, ArrayStateClass.insertAt, rangeCheckFails.
    stepProg. rewrite (readArray_Some _ _ _ Harr).
    stepProg. rewrite (readArray_Some _ _ _ Harr).
    replace ((arr_length arr <? 0) || (arr_length arr >? arr_length arr)) with false
      by (unfold arr_length; lia).
    stepProg. by rewrite resetOnFirstMutation_outside.
  - pose proof Hok as [_ [arr Harr]].
    unfold mutation, ArrayStateClass.delete, rangeCheckFails. rewrite Harr.
    destruct (s <? 0); [done|]. cbn [orb].
    stepProg. rewrite (readArray_Some _ _ _ Harr).
    destruct ((default s e <? s) || (default s e >? arr_length arr - 1)); [done|].
    stepProg. by rewrite resetOnFirstMutation_outside.
  - pose proof Hok as [_ [arr Harr]].
    unfold mutation, ArrayStateClass.update, rangeCheckFails. rewrite Harr.
    stepProg. rewrite (readArray_Some _ _ _ Harr).
    destruct (arr_get arr i) as [elem|] eqn:Hget.
    + rewrite bool_decide_eq_false_2 by done.
      stepProg. by rewrite resetOnFirstMutation_outside.
    + by rewrite bool_decide_eq_true_2.
  - unfold mutation, ArrayStateClass.replace, rangeCheckFails.
    stepProg. by rewrite resetOnFirstMutation_outside.
  - unfold mutation, ArrayStateClass.move, rangeCheckFails.
    stepProg. by rewrite resetOnFirstMutation_outside.
Qed.

Lemma insertAt_outside_batch_out_of_range_counterexample :
  ¬ (∀ pull w m,
       mode (stateData w) ≠ UpdatingState → receiverOk w m →
       runProg pull (mutation m) w = Throw PhaseViolation w).
Proof.
  intros claim.
  specialize (claim (updateSignal 0) OutsideBatch.world
                    (InsertAt OutsideBatch.array 7 [VNum 9])).
  assert (Hthrown : runProg (updateSignal 0)
                      (mutation (InsertAt OutsideBatch.array 7 [VNum 9]))
                      OutsideBatch.world
                    = Throw RangeViolation OutsideBatch.world)
    by (vm_compute; reflexivity).
  rewrite Hthrown in claim.
  assert (Throw (A:=unit) RangeViolation OutsideBatch.world
          = Throw PhaseViolation OutsideBatch.world) as Habs.
  { apply claim.
    - vm_compute. discriminate.
    - split; [eexists; split; vm_compute; reflexivity | eexists; vm_compute; reflexivity]. }
  discriminate Habs.
Qed.

Lemma mutation_outside_batch_fails_witness :
  runProg (updateSignal 0) (mutation (Append OutsideBatch.array [VNum 5]))
          OutsideBatch.world
  = Throw PhaseViolation OutsideBatch.world.
Proof.
  apply (mutation_outside_batch_fails (updateSignal 0) OutsideBatch.world
           (Append OutsideBatch.array [VNum 5])).
  - vm_compute. discriminate.
  - split; [eexists; split; vm_compute; reflexivity | eexists; vm_compute; reflexivity].
Defined.

(** ** Sets *)

Lemma JsSet_has_true x s : JsSet.has x s = true ↔ x ∈ s.
Proof. unfold JsSet.has. apply bool_decide_eq_true. Qed.

Lemma JsSet_has_false x s : JsSet.has x s = false ↔ x ∉ s.
Proof. unfold JsSet.has. apply bool_decide_eq_false. Qed.

Lemma elem_of_JsSet_add y x s : y ∈ JsSet.add x s ↔ y = x ∨ y ∈ s.
Proof.
  unfold JsSet.add. destruct (JsSet.has x s) eqn:Hhas.
  - apply JsSet_has_true in Hhas. split; [auto|]. intros [->|]; auto.
  - rewrite elem_of_app, list_elem_of_singleton. tauto.
Qed.

Lemma elem_of_JsSet_delete y x s : y ∈ JsSet.delete x s ↔ y ≠ x ∧ y ∈ s.
Proof. unfold JsSet.delete. apply (list_elem_of_filter (λ z, z ≠ x)). Qed.

Lemma elem_of_JsSet_addAll y xs s : y ∈ JsSet.addAll xs s ↔ y ∈ xs ∨ y ∈ s.
Proof.
  unfold JsSet.addAll. revert s.
  induction xs as [|x xs IH]; intros s; simpl.
  - rewrite elem_of_nil. tauto.
  - rewrite IH, elem_of_JsSet_add, elem_of_cons. tauto.
Qed.

(** ** Change detection of a state *)

Lemma handleValueChange_unflagged w s tr c stale eff :
  trackers w !! s = Some tr → hasChanged tr = false →
  stateData w = SUpdatingState c stale eff →
  handleValueChange s w
  = Done tt (withStateData
               (SUpdatingState (c ++ [s])
                  (JsSet.addAll (downstreamSignals tr) stale)
                  (JsSet.addAll (downstreamEffects tr) eff))
               (withTrackers (λ ts, <[s := setHasChanged true tr]> ts) w)).
Proof.
  intros Htr Hflag Hsd. unfold handleValueChange. unfoldM.
  rewrite Hsd. simpl. rewrite Htr, Hflag. simpl. rewrite Htr. simpl. by rewrite Hsd.
Qed.

Lemma handleValueChange_flagged w s tr :
  trackers w !! s = Some tr → hasChanged tr = true →
  mode (stateData w) = UpdatingState →
  handleValueChange s w = Done tt w.
Proof.
  intros Htr Hflag Hmode. unfold handleValueChange. unfoldM.
  rewrite Hmode, Htr, Hflag. done.
Qed.

(** C5. Inside a batch, [set value] compares the new value with the old one
    by reference: when they are identical the world stays as it is; otherwise
    the value is stored and the state is marked.  [update(fn)] makes no
    comparison: it stores what the callback makes of the value and marks the
    state whatever that is.  Marking sets the changed flag and, unless the
    flag was already set in this batch, appends the state to the changed
    list and adds its downstream derived trackers and effects to the stale
    sets. *)
Theorem state_mutation_change_detection pull (w : World) (s : TrackerId) (tr : Tracker) :
  trackers w !! s = Some tr → type tr = State →
  mode (stateData w) = UpdatingState →
  (∀ newValue,
     if strictEq (value tr) newValue
     then runProg pull (call (SetValue s newValue)) w = Done tt w
     else ∃ w', runProg pull (call (SetValue s newValue)) w = Done tt w'
                ∧ marked s tr newValue w w')
  ∧ (∀ callback,
       ∃ w', runProg pull (call (Update s callback)) w = Done tt w'
             ∧ marked s tr (callback (value tr)) w w').
Proof.
  intros Htr Hty Hmode.
  destruct (stateData w) as [|c stale eff| | | |] eqn:Hsd; try discriminate Hmode.
  assert (Hlt : (s < length (trackers w))%nat) by (by eapply lookup_lt_Some).
  assert (Hmark : ∀ v,
    let w1 := withTrackers (λ ts, <[s := setValue v tr]> ts) w in
    ∃ w', handleValueChange s w1 = Done tt w' ∧ marked s tr v w w').
  { intros v w1. unfold marked.
    destruct (hasChanged tr) eqn:Hflag.
    - exists w1. split.
      + apply (handleValueChange_flagged w1 s (setValue v tr)); simpl;
          [by apply list_lookup_insert_eq|done|by rewrite Hsd].
      + simpl. split; [|done].
        eexists. split; [by apply list_lookup_insert_eq|done].
    - eexists. split.
      + eapply (handleValueChange_unflagged w1 s (setValue v tr)); simpl;
          [by apply list_lookup_insert_eq|done|exact Hsd].
      + simpl. rewrite Hsd. simpl. split; [|split; [done|split]].
        * eexists. split; [apply list_lookup_insert_eq; by rewrite length_insert|done].
        * intros d. apply elem_of_JsSet_addAll.
        * intros e. apply elem_of_JsSet_addAll. }
  split.
  - intros newValue. rewrite runProg_call. simpl. unfoldM.
    rewrite Htr, Hty, Hsd. simpl.
    destruct (strictEq (value tr) newValue); [done|].
    rewrite Htr. apply Hmark.
  - intros callback. rewrite runProg_call. simpl. unfoldM.
    rewrite Htr, Hty, Hsd. simpl. rewrite Htr. apply Hmark.
Qed.

Lemma state_mutation_change_detection_witness :
  ∃ w', runProg (updateSignal 0)
          (call (SetValue InPlaceUpdate.source (VNum 3))) (InPlaceUpdate.world 1)
        = Done tt w'
        ∧ marked InPlaceUpdate.source
            (mkTracker State (VNum 1) false [InPlaceUpdate.reader] [] [] (Ret VNull))
            (VNum 3) (InPlaceUpdate.world 1) w'.
Proof.
  apply (proj1 (state_mutation_change_detection (updateSignal 0)
                  (InPlaceUpdate.world 1) InPlaceUpdate.source
                  (mkTracker State (VNum 1) false [InPlaceUpdate.reader] [] [] (Ret VNull))
                  eq_refl eq_refl eq_refl) (VNum 3)).
Defined.

Lemma update_without_change_counterexample :
  ∃ (w w' : World) (s : TrackerId) (tr : Tracker) (callback : Value → Value),
    trackers w !! s = Some tr ∧ type tr = State
    ∧ mode (stateData w) = UpdatingState
    ∧ runProg (updateSignal 0) (call (Update s callback)) w = Done tt w'
    ∧ strictEq (callback (value tr)) (value tr) = true
    ∧ hasChanged tr = false
    ∧ hasChanged <$> trackers w' !! s = Some true
    ∧ changedOf (stateData w) = [] ∧ changedOf (stateData w') = [s]
    ∧ staleOf (stateData w) = [] ∧ staleOf (stateData w') = [InPlaceUpdate.reader].
Proof.
  exists (InPlaceUpdate.world 1).
  eexists _, InPlaceUpdate.source, _, InPlaceUpdate.noChange.
  split; [vm_compute; reflexivity|].
  repeat split; vm_compute; reflexivity.
Qed.

(** ** [move] *)

(** C8. [move] always throws and never touches the backing array.  Outside
    a batch it throws a phase violation and the world stays as it was.
    Inside a batch it throws the not-implemented error; if the array was
    already mutated in this batch the world stays as it was, otherwise the
    changes signal has first been reset to a fresh empty script of the
    array's length. *)
Theorem move_always_fails pull (w : World) (a : ImmutableArray) (oldIndex newIndex : Z)
    (tr : Tracker) (arr : JsArray Value) :
  trackers w !! arrChanges a = Some tr → type tr = State →
  arrays w !! arrValue a = Some arr →
  let fresh := VChanges (nextAddress w) (mkChanges [] (arr_length arr)) in
  strictEq (value tr) fresh = false →
  match mode (stateData w) with
  | UpdatingState =>
      ∃ w', runProg pull (ArrayStateClass.move a oldIndex newIndex) w
            = Throw UnimplementedOperation w'
            ∧ arrays w' = arrays w
            ∧ if hasChanged tr then w' = w
              else valueOf (arrChanges a) w' = Some fresh
  | _ =>
      runProg pull (ArrayStateClass.move a oldIndex newIndex) w
      = Throw PhaseViolation w
  end.
Proof.
  intros Htr Hty Harr fresh Hfresh.
  destruct (mode (stateData w)) eqn:Hmode;
    try (unfold ArrayStateClass.move; stepProg;
         rewrite resetOnFirstMutation_outside;
         [done|split; [by exists tr|by exists arr]|by rewrite Hmode]).
  destruct (stateData w) as [|c stale eff| | | |] eqn:Hsd; try discriminate Hmode.
  unfold ArrayStateClass.move, ArrayStateClass.resetOnFirstMutation.
  stepProg. stepProg. simpl handle. unfoldM. rewrite Htr, Hty, Hsd. simpl.
  destruct (hasChanged tr) eqn:Hflag.
  - simpl. eexists. split; [reflexivity|done].
  - rewrite runProg_Vis. unfold bind at 1.
    change (handle pull (ArrayRead (arrValue a))) with (readArray (arrValue a)).
    rewrite (readArray_Some _ _ _ Harr).
    rewrite runProg_Vis. unfold bind at 1. simpl handle. unfold newChanges.
    rewrite runProg_call. simpl handle. unfoldM. simpl.
    rewrite Htr, Hty, Hsd. simpl.
    fold fresh. rewrite Hfresh. cbn [trackers]. rewrite Htr.
    assert (Hlt : (arrChanges a < length (trackers w))%nat) by (by eapply lookup_lt_Some).
    erewrite (handleValueChange_unflagged _ (arrChanges a) (setValue fresh tr));
      [|by apply list_lookup_insert_eq|done|reflexivity].
    simpl. eexists. split; [reflexivity|]. split; [done|].
    unfold valueOf. simpl.
    rewrite list_lookup_insert_eq by (by rewrite length_insert). done.
Qed.

Lemma move_always_fails_witness (pull := updateSignal 0) :
  ∃ w', runProg pull (ArrayStateClass.move OutsideBatch.array 0 1)
          (withStateData (SUpdatingState [] [] []) OutsideBatch.world)
        = Throw UnimplementedOperation w'
        ∧ arrays w' = arrays OutsideBatch.world
        ∧ valueOf (arrChanges OutsideBatch.array) w'
          = Some (VChanges 1 (mkChanges [] 3)).
Proof.
  exact (move_always_fails pull
           (withStateData (SUpdatingState [] [] []) OutsideBatch.world)
           OutsideBatch.array 0 1
           (mkTracker State (VChanges 0 (mkChanges [] 3)) false [] [] [] (Ret VNull))
           (arrayOf (numbers [1; 2; 3]))
           eq_refl eq_refl eq_refl eq_refl).
Defined.

Lemma move_resets_script_counterexample :
  ∃ (w w' : World) (before : Changes Value) (p q : nat),
    w = MoveAfterEdit.edited 2
    ∧ runProg (updateSignal 0) (ArrayStateClass.move MoveAfterEdit.array 0 1) w
      = Throw PhaseViolation w
    ∧ updateState 2 (ArrayStateClass.move MoveAfterEdit.array 0 1) w
      = Throw UnimplementedOperation w'
    ∧ valueOf (arrChanges MoveAfterEdit.array) w = Some (VChanges p before)
    ∧ changes before = [Insert 3 [VNum 4]]
    ∧ valueOf (arrChanges MoveAfterEdit.array) w' = Some (VChanges q (mkChanges [] 4)).
Proof.
  eexists _, _, _, _, _.
  split; [reflexivity|].
  split; [vm_compute; reflexivity|].
  split; [vm_compute; reflexivity|].
  split; [vm_compute; reflexivity|].
  split; vm_compute; reflexivity.
Qed.

(** ** Loops that rewrite trackers *)

Lemma JsSet_delete_absent x s : x ∉ s → JsSet.delete x s = s.
Proof.
  unfold JsSet.delete. induction s as [|y s IH]; intros Hx; [done|].
  apply not_elem_of_cons in Hx as [Hne Hx].
  rewrite filter_cons_True by naive_solver. by rewrite IH.
Qed.

Lemma modifyTracker_Done t g w u w' :
  modifyTracker t g w = Done u w' →
  ∃ tr, trackers w !! t = Some tr
        ∧ w' = withTrackers (λ ts, <[t := g tr]> ts) w.
Proof.
  unfold modifyTracker. destruct (trackers w !! t) as [tr|]; [|done].
  intros [= _ <-]. by exists tr.
Qed.

Section TrackerLoops.
Variable g : Tracker → Tracker.
Variable Q : Tracker → Prop.
Hypothesis Q_stable : ∀ tr, Q tr → Q (g tr).

Local Abbreviation loop xs := (forEach xs (λ s, modifyTracker s g)).

Lemma forEach_modify_keeps xs w w' s tr :
  loop xs w = Done tt w' →
  trackers w !! s = Some tr → Q tr →
  ∃ tr', trackers w' !! s = Some tr' ∧ Q tr'.
Proof using Q_stable.
  revert w tr. induction xs as [|x xs IH]; intros w tr; simpl.
  - intros [= <-]. eauto.
  - unfold bind at 1. destruct (modifyTracker x g w) as [[] w1| |] eqn:Hx; [|done..].
    apply modifyTracker_Done in Hx as (trx & Hlook & ->).
    intros Hrest Hs HQ.
    destruct (decide (x = s)) as [->|Hne].
    + eapply (IH _ (g trx) Hrest); simpl.
      * apply list_lookup_insert_eq. by eapply lookup_lt_Some.
      * assert (trx = tr) as -> by congruence. auto.
    + eapply (IH _ tr Hrest); simpl; [|done].
      by rewrite list_lookup_insert_ne.
Qed.

Hypothesis Q_made : ∀ tr, Q (g tr).

Lemma forEach_modify_makes xs w w' s :
  loop xs w = Done tt w' → s ∈ xs →
  ∃ tr', trackers w' !! s = Some tr' ∧ Q tr'.
Proof using Q_stable Q_made.
  revert w. induction xs as [|x xs IH]; intros w; simpl.
  - intros _ Hin. by apply elem_of_nil in Hin.
  - unfold bind at 1. destruct (modifyTracker x g w) as [[] w1| |] eqn:Hx; [|done..].
    pose proof Hx as Hx'. apply modifyTracker_Done in Hx' as (trx & Hlook & ->).
    intros Hrest Hin. apply elem_of_cons in Hin as [->|Hin]; [|by eapply IH].
    eapply (forEach_modify_keeps xs _ w' x (g trx) Hrest); simpl; [|done].
    apply list_lookup_insert_eq. by eapply lookup_lt_Some.
Qed.

Lemma forEach_modify_returns xs w :
  (∀ s, s ∈ xs → (s < length (trackers w))%nat) →
  ∃ w', loop xs w = Done tt w' ∧ length (trackers w') = length (trackers w).
Proof.
  revert w. induction xs as [|x xs IH]; intros w Hvalid; simpl.
  - by exists w.
  - unfold bind at 1, modifyTracker at 1.
    destruct (lookup_lt_is_Some_2 (trackers w) x) as [tr ->];
      [apply Hvalid; left|].
    destruct (IH (withTrackers (λ ts, <[x := g tr]> ts) w)) as (w' & -> & Hlen).
    { intros s Hs. simpl. rewrite length_insert. apply Hvalid. by right. }
    exists w'. split; [done|]. rewrite Hlen. simpl. by rewrite length_insert.
Qed.

End TrackerLoops.

(** ** Triples *)

Section Triples.
Context {A B : Type}.
Implicit Types (P E : World → Prop).

Lemma triple_ret P E (a : A) (Q : A → World → Prop) :
  (∀ w, P w → Q a w) → triple P (ret a) Q E.
Proof. intros H. constructor. intros w Hw. simpl. auto. Qed.

Lemma triple_raise P E e (Q : A → World → Prop) :
  (∀ w, P w → E w) → triple P (raise e) Q E.
Proof. intros H. constructor. intros w Hw. simpl. auto. Qed.

Lemma triple_run P E (m : M A) Q w :
  triple P m Q E → P w → holdsAfter (m w) Q E.
Proof. intros [H]. apply H. Qed.

Lemma triple_bind P E (m : M A) (k : A → M B) Q R :
  triple P m Q E → (∀ a, triple (Q a) (k a) R E) → triple P (bind m k) R E.
Proof.
  intros [Hm] Hk. constructor. intros w Hw. unfold bind. specialize (Hm w Hw).
  destruct (m w) as [a w'| |]; [|done..]. by apply Hk.
Qed.

Lemma triple_weaken P P' E E' (m : M A) Q Q' :
  triple P' m Q' E' → (∀ w, P w → P' w) → (∀ a w, Q' a w → Q a w) →
  (∀ w, E' w → E w) → triple P m Q E.
Proof.
  intros [Hm] HP HQ HE. constructor. intros w Hw. specialize (Hm w (HP w Hw)).
  destruct (m w); simpl in *; auto.
Qed.
End Triples.

Section Keeps.
Variable I : World → Prop.

Lemma keeps_ret {A} (a : A) : keeps I (ret a).
Proof. by apply triple_ret. Qed.
Lemma keeps_raise {A} e : keeps I (raise (A:=A) e).
Proof. by apply triple_raise. Qed.
Lemma keeps_bind {A B} (m : M A) (k : A → M B) :
  keeps I m → (∀ a, keeps I (k a)) → keeps I (bind m k).
Proof. intros Hm Hk. eapply triple_bind; [exact Hm|exact Hk]. Qed.
Lemma keeps_forEach {A} (xs : list A) body :
  (∀ x, keeps I (body x)) → keeps I (forEach xs body).
Proof.
  intros Hbody. induction xs as [|x xs IH]; simpl; [apply keeps_ret|].
  apply keeps_bind; auto.
Qed.
Lemma keeps_mapM {A B} (f : A → M B) xs :
  (∀ x, keeps I (f x)) → keeps I (mapM f xs).
Proof.
  intros Hf. induction xs as [|x xs IH]; simpl; [apply keeps_ret|].
  apply keeps_bind; [auto|]. intros y.
  apply keeps_bind; [auto|]. intros ys. apply keeps_ret.
Qed.
Lemma keeps_read {A} (m : M A) :
  (∀ w, match m w with Done _ w' | Throw _ w' => w' = w | OutOfFuel => True end) →
  keeps I m.
Proof.
  intros H. constructor. intros w Hw. specialize (H w).
  destruct (m w); simpl; by subst.
Qed.

Lemma keeps_getStateData : keeps I getStateData.
Proof. by apply keeps_read. Qed.
Lemma keeps_getWorld : keeps I getWorld.
Proof. by apply keeps_read. Qed.
Lemma keeps_getTracker t : keeps I (getTracker t).
Proof. apply keeps_read. intros w. unfold getTracker. by destruct (_ !! _). Qed.
Lemma keeps_getEffect e : keeps I (getEffect e).
Proof. apply keeps_read. intros w. unfold getEffect. by destruct (_ !! _). Qed.
Lemma keeps_readArray a : keeps I (readArray a).
Proof. apply keeps_read. intros w. unfold readArray. by destruct (_ !! _). Qed.
Lemma keeps_getDerivationBeingComputed : keeps I getDerivationBeingComputed.
Proof.
  apply keeps_read. intros w. unfold getDerivationBeingComputed, bind, getStateData.
  by destruct (stateData w).
Qed.
Lemma keeps_modifyWorld f : (∀ w, I w → I (f w)) → keeps I (modifyWorld f).
Proof. intros H. constructor. intros w Hw. simpl. auto. Qed.
End Keeps.

(** ** Adjacency after a tracker is rewritten *)

Lemma upstreamOf_insert w t tr g b :
  trackers w !! t = Some tr →
  upstreamOf (withTrackers (λ ts, <[t := g tr]> ts) w) b
  = if decide (b = t) then upstreamSignals (g tr) else upstreamOf w b.
Proof.
  intros Htr. unfold upstreamOf. simpl. case_decide as Hb.
  - subst. rewrite list_lookup_insert_eq by (by eapply lookup_lt_Some). done.
  - by rewrite list_lookup_insert_ne.
Qed.

Lemma downstreamOf_insert w t tr g a :
  trackers w !! t = Some tr →
  downstreamOf (withTrackers (λ ts, <[t := g tr]> ts) w) a
  = if decide (a = t) then downstreamSignals (g tr) else downstreamOf w a.
Proof.
  intros Htr. unfold downstreamOf. simpl. case_decide as Ha.
  - subst. rewrite list_lookup_insert_eq by (by eapply lookup_lt_Some). done.
  - by rewrite list_lookup_insert_ne.
Qed.

Lemma upstreamOf_lookup w t tr :
  trackers w !! t = Some tr → upstreamOf w t = upstreamSignals tr.
Proof. unfold upstreamOf. by intros ->. Qed.
Lemma downstreamOf_lookup w t tr :
  trackers w !! t = Some tr → downstreamOf w t = downstreamSignals tr.
Proof. unfold downstreamOf. by intros ->. Qed.

Lemma downstreamOf_valid w a b :
  b ∈ downstreamOf w a → (a < length (trackers w))%nat.
Proof.
  unfold downstreamOf. destruct (trackers w !! a) eqn:Hl.
  - intros _. by eapply lookup_lt_Some.
  - intros H. by apply elem_of_nil in H.
Qed.
Lemma upstreamOf_valid w a b :
  a ∈ upstreamOf w b → (b < length (trackers w))%nat.
Proof.
  unfold upstreamOf. destruct (trackers w !! b) eqn:Hl.
  - intros _. by eapply lookup_lt_Some.
  - intros H. by apply elem_of_nil in H.
Qed.

Lemma NoDup_JsSet_add x s : NoDup s → NoDup (JsSet.add x s).
Proof.
  intros Hs. unfold JsSet.add. destruct (JsSet.has x s) eqn:Hhas; [done|].
  apply JsSet_has_false in Hhas. apply list.NoDup_app. split; [done|].
  split; [|apply NoDup_singleton].
  intros y Hy Hy'. apply list_elem_of_singleton in Hy'. by subst.
Qed.

(** A rewrite of a tracker that leaves both adjacency sets alone. *)
Lemma graphOk_modify w t tr g :
  trackers w !! t = Some tr →
  downstreamSignals (g tr) = downstreamSignals tr →
  upstreamSignals (g tr) = upstreamSignals tr →
  graphOk w → graphOk (withTrackers (λ ts, <[t := g tr]> ts) w).
Proof.
  intros Htr Hd Hu [Hsym Hnd Hst Hreg].
  assert (Hup : ∀ b, upstreamOf (withTrackers (λ ts, <[t := g tr]> ts) w) b = upstreamOf w b).
  { intros b. rewrite (upstreamOf_insert _ _ _ _ _ Htr). case_decide; [|done].
    subst. by rewrite Hu, (upstreamOf_lookup _ _ _ Htr). }
  assert (Hdown : ∀ a, downstreamOf (withTrackers (λ ts, <[t := g tr]> ts) w) a = downstreamOf w a).
  { intros a. rewrite (downstreamOf_insert _ _ _ _ _ Htr). case_decide; [|done].
    subst. by rewrite Hd, (downstreamOf_lookup _ _ _ Htr). }
  split.
  - intros a b. rewrite Hup, Hdown. apply Hsym.
  - intros b. rewrite Hup. apply Hnd.
  - simpl. intros d Hd'. rewrite length_insert. by apply Hst.
  - simpl. intros d Hd'. rewrite length_insert. by apply Hreg.
Qed.

Lemma keeps_modifyTracker_plain t g :
  (∀ tr, downstreamSignals (g tr) = downstreamSignals tr) →
  (∀ tr, upstreamSignals (g tr) = upstreamSignals tr) →
  keeps graphOk (modifyTracker t g).
Proof.
  intros Hd Hu. constructor. intros w Hw. unfold modifyTracker.
  destruct (trackers w !! t) as [tr|] eqn:Htr; [|done].
  by apply graphOk_modify.
Qed.

(** A change of [stateData] that leaves the derivations in progress alone. *)
Lemma graphOk_withStateData w sd :
  (∀ d, d ∈ stackOf sd → d ∈ stackOf (stateData w)) →
  graphOk w → graphOk (withStateData sd w).
Proof. intros Hstack [Hsym Hnd Hst Hreg]. split; auto. Qed.

Lemma keeps_modifyStateData f :
  (∀ sd, stackOf (f sd) = stackOf sd) → keeps graphOk (modifyStateData f).
Proof.
  intros Hf. apply keeps_modifyWorld. intros w Hw.
  apply graphOk_withStateData; [|done]. intros d. by rewrite Hf.
Qed.

Lemma keeps_setStateData_noStack sd :
  stackOf sd = [] → keeps graphOk (setStateData sd).
Proof.
  intros Hsd. apply keeps_modifyWorld. intros w Hw.
  apply graphOk_withStateData; [|done]. rewrite Hsd. intros d Hd.
  by apply elem_of_nil in Hd.
Qed.

Lemma stackOf_pushChanged t sd : stackOf (pushChanged t sd) = stackOf sd.
Proof. by destruct sd. Qed.
Lemma stackOf_addStale s e sd : stackOf (addStale s e sd) = stackOf sd.
Proof. by destruct sd. Qed.
Lemma stackOf_deleteStale t sd : stackOf (deleteStale t sd) = stackOf sd.
Proof. by destruct sd. Qed.
Lemma stackOf_addFresh t sd : stackOf (addFresh t sd) = stackOf sd.
Proof. by destruct sd. Qed.

(** One step through the structure of a library function. *)
Ltac keeps_structure :=
  lazymatch goal with
  | |- triple _ (ret _) _ _ => apply keeps_ret
  | |- triple _ (raise _) _ _ => apply keeps_raise
  | |- triple _ (bind _ _) _ _ => apply keeps_bind; [|intros ?]
  | |- triple _ getStateData _ _ => apply keeps_getStateData
  | |- triple _ getWorld _ _ => apply keeps_getWorld
  | |- triple _ (getTracker _) _ _ => apply keeps_getTracker
  | |- triple _ (getEffect _) _ _ => apply keeps_getEffect
  | |- triple _ (readArray _) _ _ => apply keeps_readArray
  | |- triple _ getDerivationBeingComputed _ _ => apply keeps_getDerivationBeingComputed
  | |- triple _ (forEach _ _) _ _ => apply keeps_forEach; intros ?
  | |- triple _ (mapM _ _) _ _ => apply keeps_mapM; intros ?
  | |- triple _ (match ?x with _ => _ end) _ _ => destruct x
  end.

Lemma keeps_handleValueChange t : keeps graphOk (handleValueChange t).
Proof.
  unfold handleValueChange. repeat keeps_structure.
  - by apply keeps_modifyTracker_plain.
  - apply keeps_modifyStateData, stackOf_pushChanged.
  - apply keeps_modifyStateData, stackOf_addStale.
Qed.

Lemma getDerivationBeingComputed_valid :
  triple graphOk getDerivationBeingComputed
         (λ d w, graphOk w ∧ ∀ x, d = Some x → (x < length (trackers w))%nat)
         graphOk.
Proof.
  constructor. intros w Hw. unfold getDerivationBeingComputed, bind, getStateData, ret.
  destruct (stateData w) as [|c s e| |c|stack|c s e f stack] eqn:Hsd; simpl;
    (split; [done|]); intros x Hx; try discriminate Hx;
    apply (graph_stack_valid _ Hw); rewrite Hsd; by apply last_Some_elem_of.
Qed.

(** Linking: both sets gain the edge. *)
Lemma keeps_handleDerivationLinking t : keeps graphOk (handleDerivationLinking t).
Proof.
  unfold handleDerivationLinking.
  eapply triple_bind; [apply getDerivationBeingComputed_valid|].
  intros [d|]; [|by apply triple_ret; intros w [Hw _]].
  constructor. intros w [Hw Hd]. specialize (Hd d eq_refl).
  unfold bind, modifyTracker.
  destruct (trackers w !! t) as [tr|] eqn:Htr; [|done]. simpl.
  set (trt := setDownstreamSignals (JsSet.add d (downstreamSignals tr)) tr).
  destruct (lookup_lt_is_Some_2 (<[t:=trt]> (trackers w)) d) as [trd Htrd];
    [by rewrite length_insert|].
  rewrite Htrd.
  set (w1 := withTrackers (λ ts, <[t := trt]> ts) w).
  assert (Htrd1 : trackers w1 !! d = Some trd) by done.
  destruct Hw as [Hsym Hnd Hst Hreg].
  assert (Hup1 : ∀ b, upstreamOf w1 b = upstreamOf w b).
  { intros b. unfold w1. rewrite (upstreamOf_insert _ _ _ (λ _, trt) _ Htr).
    case_decide; [|done]. subst. by rewrite (upstreamOf_lookup _ _ _ Htr). }
  assert (Hdown1 : ∀ a, downstreamOf w1 a
                        = if decide (a = t) then JsSet.add d (downstreamOf w a)
                          else downstreamOf w a).
  { intros a. unfold w1. rewrite (downstreamOf_insert _ _ _ (λ _, trt) _ Htr).
    case_decide; [|done]. subst. by rewrite (downstreamOf_lookup _ _ _ Htr). }
  set (w2 := withTrackers _ w1).
  assert (Hup2 : ∀ b, upstreamOf w2 b
                      = if decide (b = d) then JsSet.add t (upstreamOf w b)
                        else upstreamOf w b).
  { intros b. unfold w2.
    rewrite (upstreamOf_insert _ _ _
               (λ t0, setUpstreamSignals (JsSet.add t (upstreamSignals t0)) t0) _ Htrd1).
    case_decide; [|apply Hup1]. subst. simpl.
    by rewrite <- (upstreamOf_lookup _ _ _ Htrd1), Hup1. }
  assert (Hdown2 : ∀ a, downstreamOf w2 a
                        = if decide (a = t) then JsSet.add d (downstreamOf w a)
                          else downstreamOf w a).
  { intros a. unfold w2.
    rewrite (downstreamOf_insert _ _ _
               (λ t0, setUpstreamSignals (JsSet.add t (upstreamSignals t0)) t0) _ Htrd1).
    case_decide; [|apply Hdown1]. subst. simpl.
    by rewrite <- (downstreamOf_lookup _ _ _ Htrd1), Hdown1. }
  simpl. split.
  - intros a b. rewrite Hup2, Hdown2. pose proof (Hsym a b) as Hab.
    destruct (decide (b = d)), (decide (a = t)); rewrite ?elem_of_JsSet_add;
      naive_solver.
  - intros b. rewrite Hup2. case_decide; [apply NoDup_JsSet_add|]; apply Hnd.
  - intros x Hx. unfold w2, w1. simpl. rewrite !length_insert. by apply Hst.
  - intros x Hx. unfold w2, w1. simpl. rewrite !length_insert. by apply Hreg.
Qed.

(** ** Severing the upstream edges *)

Lemma bind_Done {A B} (m : M A) (k : A → M B) w a w' :
  m w = Done a w' → bind m k w = k a w'.
Proof. unfold bind. by intros ->. Qed.
Lemma bind_Throw {A B} (m : M A) (k : A → M B) w e w' :
  m w = Throw e w' → bind m k w = Throw e w'.
Proof. unfold bind. by intros ->. Qed.
Lemma getTracker_Some w t tr : trackers w !! t = Some tr → getTracker t w = Done tr w.
Proof. unfold getTracker. by intros ->. Qed.

Lemma sameCore_refl tr : sameCore tr tr.
Proof. by repeat split. Qed.
Lemma sameCore_trans a b c : sameCore a b → sameCore b c → sameCore a c.
Proof. unfold sameCore. intros (?&?&?&?&?) (?&?&?&?&?). repeat split; congruence. Qed.

Lemma coreKept_refl w : coreKept w w.
Proof.
  split; [done|]. split; [|done]. intros i tr Hi. exists tr. split; [done|apply sameCore_refl].
Qed.
Lemma coreKept_trans a b c : coreKept a b → coreKept b c → coreKept a c.
Proof.
  intros (Hl1 & Ht1 & ?&?&?&?&?&?) (Hl2 & Ht2 & ?&?&?&?&?&?).
  split; [congruence|]. split; [|repeat split; congruence].
  intros i tr Hi. destruct (Ht1 i tr Hi) as (tr1 & Hi1 & Hs1).
  destruct (Ht2 i tr1 Hi1) as (tr2 & Hi2 & Hs2).
  exists tr2. split; [done|]. by eapply sameCore_trans.
Qed.

Lemma coreKept_modify w t tr g :
  trackers w !! t = Some tr → sameCore tr (g tr) →
  coreKept w (withTrackers (λ ts, <[t := g tr]> ts) w).
Proof.
  intros Htr Hcore. split; [simpl; by rewrite length_insert|].
  split; [|done]. intros i tri Hi. simpl.
  destruct (decide (i = t)) as [->|Hne].
  - exists (g tr). rewrite list_lookup_insert_eq by (by eapply lookup_lt_Some).
    split; [done|]. congruence.
  - exists tri. rewrite list_lookup_insert_ne by done. split; [done|apply sameCore_refl].
Qed.

Lemma severing_loop t w0 :
  graphOk w0 →
  ∀ rest done w,
    done ++ rest = upstreamOf w0 t → severing t done w0 w →
    ∃ w', forEach rest (λ dependency,
            dep <- getTracker dependency ;;
            let removed := JsSet.has t (downstreamSignals dep) in
            modifyTracker dependency
              (λ d, setDownstreamSignals (JsSet.delete t (downstreamSignals d)) d) ;;;
            if removed then ret tt else raise Unreachable) w = Done tt w'
          ∧ severing t (done ++ rest) w0 w'.
Proof.
  intros Hok. induction rest as [|x rest IH]; intros done w Hsplit Hsev.
  - exists w. split; [done|]. by rewrite app_nil_r.
  - assert (Hnd : NoDup (done ++ x :: rest))
      by (rewrite Hsplit; apply (graph_upstream_nodup _ Hok)).
    assert (Hx : x ∉ done).
    { apply list.NoDup_app in Hnd as (_ & Hdis & _). intros Hin.
      apply (Hdis x Hin). by left. }
    destruct Hsev as (Hdown & Hup & Hkept & Hrest).
    assert (Hin : t ∈ downstreamOf w x).
    { apply Hdown. split; [|tauto]. rewrite <- Hsplit. apply elem_of_app. right. by left. }
    unfold downstreamOf in Hin.
    destruct (trackers w !! x) as [dep|] eqn:Hdep; [|by apply elem_of_nil in Hin].
    simpl. unfold bind at 1. unfold bind at 1. unfold getTracker. rewrite Hdep.
    unfold bind at 1. unfold modifyTracker. rewrite Hdep.
    apply JsSet_has_true in Hin. rewrite Hin. simpl.
    set (w1 := withTrackers _ w).
    destruct (IH (done ++ [x]) w1) as (w' & Hloop & Hsev').
    { by rewrite <- app_assoc. }
    { split; [|split; [|split]].
      - intros a b. unfold w1.
        rewrite (downstreamOf_insert _ _ _
                   (λ d, setDownstreamSignals (JsSet.delete t (downstreamSignals d)) d)
                   _ Hdep).
        rewrite elem_of_app, list_elem_of_singleton.
        case_decide as Ha.
        + subst a. simpl. rewrite elem_of_JsSet_delete.
          rewrite <- (downstreamOf_lookup _ _ _ Hdep), Hdown. naive_solver.
        + rewrite Hdown. naive_solver.
      - intros b. unfold w1.
        rewrite (upstreamOf_insert _ _ _
                   (λ d, setDownstreamSignals (JsSet.delete t (downstreamSignals d)) d)
                   _ Hdep).
        case_decide; [|apply Hup]. subst. simpl.
        by rewrite <- (upstreamOf_lookup _ _ _ Hdep), Hup.
      - eapply coreKept_trans; [exact Hkept|].
        apply (coreKept_modify w x dep
                 (λ d, setDownstreamSignals (JsSet.delete t (downstreamSignals d)) d) Hdep).
        by repeat split.
      - intros y Hy. rewrite elem_of_app, list_elem_of_singleton in Hy.
        unfold w1. simpl. rewrite list_lookup_insert_ne by naive_solver.
        apply Hrest. tauto. }
    exists w'. split; [exact Hloop|]. by rewrite <- app_assoc in Hsev'.
Qed.

(** [removeTrackerDependencies] on a tracker of a well-formed graph returns,
    and leaves the tracker in no downstream set and with no upstream. *)
Lemma removeTrackerDependencies_spec w t tr :
  graphOk w → trackers w !! t = Some tr →
  ∃ w', removeTrackerDependencies t w = Done tt w'
        ∧ graphOk w'
        ∧ (∀ a b, b ∈ downstreamOf w' a ↔ b ≠ t ∧ b ∈ downstreamOf w a)
        ∧ (∀ b, upstreamOf w' b = if decide (b = t) then [] else upstreamOf w b)
        ∧ coreKept w w'
        ∧ (∀ x, x ∉ upstreamOf w t → x ≠ t → trackers w' !! x = trackers w !! x).
Proof.
  intros Hok Htr. unfold removeTrackerDependencies.
  rewrite (bind_Done _ _ _ _ _ (getTracker_Some _ _ _ Htr)).
  destruct (severing_loop t w Hok (upstreamSignals tr) [] w) as (w1 & Hloop & Hsev).
  { by rewrite (upstreamOf_lookup _ _ _ Htr). }
  { split; [|split; [done|split; [apply coreKept_refl|done]]].
    intros a b. rewrite elem_of_nil. pose proof (graph_symmetric _ Hok a b). tauto. }
  rewrite (bind_Done _ _ _ _ _ Hloop). simpl in Hsev.
  destruct Hsev as (Hdown & Hup & Hkept & Hrest).
  destruct (proj1 (proj2 Hkept) t tr Htr) as (tr1 & Htr1 & Hcore1).
  unfold modifyTracker. rewrite Htr1.
  eexists. split; [reflexivity|].
  set (w' := withTrackers _ w1).
  assert (Hdown' : ∀ a b, b ∈ downstreamOf w' a ↔ b ≠ t ∧ b ∈ downstreamOf w a).
  { intros a b. unfold w'.
    rewrite (downstreamOf_insert _ _ _ (setUpstreamSignals []) _ Htr1).
    assert (b ∈ downstreamOf w1 a ↔ b ≠ t ∧ b ∈ downstreamOf w a) as Hw1.
    { rewrite Hdown. rewrite <- (graph_symmetric _ Hok a b).
      rewrite <- (upstreamOf_lookup _ _ _ Htr).
      split; [|naive_solver]. intros [Hab Hn]. split; [|done]. intros ->. tauto. }
    case_decide; [|done]. subst. simpl.
    by rewrite <- (downstreamOf_lookup _ _ _ Htr1). }
  assert (Hup' : ∀ b, upstreamOf w' b = if decide (b = t) then [] else upstreamOf w b).
  { intros b. unfold w'.
    rewrite (upstreamOf_insert _ _ _ (setUpstreamSignals []) _ Htr1).
    case_decide; [done|apply Hup]. }
  assert (Hkept' : coreKept w w').
  { eapply coreKept_trans; [exact Hkept|].
    apply (coreKept_modify w1 t tr1 (setUpstreamSignals []) Htr1). by repeat split. }
  assert (Hrest' : ∀ x, x ∉ upstreamOf w t → x ≠ t →
                        trackers w' !! x = trackers w !! x).
  { intros x Hx Hne. unfold w'. simpl. rewrite list_lookup_insert_ne by done.
    apply Hrest. by rewrite <- (upstreamOf_lookup _ _ _ Htr). }
  split; [|done].
  destruct Hok as [Hsym Hnd Hst Hreg].
  destruct Hkept' as (Hlen & _ & _ & _ & Hsd & _ & Hrg & _).
  split.
  - intros a b. rewrite Hup', Hdown'. case_decide.
    + subst. rewrite elem_of_nil. tauto.
    + rewrite (Hsym a b). tauto.
  - intros b. rewrite Hup'. case_decide; [apply NoDup_nil_2|apply Hnd].
  - intros d. rewrite Hsd, Hlen. apply Hst.
  - intros d. rewrite Hrg, Hlen. apply Hreg.
Qed.

Lemma keeps_removeTrackerDependencies t : keeps graphOk (removeTrackerDependencies t).
Proof.
  constructor. intros w Hw.
  destruct (trackers w !! t) as [tr|] eqn:Htr.
  - destruct (removeTrackerDependencies_spec w t tr Hw Htr) as (w' & -> & Hok & _).
    exact Hok.
  - unfold removeTrackerDependencies, bind, getTracker. by rewrite Htr.
Qed.

(** ** Every library function keeps the graph well formed *)

Lemma graphOk_fields w w' :
  trackers w' = trackers w →
  (∀ d, d ∈ stackOf (stateData w') → d ∈ stackOf (stateData w)) →
  (∀ d, d ∈ derivationRegistry w' → d ∈ derivationRegistry w) →
  graphOk w → graphOk w'.
Proof.
  intros Ht Hs Hr [Hsym Hnd Hst Hreg].
  assert (Hup : ∀ b, upstreamOf w' b = upstreamOf w b)
    by (intros b; unfold upstreamOf; by rewrite Ht).
  assert (Hdown : ∀ b, downstreamOf w' b = downstreamOf w b)
    by (intros b; unfold downstreamOf; by rewrite Ht).
  split.
  - intros a b. rewrite Hup, Hdown. apply Hsym.
  - intros b. rewrite Hup. apply Hnd.
  - intros d Hd. rewrite Ht. auto.
  - intros d Hd. rewrite Ht. auto.
Qed.

Lemma keeps_writeArray a contents : keeps graphOk (writeArray a contents).
Proof.
  constructor. intros w Hw. unfold writeArray. destruct (arrays w !! a); [|done].
  by apply (graphOk_fields w).
Qed.
Lemma keeps_newChanges c : keeps graphOk (newChanges c).
Proof. constructor. intros w Hw. by apply (graphOk_fields w). Qed.
Lemma keeps_tick c : keeps graphOk (tick c).
Proof. constructor. intros w Hw. by apply (graphOk_fields w). Qed.
Lemma keeps_allocArray contents : keeps graphOk (allocArray contents).
Proof. constructor. intros w Hw. by apply (graphOk_fields w). Qed.
Lemma keeps_allocEffect eff : keeps graphOk (allocEffect eff).
Proof. constructor. intros w Hw. by apply (graphOk_fields w). Qed.

Lemma elem_of_removelast {A} (x : A) l : x ∈ removelast l → x ∈ l.
Proof.
  induction l as [|y l IH]; simpl; [done|].
  destruct l as [|z l]; [intros H; by apply elem_of_nil in H|].
  intros [->|H]%elem_of_cons; [by left|]. right. by apply IH.
Qed.

Lemma keeps_popDerivation : keeps graphOk (modifyStateData popDerivation).
Proof.
  apply keeps_modifyWorld. intros w Hw. apply graphOk_withStateData; [|done].
  intros d. destruct (stateData w); simpl; try done; apply elem_of_removelast.
Qed.

Lemma pushDerivation_valid d :
  triple (λ w, graphOk w ∧ (d < length (trackers w))%nat)
         (modifyStateData (pushDerivation d)) (λ _, graphOk) graphOk.
Proof.
  constructor. intros w [Hw Hd]. simpl.
  destruct Hw as [Hsym Hnd Hst Hreg]. split; try done.
  intros x. simpl. destruct (stateData w); simpl in *; try (by auto);
    intros [Hx|Hx%list_elem_of_singleton]%elem_of_app; subst; auto.
Qed.

Lemma getTracker_valid t :
  triple graphOk (getTracker t)
         (λ _ w, graphOk w ∧ (t < length (trackers w))%nat) graphOk.
Proof.
  constructor. intros w Hw. unfold getTracker.
  destruct (trackers w !! t) eqn:Ht; simpl; [|done].
  split; [done|]. by eapply lookup_lt_Some.
Qed.

Lemma modifyTracker_plain_valid t g :
  (∀ tr, downstreamSignals (g tr) = downstreamSignals tr) →
  (∀ tr, upstreamSignals (g tr) = upstreamSignals tr) →
  triple graphOk (modifyTracker t g)
         (λ _ w, graphOk w ∧ (t < length (trackers w))%nat) graphOk.
Proof.
  intros Hd Hu. constructor. intros w Hw. unfold modifyTracker.
  destruct (trackers w !! t) as [tr|] eqn:Htr; simpl; [|done].
  split; [by apply graphOk_modify|]. rewrite length_insert. by eapply lookup_lt_Some.
Qed.

Lemma allocTracker_valid tr :
  downstreamSignals tr = [] → upstreamSignals tr = [] →
  triple graphOk (allocTracker tr)
         (λ t w, graphOk w ∧ (t < length (trackers w))%nat) graphOk.
Proof.
  intros Hd Hu. constructor. intros w [Hsym Hnd Hst Hreg]. simpl.
  set (w' := withTrackers _ w).
  assert (Hup : ∀ b, upstreamOf w' b = upstreamOf w b).
  { intros b. unfold upstreamOf, w'. simpl.
    destruct (decide (b < length (trackers w))%nat).
    - by rewrite lookup_app_l.
    - rewrite lookup_app_r by lia. rewrite (lookup_ge_None_2 (trackers w)) by lia.
      destruct (b - length (trackers w))%nat; simpl; rewrite ?lookup_nil, ?Hu, ?Hd; done. }
  assert (Hdown : ∀ b, downstreamOf w' b = downstreamOf w b).
  { intros b. unfold downstreamOf, w'. simpl.
    destruct (decide (b < length (trackers w))%nat).
    - by rewrite lookup_app_l.
    - rewrite lookup_app_r by lia. rewrite (lookup_ge_None_2 (trackers w)) by lia.
      destruct (b - length (trackers w))%nat; simpl; rewrite ?lookup_nil, ?Hu, ?Hd; done. }
  split; [split|].
  - intros a b. rewrite Hup, Hdown. apply Hsym.
  - intros b. rewrite Hup. apply Hnd.
  - intros d Hx. unfold w'. simpl. rewrite length_app. simpl.
    specialize (Hst d Hx). lia.
  - intros d Hx. unfold w'. simpl. rewrite length_app. simpl.
    specialize (Hreg d Hx). lia.
  - unfold w'. simpl. rewrite length_app. simpl. lia.
Qed.

Lemma keeps_state v : keeps graphOk (state v).
Proof.
  unfold state. eapply triple_weaken; [by apply allocTracker_valid| |by intros ? ? []|]; done.
Qed.

Section InterpreterKeeps.
Variable pull : TrackerId → M unit.
Hypothesis pull_keeps : ∀ t, keeps graphOk (pull t).

Lemma keeps_handle {X} (c : Call X) : keeps graphOk (handle pull c).
Proof using pull_keeps.
  destruct c; simpl; repeat keeps_structure;
    try apply keeps_handleDerivationLinking;
    try apply pull_keeps;
    try apply keeps_handleValueChange;
    try (by apply keeps_modifyTracker_plain);
    try apply keeps_writeArray;
    try apply keeps_newChanges;
    try apply keeps_tick.
Qed.

Lemma keeps_runProg {A} (p : prog A) : keeps graphOk (runProg pull p).
Proof using pull_keeps.
  induction p as [a|X c k IH]; simpl; [apply keeps_ret|].
  apply keeps_bind; [apply keeps_handle|]. apply IH.
Qed.

Lemma keeps_updateDerivedSignal d : keeps graphOk (updateDerivedSignal pull d).
Proof using pull_keeps.
  unfold updateDerivedSignal.
  apply keeps_bind; [apply keeps_getStateData|]. intros sd.
  destruct (mode sd); try (by apply keeps_raise).
  apply keeps_bind; [apply keeps_removeTrackerDependencies|]. intros ?.
  eapply triple_bind; [apply getTracker_valid|]. intros tr.
  eapply triple_bind; [apply pushDerivation_valid|]. intros ?.
  repeat keeps_structure;
    try apply keeps_runProg;
    try (by apply keeps_modifyTracker_plain);
    try apply keeps_popDerivation;
    try (apply keeps_modifyStateData; first
           [apply stackOf_deleteStale|apply stackOf_pushChanged|apply stackOf_addStale]).
Qed.

Lemma keeps_runEffect e : keeps graphOk (runEffect pull e).
Proof using pull_keeps.
  unfold runEffect. repeat keeps_structure;
    try apply keeps_handle; try apply keeps_runProg.
Qed.
End InterpreterKeeps.

Lemma keeps_updateSignal fuel t : keeps graphOk (updateSignal fuel t).
Proof.
  revert t. induction fuel as [|fuel IH]; intros t; [by constructor|].
  simpl. repeat keeps_structure.
  - apply IH.
  - by apply keeps_updateDerivedSignal.
  - apply keeps_modifyStateData, stackOf_addFresh.
Qed.

Lemma keeps_resolveStale fuel rounds : keeps graphOk (resolveStale fuel rounds).
Proof.
  induction rounds as [|rounds IH]; [by constructor|].
  simpl. repeat keeps_structure; try done.
  - apply keeps_updateDerivedSignal, keeps_updateSignal.
  - apply keeps_modifyStateData, stackOf_addFresh.
Qed.

Lemma keeps_updateState fuel run : keeps graphOk (updateState fuel run).
Proof.
  unfold updateState. repeat keeps_structure;
    try (by apply keeps_setStateData_noStack);
    try apply keeps_runProg, keeps_updateSignal;
    try apply keeps_resolveStale;
    try apply keeps_runEffect, keeps_updateSignal;
    try (by apply keeps_modifyTracker_plain).
Qed.

Lemma derive_registers fuel f :
  triple graphOk (derive fuel f)
         (λ d w, graphOk w ∧ d ∈ derivationRegistry w) graphOk.
Proof.
  unfold derive. eapply triple_bind; [apply keeps_getStateData|]. intros sd.
  destruct (mode sd); try by apply triple_raise.
  eapply triple_bind; [by apply allocTracker_valid|]. intros d.
  eapply triple_bind.
  { instantiate (1 := λ _, graphOk). constructor. intros w [Hw Hd]. simpl.
    destruct Hw as [Hsym Hnd Hst Hreg]. split; try done.
    simpl. intros x Hx%list_elem_of_singleton. by subst. }
  intros ?. eapply triple_bind; [apply keeps_runProg, keeps_updateSignal|]. intros v.
  eapply triple_bind; [by apply modifyTracker_plain_valid|]. intros ?.
  eapply triple_bind.
  { instantiate (1 := λ _ w, graphOk w ∧ (d < length (trackers w))%nat).
    constructor. intros w [Hw Hd]. simpl. split; [|done].
    apply graphOk_withStateData; [|done]. simpl. intros x Hx. by apply elem_of_nil in Hx. }
  intros ?. eapply triple_bind.
  { instantiate (1 := λ _ w, graphOk w ∧ d ∈ derivationRegistry w).
    constructor. intros w [[Hsym Hnd Hst Hreg] Hd]. simpl.
    split; [split; try done|].
    - simpl. intros x [Hx|Hx%list_elem_of_singleton]%elem_of_app; subst; auto.
    - apply elem_of_app. right. by left. }
  intros ?. by apply triple_ret.
Qed.

Lemma keeps_derive fuel f : keeps graphOk (derive fuel f).
Proof.
  eapply triple_weaken; [apply derive_registers| |by intros ? ? []|]; done.
Qed.

Lemma keeps_effect fuel sources callback : keeps graphOk (effect fuel sources callback).
Proof.
  unfold effect. repeat keeps_structure;
    try apply keeps_allocEffect;
    try (by apply keeps_setStateData_noStack);
    try apply keeps_runEffect, keeps_updateSignal;
    try (by apply keeps_modifyTracker_plain).
Qed.

Lemma keeps_reclaim h : keeps graphOk (reclaim h).
Proof.
  unfold reclaim. repeat keeps_structure.
  - apply keeps_modifyWorld. intros w [Hsym Hnd Hst Hreg]. split; try done.
    simpl. intros d [_ Hd]%elem_of_JsSet_delete. auto.
  - apply keeps_removeTrackerDependencies.
Qed.

Lemma keeps_arrayState v : keeps graphOk (arrayState v).
Proof.
  unfold arrayState. repeat keeps_structure;
    try apply keeps_allocArray; try apply keeps_newChanges; try apply keeps_state.
Qed.

Lemma keeps_map fuel inValue inChanges func :
  keeps graphOk (map fuel inValue inChanges func).
Proof.
  unfold map. repeat keeps_structure;
    try apply keeps_allocArray; try apply keeps_derive.
Qed.

Lemma keeps_join fuel parts : keeps graphOk (join fuel parts).
Proof.
  unfold join. repeat keeps_structure;
    try apply keeps_runProg, keeps_updateSignal;
    try apply keeps_allocArray; try apply keeps_derive.
Qed.

Lemma keeps_perform fuel op : keeps graphOk (perform fuel op).
Proof.
  destruct op; simpl; repeat keeps_structure;
    try apply keeps_state; try apply keeps_derive; try apply keeps_effect;
    try apply keeps_runProg, keeps_updateSignal; try apply keeps_updateState;
    try apply keeps_reclaim; try apply keeps_arrayState; try apply keeps_map;
    try apply keeps_join.
Qed.

Lemma graphOk_emptyWorld : graphOk emptyWorld.
Proof.
  split.
  - intros a b. unfold upstreamOf, downstreamOf. simpl. rewrite ?lookup_nil.
    split; intros H; inversion H.
  - intros t. unfold upstreamOf. simpl. rewrite ?lookup_nil. apply NoDup_nil_2.
  - intros d Hd. by apply elem_of_nil in Hd.
  - intros d Hd. by apply elem_of_nil in Hd.
Qed.

Lemma reachable_graphOk w : reachable w → graphOk w.
Proof.
  induction 1 as [|fuel op w w' _ IH Hstep]; [apply graphOk_emptyWorld|].
  pose proof (triple_run _ _ _ _ w (keeps_perform fuel op) IH) as Hrun.
  destruct (perform fuel op w) as [[] w1|e w1|]; simpl in *; [| |done];
    injection Hstep as <-; exact Hrun.
Qed.

(** C9. Between public operations (creating states, derived signals,
    effects and arrays, reading and mutating through handles, update cycles,
    the host's cleanup of reclaimed handles), whether they returned or threw,
    a tracker A is in B's upstream set if and only if B is in A's downstream
    set. *)
Theorem adjacency_symmetric_between_operations (w : World) :
  reachable w →
  ∀ a b, a ∈ upstreamOf w b ↔ b ∈ downstreamOf w a.
Proof. intros Hw. apply (graph_symmetric _ (reachable_graphOk w Hw)). Qed.

(** The loop of [removeTrackerDependencies]: every dependency it visits
    loses [t] from its downstream set, which keeps its order, and no other
    downstream set moves. *)
Lemma severing_exact t xs w w' :
  forEach xs (λ dependency,
    dep <- getTracker dependency ;;
    let removed := JsSet.has t (downstreamSignals dep) in
    modifyTracker dependency
      (λ d, setDownstreamSignals (JsSet.delete t (downstreamSignals d)) d) ;;;
    if removed then ret tt else raise Unreachable) w = Done tt w' →
  ∀ a, downstreamOf w' a
       = if decide (a ∈ xs) then JsSet.delete t (downstreamOf w a) else downstreamOf w a.
Proof.
  revert w. induction xs as [|x xs IH]; intros w Hrun a; simpl in Hrun.
  - injection Hrun as <-. rewrite decide_False; [done|apply not_elem_of_nil].
  - unfold bind at 1 in Hrun. unfold bind at 1 in Hrun. unfold getTracker in Hrun.
    destruct (trackers w !! x) as [dep|] eqn:Hdep; [|done].
    unfold bind at 1 in Hrun. unfold modifyTracker in Hrun. rewrite Hdep in Hrun.
    destruct (JsSet.has t (downstreamSignals dep)); [|done]. simpl in Hrun.
    rewrite (IH _ Hrun a).
    rewrite (downstreamOf_insert _ _ _
               (λ d, setDownstreamSignals (JsSet.delete t (downstreamSignals d)) d) _ Hdep).
    simpl. rewrite <- (downstreamOf_lookup _ _ _ Hdep).
    destruct (decide (a = x)) as [->|Hne].
    + rewrite (decide_True (P := x ∈ x :: xs)) by (by left).
      destruct (decide (x ∈ xs)); [|done].
      apply JsSet_delete_absent. rewrite elem_of_JsSet_delete. tauto.
    + destruct (decide (a ∈ xs)) as [Hin|Hnin].
      * rewrite decide_True by (by right). done.
      * rewrite decide_False; [done|]. by intros [?|?]%elem_of_cons.
Qed.

(** C10. When the host reclaims a derived handle and calls the cleanup that
    [derive] registered for it, the call returns.  Every former upstream
    tracker is still there, had the tracker in its downstream set and has
    lost exactly it; every downstream set of the graph is what it was with
    the tracker taken out, in the same order, so no other dependent is lost;
    the tracker has no upstream left; no tracker has changed otherwise, and
    nothing else of the world has changed but the registry, which no longer
    lists the handle.  A second call changes nothing. *)
Theorem reclaimed_tracker_leaves_downstream_sets (w : World) (d : TrackerId) :
  reachable w → d ∈ derivationRegistry w →
  ∃ w', reclaim d w = Done tt w'
        ∧ (∀ u, u ∈ upstreamOf w d →
                ∃ tr tr', trackers w !! u = Some tr ∧ d ∈ downstreamSignals tr
                          ∧ trackers w' !! u = Some tr'
                          ∧ downstreamSignals tr' = JsSet.delete d (downstreamSignals tr)
                          ∧ d ∉ downstreamSignals tr')
        ∧ (∀ a, downstreamOf w' a = JsSet.delete d (downstreamOf w a))
        ∧ (∀ u, d ∉ downstreamOf w' u)
        ∧ (∀ b, upstreamOf w' b = if decide (b = d) then [] else upstreamOf w b)
        ∧ length (trackers w') = length (trackers w)
        ∧ (∀ x tr, trackers w !! x = Some tr →
                   ∃ tr', trackers w' !! x = Some tr' ∧ sameCore tr tr')
        ∧ (∀ x, x ∉ upstreamOf w d → x ≠ d → trackers w' !! x = trackers w !! x)
        ∧ effects w' = effects w ∧ arrays w' = arrays w ∧ stateData w' = stateData w
        ∧ nextAddress w' = nextAddress w ∧ ticks w' = ticks w
        ∧ derivationRegistry w' = JsSet.delete d (derivationRegistry w)
        ∧ reclaim d w' = Done tt w'.
Proof.
  intros Hreach Hd. pose proof (reachable_graphOk w Hreach) as Hok.
  destruct (lookup_lt_is_Some_2 (trackers w) d) as [tr Htr];
    [by apply (graph_registry_valid _ Hok)|].
  unfold reclaim at 1. rewrite (bind_Done _ _ _ w w) by done.
  apply JsSet_has_true in Hd. rewrite Hd.
  set (w1 := withRegistry (JsSet.delete d) w).
  rewrite (bind_Done _ _ _ tt w1) by done.
  assert (Hok1 : graphOk w1).
  { destruct Hok as [Hsym Hnd Hst Hreg]. split; try done.
    simpl. intros x [_ Hx]%elem_of_JsSet_delete. auto. }
  destruct (removeTrackerDependencies_spec w1 d tr Hok1 Htr)
    as (w' & Hrun & _ & Hdown & Hup & Hkept & Hrest).
  exists w'. split; [exact Hrun|].
  assert (Hexact : ∀ a, downstreamOf w' a = JsSet.delete d (downstreamOf w a)).
  { intros a. pose proof Hrun as Hrun'. unfold removeTrackerDependencies in Hrun'.
    rewrite (bind_Done _ _ _ _ _ (getTracker_Some w1 d tr Htr)) in Hrun'.
    unfold bind at 1 in Hrun'.
    match type of Hrun' with
    | match ?loop with _ => _ end = _ => destruct loop as [[] w2| |] eqn:Hloop; [|done..]
    end.
    apply modifyTracker_Done in Hrun' as (tr2 & Htr2 & ->).
    rewrite (downstreamOf_insert _ _ _ (setUpstreamSignals []) _ Htr2).
    assert (Hw2 : downstreamOf w2 a = JsSet.delete d (downstreamOf w a)).
    { rewrite (severing_exact d _ w1 w2 Hloop a).
      change (downstreamOf w1 a) with (downstreamOf w a).
      destruct (decide (a ∈ upstreamSignals tr)) as [Hin|Hnin]; [done|].
      symmetry. apply JsSet_delete_absent. intros Hda. apply Hnin.
      rewrite <- (upstreamOf_lookup w d tr Htr). by apply (graph_symmetric _ Hok). }
    case_decide as Ha; [|exact Hw2]. subst a. simpl.
    by rewrite <- (downstreamOf_lookup _ _ _ Htr2). }
  assert (Hnone : ∀ u, d ∉ downstreamOf w' u) by (intros u; rewrite Hdown; tauto).
  destruct Hkept as (Hlen & Hcore & Heff & Harr & Hsd & Hna & Hreg & Htk).
  split.
  { intros u Hu. apply (graph_symmetric _ Hok) in Hu.
    unfold downstreamOf in Hu. destruct (trackers w !! u) as [tu|] eqn:Htu;
      [|by apply elem_of_nil in Hu].
    destruct (Hcore u tu Htu) as (tu' & Htu' & _).
    exists tu, tu'. split; [done|]. split; [done|]. split; [done|].
    pose proof (Hexact u) as Hx. pose proof (Hnone u) as Hn.
    unfold downstreamOf in Hx, Hn. rewrite Htu' in Hx, Hn. rewrite Htu in Hx. done. }
  split; [exact Hexact|]. split; [exact Hnone|]. split; [exact Hup|].
  split; [exact Hlen|]. split; [exact Hcore|]. split; [exact Hrest|].
  do 6 (split; [done|]).
  unfold reclaim. rewrite (bind_Done _ _ _ w' w') by done.
  replace (JsSet.has d (derivationRegistry w')) with false; [done|].
  symmetry. apply JsSet_has_false. rewrite Hreg. simpl.
  rewrite elem_of_JsSet_delete. tauto.
Qed.

Lemma reachable_afterOperations fuel ops w w' :
  reachable w → afterOperations fuel ops w = Some w' → reachable w'.
Proof.
  revert w. induction ops as [|op ops IH]; intros w Hw; simpl.
  - by intros [= <-].
  - destruct (worldOf (perform fuel op w)) as [w1|] eqn:Hstep; [|done].
    apply IH. by eapply reachable_step.
Qed.

Lemma adjacency_symmetric_between_operations_witness :
  Diamond.modulo ∈ upstreamOf DiamondOperations.world Diamond.doubleModulo
  ↔ Diamond.doubleModulo ∈ downstreamOf DiamondOperations.world Diamond.modulo.
Proof.
  apply adjacency_symmetric_between_operations.
  apply (reachable_afterOperations 3 DiamondOperations.operations emptyWorld);
    [apply reachable_empty|].
  vm_compute. reflexivity.
Defined.

Lemma reclaimed_tracker_leaves_downstream_sets_witness :
  ∃ w', reclaim FreedDerived.derived FreedDerived.world = Done tt w'
        ∧ (∀ u, u ∈ upstreamOf FreedDerived.world FreedDerived.derived →
                ∃ tr tr', trackers FreedDerived.world !! u = Some tr
                          ∧ FreedDerived.derived ∈ downstreamSignals tr
                          ∧ trackers w' !! u = Some tr'
                          ∧ downstreamSignals tr'
                            = JsSet.delete FreedDerived.derived (downstreamSignals tr)
                          ∧ FreedDerived.derived ∉ downstreamSignals tr')
        ∧ (∀ a, downstreamOf w' a
                = JsSet.delete FreedDerived.derived (downstreamOf FreedDerived.world a))
        ∧ (∀ u, FreedDerived.derived ∉ downstreamOf w' u)
        ∧ (∀ b, upstreamOf w' b
                = if decide (b = FreedDerived.derived) then []
                  else upstreamOf FreedDerived.world b)
        ∧ length (trackers w') = length (trackers FreedDerived.world)
        ∧ (∀ x tr, trackers FreedDerived.world !! x = Some tr →
                   ∃ tr', trackers w' !! x = Some tr' ∧ sameCore tr tr')
        ∧ (∀ x, x ∉ upstreamOf FreedDerived.world FreedDerived.derived →
                x ≠ FreedDerived.derived →
                trackers w' !! x = trackers FreedDerived.world !! x)
        ∧ effects w' = effects FreedDerived.world
        ∧ arrays w' = arrays FreedDerived.world
        ∧ stateData w' = stateData FreedDerived.world
        ∧ nextAddress w' = nextAddress FreedDerived.world
        ∧ ticks w' = ticks FreedDerived.world
        ∧ derivationRegistry w'
          = JsSet.delete FreedDerived.derived (derivationRegistry FreedDerived.world)
        ∧ reclaim FreedDerived.derived w' = Done tt w'.
Proof.
  apply reclaimed_tracker_leaves_downstream_sets.
  - apply (reachable_afterOperations 1 FreedDerived.operations emptyWorld);
      [apply reachable_empty|].
    vm_compute. reflexivity.
  - vm_compute. apply list_elem_of_singleton. reflexivity.
Defined.

(** ** An effect stays subscribed *)

Section Subscribed.
Variable s : TrackerId.
Variable e : EffectId.

Local Abbreviation I := (subscribedTo s e).

Lemma subscribed_fields w w' : trackers w' = trackers w → I w → I w'.
Proof. intros Ht (tr & Hs & He). exists tr. by rewrite Ht. Qed.

Lemma subscribed_modifyWorld f :
  (∀ w, trackers (f w) = trackers w) → keeps I (modifyWorld f).
Proof. intros Hf. apply keeps_modifyWorld. intros w. by apply subscribed_fields. Qed.

Lemma subscribed_modifyTracker t g :
  (∀ tr x, x ∈ downstreamEffects tr → x ∈ downstreamEffects (g tr)) →
  keeps I (modifyTracker t g).
Proof.
  intros Hg. constructor. intros w (tr & Hs & He). unfold modifyTracker.
  destruct (trackers w !! t) as [old|] eqn:Ht; simpl; [|by exists tr].
  destruct (decide (t = s)) as [->|Hne].
  - exists (g old). split.
    + simpl. apply list_lookup_insert_eq. by eapply lookup_lt_Some.
    + apply Hg. congruence.
  - exists tr. split; [|done]. simpl. by rewrite list_lookup_insert_ne.
Qed.

Lemma subscribed_allocTracker tr : keeps I (allocTracker tr).
Proof.
  constructor. intros w (ts & Hs & He). simpl. exists ts. split; [|done].
  by apply lookup_app_l_Some.
Qed.

Lemma subscribed_writeArray a contents : keeps I (writeArray a contents).
Proof.
  constructor. intros w Hw. unfold writeArray. destruct (arrays w !! a); [|done].
  by apply (subscribed_fields w).
Qed.
Lemma subscribed_newChanges c : keeps I (newChanges c).
Proof. constructor. intros w Hw. by apply (subscribed_fields w). Qed.
Lemma subscribed_allocArray contents : keeps I (allocArray contents).
Proof. constructor. intros w Hw. by apply (subscribed_fields w). Qed.
Lemma subscribed_allocEffect eff : keeps I (allocEffect eff).
Proof. constructor. intros w Hw. by apply (subscribed_fields w). Qed.

(** One step through a library function: its structure, or one of the
    writes, none of which takes a closure out of a downstream-effect set. *)
Ltac subscribed_step :=
  lazymatch goal with
  | |- triple _ (modifyTracker _ _) _ _ =>
      apply subscribed_modifyTracker; intros ? ? ?; simpl;
      rewrite ?elem_of_JsSet_add; auto
  | |- triple _ (modifyStateData _) _ _ => by apply subscribed_modifyWorld
  | |- triple _ (setStateData _) _ _ => by apply subscribed_modifyWorld
  | |- triple _ (modifyWorld _) _ _ => by apply subscribed_modifyWorld
  | |- triple _ (tick _) _ _ => by apply subscribed_modifyWorld
  | |- triple _ (allocTracker _) _ _ => apply subscribed_allocTracker
  | |- triple _ (writeArray _ _) _ _ => apply subscribed_writeArray
  | |- triple _ (newChanges _) _ _ => apply subscribed_newChanges
  | |- triple _ (allocArray _) _ _ => apply subscribed_allocArray
  | |- triple _ (allocEffect _) _ _ => apply subscribed_allocEffect
  | |- _ => keeps_structure
  end.

Lemma subscribed_handleValueChange t : keeps I (handleValueChange t).
Proof. unfold handleValueChange. repeat subscribed_step. Qed.

Lemma subscribed_handleDerivationLinking t : keeps I (handleDerivationLinking t).
Proof. unfold handleDerivationLinking. repeat subscribed_step. Qed.

Lemma subscribed_removeTrackerDependencies t : keeps I (removeTrackerDependencies t).
Proof. unfold removeTrackerDependencies. cbv zeta. repeat subscribed_step. Qed.

Lemma subscribed_state v : keeps I (state v).
Proof. unfold state. repeat subscribed_step. Qed.

Section Interpreter.
Variable pull : TrackerId → M unit.
Hypothesis pull_keeps : ∀ t, keeps I (pull t).

Lemma subscribed_handle {X} (c : Call X) : keeps I (handle pull c).
Proof using pull_keeps.
  destruct c; simpl; repeat subscribed_step;
    try apply subscribed_handleDerivationLinking;
    try apply subscribed_handleValueChange;
    try apply pull_keeps.
Qed.

Lemma subscribed_runProg {A} (p : prog A) : keeps I (runProg pull p).
Proof using pull_keeps.
  induction p as [a|X c k IH]; simpl; [apply keeps_ret|].
  apply keeps_bind; [apply subscribed_handle|]. apply IH.
Qed.

Lemma subscribed_updateDerivedSignal d : keeps I (updateDerivedSignal pull d).
Proof using pull_keeps.
  unfold updateDerivedSignal. repeat subscribed_step;
    try apply subscribed_removeTrackerDependencies;
    try apply subscribed_runProg.
Qed.

Lemma subscribed_runEffect x : keeps I (runEffect pull x).
Proof using pull_keeps.
  unfold runEffect. repeat subscribed_step;
    try apply subscribed_handle; try apply subscribed_runProg.
Qed.
End Interpreter.

Lemma subscribed_updateSignal fuel t : keeps I (updateSignal fuel t).
Proof.
  revert t. induction fuel as [|fuel IH]; intros t; [by constructor|].
  simpl. repeat subscribed_step.
  - apply IH.
  - by apply subscribed_updateDerivedSignal.
Qed.

Lemma subscribed_resolveStale fuel rounds : keeps I (resolveStale fuel rounds).
Proof.
  induction rounds as [|rounds IH]; [by constructor|].
  simpl. repeat subscribed_step; try done.
  apply subscribed_updateDerivedSignal, subscribed_updateSignal.
Qed.

Lemma subscribed_updateState fuel run : keeps I (updateState fuel run).
Proof.
  unfold updateState. repeat subscribed_step;
    try apply subscribed_runProg, subscribed_updateSignal;
    try apply subscribed_resolveStale;
    try apply subscribed_runEffect, subscribed_updateSignal.
Qed.

Lemma subscribed_derive fuel f : keeps I (derive fuel f).
Proof.
  unfold derive. repeat subscribed_step;
    try apply subscribed_runProg, subscribed_updateSignal.
Qed.

Lemma subscribed_effect fuel sources callback : keeps I (effect fuel sources callback).
Proof.
  unfold effect. repeat subscribed_step;
    try apply subscribed_runEffect, subscribed_updateSignal.
Qed.

Lemma subscribed_reclaim h : keeps I (reclaim h).
Proof.
  unfold reclaim. repeat subscribed_step;
    try apply subscribed_removeTrackerDependencies.
Qed.

Lemma subscribed_perform fuel op : keeps I (perform fuel op).
Proof.
  destruct op; simpl; unfold arrayState, mapOf, map, join; repeat subscribed_step;
    try apply subscribed_state; try apply subscribed_derive; try apply subscribed_effect;
    try apply subscribed_runProg, subscribed_updateSignal;
    try apply subscribed_updateState; try apply subscribed_reclaim.
Qed.

Lemma subscribed_later w0 w : I w0 → laterThan w0 w → I w.
Proof.
  intros H0. induction 1 as [|fuel op w w' _ IH Hstep]; [done|].
  pose proof (triple_run _ _ _ _ w (subscribed_perform fuel op) IH) as Hop.
  destruct (perform fuel op w) as [[] w2|err w2|]; simpl in *; [| |done];
    injection Hstep as <-; exact Hop.
Qed.
End Subscribed.

(** C7. [effect] returns nothing, and nothing detaches what it attached.
    Whenever [effect] returns, what it returns is [undefined] (the one value
    of its result type), the closure it made is in the downstream-effect set
    of every source, and it is still there after every sequence of public
    operations, whether they return or throw: no function of the library
    takes a closure out of a downstream-effect set. *)
Theorem effect_subscription_is_permanent (fuel : nat) (sources : list TrackerId)
    (callback : list (Value * bool) → prog unit) (w w1 : World) (result : unit) :
  effect fuel sources callback w = Done result w1 →
  result = tt
  ∧ ∀ w2, laterThan w1 w2 →
          ∀ s, s ∈ sources → subscribedTo s (length (effects w)) w2.
Proof.
  intros Hrun. split; [by destruct result|]. intros w2 Hlater s Hs.
  apply (subscribed_later s (length (effects w)) w1); [|done].
  clear w2 Hlater. destruct result. unfold effect in Hrun.
  unfold bind at 1, getStateData in Hrun.
  destruct (mode (stateData w)); try discriminate.
  unfold bind at 1, allocEffect in Hrun.
  unfold bind at 1, setStateData, modifyWorld in Hrun.
  unfold bind at 1 in Hrun.
  match type of Hrun with context [runEffect ?p ?x ?w0] =>
    destruct (runEffect p x w0) as [[] wa| |]; try discriminate end.
  unfold bind at 1 in Hrun. simpl in Hrun.
  eapply (forEach_modify_makes _ (λ tr, length (effects w) ∈ downstreamEffects tr));
    [| |exact Hrun|exact Hs].
  - intros tr Hin. simpl. apply elem_of_JsSet_add. by right.
  - intros tr. simpl. apply elem_of_JsSet_add. by left.
Qed.

Lemma effect_subscription_is_permanent_witness :
  tt = tt
  ∧ ∀ w2, laterThan RemoveEffect.subscribed w2 →
          ∀ s, s ∈ [RemoveEffect.count] →
               subscribedTo s (length (effects RemoveEffect.world)) w2.
Proof.
  apply (effect_subscription_is_permanent 1 [RemoveEffect.count] RemoveEffect.callback
           RemoveEffect.world RemoveEffect.subscribed tt).
  vm_compute. reflexivity.
Defined.

(** ** Fresh evaluation *)

Lemma strictEq_primitive a b :
  primitive a → primitive b → strictEq a b = true → a = b.
Proof.
  destruct a, b; simpl; try done. intros _ _ H. f_equal. lia.
Qed.

Lemma evaluate_agree ts ts' p v rs :
  evaluate ts p = Some (v, rs) →
  (∀ s, s ∈ rs → value <$> ts' !! s = value <$> ts !! s) →
  evaluate ts' p = Some (v, rs).
Proof.
  revert v rs. induction p as [a|X c k IH]; intros v rs; simpl; [done|].
  destruct c; try done.
  destruct (ts !! s) as [tr|] eqn:Hs; [|done].
  destruct (evaluate ts (k (value tr))) as [[v1 rs1]|] eqn:Hk; [|done].
  intros [= <- <-] Hagree.
  pose proof (Hagree s ltac:(by left)) as Hsame. rewrite Hs in Hsame.
  destruct (ts' !! s) as [tr'|]; [|done]. simpl in Hsame.
  injection Hsame as Hsame. rewrite Hsame.
  rewrite (IH (value tr) v1 rs1 Hk); [done|].
  intros u Hu. apply Hagree. by right.
Qed.

Lemma evaluate_reader d ts p v rs :
  reader d p → evaluate ts p = Some (v, rs) →
  primitive v ∧ ∀ s, s ∈ rs → (s < d)%nat.
Proof.
  revert v rs. induction p as [a|X c k IH]; intros v rs; simpl.
  - intros Hp [= <- <-]. split; [done|]. intros s Hs. by apply elem_of_nil in Hs.
  - destruct c; try done. intros [Hlt Hk].
    destruct (ts !! s) as [tr|]; [|done].
    destruct (evaluate ts (k (value tr))) as [[v1 rs1]|] eqn:Hev; [|done].
    intros [= <- <-]. destruct (IH _ _ _ (Hk _) Hev) as [Hprim Hbelow].
    split; [done|]. intros u [->|Hu]%elem_of_cons; auto.
Qed.

Lemma evaluate_values ts ts' p :
  (∀ s, value <$> ts' !! s = value <$> ts !! s) →
  evaluate ts' p = evaluate ts p.
Proof.
  intros Hsame. induction p as [a|X c k IH]; simpl; [done|].
  destruct c; try done.
  pose proof (Hsame s) as Hs.
  destruct (ts !! s) as [tr|], (ts' !! s) as [tr'|]; simpl in Hs; try done.
  injection Hs as ->. by rewrite IH.
Qed.

(** ** Steps that only move edges *)

Lemma bind_Done_inv {A B} (m : M A) (k : A → M B) w b w' :
  bind m k w = Done b w' → ∃ a w1, m w = Done a w1 ∧ k a w1 = Done b w'.
Proof. unfold bind. destruct (m w) as [a w1| |]; [|done..]. eauto. Qed.

Lemma coreKept_lookup_inv w w' x tr' :
  coreKept w w' → trackers w' !! x = Some tr' →
  ∃ tr, trackers w !! x = Some tr ∧ sameCore tr tr'.
Proof.
  intros (Hlen & Hk & _) Hx.
  destruct (lookup_lt_is_Some_2 (trackers w) x) as [tr Htr].
  { rewrite <- Hlen. by eapply lookup_lt_Some. }
  destruct (Hk x tr Htr) as (tr1 & Htr1 & Hcore).
  exists tr. split; [done|]. congruence.
Qed.

Lemma coreKept_values w w' s :
  coreKept w w' → value <$> trackers w' !! s = value <$> trackers w !! s.
Proof.
  intros Hk. destruct (trackers w' !! s) as [tr'|] eqn:Hs'.
  - destruct (coreKept_lookup_inv _ _ _ _ Hk Hs') as (tr & -> & Hcore).
    simpl. f_equal. apply Hcore.
  - destruct (trackers w !! s) as [tr|] eqn:Hs; [|done].
    destruct (proj1 (proj2 Hk) s tr Hs) as (tr1 & Htr1 & _). congruence.
Qed.

Lemma coreKept_isDerived w w' x : coreKept w w' → isDerived w x ↔ isDerived w' x.
Proof.
  intros Hk. split.
  - intros (tr & Htr & Hty). destruct (proj1 (proj2 Hk) x tr Htr) as (tr' & Htr' & Hcore).
    exists tr'. split; [done|]. destruct Hcore as (-> & _). done.
  - intros (tr' & Htr' & Hty).
    destruct (coreKept_lookup_inv _ _ _ _ Hk Htr') as (tr & Htr & Hcore).
    exists tr. split; [done|]. destruct Hcore as (<- & _). done.
Qed.

Lemma consistent_coreKept w w' tr tr' :
  coreKept w w' → sameCore tr tr' → upstreamSignals tr' = upstreamSignals tr →
  consistent (trackers w) tr → consistent (trackers w') tr'.
Proof.
  intros Hk (_ & Hv & _ & _ & Hf) Hup (rs & Hev & Hrs).
  exists rs. rewrite Hf, Hv, Hup. split; [|done].
  rewrite (evaluate_values (trackers w)); [done|]. intros s. by apply coreKept_values.
Qed.

Lemma frame_refl t w : frame t w w.
Proof. split; try done. intros x tr Hx. exists tr. auto. Qed.

Lemma frame_trans t a b c : frame t a b → frame t b c → frame t a c.
Proof.
  intros [Hl1 Ha1 Hk1 Hf1] [Hl2 Ha2 Hk2 Hf2]. split.
  - congruence.
  - intros x Hx. rewrite Ha2, Ha1; done.
  - intros x tr Hx. destruct (Hk1 x tr Hx) as (tr1 & Hx1 & Hty1 & Hfn1 & Hv1).
    destruct (Hk2 x tr1 Hx1) as (tr2 & Hx2 & Hty2 & Hfn2 & Hv2).
    exists tr2. split; [done|]. split; [congruence|]. split; [congruence|].
    intros Hcase. rewrite Hv2, Hv1; [done|done|].
    destruct Hcase as [Hst|Hfr]; [left; congruence|right; auto].
  - auto.
Qed.

Lemma frame_mono t t' w w' : (t ≤ t')%nat → frame t w w' → frame t' w w'.
Proof.
  intros Hle [Hl Ha Hk Hf]. split; try done. intros x Hx. apply Ha. lia.
Qed.

Lemma frame_isDerived t w w' x : frame t w w' → isDerived w x ↔ isDerived w' x.
Proof.
  intros [Hl Ha Hk Hf]. split.
  - intros (tr & Htr & Hty). destruct (Hk x tr Htr) as (tr' & Htr' & Hty' & _).
    exists tr'. split; [done|congruence].
  - intros (tr' & Htr' & Hty).
    destruct (lookup_lt_is_Some_2 (trackers w) x) as [tr Htr].
    { rewrite <- Hl. by eapply lookup_lt_Some. }
    destruct (Hk x tr Htr) as (tr1 & Htr1 & Hty1 & _).
    exists tr. split; [done|congruence].
Qed.

Lemma frame_of_coreKept t w w' :
  coreKept w w' → (∀ x, (t < x)%nat → trackers w' !! x = trackers w !! x) →
  frame t w w'.
Proof.
  intros Hk Habove. pose proof Hk as (Hlen & Hkept & _ & _ & Hsd & _). split.
  - done.
  - done.
  - intros x tr Hx. destruct (Hkept x tr Hx) as (tr' & Hx' & Hty & Hv & _ & _ & Hf).
    exists tr'. auto.
  - intros x. by rewrite Hsd.
Qed.

Lemma wellFormed_relinked d w w' :
  wellFormed w → coreKept w w' → graphOk w' →
  (∀ x, x ≠ d → upstreamOf w' x = upstreamOf w x) →
  (∀ u, u ∈ upstreamOf w' d → (u < d)%nat) →
  isDerived w d →
  wellFormed w'.
Proof.
  intros [Hg Hst Hdv Hbl] Hk Hg' Hup Hd (trd & Htrd & Htyd). split.
  - done.
  - intros x tr' Hx' Hty.
    destruct (coreKept_lookup_inv _ _ _ _ Hk Hx') as (tr & Hx & Hcore).
    assert (x ≠ d).
    { intros ->. destruct Hcore as (Hty' & _). congruence. }
    rewrite <- (upstreamOf_lookup _ _ _ Hx'), Hup by done.
    rewrite (upstreamOf_lookup _ _ _ Hx). apply (Hst x); [done|].
    destruct Hcore as (Hty' & _). congruence.
  - intros x tr' Hx' Hty.
    destruct (coreKept_lookup_inv _ _ _ _ Hk Hx') as (tr & Hx & (Hty' & Hv & _ & _ & Hf)).
    rewrite Hf, Hv. apply (Hdv x); [done|congruence].
  - intros x u Hu. destruct (decide (x = d)) as [->|Hne]; [by apply Hd|].
    rewrite Hup in Hu by done. by apply Hbl.
Qed.

Lemma tracking_relinked d w w' :
  tracking w → coreKept w w' → graphOk w' →
  (∀ x, x ≠ d → upstreamOf w' x = upstreamOf w x) →
  (∀ u, u ∈ upstreamOf w' d → (u < d)%nat) →
  isDerived w d → d ∈ staleOf (stateData w) →
  tracking w'.
Proof.
  intros [Hwf Hcons Hfl Hsl] Hk Hg' Hup Hd Hder Hstale.
  pose proof Hk as (_ & _ & _ & _ & Hsd & _). split.
  - by eapply wellFormed_relinked.
  - intros x tr' Hx' Hty Hns. rewrite Hsd in Hns.
    destruct (coreKept_lookup_inv _ _ _ _ Hk Hx') as (tr & Hx & Hcore).
    assert (x ≠ d) by (intros ->; done).
    eapply consistent_coreKept; [done|done| |].
    + rewrite <- (upstreamOf_lookup _ _ _ Hx'), <- (upstreamOf_lookup _ _ _ Hx). auto.
    + apply (Hcons x); [done| |done]. destruct Hcore as (Hty' & _). congruence.
  - intros x tr' Hx' Hflag. rewrite Hsd.
    destruct (coreKept_lookup_inv _ _ _ _ Hk Hx') as (tr & Hx & (_ & _ & Hc & _)).
    apply (Hfl x tr); [done|congruence].
  - intros x Hx. rewrite Hsd in Hx. apply (coreKept_isDerived _ _ _ Hk). auto.
Qed.

Lemma resolving_relinked d w w' :
  resolving w → coreKept w w' → graphOk w' →
  (∀ x, x ≠ d → upstreamOf w' x = upstreamOf w x) →
  (∀ u, u ∈ upstreamOf w' d → (u < d)%nat) →
  isDerived w d → d ∈ staleOf (stateData w) →
  resolving w'.
Proof.
  intros [Hmode Htr Hfr Hup Hstk] Hk Hg' Hsame Hd Hder Hstale.
  pose proof Hk as (_ & _ & _ & _ & Hsd & _). split.
  - by rewrite Hsd.
  - by eapply tracking_relinked.
  - rewrite Hsd. done.
  - rewrite Hsd. intros x u Hx Hu Hdu.
    assert (x ≠ d) by (intros ->; by apply (Hfr d)).
    rewrite Hsame in Hu by done.
    apply (Hup x u Hx Hu). by eapply coreKept_isDerived.
  - rewrite Hsd. done.
Qed.

(** ** Linking a read *)

Lemma getDerivationBeingComputed_eq w :
  getDerivationBeingComputed w = Done (list.last (stackOf (stateData w))) w.
Proof.
  unfold getDerivationBeingComputed, bind, getStateData. by destruct (stateData w).
Qed.

Lemma handleDerivationLinking_none w s :
  list.last (stackOf (stateData w)) = None → handleDerivationLinking s w = Done tt w.
Proof.
  intros Hl. unfold handleDerivationLinking.
  rewrite (bind_Done _ _ _ _ _ (getDerivationBeingComputed_eq w)). by rewrite Hl.
Qed.

Lemma handleDerivationLinking_linked w s d trs trd :
  list.last (stackOf (stateData w)) = Some d →
  trackers w !! s = Some trs → trackers w !! d = Some trd → s ≠ d →
  ∃ w', handleDerivationLinking s w = Done tt w'
        ∧ coreKept w w'
        ∧ (∀ x, x ≠ s → x ≠ d → trackers w' !! x = trackers w !! x)
        ∧ (∀ x, upstreamOf w' x
                = if decide (x = d) then JsSet.add s (upstreamOf w d)
                  else upstreamOf w x)
        ∧ ownKept d w w'.
Proof.
  intros Hl Hs Hd Hne. unfold handleDerivationLinking.
  rewrite (bind_Done _ _ _ _ _ (getDerivationBeingComputed_eq w)). rewrite Hl.
  unfold bind, modifyTracker. rewrite Hs. simpl.
  rewrite list_lookup_insert_ne by done. rewrite Hd.
  eexists. split; [reflexivity|].
  set (trs' := setDownstreamSignals _ trs).
  set (trd' := setUpstreamSignals _ trd).
  assert (Hlt_s : (s < length (trackers w))%nat) by (by eapply lookup_lt_Some).
  assert (Hlt_d : (d < length (trackers w))%nat) by (by eapply lookup_lt_Some).
  split; [|split; [|split]].
  - split; [simpl; by rewrite !length_insert|]. split; [|done].
    intros i tr Hi. simpl.
    destruct (decide (i = d)) as [->|Hid].
    + exists trd'. rewrite list_lookup_insert_eq by (by rewrite length_insert).
      split; [done|]. assert (tr = trd) as -> by congruence. by repeat split.
    + rewrite list_lookup_insert_ne by done.
      destruct (decide (i = s)) as [->|His].
      * exists trs'. rewrite list_lookup_insert_eq by done.
        split; [done|]. assert (tr = trs) as -> by congruence. by repeat split.
      * exists tr. rewrite list_lookup_insert_ne by done.
        split; [done|apply sameCore_refl].
  - intros x Hxs Hxd. simpl. by rewrite !list_lookup_insert_ne.
  - intros x. unfold upstreamOf. simpl. case_decide as Hx.
    + subst x. rewrite list_lookup_insert_eq by (by rewrite length_insert).
      by rewrite Hd.
    + rewrite list_lookup_insert_ne by done.
      destruct (decide (x = s)) as [->|His].
      * rewrite list_lookup_insert_eq by done. by rewrite Hs.
      * by rewrite list_lookup_insert_ne.
  - exists trd, trd'. split; [done|]. split.
    + simpl. by rewrite list_lookup_insert_eq by (by rewrite length_insert).
    + by repeat split.
Qed.

Lemma ownKept_refl d w : isDerived w d → ownKept d w w.
Proof. intros (tr & Htr & _). exists tr, tr. by repeat split. Qed.

Lemma ownKept_trans d a b c : ownKept d a b → ownKept d b c → ownKept d a c.
Proof.
  intros (t1 & t2 & H1 & H2 & Hc1 & Hd1) (t2' & t3 & H2' & H3 & Hc2 & Hd2).
  assert (t2' = t2) as -> by congruence.
  exists t1, t3. split; [done|]. split; [done|]. split; [by eapply sameCore_trans|congruence].
Qed.

Lemma ownKept_frame s d w w' :
  (s < d)%nat → isDerived w d → frame s w w' → ownKept d w w'.
Proof.
  intros Hlt (tr & Htr & _) Hf. exists tr, tr. split; [done|].
  split; [by rewrite (frame_above _ _ _ Hf)|]. by repeat split.
Qed.

Lemma upstreamOf_frame s d w w' :
  (s < d)%nat → frame s w w' → upstreamOf w' d = upstreamOf w d.
Proof. intros Hlt Hf. unfold upstreamOf. by rewrite (frame_above _ _ _ Hf). Qed.

(** A read by the derivation in progress [d] links it and keeps the
    resolution invariant. *)
Lemma resolving_link w s d trs :
  resolving w → list.last (stackOf (stateData w)) = Some d →
  isDerived w d → (s < d)%nat → trackers w !! s = Some trs →
  ∃ w', handleDerivationLinking s w = Done tt w'
        ∧ resolving w' ∧ frame d w w' ∧ ownKept d w w'
        ∧ upstreamOf w' d = JsSet.add s (upstreamOf w d)
        ∧ stateData w' = stateData w
        ∧ trackers w' !! s
          = Some (setDownstreamSignals (JsSet.add d (downstreamSignals trs)) trs).
Proof.
  intros Hres Hl Hder Hlt Hs. pose proof Hder as (trd & Hd & Hty).
  destruct (handleDerivationLinking_linked w s d trs trd Hl Hs Hd ltac:(lia))
    as (w' & Hrun & Hk & Hrest & Hup & Hown).
  exists w'. split; [done|].
  assert (Hg' : graphOk w').
  { pose proof (triple_run _ _ _ _ w (keeps_handleDerivationLinking s)
                  (wf_graph _ (tracking_wf _ (resolving_tracking _ Hres)))) as Hrun'.
    by rewrite Hrun in Hrun'. }
  assert (Hupd : upstreamOf w' d = JsSet.add s (upstreamOf w d)).
  { rewrite Hup. by rewrite decide_True. }
  split; [|split; [|split; [done|split; [done|split; [apply Hk|]]]]].
  - eapply (resolving_relinked d w w'); try done.
    + intros x Hx. rewrite Hup. by rewrite decide_False.
    + intros u. rewrite Hupd, elem_of_JsSet_add. intros [->|Hu]; [done|].
      by apply (wf_below _ (tracking_wf _ (resolving_tracking _ Hres))).
    + apply (resolving_stack _ Hres). by apply last_Some_elem_of.
  - apply frame_of_coreKept; [done|]. intros x Hx. apply Hrest; lia.
  - revert Hrun. unfold handleDerivationLinking.
    rewrite (bind_Done _ _ _ _ _ (getDerivationBeingComputed_eq w)). rewrite Hl.
    unfold bind, modifyTracker. rewrite Hs. simpl.
    rewrite list_lookup_insert_ne by lia. rewrite Hd. intros [= <-]. simpl.
    rewrite list_lookup_insert_ne by lia.
    apply list_lookup_insert_eq. by eapply lookup_lt_Some.
Qed.

(** ** Resolving stale trackers *)

Lemma downstream_isDerived w a x :
  wellFormed w → x ∈ downstreamOf w a → isDerived w x.
Proof.
  intros [Hg Hst Hdv Hbl] Hin. apply (graph_symmetric _ Hg) in Hin.
  unfold upstreamOf in Hin. destruct (trackers w !! x) as [tr|] eqn:Hx.
  - exists tr. split; [done|]. destruct (type tr) eqn:Hty; [|done].
    rewrite (Hst x tr Hx Hty) in Hin. by apply elem_of_nil in Hin.
  - by apply elem_of_nil in Hin.
Qed.

Section Resolution.
Variable pull : TrackerId → M unit.
Hypothesis pull_spec : pullSpec pull.

(** One read of [s] by the derivation in progress [d]. *)
Lemma read_step w s d x w2 :
  resolving w → list.last (stackOf (stateData w)) = Some d →
  (∀ y, y ∈ stackOf (stateData w) → (d ≤ y)%nat) →
  isDerived w d → (s < d)%nat →
  handle pull (GetValue s) w = Done x w2 →
  resolving w2 ∧ frame d w w2 ∧ ownKept d w w2
  ∧ upstreamOf w2 d = JsSet.add s (upstreamOf w d)
  ∧ stackOf (stateData w2) = stackOf (stateData w)
  ∧ ∃ tr2, trackers w2 !! s = Some tr2 ∧ value tr2 = x
           ∧ (type tr2 = State ∨ s ∈ freshOf (stateData w2)).
Proof using pull_spec.
  intros Hres Hl Hstack Hder Hlt Hrun. simpl in Hrun.
  apply bind_Done_inv in Hrun as (trs & w0 & Hget & Hrun).
  unfold getTracker in Hget. destruct (trackers w !! s) as [trs0|] eqn:Hs; [|done].
  injection Hget as <- <-. rename trs0 into trs.
  destruct (resolving_link w s d trs Hres Hl Hder Hlt Hs)
    as (w1 & Hlink & Hres1 & Hfr1 & Hown1 & Hup1 & Hsd1 & Hs1).
  destruct (type trs) eqn:Hty.
  - rewrite (bind_Done _ _ _ _ _ Hlink) in Hrun.
    rewrite (bind_Done _ _ _ _ _ (getTracker_Some _ _ _ Hs1)) in Hrun.
    injection Hrun as <- <-.
    split; [done|]. split; [done|]. split; [done|]. split; [done|].
    split; [by rewrite Hsd1|].
    eexists. split; [exact Hs1|]. split; [done|]. left. done.
  - rewrite (bind_Done _ _ _ (stateData w) w) in Hrun by done.
    rewrite (resolving_mode _ Hres) in Hrun.
    rewrite (bind_Done _ _ _ _ _ Hlink) in Hrun.
    rewrite (bind_Done _ _ _ (stateData w1) w1) in Hrun by done.
    rewrite (resolving_mode _ Hres1) in Hrun.
    apply bind_Done_inv in Hrun as ([] & w2' & Hpull & Hrun).
    assert (Hder1 : isDerived w1 s).
    { eexists. split; [exact Hs1|done]. }
    destruct (pull_spec s w1 w2' Hres1) as (Hres2 & Hfr2 & Hstk2 & Hfresh2); [|done|done|].
    { intros y Hy. rewrite Hsd1 in Hy.
      specialize (Hstack y Hy). lia. }
    apply bind_Done_inv in Hrun as (tr2 & w3 & Hget2 & Hrun).
    unfold getTracker in Hget2.
    destruct (trackers w2' !! s) as [tr2'|] eqn:Hs2; [|done].
    injection Hget2 as <- <-. injection Hrun as <- <-.
    split; [done|].
    split; [eapply frame_trans; [exact Hfr1|]; eapply frame_mono; [|exact Hfr2]; lia|].
    split.
    { eapply ownKept_trans; [exact Hown1|]. eapply ownKept_frame; [exact Hlt| |exact Hfr2].
      by apply (frame_isDerived _ _ _ _ Hfr1). }
    split; [by rewrite (upstreamOf_frame s d w1 w2' Hlt Hfr2)|].
    split; [by rewrite Hstk2, Hsd1|].
    exists tr2'. auto.
Qed.

(** Running the function of the derivation in progress [d]: what it
    returns is what the function evaluates to against the values cached when
    it ends, and [d]'s upstream set has gained what it read. *)
Lemma runProg_reader d p :
  reader d p → ∀ w v w',
  resolving w → list.last (stackOf (stateData w)) = Some d →
  (∀ y, y ∈ stackOf (stateData w) → (d ≤ y)%nat) →
  isDerived w d →
  (∀ u, u ∈ upstreamOf w d → isDerived w u → u ∈ freshOf (stateData w)) →
  runProg pull p w = Done v w' →
  resolving w' ∧ frame d w w' ∧ ownKept d w w'
  ∧ stackOf (stateData w') = stackOf (stateData w)
  ∧ ∃ rs, evaluate (trackers w') p = Some (v, rs)
          ∧ (∀ u, u ∈ upstreamOf w' d ↔ u ∈ upstreamOf w d ∨ u ∈ rs)
          ∧ (∀ u, u ∈ upstreamOf w' d → isDerived w' u →
                  u ∈ freshOf (stateData w')).
Proof using pull_spec.
  induction p as [a|X c k IH]; simpl.
  - intros _ w v w' Hres Hl Hstack Hder Hfresh [= <- <-].
    split; [done|]. split; [apply frame_refl|]. split; [by apply ownKept_refl|].
    split; [done|]. exists []. split; [done|]. split; [|done].
    intros u. rewrite elem_of_nil. tauto.
  - destruct c; try done. intros [Hlt Hk] w v w' Hres Hl Hstack Hder Hfresh Hrun.
    apply bind_Done_inv in Hrun as (x & w2 & Hread & Hrun).
    destruct (read_step w s d x w2 Hres Hl Hstack Hder Hlt Hread)
      as (Hres2 & Hfr2 & Hown2 & Hup2 & Hstk2 & tr2 & Hs2 & Hx & Hstable).
    destruct (IH x (Hk x) w2 v w' Hres2)
      as (Hres' & Hfr' & Hown' & Hstk' & rs & Hev & Hup' & Hfresh');
      [by rewrite Hstk2
      |intros y; rewrite Hstk2; apply Hstack
      |by apply (frame_isDerived _ _ _ _ Hfr2)
      | |exact Hrun|].
    { intros u. rewrite Hup2, elem_of_JsSet_add. intros [->|Hu] Hdu.
      - destruct Hstable as [Hst|?]; [|done].
        destruct Hdu as (tr & Htr & Hty). congruence.
      - apply (frame_fresh _ _ _ Hfr2). apply Hfresh; [done|].
        by apply (frame_isDerived _ _ _ _ Hfr2). }
    split; [done|]. split; [by eapply frame_trans|]. split; [by eapply ownKept_trans|].
    split; [by rewrite Hstk', Hstk2|].
    exists (s :: rs).
    destruct (frame_kept _ _ _ Hfr' s tr2 Hs2) as (tr' & Hs' & _ & _ & Hv').
    rewrite Hs', Hv', Hx by done. rewrite Hev.
    split; [done|]. split; [|done].
    intros u. rewrite Hup', Hup2, elem_of_JsSet_add, elem_of_cons. tauto.
Qed.

(** The end of [updateDerivedSignal]: the recomputed tracker [d] takes its
    new value and leaves the stale set; if the value changed ([changed]), its
    readers become stale. *)
Lemma resolving_settle w3 d trd3 trd' sd' v rs k (changed : bool) :
  resolving w3 →
  trackers w3 !! d = Some trd3 → type trd3 = Derived →
  stackOf (stateData w3) = k ++ [d] → (∀ y, y ∈ k → (d < y)%nat) →
  evaluate (trackers w3) (func trd3) = Some (v, rs) →
  (∀ u, u ∈ upstreamSignals trd3 ↔ u ∈ rs) →
  (∀ u, u ∈ upstreamOf w3 d → isDerived w3 u → u ∈ freshOf (stateData w3)) →
  type trd' = type trd3 → func trd' = func trd3 →
  downstreamSignals trd' = downstreamSignals trd3 →
  upstreamSignals trd' = upstreamSignals trd3 →
  value trd' = v →
  (if changed
   then hasChanged trd' = true ∧ changedOf sd' = changedOf (stateData w3) ++ [d]
   else v = value trd3 ∧ hasChanged trd' = hasChanged trd3
        ∧ changedOf sd' = changedOf (stateData w3)) →
  mode sd' = UpdatingDerivedSignals →
  freshOf sd' = freshOf (stateData w3) →
  stackOf sd' = k →
  (∀ x, x ∈ staleOf sd'
        ↔ (x ≠ d ∧ x ∈ staleOf (stateData w3))
          ∨ (changed = true ∧ x ∈ downstreamSignals trd3)) →
  let w' := withStateData sd' (withTrackers (λ ts, <[d := trd']> ts) w3) in
  (resolving w' ∧ frame d w3 w' ∧ (d ∉ staleOf (stateData w'))
   ∧ (∀ u, u ∈ upstreamOf w' d → isDerived w' u → u ∈ freshOf (stateData w'))).
Proof.
  intros Hres Hd Hty Hstk Hk Hev Hrs Hfresh Hty' Hfn' Hdn' Hup' Hv' Hch Hmode' Hfr' Hstk' Hstale' w'.
  pose proof Hres as [Hmode [[Hg Hst Hdv Hbl] Hcons Hfl Hsl] Hrf Hru Hrs'].
  assert (Hlt : (d < length (trackers w3))%nat) by (by eapply lookup_lt_Some).
  assert (Hlook : ∀ x, trackers w' !! x
                       = if decide (x = d) then Some trd' else trackers w3 !! x).
  { intros x. unfold w'. simpl. case_decide as Hx.
    - subst. by apply list_lookup_insert_eq.
    - by apply list_lookup_insert_ne. }
  assert (Hupst : ∀ x, upstreamOf w' x = upstreamOf w3 x).
  { intros x. unfold upstreamOf. rewrite Hlook. case_decide; [|done].
    subst. by rewrite Hd, Hup'. }
  assert (Hdownst : ∀ x, downstreamOf w' x = downstreamOf w3 x).
  { intros x. unfold downstreamOf. rewrite Hlook. case_decide; [|done].
    subst. by rewrite Hd, Hdn'. }
  assert (HisD : ∀ x, isDerived w' x ↔ isDerived w3 x).
  { intros x. unfold isDerived. rewrite Hlook. case_decide as Hx; [|done]. subst x.
    split.
    - intros (tr & [= <-] & Ht). exists trd3. split; [done|congruence].
    - intros (tr & Htr & Ht). exists trd'. split; [done|congruence]. }
  assert (Hself : d ∉ downstreamSignals trd3).
  { intros Hin. rewrite <- (downstreamOf_lookup _ _ _ Hd) in Hin.
    apply (graph_symmetric _ Hg) in Hin. apply Hbl in Hin. lia. }
  assert (Hdstale : d ∈ staleOf (stateData w3) ∧ d ∉ freshOf (stateData w3)).
  { apply Hrs'. rewrite Hstk. apply elem_of_app. right. by left. }
  destruct (evaluate_reader d _ _ _ _ (proj1 (Hdv d trd3 Hd Hty)) Hev) as [Hprim Hbelow].
  assert (Hg' : graphOk w').
  { apply graphOk_withStateData.
    - simpl. rewrite Hstk', Hstk. intros y Hy. apply elem_of_app. by left.
    - by apply (graphOk_modify w3 d trd3 (λ _, trd')). }
  assert (Hnotstale : d ∉ staleOf (stateData w')).
  { simpl. rewrite Hstale'. intros [[? _]|[_ ?]]; done. }
  split; [|split; [|split; [done|]]].
  - split.
    + done.
    + split.
      * split.
        -- done.
        -- intros x tr Hx Htx. rewrite Hlook in Hx. case_decide.
           ++ injection Hx as <-. congruence.
           ++ by apply (Hst x).
        -- intros x tr Hx Htx. rewrite Hlook in Hx. case_decide.
           ++ injection Hx as <-. subst x. rewrite Hfn', Hv'.
              split; [|done]. by apply (Hdv d trd3).
           ++ by apply (Hdv x).
        -- intros x u. rewrite Hupst. apply Hbl.
      * intros x tr Hx Htx Hns. rewrite Hlook in Hx. case_decide as Hxd.
        -- injection Hx as <-. exists rs. rewrite Hfn', Hv', Hup'. split; [|done].
           apply (evaluate_agree (trackers w3)); [done|].
           intros s Hs. rewrite Hlook. rewrite decide_False; [done|].
           specialize (Hbelow s Hs). lia.
        -- assert (Hns3 : x ∉ staleOf (stateData w3)).
           { intros Hin. apply Hns. simpl. apply Hstale'. by left. }
           destruct (Hcons x tr Hx Htx Hns3) as (rsx & Hevx & Hrsx).
           exists rsx. split; [|done].
           apply (evaluate_agree (trackers w3)); [done|].
           intros s Hs. rewrite Hlook. case_decide as Hsd; [|done]. subst s.
           rewrite Hd. simpl. f_equal. rewrite Hv'.
           destruct changed.
           ++ exfalso. apply Hns. simpl. apply Hstale'. right. split; [done|].
              rewrite <- (downstreamOf_lookup _ _ _ Hd).
              apply (graph_symmetric _ Hg). rewrite (upstreamOf_lookup _ _ _ Hx).
              by apply Hrsx.
           ++ by destruct Hch as (-> & _).
      * intros x tr Hx Hflag. rewrite Hlook in Hx. simpl. case_decide as Hxd.
        -- injection Hx as <-. subst x. destruct changed.
           ++ destruct Hch as (_ & ->). apply elem_of_app. right. by left.
           ++ destruct Hch as (_ & Hsame & ->). apply (Hfl d trd3); [done|congruence].
        -- assert (x ∈ changedOf (stateData w3)) by (by apply (Hfl x tr)).
           destruct changed.
           ++ destruct Hch as (_ & ->). apply elem_of_app. by left.
           ++ by destruct Hch as (_ & _ & ->).
      * intros x. simpl. rewrite Hstale', HisD.
        intros [[_ Hin]|[_ Hin]]; [by apply Hsl|].
        apply (downstream_isDerived w3 d); [done|].
        by rewrite (downstreamOf_lookup _ _ _ Hd).
    + simpl. rewrite Hfr'. intros x Hx. rewrite Hstale'.
      intros [[_ Hin]|[_ Hin]]; [by apply (Hrf x)|].
      apply (proj2 Hdstale). apply (Hru x d Hx); [|by exists trd3].
      apply (graph_symmetric _ Hg). by rewrite (downstreamOf_lookup _ _ _ Hd).
    + simpl. rewrite Hfr'. intros x u Hx. rewrite Hupst, HisD. by apply Hru.
    + simpl. rewrite Hstk', Hfr'. intros x Hx.
      destruct (Hrs' x) as [Hxs Hxf]; [rewrite Hstk; apply elem_of_app; by left|].
      split; [|done]. apply Hstale'. left. split; [|done].
      specialize (Hk x Hx). lia.
  - split.
    + unfold w'. simpl. by rewrite length_insert.
    + intros x Hx. rewrite Hlook. rewrite decide_False; [done|lia].
    + intros x tr Hx. rewrite Hlook. case_decide as Hxd.
      * subst x. exists trd'. assert (tr = trd3) as -> by congruence.
        split; [done|]. split; [done|]. split; [done|].
        intros [Hs|Hf]; [congruence|]. by destruct Hdstale.
      * exists tr. auto.
    + intros x. simpl. by rewrite Hfr'.
  - intros u. simpl. rewrite Hupst, HisD, Hfr'. apply Hfresh.
Qed.

Lemma stateData_resolving w :
  mode (stateData w) = UpdatingDerivedSignals →
  ∃ c st e f k, stateData w = SUpdatingDerivedSignals c st e f k.
Proof. destruct (stateData w); try done. eauto 10. Qed.

Lemma resolving_push w d :
  resolving w → isDerived w d → d ∈ staleOf (stateData w) →
  resolving (withStateData (pushDerivation d (stateData w)) w)
  ∧ stackOf (pushDerivation d (stateData w)) = stackOf (stateData w) ++ [d].
Proof.
  intros [Hmode [[Hg Hst Hdv Hbl] Hcons Hfl Hsl] Hrf Hru Hrs] (trd & Hd & Hty) Hstale.
  destruct (stateData_resolving w Hmode) as (c & st & e & f & k & Hsd).
  rewrite Hsd in *. simpl in *. split; [|done]. split; simpl.
  - done.
  - split; [split|..]; simpl; try done.
    destruct Hg as [Hsym Hnd Hstk Hreg]. split; try done. simpl. rewrite Hsd in Hstk.
    intros y [Hy|Hy%list_elem_of_singleton]%elem_of_app; [by apply Hstk|].
    subst. by eapply lookup_lt_Some.
  - done.
  - done.
  - intros y [Hy|Hy%list_elem_of_singleton]%elem_of_app; [by apply Hrs|].
    subst. split; [done|]. intros Hin. by apply (Hrf d).
Qed.

(** [updateDerivedSignal] on a stale tracker older than every derivation in
    progress. *)
Lemma updateDerivedSignal_spec d w w' :
  resolving w → (∀ y, y ∈ stackOf (stateData w) → (d < y)%nat) →
  isDerived w d → d ∈ staleOf (stateData w) →
  updateDerivedSignal pull d w = Done tt w' →
  resolving w' ∧ frame d w w'
  ∧ stackOf (stateData w') = stackOf (stateData w)
  ∧ (d ∉ staleOf (stateData w'))
  ∧ (∀ u, u ∈ upstreamOf w' d → isDerived w' u → u ∈ freshOf (stateData w')).
Proof using pull_spec.
  intros Hres Hstack Hder Hstale Hrun. pose proof Hder as (trd & Hd & Hty).
  pose proof (tracking_wf _ (resolving_tracking _ Hres)) as Hwf.
  unfold updateDerivedSignal in Hrun.
  rewrite (bind_Done _ _ _ (stateData w) w) in Hrun by done.
  rewrite (resolving_mode _ Hres) in Hrun.
  destruct (removeTrackerDependencies_spec w d trd (wf_graph _ Hwf) Hd)
    as (w1 & Hrm & Hg1 & Hdown1 & Hup1 & Hk1 & Hrest1).
  rewrite (bind_Done _ _ _ _ _ Hrm) in Hrun.
  assert (Hupd1 : upstreamOf w1 d = []) by (rewrite Hup1; by rewrite decide_True).
  assert (Hres1 : resolving w1).
  { eapply (resolving_relinked d w w1); try done.
    - intros x Hx. rewrite Hup1. by rewrite decide_False.
    - intros u. rewrite Hupd1. intros Hu. by apply elem_of_nil in Hu. }
  assert (Hfr1 : frame d w w1).
  { apply frame_of_coreKept; [done|]. intros x Hx. apply Hrest1; [|lia].
    intros Hin. apply (wf_below _ Hwf) in Hin. lia. }
  pose proof Hk1 as (_ & Hkept1 & _ & _ & Hsd1 & _).
  destruct (Hkept1 d trd Hd) as (trd1 & Hd1 & Hcore1).
  rewrite (bind_Done _ _ _ _ _ (getTracker_Some _ _ _ Hd1)) in Hrun.
  assert (Hder1 : isDerived w1 d) by (by apply (coreKept_isDerived _ _ _ Hk1)).
  destruct (resolving_push w1 d Hres1 Hder1) as [Hres2 Hstk2]; [by rewrite Hsd1|].
  set (w2 := withStateData (pushDerivation d (stateData w1)) w1) in *.
  rewrite (bind_Done _ _ _ tt w2) in Hrun by done.
  apply bind_Done_inv in Hrun as (v & w3 & Hfunc & Hrun).
  assert (Hty1 : type trd1 = Derived) by (destruct Hcore1 as (-> & _); done).
  destruct (wf_derived _ (tracking_wf _ (resolving_tracking _ Hres1)) d trd1 Hd1 Hty1)
    as [Hreader Hprim1].
  destruct (runProg_reader d (func trd1) Hreader w2 v w3 Hres2)
    as (Hres3 & Hfr3 & Hown3 & Hstk3 & rs & Hev & Hrs & Hfresh3).
  { simpl. rewrite Hstk2. apply last_snoc. }
  { simpl. rewrite Hstk2, Hsd1.
    intros y [Hy|Hy%list_elem_of_singleton]%elem_of_app; [|lia].
    specialize (Hstack y Hy). lia. }
  { exact Hder1. }
  { intros u. change (upstreamOf w2 d) with (upstreamOf w1 d). rewrite Hupd1.
    intros Hu. by apply elem_of_nil in Hu. }
  { exact Hfunc. }
  destruct Hown3 as (trd2 & trd3 & Hd2 & Hd3 & Hcore3 & Hdn3).
  change (trackers w2) with (trackers w1) in Hd2.
  assert (trd2 = trd1) as -> by congruence.
  assert (Hty3 : type trd3 = Derived).
  { destruct Hcore3 as (-> & _). done. }
  assert (Hfn3 : func trd3 = func trd1) by apply Hcore3.
  assert (Hval3 : value trd3 = value trd1) by apply Hcore3.
  assert (Hrs3 : ∀ u, u ∈ upstreamSignals trd3 ↔ u ∈ rs).
  { intros u. rewrite <- (upstreamOf_lookup _ _ _ Hd3), Hrs.
    change (upstreamOf w2 d) with (upstreamOf w1 d). rewrite Hupd1, elem_of_nil. tauto. }
  destruct (evaluate_reader d _ _ _ _ Hreader Hev) as [Hprim _].
  rewrite <- Hfn3 in Hev.
  destruct (stateData_resolving w3 (resolving_mode _ Hres3)) as (c3 & st3 & e3 & f3 & k3 & Hsd3).
  assert (Hk3 : k3 = stackOf (stateData w) ++ [d]).
  { rewrite Hsd3 in Hstk3. simpl in Hstk3. rewrite Hstk3, Hstk2. by rewrite Hsd1. }
  set (k := stackOf (stateData w)) in *.
  assert (Hframes : ∀ w4, frame d w3 w4 → frame d w w4).
  { intros w4 Hf4. eapply frame_trans; [exact Hfr1|].
    eapply frame_trans; [|eapply frame_trans; [exact Hfr3|exact Hf4]].
    split; try done; [intros x tr Hx; exists tr; auto|].
    intros x. simpl.
    destruct (stateData_resolving w1 (resolving_mode _ Hres1)) as (? & ? & ? & ? & ? & ->).
    done. }
  unfold bind, modifyTracker, modifyStateData, modifyWorld in Hrun.
  rewrite Hd3 in Hrun. simpl in Hrun. rewrite Hsd3 in Hrun. simpl in Hrun.
  rewrite Hk3, removelast_last in Hrun.
  destruct (strictEq v (value trd1)) eqn:Heq.
  - injection Hrun as <-.
    destruct (resolving_settle w3 d trd3 (setValue v trd3)
                (SUpdatingDerivedSignals c3 (JsSet.delete d st3) e3 f3 k)
                v rs k false Hres3 Hd3 Hty3)
      as (Hres' & Hfr' & Hns' & Hfresh'); try done.
    + by rewrite Hsd3, Hk3.
    + split; [|by rewrite Hsd3].
      rewrite Hval3. by apply strictEq_primitive.
    + by rewrite Hsd3.
    + intros x. rewrite Hsd3. simpl. rewrite elem_of_JsSet_delete.
      split; [tauto|]. intros [?|[? _]]; done.
    + split; [exact Hres'|]. split; [by apply Hframes|]. done.
  - unfold getTracker in Hrun. simpl in Hrun.
    rewrite list_lookup_insert_eq in Hrun by (by eapply lookup_lt_Some).
    simpl in Hrun. destruct (hasChanged trd3) eqn:Hflag; [done|].
    simpl in Hrun.
    rewrite list_lookup_insert_eq in Hrun by (by eapply lookup_lt_Some).
    simpl in Hrun. injection Hrun as <-.
    destruct (resolving_settle w3 d trd3 (setHasChanged true (setValue v trd3))
                (SUpdatingDerivedSignals (c3 ++ [d])
                   (JsSet.addAll (downstreamSignals trd3) (JsSet.delete d st3))
                   (JsSet.addAll (downstreamEffects trd3) e3) f3 k)
                v rs k true Hres3 Hd3 Hty3)
      as (Hres' & Hfr' & Hns' & Hfresh'); try done.
    + by rewrite Hsd3, Hk3.
    + by rewrite Hsd3.
    + by rewrite Hsd3.
    + intros x. rewrite Hsd3. simpl. rewrite elem_of_JsSet_addAll, elem_of_JsSet_delete.
      tauto.
    + assert (Heqw : ∀ (a b : list Tracker) sd (wx : World),
                a = b → withStateData sd (withTrackers (λ _, a) wx)
                        = withStateData sd (withTrackers (λ _, b) wx))
        by (by intros ? ? ? ? ->).
      match goal with |- resolving ?wa ∧ _ =>
        match type of Hres' with resolving ?wb =>
          assert (wa = wb) as ->
        end end.
      { unfold withStateData, withTrackers. simpl. f_equal.
        by rewrite list_insert_insert_eq. }
      split; [exact Hres'|]. split; [by apply Hframes|]. done.
Qed.

Lemma getTracker_Done_inv t w tr w' :
  getTracker t w = Done tr w' → w' = w ∧ trackers w !! t = Some tr.
Proof.
  unfold getTracker. destruct (trackers w !! t) as [tr0|]; [|done].
  by intros [= -> ->].
Qed.

(** The loop of [updateSignal] over the upstream signals of [t]. *)
Lemma pull_upstream t us w w' :
  resolving w → (∀ y, y ∈ stackOf (stateData w) → (t < y)%nat) →
  (∀ u, u ∈ us → (u < t)%nat) →
  forEach us (λ signal,
    s <- getTracker signal ;;
    match type s with
    | Derived => pull signal
    | State => ret tt
    end) w = Done tt w' →
  resolving w' ∧ frame t w w'
  ∧ (∀ x, (t ≤ x)%nat → trackers w' !! x = trackers w !! x)
  ∧ stackOf (stateData w') = stackOf (stateData w)
  ∧ (∀ u, u ∈ us → isDerived w' u → u ∈ freshOf (stateData w')).
Proof using pull_spec.
  revert w. induction us as [|u us IH]; intros w Hres Hstack Hbelow Hrun; simpl in Hrun.
  - injection Hrun as <-. split; [done|]. split; [apply frame_refl|].
    split; [done|]. split; [done|]. intros u Hu. by apply elem_of_nil in Hu.
  - apply bind_Done_inv in Hrun as ([] & w1 & Hbody & Hrun).
    apply bind_Done_inv in Hbody as (s & w0 & Hget & Hbody).
    apply getTracker_Done_inv in Hget as [-> Hs].
    assert (Hu : (u < t)%nat) by (apply Hbelow; left).
    assert (Hstep : resolving w1 ∧ frame u w w1
                    ∧ stackOf (stateData w1) = stackOf (stateData w)
                    ∧ (isDerived w u → u ∈ freshOf (stateData w1))).
    { destruct (type s) eqn:Hty.
      - injection Hbody as <-. split; [done|]. split; [apply frame_refl|].
        split; [done|]. intros (s' & Hs' & Hty'). congruence.
      - destruct (pull_spec u w w1 Hres) as (Hres1 & Hfr1 & Hstk1 & Hfresh1);
          [intros y Hy; specialize (Hstack y Hy); lia|by exists s|done|]. auto. }
    destruct Hstep as (Hres1 & Hfr1 & Hstk1 & Hfresh1).
    destruct (IH w1 Hres1) as (Hres' & Hfr' & Habove' & Hstk' & Hfresh');
      [by rewrite Hstk1|intros x Hx; apply Hbelow; by right|done|].
    split; [done|]. split; [|split; [|split]].
    + eapply frame_trans; [|exact Hfr']. eapply frame_mono; [|exact Hfr1]. lia.
    + intros x Hx. rewrite Habove' by done. apply (frame_above _ _ _ Hfr1). lia.
    + congruence.
    + intros x [->|Hx]%elem_of_cons Hder; [|by apply Hfresh'].
      apply (frame_fresh _ _ _ Hfr'). apply Hfresh1.
      apply (frame_isDerived _ _ _ _ Hfr1).
      by apply (frame_isDerived _ _ _ _ Hfr').
Qed.

End Resolution.

Lemma resolving_addFresh t w :
  resolving w → t ∉ staleOf (stateData w) → t ∉ stackOf (stateData w) →
  (∀ u, u ∈ upstreamOf w t → isDerived w u → u ∈ freshOf (stateData w)) →
  let w' := withStateData (addFresh t (stateData w)) w in
  (resolving w' ∧ frame t w w'
   ∧ stackOf (stateData w') = stackOf (stateData w)
   ∧ t ∈ freshOf (stateData w')).
Proof.
  intros Hres Hns Hnk Hup. pose proof Hres as [Hmode [[Hg Hst Hdv Hbl] Hcons Hfl Hsl] Hrf Hru Hrs].
  destruct (stateData_resolving w Hmode) as (c & st & e & f & k & Hsd).
  rewrite Hsd in *. simpl in *. split; [|split; [|split]].
  - split; simpl; rewrite ?Hsd; simpl.
    + done.
    + split; [split|..]; simpl; rewrite ?Hsd; try done.
      destruct Hg as [Hsym Hnd Hstk Hreg]. split; try done. simpl. by rewrite Hsd in Hstk.
    + intros x [->|Hx]%elem_of_JsSet_add; auto.
    + intros x u [->|Hx]%elem_of_JsSet_add Hu Hder; apply elem_of_JsSet_add; right.
      * by apply Hup.
      * by apply (Hru x u).
    + intros x Hx. destruct (Hrs x Hx) as [Hs Hf]. split; [done|].
      intros [->|Hin]%elem_of_JsSet_add; done.
  - split; simpl; try done.
    + intros x tr Hx. exists tr. auto.
    + intros x. rewrite Hsd. simpl. intros Hx. apply elem_of_JsSet_add. by right.
  - done.
  - apply elem_of_JsSet_add. by left.
Qed.

(** [updateSignal] meets its specification whatever the fuel. *)
Lemma updateSignal_spec fuel : pullSpec (updateSignal fuel).
Proof.
  induction fuel as [|fuel IH]; intros t w w' Hres Hstack Hder Hrun; [done|].
  simpl in Hrun.
  rewrite (bind_Done _ _ _ (stateData w) w) in Hrun by done.
  rewrite (resolving_mode _ Hres) in Hrun.
  destruct (JsSet.has t (freshOf (stateData w))) eqn:Hfresh.
  { injection Hrun as <-. apply JsSet_has_true in Hfresh.
    split; [done|]. split; [apply frame_refl|]. done. }
  apply bind_Done_inv in Hrun as (tr & w0 & Hget & Hrun).
  apply getTracker_Done_inv in Hget as [-> Ht].
  apply bind_Done_inv in Hrun as ([] & w1 & Hloop & Hrun).
  pose proof (tracking_wf _ (resolving_tracking _ Hres)) as Hwf.
  destruct (pull_upstream (updateSignal fuel) IH t (upstreamSignals tr) w w1 Hres Hstack)
    as (Hres1 & Hfr1 & Habove1 & Hstk1 & Hfresh1); [|exact Hloop|].
  { intros u Hu. apply (wf_below _ Hwf). by rewrite (upstreamOf_lookup _ _ _ Ht). }
  assert (Ht1 : trackers w1 !! t = Some tr) by (rewrite Habove1 by lia; done).
  assert (Hup1 : ∀ u, u ∈ upstreamOf w1 t → isDerived w1 u → u ∈ freshOf (stateData w1)).
  { intros u Hu. apply Hfresh1. by rewrite (upstreamOf_lookup _ _ _ Ht1) in Hu. }
  assert (Hstack1 : ∀ y, y ∈ stackOf (stateData w1) → (t < y)%nat)
    by (by rewrite Hstk1).
  assert (Hder1 : isDerived w1 t) by (by apply (frame_isDerived _ _ _ _ Hfr1)).
  rewrite (bind_Done _ _ _ (stateData w1) w1) in Hrun by done.
  apply bind_Done_inv in Hrun as ([] & w2 & Hupd & Hrun).
  assert (Hnk : ∀ wx, stackOf (stateData wx) = stackOf (stateData w) →
                      t ∉ stackOf (stateData wx)).
  { intros wx -> Hin. specialize (Hstack t Hin). lia. }
  unfold modifyStateData, modifyWorld in Hrun. injection Hrun as <-.
  destruct (JsSet.has t (staleOf (stateData w1))) eqn:Hstale.
  - apply JsSet_has_true in Hstale.
    destruct (updateDerivedSignal_spec (updateSignal fuel) IH t w1 w2 Hres1 Hstack1 Hder1
                Hstale Hupd) as (Hres2 & Hfr2 & Hstk2 & Hns2 & Hup2).
    destruct (resolving_addFresh t w2 Hres2 Hns2) as (Hres' & Hfr' & Hstk' & Hin');
      [apply Hnk; congruence|done|].
    split; [exact Hres'|]. split; [|split; [|exact Hin']].
    + eapply frame_trans; [exact Hfr1|]. eapply frame_trans; [exact Hfr2|exact Hfr'].
    + simpl in *. congruence.
  - apply JsSet_has_false in Hstale. injection Hupd as <-.
    destruct (resolving_addFresh t w1 Hres1 Hstale) as (Hres' & Hfr' & Hstk' & Hin');
      [apply Hnk; congruence|done|].
    split; [exact Hres'|]. split; [|split; [|exact Hin']].
    + eapply frame_trans; [exact Hfr1|exact Hfr'].
    + simpl in *. congruence.
Qed.

(** The [while (true)] of [updateState]: when it returns nothing is stale. *)
Lemma resolveStale_spec fuel rounds w w' :
  resolving w → stackOf (stateData w) = [] →
  resolveStale fuel rounds w = Done tt w' →
  resolving w' ∧ stackOf (stateData w') = [] ∧ staleOf (stateData w') = [].
Proof.
  revert w. induction rounds as [|rounds IH]; intros w Hres Hstk Hrun; [done|].
  simpl in Hrun. rewrite (bind_Done _ _ _ (stateData w) w) in Hrun by done.
  destruct (staleOf (stateData w)) as [|first rest] eqn:Hstale.
  { injection Hrun as <-. done. }
  apply bind_Done_inv in Hrun as ([] & w1 & Hupd & Hrun).
  apply bind_Done_inv in Hrun as ([] & w2 & Hadd & Hrun).
  assert (Hin : first ∈ staleOf (stateData w)) by (rewrite Hstale; left).
  destruct (updateDerivedSignal_spec (updateSignal fuel) (updateSignal_spec fuel)
              first w w1 Hres) as (Hres1 & Hfr1 & Hstk1 & Hns1 & Hup1); try done.
  { rewrite Hstk. intros y Hy. by apply elem_of_nil in Hy. }
  { by apply (tracking_stale _ (resolving_tracking _ Hres)). }
  unfold modifyStateData, modifyWorld in Hadd. injection Hadd as <-.
  destruct (resolving_addFresh first w1 Hres1 Hns1) as (Hres2 & _ & Hstk2 & _);
    [rewrite Hstk1, Hstk; apply not_elem_of_nil|done|].
  apply (IH _ Hres2); [|done]. simpl in *. congruence.
Qed.

(** ** Worlds with the same graph *)

Lemma sameGraph_refl w : sameGraph w w.
Proof. done. Qed.

Lemma sameGraph_trans a b c : sameGraph a b → sameGraph b c → sameGraph a c.
Proof. intros (? & ? & ?) (? & ? & ?). repeat split; congruence. Qed.

Lemma graphOk_sameGraph w w' : sameGraph w w' → graphOk w → graphOk w'.
Proof.
  destruct w, w'. intros (Ht & Hs & Hr). simpl in *. subst.
  intros [Hsym Hnd Hstk Hreg]. by split.
Qed.

Lemma wellFormed_sameGraph w w' : sameGraph w w' → wellFormed w → wellFormed w'.
Proof.
  intros Hsame [Hg Hst Hdv Hbl]. pose proof (graphOk_sameGraph _ _ Hsame Hg).
  destruct w, w'. destruct Hsame as (Ht & Hs & Hr). simpl in *. subst. by split.
Qed.

Lemma tracking_sameGraph w w' : sameGraph w w' → tracking w → tracking w'.
Proof.
  intros Hsame [Hwf Hcons Hfl Hsl]. pose proof (wellFormed_sameGraph _ _ Hsame Hwf).
  destruct w, w'. destruct Hsame as (Ht & Hs & Hr). simpl in *. subst. by split.
Qed.

Lemma collecting_sameGraph w w' : sameGraph w w' → collecting w → collecting w'.
Proof.
  intros Hsame [Hmode Htr Hst Hdv]. pose proof (tracking_sameGraph _ _ Hsame Htr).
  destruct w, w'. destruct Hsame as (Ht & Hs & Hr). simpl in *. subst. by split.
Qed.

(** ** The batch callback *)

(** Writing to a state inside a batch: the state is flagged and its readers
    are stale afterwards. *)
Lemma collecting_write w s tr tr' sd' :
  collecting w → trackers w !! s = Some tr → type tr = State →
  type tr' = State → func tr' = func tr →
  upstreamSignals tr' = upstreamSignals tr →
  downstreamSignals tr' = downstreamSignals tr →
  hasChanged tr' = true →
  mode sd' = UpdatingState →
  changedOf sd' = changedOf (stateData w) ++ (if hasChanged tr then [] else [s]) →
  (∀ x, x ∈ staleOf sd'
        ↔ x ∈ staleOf (stateData w) ∨ (hasChanged tr = false ∧ x ∈ downstreamSignals tr)) →
  collecting (withStateData sd' (withTrackers (λ ts, <[s := tr']> ts) w)).
Proof.
  intros [Hmode [[Hg Hst Hdv Hbl] Hcons Hfl Hsl] Hcs Hcd] Hs Hty Hty' Hfn' Hup' Hdn' Hflag'
         Hmode' Hch' Hstale'.
  set (w' := withStateData sd' (withTrackers (λ ts, <[s := tr']> ts) w)).
  assert (Hlt : (s < length (trackers w))%nat) by (by eapply lookup_lt_Some).
  assert (Hlook : ∀ x, trackers w' !! x
                       = if decide (x = s) then Some tr' else trackers w !! x).
  { intros x. unfold w'. simpl. case_decide as Hx.
    - subst. by apply list_lookup_insert_eq.
    - by apply list_lookup_insert_ne. }
  assert (Hupst : ∀ x, upstreamOf w' x = upstreamOf w x).
  { intros x. unfold upstreamOf. rewrite Hlook. case_decide; [|done].
    subst. by rewrite Hs, Hup'. }
  assert (HisD : ∀ x, isDerived w x → isDerived w' x).
  { intros x (tr0 & Hx & Ht0). exists tr0. rewrite Hlook.
    rewrite decide_False; [done|]. intros ->. congruence. }
  assert (Hdown : ∀ x, x ∈ downstreamSignals tr → x ∈ staleOf sd').
  { intros x Hx. apply Hstale'. destruct (hasChanged tr) eqn:Hflag; [left|by right].
    by apply (Hcs s tr). }
  assert (Hstk' : stackOf sd' = []) by (by destruct sd').
  split; simpl.
  - done.
  - split; simpl.
    + split.
      * apply graphOk_withStateData.
        -- rewrite Hstk'. intros d Hd. by apply elem_of_nil in Hd.
        -- by apply (graphOk_modify w s tr (λ _, tr')).
      * intros x t0 Hx Ht0. rewrite Hlook in Hx. case_decide.
        -- injection Hx as <-. rewrite Hup'. by apply (Hst s).
        -- by apply (Hst x).
      * intros x t0 Hx Ht0. rewrite Hlook in Hx. case_decide.
        -- injection Hx as <-. congruence.
        -- by apply (Hdv x).
      * intros x u. rewrite Hupst. apply Hbl.
    + intros x t0 Hx Ht0 Hns. rewrite Hlook in Hx. case_decide as Hxs.
      { injection Hx as <-. congruence. }
      assert (Hns0 : x ∉ staleOf (stateData w)).
      { intros Hin. apply Hns. apply Hstale'. by left. }
      destruct (Hcons x t0 Hx Ht0 Hns0) as (rs & Hev & Hrs).
      exists rs. split; [|done].
      apply (evaluate_agree (trackers w)); [done|].
      intros u Hu. rewrite Hlook. case_decide as Hus; [|done]. subst u.
      exfalso. apply Hns, Hdown. rewrite <- (downstreamOf_lookup _ _ _ Hs).
      apply (graph_symmetric _ Hg). rewrite (upstreamOf_lookup _ _ _ Hx).
      by apply Hrs.
    + intros x t0 Hx Hfx. rewrite Hlook in Hx. rewrite Hch'. case_decide as Hxs.
      * subst x. destruct (hasChanged tr) eqn:Hflag.
        -- rewrite app_nil_r. by apply (Hfl s tr).
        -- apply elem_of_app. right. by left.
      * apply elem_of_app. left. by apply (Hfl x t0).
    + intros x [Hx|[_ Hx]]%Hstale'; apply HisD; [by apply Hsl|].
      apply (downstream_isDerived w s); [done|].
      by rewrite (downstreamOf_lookup _ _ _ Hs).
  - intros x t0 Hx Hfx d Hd. rewrite Hlook in Hx. case_decide as Hxs.
    + injection Hx as <-. apply Hdown. by rewrite <- Hdn'.
    + apply Hstale'. left. by apply (Hcs x t0).
  - intros x t0 Hx Ht0. rewrite Hlook in Hx. case_decide as Hxs.
    + injection Hx as <-. congruence.
    + by apply (Hcd x t0).
Qed.

(** Outside the resolution of stale trackers and with no derivation in
    progress, a call that is not a write leaves the graph alone. *)
Lemma handle_quiet pull {X} (c : Call X) w x w1 :
  stackOf (stateData w) = [] → mode (stateData w) ≠ UpdatingDerivedSignals →
  (mode (stateData w) = UpdatingState → ¬ writes c) →
  handle pull c w = Done x w1 → sameGraph w w1.
Proof.
  intros Hstk Hmode Hw.
  assert (Hlink : ∀ s, handleDerivationLinking s w = Done tt w).
  { intros s. apply handleDerivationLinking_none. by rewrite Hstk. }
  destruct c; simpl; unfold bind, getTracker, getStateData, raise, ret,
    readArray, writeArray, newChanges, tick, modifyWorld.
  - destruct (trackers w !! s) as [tr|] eqn:Hs; [|done].
    destruct (type tr).
    + rewrite Hlink. simpl. rewrite Hs. by (intros Heq; inversion Heq; subst).
    + destruct (mode (stateData w)) eqn:Hm; try done;
        rewrite Hlink; simpl; rewrite ?Hm; simpl; rewrite Hs; by (intros Heq; inversion Heq; subst).
  - destruct (trackers w !! s) as [tr|] eqn:Hs; [|done].
    destruct (type tr), (mode (stateData w)) eqn:Hm; try done; by (intros Heq; inversion Heq; subst).
  - destruct (trackers w !! s) as [tr|] eqn:Hs; [|done].
    destruct (type tr), (mode (stateData w)) eqn:Hm; try done; by (intros Heq; inversion Heq; subst).
  - destruct (trackers w !! s) as [tr|] eqn:Hs; [|done].
    destruct (type tr), (mode (stateData w)) eqn:Hm; try done.
    exfalso. by apply Hw.
  - destruct (trackers w !! s) as [tr|] eqn:Hs; [|done].
    destruct (type tr), (mode (stateData w)) eqn:Hm; try done.
    exfalso. by apply Hw.
  - by (intros Heq; inversion Heq; subst).
  - destruct (arrays w !! a); [|done]. by (intros Heq; inversion Heq; subst).
  - destruct (arrays w !! a); [|done]. by (intros Heq; inversion Heq; subst).
  - by (intros Heq; inversion Heq; subst).
  - done.
  - by (intros Heq; inversion Heq; subst).
Qed.

Lemma stateData_collecting w :
  mode (stateData w) = UpdatingState →
  ∃ c st e, stateData w = SUpdatingState c st e.
Proof. destruct (stateData w); try done. eauto. Qed.

Lemma write_collecting w s tr g v w1 :
  collecting w → trackers w !! s = Some tr → type tr = State →
  g tr = setValue v tr →
  (modifyTracker s g ;;; handleValueChange s) w = Done tt w1 →
  collecting w1.
Proof.
  intros Hcol Hs Hty Hg Hrun.
  assert (Hlt : (s < length (trackers w))%nat) by (by eapply lookup_lt_Some).
  destruct (stateData_collecting w (collecting_mode _ Hcol)) as (c & st & e & Hsd).
  unfold bind, modifyTracker in Hrun. rewrite Hs, Hg in Hrun.
  set (w0 := withTrackers (λ ts, <[s := setValue v tr]> ts) w) in *.
  assert (Hs0 : trackers w0 !! s = Some (setValue v tr))
    by (by apply list_lookup_insert_eq).
  destruct (hasChanged tr) eqn:Hflag.
  - rewrite (handleValueChange_flagged w0 s _ Hs0) in Hrun;
      [|done|simpl; by rewrite Hsd].
    injection Hrun as <-.
    assert (w0 = withStateData (stateData w) w0) as -> by (by destruct w).
    apply (collecting_write w s tr); try done.
    + by rewrite (collecting_mode _ Hcol).
    + by rewrite Hflag, app_nil_r.
    + intros x. rewrite Hflag. split; [auto|]. intros [?|[? _]]; done.
  - rewrite (handleValueChange_unflagged w0 s _ c st e Hs0) in Hrun; [|done|done].
    injection Hrun as <-. unfold w0, withStateData, withTrackers. simpl.
    rewrite list_insert_insert_eq.
    apply (collecting_write w s tr _
             (SUpdatingState (c ++ [s]) (JsSet.addAll (downstreamSignals tr) st)
                (JsSet.addAll (downstreamEffects tr) e))); try done.
    + by rewrite Hflag, Hsd.
    + intros x. rewrite Hsd. simpl. rewrite elem_of_JsSet_addAll. tauto.
Qed.

Lemma handle_collecting pull {X} (c : Call X) w x w1 :
  collecting w → handle pull c w = Done x w1 → collecting w1.
Proof.
  intros Hcol Hrun.
  assert (Hstk : stackOf (stateData w) = []).
  { destruct (stateData_collecting w (collecting_mode _ Hcol)) as (? & ? & ? & ->). done. }
  assert (Hquiet : ¬ writes c → collecting w1).
  { intros Hw. apply (collecting_sameGraph w); [|done].
    apply (handle_quiet pull c w x w1); try done.
    by rewrite (collecting_mode _ Hcol). }
  destruct c; try (apply Hquiet; simpl; tauto); simpl in Hrun.
  - apply bind_Done_inv in Hrun as (tr & w0 & Hget & Hrun).
    apply getTracker_Done_inv in Hget as [-> Hs].
    rewrite (bind_Done _ _ _ (stateData w) w) in Hrun by done.
    destruct (type tr) eqn:Hty; [|done].
    rewrite (collecting_mode _ Hcol) in Hrun.
    destruct (strictEq (value tr) newValue).
    + by injection Hrun as _ <-.
    + assert (x = tt) as -> by (by destruct x).
      by apply (write_collecting w s tr (setValue newValue) newValue w1).
  - apply bind_Done_inv in Hrun as (tr & w0 & Hget & Hrun).
    apply getTracker_Done_inv in Hget as [-> Hs].
    rewrite (bind_Done _ _ _ (stateData w) w) in Hrun by done.
    destruct (type tr) eqn:Hty; [|done].
    rewrite (collecting_mode _ Hcol) in Hrun.
    assert (x = tt) as -> by (by destruct x).
    by apply (write_collecting w s tr _ (callback (value tr)) w1) in Hrun.
Qed.

Lemma runProg_collecting pull {A} (p : prog A) w a w1 :
  collecting w → runProg pull p w = Done a w1 → collecting w1.
Proof.
  revert w. induction p as [b|X c k IH]; intros w Hcol Hrun; simpl in Hrun.
  - by injection Hrun as _ <-.
  - apply bind_Done_inv in Hrun as (x & w0 & Hc & Hrun).
    apply (IH x w0); [|done]. by apply (handle_collecting pull c w x).
Qed.

(** ** Effects and fresh evaluation *)

Lemma runProg_quiet pull {A} (p : prog A) w a w1 :
  stackOf (stateData w) = [] → mode (stateData w) ≠ UpdatingDerivedSignals →
  mode (stateData w) ≠ UpdatingState →
  runProg pull p w = Done a w1 → sameGraph w w1.
Proof.
  revert w. induction p as [b|X c k IH]; intros w Hstk Hm1 Hm2 Hrun; simpl in Hrun.
  - by injection Hrun as _ <-.
  - apply bind_Done_inv in Hrun as (x & w0 & Hc & Hrun).
    apply (handle_quiet pull c w x w0) in Hc; [|done..].
    pose proof Hc as (_ & Hsd & _).
    apply (sameGraph_trans _ w0); [done|].
    apply (IH x w0); [by rewrite Hsd..|done].
Qed.

Lemma runEffect_quiet pull e w w1 :
  stackOf (stateData w) = [] → mode (stateData w) ≠ UpdatingDerivedSignals →
  mode (stateData w) ≠ UpdatingState →
  runEffect pull e w = Done tt w1 → sameGraph w w1.
Proof.
  intros Hstk Hm1 Hm2 Hrun. unfold runEffect in Hrun.
  apply bind_Done_inv in Hrun as (eff & w0 & Hget & Hrun).
  assert (w0 = w) as ->.
  { revert Hget. unfold getEffect. destruct (effects w !! e); [|done]. by intros [= _ <-]. }
  apply bind_Done_inv in Hrun as (infos & w2 & Hmap & Hrun).
  assert (Hsame : sameGraph w w2).
  { clear Hrun Hget. revert w infos Hstk Hm1 Hm2 Hmap.
    induction (from eff) as [|f fs IH]; intros w infos Hstk Hm1 Hm2 Hmap; cbn [mapM] in Hmap.
    - by injection Hmap as _ <-.
    - apply bind_Done_inv in Hmap as (y & wa & Hf & Hmap).
      apply bind_Done_inv in Hf as (v & wb & Hh & Hf).
      apply (handle_quiet pull (GetValue f) w v wb) in Hh; [|done..].
      apply bind_Done_inv in Hf as (tr & wc & Hget & Hf).
      apply getTracker_Done_inv in Hget as [-> _]. injection Hf as _ <-.
      apply bind_Done_inv in Hmap as (ys & wd & Hrest & Hmap).
      injection Hmap as _ <-. pose proof Hh as (_ & Hsd & _).
      apply (sameGraph_trans _ wb); [done|].
      apply (IH wb ys); [by rewrite Hsd..|done]. }
  pose proof Hsame as (_ & Hsd & _).
  apply (sameGraph_trans _ w2); [done|].
  apply (runProg_quiet pull (onUpdate eff infos) w2 tt w1); [by rewrite Hsd..|done].
Qed.

Lemma runEffects_quiet pull es w w1 :
  stackOf (stateData w) = [] → mode (stateData w) ≠ UpdatingDerivedSignals →
  mode (stateData w) ≠ UpdatingState →
  forEach es (runEffect pull) w = Done tt w1 → sameGraph w w1.
Proof.
  revert w. induction es as [|e es IH]; intros w Hstk Hm1 Hm2 Hrun; simpl in Hrun.
  - by injection Hrun as <-.
  - apply bind_Done_inv in Hrun as ([] & w0 & He & Hrun).
    apply runEffect_quiet in He; [|done..]. pose proof He as (_ & Hsd & _).
    apply (sameGraph_trans _ w0); [done|].
    apply (IH w0); [by rewrite Hsd..|done].
Qed.

(** Between update cycles a reader returns what [evaluate] says and changes
    nothing. *)
Lemma runProg_evaluate pull p w v rs :
  stateData w = SNormal → evaluate (trackers w) p = Some (v, rs) →
  runProg pull p w = Done v w.
Proof.
  intros Hsd. revert v rs. induction p as [a|X c k IH]; intros v rs Hev; simpl in *.
  - by injection Hev as ->.
  - destruct c; try done.
    destruct (trackers w !! s) as [tr|] eqn:Hs; [|done].
    destruct (evaluate (trackers w) (k (value tr))) as [[v1 rs1]|] eqn:Hev1; [|done].
    injection Hev as <- <-.
    assert (Hh : handle pull (GetValue s) w = Done (value tr) w).
    { simpl. unfold bind at 1. unfold getTracker at 1. rewrite Hs.
      destruct (type tr); unfold bind, getStateData; rewrite ?Hsd; simpl;
        rewrite handleDerivationLinking_none by (by rewrite Hsd);
        rewrite ?Hsd; simpl; unfold getTracker; by rewrite Hs. }
    rewrite (bind_Done _ _ _ _ _ Hh). by apply (IH _ _ rs1).
Qed.

(** ** The phases of [updateState] *)

Lemma settled_collecting w :
  settled w → collecting (withStateData (SUpdatingState [] [] []) w).
Proof.
  intros [Hsd [Hg Hst Hdv Hbl] Hfl Hcons]. split; simpl.
  - done.
  - split; simpl.
    + split; try done. apply graphOk_withStateData; [|done].
      simpl. intros d Hd. by apply elem_of_nil in Hd.
    + intros x tr Hx Hty _. by apply (Hcons x).
    + intros x tr Hx Hflag. rewrite (Hfl x tr Hx) in Hflag. done.
    + intros x Hx. by apply elem_of_nil in Hx.
  - intros x tr Hx Hflag. rewrite (Hfl x tr Hx) in Hflag. done.
  - intros x tr Hx _. by apply (Hfl x).
Qed.

Lemma collecting_resolving w :
  collecting w →
  resolving (withStateData
               (SUpdatingDerivedSignals (changedOf (stateData w)) (staleOf (stateData w))
                  (staleEffectsOf (stateData w)) [] []) w).
Proof.
  intros [Hmode [[Hg Hst Hdv Hbl] Hcons Hfl Hsl] Hcs Hcd]. split; simpl.
  - done.
  - split; simpl; try done. split; try done.
    apply graphOk_withStateData; [|done].
    simpl. intros d Hd. by apply elem_of_nil in Hd.
  - intros x Hx. by apply elem_of_nil in Hx.
  - intros x u Hx. by apply elem_of_nil in Hx.
  - intros x Hx. by apply elem_of_nil in Hx.
Qed.

(** The loop that clears the changed flags. *)
Lemma clear_flags xs w w' :
  forEach xs (λ signal,
    tr <- getTracker signal ;;
    if hasChanged tr then modifyTracker signal (setHasChanged false)
    else raise Unreachable) w = Done tt w' →
  stateData w' = stateData w ∧ derivationRegistry w' = derivationRegistry w
  ∧ length (trackers w') = length (trackers w)
  ∧ ∀ x tr, trackers w !! x = Some tr →
      ∃ tr', trackers w' !! x = Some tr'
             ∧ type tr' = type tr ∧ value tr' = value tr ∧ func tr' = func tr
             ∧ upstreamSignals tr' = upstreamSignals tr
             ∧ downstreamSignals tr' = downstreamSignals tr
             ∧ (hasChanged tr' = true → hasChanged tr = true ∧ x ∉ xs).
Proof.
  revert w. induction xs as [|s xs IH]; intros w Hrun; simpl in Hrun.
  - injection Hrun as <-. repeat split; try done.
    intros x tr Hx. exists tr. repeat split; try done. apply not_elem_of_nil.
  - apply bind_Done_inv in Hrun as ([] & w0 & Hstep & Hrun).
    apply bind_Done_inv in Hstep as (tr & w1 & Hget & Hstep).
    apply getTracker_Done_inv in Hget as [-> Hs].
    destruct (hasChanged tr) eqn:Hflag; [|done].
    unfold modifyTracker in Hstep. rewrite Hs in Hstep. injection Hstep as <-.
    destruct (IH _ Hrun) as (Hsd & Hreg & Hlen & Hkept). simpl in *.
    rewrite length_insert in Hlen. repeat split; try done.
    intros x tx Hx. destruct (decide (x = s)) as [->|Hne].
    + assert (tx = tr) as -> by congruence.
      destruct (Hkept s (setHasChanged false tr)) as (tr' & Hs' & Hty & Hv & Hf & Hu & Hd & Hfl).
      { apply list_lookup_insert_eq. by eapply lookup_lt_Some. }
      exists tr'. repeat split; try done; by destruct (Hfl ltac:(done)).
    + destruct (Hkept x tx) as (tr' & Hs' & Hty & Hv & Hf & Hu & Hd & Hfl).
      { by rewrite list_lookup_insert_ne. }
      exists tr'. repeat split; try done; destruct (Hfl ltac:(done)) as [? Hnin]; [done|].
      intros [->|Hin]%elem_of_cons; done.
Qed.

(** Once nothing is stale and the flags are cleared the world is settled. *)
Lemma tracking_settled w w' :
  tracking w → staleOf (stateData w) = [] →
  stateData w' = SNormal → derivationRegistry w' = derivationRegistry w →
  length (trackers w') = length (trackers w) →
  (∀ x tr, trackers w !! x = Some tr →
      ∃ tr', trackers w' !! x = Some tr'
             ∧ type tr' = type tr ∧ value tr' = value tr ∧ func tr' = func tr
             ∧ upstreamSignals tr' = upstreamSignals tr
             ∧ downstreamSignals tr' = downstreamSignals tr
             ∧ (hasChanged tr' = true →
                hasChanged tr = true ∧ x ∉ changedOf (stateData w))) →
  settled w'.
Proof.
  intros [[Hg Hst Hdv Hbl] Hcons Hfl Hsl] Hstale Hsd' Hreg Hlen Hkept.
  assert (Hinv : ∀ x tr', trackers w' !! x = Some tr' →
            ∃ tr, trackers w !! x = Some tr
              ∧ type tr' = type tr ∧ value tr' = value tr ∧ func tr' = func tr
              ∧ upstreamSignals tr' = upstreamSignals tr
              ∧ downstreamSignals tr' = downstreamSignals tr
              ∧ (hasChanged tr' = true →
                 hasChanged tr = true ∧ x ∉ changedOf (stateData w))).
  { intros x tr' Hx'.
    destruct (lookup_lt_is_Some_2 (trackers w) x) as [tr Hx].
    { rewrite <- Hlen. by eapply lookup_lt_Some. }
    destruct (Hkept x tr Hx) as (tr1 & Hx1 & Hrest).
    exists tr. split; [done|]. by assert (tr' = tr1) as -> by congruence. }
  assert (Hup : ∀ x, upstreamOf w' x = upstreamOf w x).
  { intros x. unfold upstreamOf. destruct (trackers w !! x) as [tr|] eqn:Hx.
    - destruct (Hkept x tr Hx) as (tr' & -> & _ & _ & _ & Hu & _). done.
    - destruct (trackers w' !! x) as [tr'|] eqn:Hx'; [|done].
      destruct (Hinv x tr' Hx') as (tr & Hx0 & _). congruence. }
  assert (Hdown : ∀ x, downstreamOf w' x = downstreamOf w x).
  { intros x. unfold downstreamOf. destruct (trackers w !! x) as [tr|] eqn:Hx.
    - destruct (Hkept x tr Hx) as (tr' & -> & _ & _ & _ & _ & Hd & _). done.
    - destruct (trackers w' !! x) as [tr'|] eqn:Hx'; [|done].
      destruct (Hinv x tr' Hx') as (tr & Hx0 & _). congruence. }
  split.
  - done.
  - split.
    + destruct Hg as [Hsym Hnd Hstk Hrv]. split.
      * intros a b. rewrite Hup, Hdown. apply Hsym.
      * intros t. rewrite Hup. apply Hnd.
      * rewrite Hsd'. intros d Hd. by apply elem_of_nil in Hd.
      * rewrite Hreg, Hlen. done.
    + intros x tr' Hx' Hty.
      destruct (Hinv x tr' Hx') as (tr & Hx & Ht & _ & _ & -> & _).
      apply (Hst x); [done|congruence].
    + intros x tr' Hx' Hty.
      destruct (Hinv x tr' Hx') as (tr & Hx & Ht & -> & -> & _).
      apply (Hdv x); [done|congruence].
    + intros x u. rewrite Hup. apply Hbl.
  - intros x tr' Hx'. destruct (hasChanged tr') eqn:Hflag; [|done].
    destruct (Hinv x tr' Hx') as (tr & Hx & _ & _ & _ & _ & _ & Hf).
    destruct (Hf Hflag) as [Hold Hnin]. exfalso. apply Hnin. by apply (Hfl x tr).
  - intros x tr' Hx' Hty.
    destruct (Hinv x tr' Hx') as (tr & Hx & Ht & Hv & Hf & Hu & _).
    destruct (Hcons x tr Hx) as (rs & Hev & Hrs); [congruence|rewrite Hstale; apply not_elem_of_nil|].
    exists rs. rewrite Hf, Hv, Hu. split; [|done].
    rewrite <- Hev. apply evaluate_values. intros s.
    destruct (trackers w !! s) as [ts|] eqn:Hs.
    + destruct (Hkept s ts Hs) as (ts' & -> & _ & Hvs & _). simpl. by rewrite Hvs.
    + destruct (trackers w' !! s) as [ts'|] eqn:Hs'; [|done].
      destruct (Hinv s ts' Hs') as (? & ? & _). congruence.
Qed.

Lemma updateState_settled fuel run w w' :
  settled w → updateState fuel run w = Done tt w' → settled w'.
Proof.
  intros Hset Hrun. unfold updateState in Hrun.
  rewrite (bind_Done _ _ _ (stateData w) w) in Hrun by done.
  rewrite (settled_mode _ Hset) in Hrun. simpl in Hrun.
  apply bind_Done_inv in Hrun as ([] & wA & HA & Hrun).
  unfold setStateData, modifyWorld in HA. injection HA as <-.
  apply bind_Done_inv in Hrun as ([] & wB & HB & Hrun).
  apply runProg_collecting in HB; [|by apply settled_collecting].
  rewrite (bind_Done _ _ _ (stateData wB) wB) in Hrun by done.
  apply bind_Done_inv in Hrun as ([] & wC & HC & Hrun).
  unfold setStateData, modifyWorld in HC. injection HC as <-.
  apply bind_Done_inv in Hrun as ([] & wD & HD & Hrun).
  apply resolveStale_spec in HD as (HresD & HstkD & HstaleD);
    [|by apply collecting_resolving|done].
  rewrite (bind_Done _ _ _ (stateData wD) wD) in Hrun by done.
  rewrite HstkD in Hrun.
  apply bind_Done_inv in Hrun as ([] & wE & HE & Hrun).
  unfold setStateData, modifyWorld in HE. injection HE as <-.
  apply bind_Done_inv in Hrun as ([] & wF & HF & Hrun).
  apply runEffects_quiet in HF as (HtF & HsdF & HregF); [|done..].
  simpl in HtF, HsdF, HregF.
  rewrite (bind_Done _ _ _ (stateData wF) wF) in Hrun by done.
  apply bind_Done_inv in Hrun as ([] & wG & HG & Hrun).
  unfold setStateData, modifyWorld in Hrun. injection Hrun as <-.
  rewrite HsdF in HG. simpl in HG.
  apply clear_flags in HG as (HsdG & HregG & HlenG & HkeptG).
  apply (tracking_settled wD); simpl.
  - apply (resolving_tracking _ HresD).
  - done.
  - done.
  - congruence.
  - congruence.
  - intros x tr Hx. rewrite <- HtF in Hx. exact (HkeptG x tr Hx).
Qed.

(** ** Building the graph *)

Lemma settled_emptyWorld : settled emptyWorld.
Proof.
  split; [done| |done|done]. split; [apply graphOk_emptyWorld|done|done|].
  intros x u Hu. by apply elem_of_nil in Hu.
Qed.

Lemma lookup_alloc (ts : list Tracker) tr x t0 :
  (ts ++ [tr]) !! x = Some t0 →
  (x = length ts ∧ t0 = tr) ∨ ((x < length ts)%nat ∧ ts !! x = Some t0).
Proof.
  intros Hx. destruct (decide (x < length ts)%nat) as [Hlt|Hge].
  - right. split; [done|]. by rewrite lookup_app_l in Hx.
  - left. rewrite lookup_app_r in Hx by lia.
    destruct (x - length ts)%nat eqn:Hd; simpl in Hx; [|by rewrite lookup_nil in Hx].
    injection Hx as <-. split; [lia|done].
Qed.

Lemma creating_alloc w tr sd :
  settled w → hasChanged tr = false →
  upstreamSignals tr = [] → downstreamSignals tr = [] →
  (type tr = Derived → reader (length (trackers w)) (func tr) ∧ primitive (value tr)) →
  (∀ d, d ∈ stackOf sd → d = length (trackers w)) →
  creating (length (trackers w)) (withStateData sd (withTrackers (λ ts, ts ++ [tr]) w)).
Proof.
  intros [Hsd [Hg Hst Hdv Hbl] Hfl Hcons] Hflag Hup Hdown Hder Hstk.
  set (t := length (trackers w)).
  set (w1 := withTrackers (λ ts, ts ++ [tr]) w).
  pose proof (triple_run _ _ _ _ w (allocTracker_valid tr Hdown Hup) Hg) as [Hg1 Hlt1].
  simpl in Hg1, Hlt1. fold w1 in Hg1, Hlt1.
  assert (Hupst : ∀ x, upstreamOf w1 x = upstreamOf w x).
  { intros x. unfold upstreamOf, w1. simpl.
    destruct ((trackers w ++ [tr]) !! x) as [t0|] eqn:Hx.
    - apply lookup_alloc in Hx as [[-> ->]|[_ ->]]; [|done].
      by rewrite (lookup_ge_None_2 (trackers w)), Hup by lia.
    - apply lookup_ge_None in Hx. rewrite length_app in Hx. simpl in Hx.
      by rewrite (lookup_ge_None_2 (trackers w)) by lia. }
  split; simpl.
  - split; simpl.
    + destruct Hg1 as [Hsym Hnd Hstk1 Hreg]. split; try done. simpl.
      intros d Hd. rewrite (Hstk d Hd). exact Hlt1.
    + intros x t0 [[-> ->]|[_ Hx]]%lookup_alloc Hty; [done|by apply (Hst x)].
    + intros x t0 [[-> ->]|[_ Hx]]%lookup_alloc Hty; [by apply Hder|by apply (Hdv x)].
    + intros x u. change (upstreamOf (withStateData sd w1) x) with (upstreamOf w1 x).
      rewrite Hupst. apply Hbl.
  - intros x t0 [[-> ->]|[_ Hx]]%lookup_alloc; [done|by apply (Hfl x)].
  - intros x t0 [[-> ->]|[Hlt Hx]]%lookup_alloc Hty Hne; [done|].
    destruct (Hcons x t0 Hx Hty) as (rs & Hev & Hrs). exists rs. split; [|done].
    apply (evaluate_agree (trackers w)); [done|].
    intros s Hs. rewrite lookup_app_l; [done|].
    destruct (evaluate_reader x _ _ _ _ (proj1 (Hdv x t0 Hx Hty)) Hev) as [_ Hbelow].
    specialize (Hbelow s Hs). lia.
Qed.

Lemma creating_settled t w :
  creating t w → stateData w = SNormal →
  (∀ tr, trackers w !! t = Some tr → type tr = Derived → consistent (trackers w) tr) →
  settled w.
Proof.
  intros [Hwf Hfl Hcons] Hsd Ht. split; try done.
  intros x tr Hx Hty. destruct (decide (x = t)) as [->|Hne]; [by apply Ht|].
  by apply (Hcons x).
Qed.

(** [state] keeps the world settled. *)
Lemma state_settled v w t w' :
  settled w → state v w = Done t w' → settled w'.
Proof.
  intros Hset Hrun. unfold state, allocTracker in Hrun. injection Hrun as <- <-.
  pose proof (settled_mode _ Hset) as Hsd.
  assert (Hcr := creating_alloc w (mkTracker State v false [] [] [] (Ret VNull))
                   (stateData w) Hset eq_refl eq_refl eq_refl).
  simpl in Hcr.
  match goal with |- settled ?wa =>
    match type of Hcr with _ → _ → creating _ ?wb =>
      assert (wa = wb) as -> by (by destruct w)
    end end.
  apply (creating_settled (length (trackers w))).
  - apply Hcr; [done|]. rewrite Hsd. intros d Hd. by apply elem_of_nil in Hd.
  - done.
  - intros tr Htr Hty. simpl in Htr.
    rewrite lookup_app_r, Nat.sub_diag in Htr by lia. injection Htr as <-. done.
Qed.

Lemma creating_link w s t trs :
  creating t w → stateData w = SCreatingDerivedSignal [t] →
  isDerived w t → (s < t)%nat → trackers w !! s = Some trs →
  ∃ w', handleDerivationLinking s w = Done tt w'
        ∧ creating t w' ∧ coreKept w w' ∧ ownKept t w w'
        ∧ upstreamOf w' t = JsSet.add s (upstreamOf w t).
Proof.
  intros [Hwf Hfl Hcons] Hsd Hder Hlt Hs. pose proof Hder as (trd & Hd & Hty).
  destruct (handleDerivationLinking_linked w s t trs trd ltac:(by rewrite Hsd) Hs Hd
              ltac:(lia)) as (w' & Hrun & Hk & Hrest & Hup & Hown).
  exists w'. split; [done|].
  assert (Hg' : graphOk w').
  { pose proof (triple_run _ _ _ _ w (keeps_handleDerivationLinking s)
                  (wf_graph _ Hwf)) as Hrun'.
    by rewrite Hrun in Hrun'. }
  assert (Hupt : upstreamOf w' t = JsSet.add s (upstreamOf w t)).
  { rewrite Hup. by rewrite decide_True. }
  split; [|done]. split.
  - apply (wellFormed_relinked t w w'); try done.
    + intros x Hx. rewrite Hup. by rewrite decide_False.
    + intros u. rewrite Hupt, elem_of_JsSet_add. intros [->|Hu]; [done|].
      by apply (wf_below _ Hwf).
  - intros x tr' Hx'.
    destruct (coreKept_lookup_inv _ _ _ _ Hk Hx') as (tr & Hx & (_ & _ & -> & _)).
    by apply (Hfl x).
  - intros x tr' Hx' Hty' Hne.
    destruct (coreKept_lookup_inv _ _ _ _ Hk Hx') as (tr & Hx & Hcore).
    apply (consistent_coreKept w w' tr tr'); try done.
    + rewrite <- (upstreamOf_lookup _ _ _ Hx'), <- (upstreamOf_lookup _ _ _ Hx).
      rewrite Hup. by rewrite decide_False.
    + apply (Hcons x); [done| |done]. destruct Hcore as (Ht & _). congruence.
Qed.

(** Running the function of the tracker being created. *)
Lemma runProg_creating pull t p w v w' :
  reader t p → creating t w → stateData w = SCreatingDerivedSignal [t] →
  isDerived w t → runProg pull p w = Done v w' →
  creating t w' ∧ coreKept w w' ∧ ownKept t w w'
  ∧ ∃ rs, evaluate (trackers w') p = Some (v, rs)
          ∧ ∀ u, u ∈ upstreamOf w' t ↔ u ∈ upstreamOf w t ∨ u ∈ rs.
Proof.
  revert w. induction p as [a|X c k IH]; intros w Hrd Hcr Hsd Hder Hrun.
  - simpl in Hrun. injection Hrun as <- <-.
    split; [done|]. split; [apply coreKept_refl|]. split; [by apply ownKept_refl|].
    exists []. split; [done|]. intros u. rewrite elem_of_nil. tauto.
  - destruct c; try done. destruct Hrd as [Hlt Hk].
    cbn [runProg] in Hrun.
    apply bind_Done_inv in Hrun as (x & w1 & Hh & Hrun).
    assert (Hstep : creating t w1 ∧ coreKept w w1 ∧ ownKept t w w1
                    ∧ upstreamOf w1 t = JsSet.add s (upstreamOf w t)
                    ∧ value <$> trackers w1 !! s = Some x).
    { simpl in Hh.
      apply bind_Done_inv in Hh as (trs & w0 & Hget & Hh).
      apply getTracker_Done_inv in Hget as [-> Hs].
      destruct (creating_link w s t trs Hcr Hsd Hder Hlt Hs)
        as (wl & Hlink & Hcr1 & Hk1 & Hown1 & Hup1).
      pose proof Hk1 as (_ & _ & _ & _ & Hsd1 & _).
      assert (Hval : ∀ wx, (tr' <- getTracker s ;; ret (value tr')) wl = Done x wx →
                               wx = wl ∧ value <$> trackers wl !! s = Some x).
      { intros wx Hg. apply bind_Done_inv in Hg as (tr1 & wy & Hget & Hret).
        apply getTracker_Done_inv in Hget as [-> Hs1]. injection Hret as <- <-.
        by rewrite Hs1. }
      destruct (type trs).
      - rewrite (bind_Done _ _ _ _ _ Hlink) in Hh.
        destruct (Hval w1 Hh) as [-> Hx]. done.
      - rewrite (bind_Done _ _ _ (stateData w) w) in Hh by done.
        rewrite Hsd in Hh. simpl in Hh.
        rewrite (bind_Done _ _ _ _ _ Hlink) in Hh.
        rewrite (bind_Done _ _ _ (stateData wl) wl) in Hh by done.
        rewrite Hsd1, Hsd in Hh. simpl in Hh.
        rewrite (bind_Done _ _ _ tt wl) in Hh by done.
        destruct (Hval w1 Hh) as [-> Hx]. done. }
    destruct Hstep as (Hcr1 & Hk1 & Hown1 & Hup1 & Hx).
    pose proof Hk1 as (_ & _ & _ & _ & Hsd1 & _).
    destruct (IH x w1 (Hk x) Hcr1) as (Hcr' & Hk' & Hown' & rs & Hev & Hrs);
      [congruence|by apply (coreKept_isDerived _ _ _ Hk1)|done|].
    split; [done|]. split; [by eapply coreKept_trans|].
    split; [by eapply ownKept_trans|].
    exists (s :: rs). split.
    + simpl. pose proof (coreKept_values _ _ s Hk') as Hv. rewrite Hx in Hv.
      destruct (trackers w' !! s) as [tr2|]; [|done]. simpl in Hv.
      injection Hv as ->. by rewrite Hev.
    + intros u. rewrite Hrs, Hup1, elem_of_JsSet_add, elem_of_cons. tauto.
Qed.

(** [derive] of a reader keeps the world settled. *)
Lemma derive_settled fuel f w t w' :
  settled w → reader (length (trackers w)) f →
  derive fuel f w = Done t w' → settled w'.
Proof.
  intros Hset Hrd Hrun. unfold derive in Hrun.
  rewrite (bind_Done _ _ _ (stateData w) w) in Hrun by done.
  rewrite (settled_mode _ Hset) in Hrun. simpl in Hrun.
  set (d := length (trackers w)) in *.
  set (new := mkTracker Derived VNull false [] [] [] f) in *.
  rewrite (bind_Done _ _ _ d (withTrackers (λ ts, ts ++ [new]) w)) in Hrun by done.
  rewrite (bind_Done _ _ _ tt
             (withStateData (SCreatingDerivedSignal [d])
                (withTrackers (λ ts, ts ++ [new]) w))) in Hrun by done.
  set (w1 := withStateData _ _) in Hrun.
  assert (Hcr1 : creating d w1).
  { apply (creating_alloc w new); try done.
    simpl. intros x Hx%list_elem_of_singleton. done. }
  assert (Hd1 : trackers w1 !! d = Some new).
  { simpl. by rewrite lookup_app_r, Nat.sub_diag by (unfold d; lia). }
  apply bind_Done_inv in Hrun as (v & w2 & Hf & Hrun).
  destruct (runProg_creating (updateSignal fuel) d f w1 v w2 Hrd Hcr1 eq_refl) as
    (Hcr2 & Hk2 & Hown2 & rs & Hev & Hrs); [by exists new|done|].
  destruct Hown2 as (tra & trd & Hda & Hd2 & Hcore & Hdn).
  assert (tra = new) as -> by congruence.
  unfold bind, modifyTracker, setStateData, modifyWorld in Hrun.
  rewrite Hd2 in Hrun. simpl in Hrun. injection Hrun as <- <-.
  destruct Hcr2 as [[Hg Hst Hdv Hbl] Hfl Hcons].
  assert (Hlt : (d < length (trackers w2))%nat) by (by eapply lookup_lt_Some).
  set (trd' := setValue v trd).
  assert (Hlook : ∀ x, <[d := trd']> (trackers w2) !! x
                       = if decide (x = d) then Some trd' else trackers w2 !! x).
  { intros x. case_decide as Hx.
    - subst. by apply list_lookup_insert_eq.
    - by apply list_lookup_insert_ne. }
  destruct (evaluate_reader d _ _ _ _ Hrd Hev) as [Hprim Hbelow].
  assert (Hty : type trd = Derived) by (by destruct Hcore as (-> & _)).
  assert (Hfn : func trd = f) by (by destruct Hcore as (_ & _ & _ & _ & ->)).
  assert (Hagree : ∀ p v0 rs0, evaluate (trackers w2) p = Some (v0, rs0) →
                     (∀ s, s ∈ rs0 → s ≠ d) →
                     evaluate (<[d := trd']> (trackers w2)) p = Some (v0, rs0)).
  { intros p v0 rs0 Hev0 Hne. apply (evaluate_agree (trackers w2)); [done|].
    intros s Hs. rewrite Hlook. rewrite decide_False; [done|]. by apply Hne. }
  split; simpl.
  - done.
  - split; simpl.
    + pose proof (graphOk_modify w2 d trd (setValue v) Hd2 eq_refl eq_refl Hg)
        as [Hsym Hnd Hstk Hreg].
      split; try done; simpl.
      * intros x Hx. by apply elem_of_nil in Hx.
      * rewrite length_insert.
        intros x [Hx|Hx%list_elem_of_singleton]%elem_of_app; [|by subst].
        destruct Hg as [_ _ _ Hreg2]. by apply Hreg2.
    + intros x tr Hx Htx. rewrite Hlook in Hx. case_decide.
      * injection Hx as <-. simpl in Htx. congruence.
      * by apply (Hst x).
    + intros x tr Hx Htx. rewrite Hlook in Hx. case_decide.
      * injection Hx as <-. subst x. simpl. by rewrite Hfn.
      * by apply (Hdv x).
    + intros x u Hu. apply (Hbl x u). revert Hu. unfold upstreamOf. simpl.
      rewrite Hlook. case_decide; [|done]. subst. by rewrite Hd2.
  - intros x tr Hx. rewrite Hlook in Hx. case_decide.
    + injection Hx as <-. simpl. by apply (Hfl d).
    + by apply (Hfl x).
  - intros x tr Hx Htx. rewrite Hlook in Hx. case_decide as Hxd.
    + injection Hx as <-. exists rs. simpl. rewrite Hfn. split.
      * apply Hagree; [done|]. intros s Hs. specialize (Hbelow s Hs). lia.
      * intros u. rewrite <- (upstreamOf_lookup _ _ _ Hd2), Hrs.
        change (upstreamOf w1 d) with (upstreamOf (withTrackers (λ ts, ts ++ [new]) w) d).
        unfold upstreamOf at 1. simpl.
        rewrite lookup_app_r, Nat.sub_diag by (unfold d; lia). simpl.
        rewrite elem_of_nil. tauto.
    + destruct (Hcons x tr Hx Htx Hxd) as (rsx & Hevx & Hrsx).
      exists rsx. split; [|done]. apply Hagree; [done|].
      intros s Hs. destruct (evaluate_reader x _ _ _ _ (proj1 (Hdv x tr Hx Htx)) Hevx)
        as [_ Hb]. specialize (Hb s Hs).
      assert (x < length (trackers w2))%nat by (by eapply lookup_lt_Some).
      assert (length (trackers w2) = S d) as Hlen; [|lia].
      destruct Hk2 as (-> & _). simpl. rewrite length_app. simpl. unfold d. lia.
Qed.

Lemma settled_tracking w : settled w → tracking w ∧ staleOf (stateData w) = [].
Proof.
  intros [Hsd Hwf Hfl Hcons]. rewrite Hsd. split; [|done]. split; try done.
  - intros x tr Hx Hty _. by apply (Hcons x).
  - intros x tr Hx Hflag. rewrite (Hfl x tr Hx) in Hflag. done.
  - rewrite Hsd. intros x Hx. by apply elem_of_nil in Hx.
Qed.

Lemma settled_sameGraph w w' : sameGraph w w' → settled w → settled w'.
Proof.
  intros (Ht & Hsd & Hreg) Hset. destruct (settled_tracking w Hset) as [Htr Hstale].
  apply (tracking_settled w); try done.
  - rewrite Hsd. apply (settled_mode _ Hset).
  - by rewrite Ht.
  - intros x tr Hx. exists tr. rewrite Ht. do 6 (split; [done|]).
    intros Hflag. by rewrite (settled_flags _ Hset x tr Hx) in Hflag.
Qed.

(** The loop of [effect] that subscribes the closure to its sources. *)
Lemma subscribe_loop run sources w w' :
  forEach sources (λ source,
    modifyTracker source
      (λ t, setDownstreamEffects (JsSet.add run (downstreamEffects t)) t)) w
  = Done tt w' →
  stateData w' = stateData w ∧ derivationRegistry w' = derivationRegistry w
  ∧ length (trackers w') = length (trackers w)
  ∧ ∀ x tr, trackers w !! x = Some tr →
      ∃ tr', trackers w' !! x = Some tr'
             ∧ type tr' = type tr ∧ value tr' = value tr ∧ func tr' = func tr
             ∧ upstreamSignals tr' = upstreamSignals tr
             ∧ downstreamSignals tr' = downstreamSignals tr
             ∧ hasChanged tr' = hasChanged tr.
Proof.
  revert w. induction sources as [|s xs IH]; intros w Hrun; simpl in Hrun.
  - injection Hrun as <-. repeat split; try done.
    intros x tr Hx. exists tr. by repeat split.
  - apply bind_Done_inv in Hrun as ([] & w0 & Hstep & Hrun).
    apply modifyTracker_Done in Hstep as (trs & Hs & ->).
    destruct (IH _ Hrun) as (Hsd & Hreg & Hlen & Hkept). simpl in *.
    rewrite length_insert in Hlen. repeat split; try done.
    intros x tx Hx. destruct (decide (x = s)) as [->|Hne].
    + assert (tx = trs) as -> by congruence.
      destruct (Hkept s (setDownstreamEffects (JsSet.add run (downstreamEffects trs)) trs))
        as (tr' & Hs' & Hrest).
      { apply list_lookup_insert_eq. by eapply lookup_lt_Some. }
      exists tr'. split; [done|exact Hrest].
    + apply (Hkept x). by rewrite list_lookup_insert_ne.
Qed.

(** [effect] keeps the world settled. *)
Lemma effect_settled fuel sources callback w w' :
  settled w → effect fuel sources callback w = Done tt w' → settled w'.
Proof.
  intros Hset Hrun. unfold effect in Hrun.
  rewrite (bind_Done _ _ _ (stateData w) w) in Hrun by done.
  rewrite (settled_mode _ Hset) in Hrun. simpl in Hrun.
  apply bind_Done_inv in Hrun as (run & wA & HA & Hrun).
  unfold allocEffect in HA. injection HA as <- <-.
  apply bind_Done_inv in Hrun as ([] & wB & HB & Hrun).
  unfold setStateData, modifyWorld in HB. injection HB as <-.
  apply bind_Done_inv in Hrun as ([] & wC & HC & Hrun).
  apply runEffect_quiet in HC as (HtC & HsdC & HregC); [|done..].
  simpl in HtC, HsdC, HregC.
  apply bind_Done_inv in Hrun as ([] & wD & HD & Hrun).
  unfold setStateData, modifyWorld in HD. injection HD as <-.
  apply subscribe_loop in Hrun as (Hsd & Hreg & Hlen & Hkept). simpl in *.
  destruct (settled_tracking w Hset) as [Htr Hstale].
  apply (tracking_settled w); try done; try congruence.
  intros x tr Hx. rewrite <- HtC in Hx.
  destruct (Hkept x tr Hx) as (tr' & Hx' & Hty & Hv & Hf & Hu & Hd & Hfl).
  exists tr'. do 6 (split; [done|]).
  intros Hflag. rewrite Hfl in Hflag. rewrite HtC in Hx.
  by rewrite (settled_flags _ Hset x tr Hx) in Hflag.
Qed.

(** Reading handles between update cycles keeps the world settled. *)
Lemma access_settled fuel p w w' :
  settled w → runProg (updateSignal fuel) p w = Done tt w' → settled w'.
Proof.
  intros Hset Hrun. pose proof (settled_mode _ Hset) as Hsd.
  apply runProg_quiet in Hrun; [by apply (settled_sameGraph w)|by rewrite Hsd..].
Qed.

(** ** The idempotent-recompute law *)

Lemma flag_reading_derivation_counterexample :
  ¬ (∀ fuel run w w',
       reachable w → updateState fuel run w = Done tt w' →
       ∀ d tr, trackers w' !! d = Some tr → type tr = Derived →
               ∃ w'', runProg (updateSignal fuel) (func tr) w' = Done (value tr) w'').
Proof.
  intros claim.
  assert (Hreach : reachable FlagReader.world).
  { apply (reachable_afterOperations 2 FlagReader.operations emptyWorld);
      [apply reachable_empty|]. vm_compute. reflexivity. }
  assert (Hrun : updateState 2 FlagReader.batch FlagReader.world
                 = Done tt FlagReader.after) by (vm_compute; reflexivity).
  assert (Hcached : ∃ tr, trackers FlagReader.after !! FlagReader.flagged = Some tr
                          ∧ type tr = Derived ∧ value tr = VNum 105
                          ∧ runProg (updateSignal 2) (func tr) FlagReader.after
                            = Done (VNum 5) FlagReader.after).
  { eexists. split; [vm_compute; reflexivity|]. repeat split; vm_compute; reflexivity. }
  destruct Hcached as (tr & Htr & Hty & Hval & Hfresh).
  destruct (claim 2%nat FlagReader.batch _ _ Hreach Hrun _ tr Htr Hty) as (w'' & Hlaw).
  rewrite Hfresh, Hval in Hlaw. discriminate Hlaw.
Qed.

(** X1. Between update cycles of a graph whose derivation functions only
    read the values of trackers created before them and return numbers or
    null, the cached value of every derived tracker is what its function
    returns when it is evaluated afresh; and when a call of [updateState]
    returns from such a world, the world it leaves is such a world again:
    evaluating the function of any derived tracker against the final state
    returns the cached value and changes nothing. *)
Theorem updateState_idempotent_recompute fuel run w w' :
  settled w → updateState fuel run w = Done tt w' →
  settled w'
  ∧ ∀ d tr, trackers w' !! d = Some tr → type tr = Derived →
            runProg (updateSignal fuel) (func tr) w' = Done (value tr) w'.
Proof.
  intros Hset Hrun. pose proof (updateState_settled fuel run w w' Hset Hrun) as Hset'.
  split; [done|]. intros d tr Hd Hty.
  destruct (settled_consistent _ Hset' d tr Hd Hty) as (rs & Hev & _).
  by apply (runProg_evaluate _ _ _ _ rs (settled_mode _ Hset')).
Qed.

Lemma pureDiamond_settled : settled PureDiamond.world.
Proof.
  assert (Hprim : ∀ f v, primitive (onNumber f v)) by (by intros f []).
  pose proof settled_emptyWorld as H0.
  eassert (H1 : settled _).
  { eapply (state_settled (VNum 1) emptyWorld); [exact H0|]. cbv. reflexivity. }
  eassert (H2 : settled _).
  { eapply (derive_settled 3 PureDiamond.doubledFunc); [exact H1| |cbv; reflexivity].
    simpl. split; [unfold Diamond.count; lia|auto]. }
  eassert (H3 : settled _).
  { eapply (derive_settled 3 PureDiamond.moduloFunc); [exact H2| |cbv; reflexivity].
    simpl. split; [unfold Diamond.count; lia|auto]. }
  eassert (H4 : settled _).
  { eapply (derive_settled 3 PureDiamond.doubleModuloFunc); [exact H3| |cbv; reflexivity].
    simpl. split; [unfold Diamond.modulo; lia|auto]. }
  exact H4.
Qed.

Lemma updateState_idempotent_recompute_witness :
  settled PureDiamond.world
  ∧ updateState 3 Diamond.batch PureDiamond.world = Done tt PureDiamond.after
  ∧ settled PureDiamond.after
  ∧ ∀ d tr, trackers PureDiamond.after !! d = Some tr → type tr = Derived →
            runProg (updateSignal 3) (func tr) PureDiamond.after
            = Done (value tr) PureDiamond.after.
Proof.
  assert (Hrun : updateState 3 Diamond.batch PureDiamond.world
                 = Done tt PureDiamond.after) by (vm_compute; reflexivity).
  split; [exact pureDiamond_settled|]. split; [exact Hrun|].
  exact (updateState_idempotent_recompute 3 Diamond.batch PureDiamond.world
           PureDiamond.after pureDiamond_settled Hrun).
Defined.

(** * Further properties *)

(** ** Creating a derived signal *)

(** The function of the tracker being created always returns: it reads
    trackers that exist, and nothing is pulled in this phase. *)
Lemma runProg_creating_returns pull t p w :
  reader t p → creating t w → stateData w = SCreatingDerivedSignal [t] →
  isDerived w t → ∃ v w', runProg pull p w = Done v w'.
Proof.
  revert w. induction p as [a|X c k IH]; intros w Hrd Hcr Hsd Hder.
  - by exists a, w.
  - destruct c; try done. destruct Hrd as [Hlt Hk].
    pose proof Hder as (trt & Ht & _).
    assert (Hvalid : (t < length (trackers w))%nat) by (by eapply lookup_lt_Some).
    destruct (lookup_lt_is_Some_2 (trackers w) s) as [trs Hs]; [lia|].
    destruct (creating_link w s t trs Hcr Hsd Hder Hlt Hs)
      as (wl & Hlink & Hcr1 & Hk1 & Hown1 & Hup1).
    pose proof Hk1 as (_ & Hkept & _ & _ & Hsd1 & _).
    destruct (Hkept s trs Hs) as (trs1 & Hs1 & _).
    assert (Hh : handle pull (GetValue s) w = Done (value trs1) wl).
    { simpl. rewrite (bind_Done _ _ _ _ _ (getTracker_Some _ _ _ Hs)).
      destruct (type trs).
      - rewrite (bind_Done _ _ _ _ _ Hlink).
        by rewrite (bind_Done _ _ _ _ _ (getTracker_Some _ _ _ Hs1)).
      - rewrite (bind_Done _ _ _ (stateData w) w) by done. rewrite Hsd. simpl.
        rewrite (bind_Done _ _ _ _ _ Hlink).
        rewrite (bind_Done _ _ _ (stateData wl) wl) by done.
        rewrite Hsd1, Hsd. simpl.
        rewrite (bind_Done _ _ _ tt wl) by done.
        by rewrite (bind_Done _ _ _ _ _ (getTracker_Some _ _ _ Hs1)). }
    destruct (IH (value trs1) wl (Hk _) Hcr1) as (v & w' & Hrun);
      [congruence|by apply (coreKept_isDerived _ _ _ Hk1)|].
    exists v, w'. cbn [runProg]. by rewrite (bind_Done _ _ _ _ _ Hh).
Qed.

(** X2. On a settled world, [derive] of a function that only reads older
    trackers returns, whatever the fuel; the handle is the next index of the
    arena, the world is settled again (so the value cached for the new
    tracker is what its function returns afresh and its upstream set is what
    the function read), and no older tracker has changed its value. *)
Theorem derive_reader_returns fuel f w :
  settled w → reader (length (trackers w)) f →
  ∃ w', derive fuel f w = Done (length (trackers w)) w'
        ∧ settled w'
        ∧ length (trackers w') = S (length (trackers w))
        ∧ (∃ tr, trackers w' !! length (trackers w) = Some tr
                 ∧ type tr = Derived ∧ func tr = f)
        ∧ ∀ x tr, trackers w !! x = Some tr → valueOf x w' = Some (value tr).
Proof.
  intros Hset Hrd.
  set (d := length (trackers w)) in *.
  set (new := mkTracker Derived VNull false [] [] [] f).
  set (w1 := withStateData (SCreatingDerivedSignal [d])
               (withTrackers (λ ts, ts ++ [new]) w)).
  assert (Hcr1 : creating d w1).
  { apply (creating_alloc w new); try done.
    simpl. intros x Hx%list_elem_of_singleton. done. }
  assert (Hd1 : trackers w1 !! d = Some new).
  { simpl. by rewrite lookup_app_r, Nat.sub_diag by (unfold d; lia). }
  assert (Hder1 : isDerived w1 d) by (by exists new).
  destruct (runProg_creating_returns (updateSignal fuel) d f w1 Hrd Hcr1 eq_refl Hder1)
    as (v & w2 & Hf).
  destruct (runProg_creating (updateSignal fuel) d f w1 v w2 Hrd Hcr1 eq_refl Hder1 Hf)
    as (Hcr2 & Hk2 & Hown2 & _).
  destruct Hown2 as (tra & trd & Hda & Hd2 & Hcore & Hdn).
  assert (tra = new) as -> by congruence.
  assert (Hrun : ∃ w', derive fuel f w = Done d w'
                       ∧ trackers w' = <[d := setValue v trd]> (trackers w2)).
  { unfold derive. rewrite (bind_Done _ _ _ (stateData w) w) by done.
    rewrite (settled_mode _ Hset). simpl.
    rewrite (bind_Done _ _ _ d (withTrackers (λ ts, ts ++ [new]) w)) by done.
    rewrite (bind_Done _ _ _ tt w1) by done.
    rewrite (bind_Done _ _ _ _ _ Hf).
    unfold bind, modifyTracker, setStateData, modifyWorld. rewrite Hd2. simpl.
    eexists. split; [reflexivity|done]. }
  destruct Hrun as (w' & Hrun & Htr'). exists w'. split; [done|].
  pose proof Hk2 as (Hlen2 & Hkept2 & _).
  split; [by apply (derive_settled fuel f w d w')|].
  split; [|split].
  - rewrite Htr', length_insert, Hlen2. simpl. rewrite length_app. simpl. unfold d. lia.
  - exists (setValue v trd). rewrite Htr'. split; [|split].
    + apply list_lookup_insert_eq. by eapply lookup_lt_Some.
    + simpl. by destruct Hcore as (-> & _).
    + simpl. by destruct Hcore as (_ & _ & _ & _ & ->).
  - intros x tr Hx. unfold valueOf. rewrite Htr'.
    assert (Hlt : (x < d)%nat) by (by eapply lookup_lt_Some).
    rewrite list_lookup_insert_ne by lia.
    destruct (Hkept2 x tr) as (tr2 & -> & Hc2).
    { simpl. by rewrite lookup_app_l. }
    simpl. f_equal. apply Hc2.
Qed.

Lemma derive_reader_returns_witness :
  settled RemoveEffect.world
  ∧ reader (length (trackers RemoveEffect.world)) PureDiamond.doubledFunc
  ∧ ∃ w', derive 0 PureDiamond.doubledFunc RemoveEffect.world
          = Done (length (trackers RemoveEffect.world)) w'
          ∧ settled w'
          ∧ length (trackers w') = S (length (trackers RemoveEffect.world))
          ∧ (∃ tr, trackers w' !! length (trackers RemoveEffect.world) = Some tr
                   ∧ type tr = Derived ∧ func tr = PureDiamond.doubledFunc)
          ∧ ∀ x tr, trackers RemoveEffect.world !! x = Some tr →
                    valueOf x w' = Some (value tr).
Proof.
  assert (Hset : settled RemoveEffect.world).
  { apply (state_settled (VNum 2) emptyWorld 0%nat); [apply settled_emptyWorld|reflexivity]. }
  assert (Hrd : reader (length (trackers RemoveEffect.world)) PureDiamond.doubledFunc).
  { simpl. split; [unfold Diamond.count; lia|]. by intros []. }
  split; [exact Hset|]. split; [exact Hrd|].
  exact (derive_reader_returns 0 PureDiamond.doubledFunc RemoveEffect.world Hset Hrd).
Defined.

(** ** A batch whose callback throws *)

(** In a batch no accessor leaves the batch phase, whether it returns or
    throws, and none pulls a derived signal. *)
Lemma handle_batch_mode pull {X} (c : Call X) w :
  mode (stateData w) = UpdatingState →
  match handle pull c w with
  | Done _ w' | Throw _ w' => mode (stateData w') = UpdatingState
  | OutOfFuel => False
  end.
Proof.
  intros Hmode.
  assert (Hstk : stackOf (stateData w) = []) by (by destruct (stateData w)).
  assert (Hlink : ∀ s, handleDerivationLinking s w = Done tt w).
  { intros s. apply handleDerivationLinking_none. by rewrite Hstk. }
  assert (Hmark : ∀ s g, match (modifyTracker s g ;;; handleValueChange s) w with
                         | Done _ w' | Throw _ w' => mode (stateData w') = UpdatingState
                         | OutOfFuel => False
                         end).
  { intros s g. unfold bind, modifyTracker.
    destruct (trackers w !! s) as [tr|] eqn:Hs; [|done].
    set (w1 := withTrackers (λ ts, <[s := g tr]> ts) w).
    assert (Hs1 : trackers w1 !! s = Some (g tr)).
    { apply list_lookup_insert_eq. by eapply lookup_lt_Some. }
    assert (Hmode1 : mode (stateData w1) = UpdatingState) by done.
    unfold handleValueChange, bind, getStateData, getTracker.
    rewrite Hmode1, Hs1.
    destruct (hasChanged (g tr)); [done|]. unfold modifyTracker. rewrite Hs1.
    unfold modifyStateData, modifyWorld. simpl.
    by destruct (stateData w). }
  assert (Hget : ∀ s (k : Tracker → M X),
            (∀ tr, trackers w !! s = Some tr →
                   match k tr w with
                   | Done _ w' | Throw _ w' => mode (stateData w') = UpdatingState
                   | OutOfFuel => False
                   end) →
            match (tr <- getTracker s ;; k tr) w with
            | Done _ w' | Throw _ w' => mode (stateData w') = UpdatingState
            | OutOfFuel => False
            end).
  { intros s k Hk. unfold bind, getTracker.
    destruct (trackers w !! s) as [tr|] eqn:Hs; [by apply Hk|done]. }
  destruct c; simpl.
  - apply Hget. intros tr Hs. destruct (type tr).
    + unfold bind. rewrite Hlink. unfold getTracker. by rewrite Hs.
    + unfold bind, getStateData. by rewrite Hmode.
  - apply Hget. intros tr Hs. unfold bind, getStateData. rewrite Hmode.
    by destruct (type tr).
  - apply Hget. intros tr Hs. unfold bind, getStateData. rewrite Hmode.
    by destruct (type tr).
  - apply Hget. intros tr Hs. unfold bind at 1, getStateData. rewrite Hmode.
    destruct (type tr); [|done].
    destruct (strictEq (value tr) newValue); [done|]. apply Hmark.
  - apply Hget. intros tr Hs. unfold bind at 1, getStateData. rewrite Hmode.
    destruct (type tr); [|done]. apply Hmark.
  - done.
  - unfold readArray. by destruct (arrays w !! a).
  - unfold writeArray. by destruct (arrays w !! a).
  - done.
  - done.
  - done.
Qed.

Lemma runProg_batch_mode pull {A} (p : prog A) w :
  mode (stateData w) = UpdatingState →
  match runProg pull p w with
  | Done _ w' | Throw _ w' => mode (stateData w') = UpdatingState
  | OutOfFuel => False
  end.
Proof.
  revert w. induction p as [a|X c k IH]; intros w Hmode; simpl; [done|].
  pose proof (handle_batch_mode pull c w Hmode) as Hc. unfold bind.
  destruct (handle pull c w) as [x w1|e w1|]; [|done..]. by apply IH.
Qed.

(** X3. [updateState] has no [try]/[finally]: when the batch callback
    throws, [updateState] throws the same error, the phase stays
    "updating state", and from then on every [updateState], [derive] and
    [effect] fails with a phase violation and changes nothing. *)
Theorem throwing_batch_wedges fuel run w e w1 :
  stateData w = SNormal →
  runProg (updateSignal fuel) run (withStateData (SUpdatingState [] [] []) w)
  = Throw e w1 →
  updateState fuel run w = Throw e w1
  ∧ mode (stateData w1) = UpdatingState
  ∧ (∀ fuel' run', updateState fuel' run' w1 = Throw PhaseViolation w1)
  ∧ (∀ fuel' f, derive fuel' f w1 = Throw PhaseViolation w1)
  ∧ (∀ fuel' sources callback,
       effect fuel' sources callback w1 = Throw PhaseViolation w1).
Proof.
  intros Hsd Hrun.
  pose proof (runProg_batch_mode (updateSignal fuel) run
                (withStateData (SUpdatingState [] [] []) w) eq_refl) as Hmode.
  rewrite Hrun in Hmode.
  split; [|split; [done|split; [|split]]].
  - unfold updateState, bind, getStateData, setStateData, modifyWorld.
    rewrite Hsd. simpl. by rewrite Hrun.
  - intros fuel' run'. unfold updateState, bind, getStateData. by rewrite Hmode.
  - intros fuel' f. unfold derive, bind, getStateData. by rewrite Hmode.
  - intros fuel' sources callback. unfold effect, bind, getStateData. by rewrite Hmode.
Qed.

Lemma throwing_batch_wedges_witness :
  stateData FreedDerived.world = SNormal
  ∧ runProg (updateSignal 0) (v <- call (GetValue FreedDerived.derived) ;; Ret tt)%prog
      (withStateData (SUpdatingState [] [] []) FreedDerived.world)
    = Throw PhaseViolation (withStateData (SUpdatingState [] [] []) FreedDerived.world)
  ∧ updateState 0 (v <- call (GetValue FreedDerived.derived) ;; Ret tt)%prog
      FreedDerived.world
    = Throw PhaseViolation (withStateData (SUpdatingState [] [] []) FreedDerived.world)
  ∧ mode (stateData (withStateData (SUpdatingState [] [] []) FreedDerived.world))
    = UpdatingState.
Proof.
  assert (Hsd : stateData FreedDerived.world = SNormal) by (vm_compute; reflexivity).
  assert (Hrun : runProg (updateSignal 0)
                   (v <- call (GetValue FreedDerived.derived) ;; Ret tt)%prog
                   (withStateData (SUpdatingState [] [] []) FreedDerived.world)
                 = Throw PhaseViolation
                     (withStateData (SUpdatingState [] [] []) FreedDerived.world))
    by (vm_compute; reflexivity).
  split; [exact Hsd|]. split; [exact Hrun|].
  destruct (throwing_batch_wedges 0 _ _ _ _ Hsd Hrun) as (H1 & H2 & _).
  split; [exact H1|exact H2].
Defined.

(** ** A batch that changes nothing *)

Lemma handle_nothingMarked pull {X} (c : Call X) w x w1 :
  nothingMarked w → handle pull c w = Done x w1 → nothingMarked w1.
Proof.
  intros [Hmode Hinv] Hrun.
  assert (Hstk : stackOf (stateData w) = []) by (by destruct (stateData w)).
  assert (Hquiet : ¬ writes c → nothingMarked w1).
  { intros Hw. destruct (handle_quiet pull c w x w1) as (_ & Hsd & _); try done.
    - by rewrite Hmode.
    - unfold nothingMarked. by rewrite Hsd. }
  assert (Hmark : ∀ s g u, (modifyTracker s g ;;; handleValueChange s) w = Done u w1 →
                           nothingMarked w1).
  { intros s g u Hm. apply bind_Done_inv in Hm as ([] & w0 & Hmod & Hval).
    apply modifyTracker_Done in Hmod as (tr & Hs & ->).
    set (w0 := withTrackers (λ ts, <[s := g tr]> ts) w) in *.
    assert (Hs0 : trackers w0 !! s = Some (g tr)).
    { apply list_lookup_insert_eq. by eapply lookup_lt_Some. }
    destruct (stateData w) as [|ch st ef| | | |] eqn:Hsd; try done.
    destruct (hasChanged (g tr)) eqn:Hflag.
    - rewrite (handleValueChange_flagged w0 s _ Hs0 Hflag) in Hval
        by (simpl; by rewrite Hsd).
      injection Hval as _ Heq. rewrite <- Heq. unfold nothingMarked.
      change (stateData w0) with (stateData w). rewrite Hsd. by split.
    - rewrite (handleValueChange_unflagged w0 s _ ch st ef Hs0 Hflag) in Hval
        by (simpl; by rewrite Hsd).
      injection Hval as _ Heq. rewrite <- Heq. split; [done|]. simpl. intros Hnil.
      by apply app_nil in Hnil as [_ ?]. }
  destruct c; try (apply Hquiet; simpl; tauto); simpl in Hrun.
  - apply bind_Done_inv in Hrun as (tr & w0 & Hget & Hrun).
    apply getTracker_Done_inv in Hget as [-> Hs].
    rewrite (bind_Done _ _ _ (stateData w) w) in Hrun by done.
    destruct (type tr); [|done]. rewrite Hmode in Hrun.
    destruct (strictEq (value tr) newValue); [|by eapply Hmark].
    by injection Hrun as _ <-.
  - apply bind_Done_inv in Hrun as (tr & w0 & Hget & Hrun).
    apply getTracker_Done_inv in Hget as [-> Hs].
    rewrite (bind_Done _ _ _ (stateData w) w) in Hrun by done.
    destruct (type tr); [|done]. rewrite Hmode in Hrun. by eapply Hmark.
Qed.

Lemma runProg_nothingMarked pull {A} (p : prog A) w a w1 :
  nothingMarked w → runProg pull p w = Done a w1 → nothingMarked w1.
Proof.
  revert w. induction p as [b|X c k IH]; intros w Hinv Hrun; simpl in Hrun.
  - by injection Hrun as _ <-.
  - apply bind_Done_inv in Hrun as (x & w0 & Hc & Hrun).
    apply (IH x w0); [|done]. by apply (handle_nothingMarked pull c w x).
Qed.

(** X4. When the batch callback returns without having changed any state
    (the changed list is empty: it wrote nothing, or only values identical
    to the current ones), [updateState] returns straight away: no
    derivation and no effect runs, and the world is the one the callback
    left, back in the normal phase. *)
Theorem unchanged_batch_runs_nothing fuel run w w1 :
  stateData w = SNormal →
  runProg (updateSignal (S fuel)) run (withStateData (SUpdatingState [] [] []) w)
  = Done tt w1 →
  changedOf (stateData w1) = [] →
  updateState (S fuel) run w = Done tt (withStateData SNormal w1).
Proof.
  intros Hsd Hrun Hnil.
  assert (Hstart : nothingMarked (withStateData (SUpdatingState [] [] []) w))
    by (by split).
  destruct (runProg_nothingMarked _ run _ tt w1 Hstart Hrun) as [Hmode Hinv].
  destruct (Hinv Hnil) as [Hst Hef].
  unfold updateState. rewrite (bind_Done _ _ _ (stateData w) w) by done.
  rewrite Hsd. simpl.
  rewrite (bind_Done _ _ _ tt (withStateData (SUpdatingState [] [] []) w)) by done.
  rewrite (bind_Done _ _ _ _ _ Hrun).
  rewrite (bind_Done _ _ _ (stateData w1) w1) by done.
  rewrite Hnil, Hst, Hef.
  unfold bind, setStateData, modifyWorld, getStateData. simpl. done.
Qed.

Lemma unchanged_batch_runs_nothing_witness :
  stateData DiamondOperations.world = SNormal
  ∧ runProg (updateSignal 1)
      (call (SetValue Diamond.count (VNum 5)))
      (withStateData (SUpdatingState [] [] []) DiamondOperations.world)
    = Done tt (withStateData (SUpdatingState [] [] []) DiamondOperations.world)
  ∧ changedOf (stateData (withStateData (SUpdatingState [] [] [])
                            DiamondOperations.world)) = []
  ∧ updateState 1 (call (SetValue Diamond.count (VNum 5))) DiamondOperations.world
    = Done tt (withStateData SNormal
                 (withStateData (SUpdatingState [] [] []) DiamondOperations.world)).
Proof.
  assert (Hsd : stateData DiamondOperations.world = SNormal) by (vm_compute; reflexivity).
  assert (Hrun : runProg (updateSignal 1)
                   (call (SetValue Diamond.count (VNum 5)))
                   (withStateData (SUpdatingState [] [] []) DiamondOperations.world)
                 = Done tt (withStateData (SUpdatingState [] [] [])
                              DiamondOperations.world))
    by (vm_compute; reflexivity).
  split; [exact Hsd|]. split; [exact Hrun|]. split; [reflexivity|].
  exact (unchanged_batch_runs_nothing 0 _ _ _ Hsd Hrun eq_refl).
Defined.

(** ** Creating an effect *)

(** Reading a signal with no derivation in progress, outside a batch and
    outside the resolution of stale trackers, returns its value and changes
    nothing. *)
Lemma handle_GetValue_plain pull s tr w :
  stackOf (stateData w) = [] → mode (stateData w) ≠ UpdatingDerivedSignals →
  mode (stateData w) ≠ UpdatingState →
  trackers w !! s = Some tr →
  handle pull (GetValue s) w = Done (value tr) w.
Proof.
  intros Hstk Hm1 Hm2 Hs.
  assert (Hlink : handleDerivationLinking s w = Done tt w).
  { apply handleDerivationLinking_none. by rewrite Hstk. }
  simpl. rewrite (bind_Done _ _ _ _ _ (getTracker_Some _ _ _ Hs)).
  destruct (type tr).
  - rewrite (bind_Done _ _ _ _ _ Hlink).
    by rewrite (bind_Done _ _ _ _ _ (getTracker_Some _ _ _ Hs)).
  - rewrite (bind_Done _ _ _ (stateData w) w) by done.
    destruct (mode (stateData w)) eqn:Hm; try done;
      rewrite (bind_Done _ _ _ _ _ Hlink);
      rewrite (bind_Done _ _ _ (stateData w) w) by done;
      rewrite Hm; simpl;
      rewrite (bind_Done _ _ _ tt w) by done;
      by rewrite (bind_Done _ _ _ _ _ (getTracker_Some _ _ _ Hs)).
Qed.

Lemma read_sources pull sources w :
  stackOf (stateData w) = [] → mode (stateData w) ≠ UpdatingDerivedSignals →
  mode (stateData w) ≠ UpdatingState →
  (∀ s, s ∈ sources → (s < length (trackers w))%nat) →
  (∀ x tr, trackers w !! x = Some tr → hasChanged tr = false) →
  mapM (λ f, v <- handle pull (GetValue f) ;;
             tr <- getTracker f ;;
             ret (v, hasChanged tr)) sources w
  = Done ((λ s, (default VNull (valueOf s w), false)) <$> sources) w.
Proof.
  intros Hstk Hm1 Hm2 Hvalid Hflags.
  induction sources as [|s sources IH]; [done|]. cbn [mapM fmap list_fmap].
  destruct (lookup_lt_is_Some_2 (trackers w) s) as [tr Hs]; [apply Hvalid; left|].
  rewrite (bind_Done _ _ _ (value tr, hasChanged tr) w).
  - rewrite (bind_Done _ _ _ _ _ (IH ltac:(intros x Hx; apply Hvalid; by right))).
    unfold valueOf. rewrite Hs. simpl. by rewrite (Hflags s tr Hs).
  - rewrite (bind_Done _ _ _ _ _ (handle_GetValue_plain pull s tr w Hstk Hm1 Hm2 Hs)).
    by rewrite (bind_Done _ _ _ _ _ (getTracker_Some _ _ _ Hs)).
Qed.

Lemma subscribe_loop_effects run sources w w' :
  forEach sources (λ source,
    modifyTracker source
      (λ t, setDownstreamEffects (JsSet.add run (downstreamEffects t)) t)) w
  = Done tt w' →
  effects w' = effects w ∧ arrays w' = arrays w ∧ ticks w' = ticks w
  ∧ nextAddress w' = nextAddress w
  ∧ ∀ x tr, trackers w !! x = Some tr →
      ∃ tr', trackers w' !! x = Some tr'
             ∧ ∀ y, y ∈ downstreamEffects tr'
                    ↔ y ∈ downstreamEffects tr ∨ (y = run ∧ x ∈ sources).
Proof.
  revert w. induction sources as [|s xs IH]; intros w Hrun; simpl in Hrun.
  - injection Hrun as <-. repeat split; try done.
    intros x tr Hx. exists tr. split; [done|]. intros y. rewrite elem_of_nil. tauto.
  - apply bind_Done_inv in Hrun as ([] & w0 & Hstep & Hrun).
    apply modifyTracker_Done in Hstep as (trs & Hs & ->).
    destruct (IH _ Hrun) as (Heff & Harr & Htk & Hna & Hkept). simpl in *.
    repeat split; try done.
    intros x tx Hx. destruct (decide (x = s)) as [->|Hne].
    + assert (tx = trs) as -> by congruence.
      destruct (Hkept s (setDownstreamEffects (JsSet.add run (downstreamEffects trs)) trs))
        as (tr' & Hs' & Hiff).
      { apply list_lookup_insert_eq. by eapply lookup_lt_Some. }
      exists tr'. split; [done|]. intros y. rewrite Hiff. simpl.
      rewrite elem_of_JsSet_add, elem_of_cons. naive_solver.
    + destruct (Hkept x tx) as (tr' & Hx' & Hiff); [by rewrite list_lookup_insert_ne|].
      exists tr'. split; [done|]. intros y. rewrite Hiff, elem_of_cons. naive_solver.
Qed.

(** X5. On a settled world and with sources that exist, [effect] is one run
    of the callback followed by the subscription: reading the sources
    changes nothing, the callback is called once, with the current value of
    each source and [hasChangedSinceLastEffectExecution = false], in the
    world where the closure is registered and the mode is "creating effect";
    what the callback throws, [effect] throws, leaving the world as the
    callback left it.  If the callback returns, [effect] returns, the world
    is settled again, and it is the world the callback left but for the mode
    and for the closure, which is in the downstream-effect set of every
    source and has entered no other set. *)
Theorem effect_first_run fuel sources callback w :
  settled w → (∀ s, s ∈ sources → (s < length (trackers w))%nat) →
  effect fuel sources callback w
  = (runProg (updateSignal fuel)
       (callback ((λ s, (default VNull (valueOf s w), false)) <$> sources)) ;;;
     setStateData SNormal ;;;
     forEach sources (λ source,
       modifyTracker source
         (λ t, setDownstreamEffects
                 (JsSet.add (length (effects w)) (downstreamEffects t)) t)))
      (mkWorld (trackers w) (effects w ++ [mkEffect sources callback]) (arrays w)
               SCreatingEffect (nextAddress w) (derivationRegistry w) (ticks w))
  ∧ (∀ e w1,
       runProg (updateSignal fuel)
         (callback ((λ s, (default VNull (valueOf s w), false)) <$> sources))
         (mkWorld (trackers w) (effects w ++ [mkEffect sources callback]) (arrays w)
                  SCreatingEffect (nextAddress w) (derivationRegistry w) (ticks w))
       = Throw e w1 →
       effect fuel sources callback w = Throw e w1)
  ∧ ∀ w1,
      runProg (updateSignal fuel)
        (callback ((λ s, (default VNull (valueOf s w), false)) <$> sources))
        (mkWorld (trackers w) (effects w ++ [mkEffect sources callback]) (arrays w)
                 SCreatingEffect (nextAddress w) (derivationRegistry w) (ticks w))
      = Done tt w1 →
      ∃ w', effect fuel sources callback w = Done tt w'
            ∧ settled w'
            ∧ (∀ s, s ∈ sources →
                    ∃ tr, trackers w' !! s = Some tr
                          ∧ length (effects w) ∈ downstreamEffects tr)
            ∧ (∀ x tr, trackers w !! x = Some tr → valueOf x w' = Some (value tr))
            ∧ effects w' = effects w1 ∧ arrays w' = arrays w1 ∧ ticks w' = ticks w1
            ∧ nextAddress w' = nextAddress w1
            ∧ derivationRegistry w' = derivationRegistry w1
            ∧ length (trackers w') = length (trackers w1)
            ∧ ∀ x tr1, trackers w1 !! x = Some tr1 →
                ∃ tr', trackers w' !! x = Some tr'
                       ∧ type tr' = type tr1 ∧ value tr' = value tr1
                       ∧ hasChanged tr' = hasChanged tr1 ∧ func tr' = func tr1
                       ∧ upstreamSignals tr' = upstreamSignals tr1
                       ∧ downstreamSignals tr' = downstreamSignals tr1
                       ∧ ∀ y, y ∈ downstreamEffects tr'
                              ↔ y ∈ downstreamEffects tr1
                                ∨ (y = length (effects w) ∧ x ∈ sources).
Proof.
  intros Hset Hvalid.
  set (run := length (effects w)) in *.
  set (wB := mkWorld (trackers w) (effects w ++ [mkEffect sources callback]) (arrays w)
                     SCreatingEffect (nextAddress w) (derivationRegistry w) (ticks w)) in *.
  set (infos := (λ s, (default VNull (valueOf s w), false)) <$> sources) in *.
  set (g := λ t, setDownstreamEffects (JsSet.add run (downstreamEffects t)) t).
  assert (Hread : runEffect (updateSignal fuel) run wB
                  = runProg (updateSignal fuel) (callback infos) wB).
  { unfold runEffect. rewrite (bind_Done _ _ _ (mkEffect sources callback) wB).
    - cbn [from onUpdate].
      rewrite (bind_Done _ _ _ infos wB); [done|].
      apply (read_sources (updateSignal fuel) sources wB); try done.
      intros x tr Hx. by apply (settled_flags _ Hset x).
    - unfold getEffect, wB, run. simpl. by rewrite lookup_app_r, Nat.sub_diag by lia. }
  assert (Heq : effect fuel sources callback w
                = (runProg (updateSignal fuel) (callback infos) ;;;
                   setStateData SNormal ;;;
                   forEach sources (λ source, modifyTracker source g)) wB).
  { unfold effect. rewrite (bind_Done _ _ _ (stateData w) w) by done.
    rewrite (settled_mode _ Hset). simpl.
    rewrite (bind_Done _ _ _ run
               (mkWorld (trackers w) (effects w ++ [mkEffect sources callback]) (arrays w)
                        (stateData w) (nextAddress w) (derivationRegistry w) (ticks w)))
      by done.
    rewrite (bind_Done _ _ _ tt wB) by done.
    unfold bind at 1 3. by rewrite Hread. }
  split; [exact Heq|]. split.
  { intros e w1 Hcb. rewrite Heq. unfold bind at 1. by rewrite Hcb. }
  intros w1 Hcb.
  destruct (runProg_quiet (updateSignal fuel) (callback infos) wB tt w1) as (Ht1 & Hsd1 & Hreg1);
    try done.
  destruct (forEach_modify_returns g sources (withStateData SNormal w1)) as (w' & Hloop & Hlen).
  { intros s Hs. simpl. rewrite Ht1. by apply Hvalid. }
  assert (Hrun : effect fuel sources callback w = Done tt w').
  { rewrite Heq. rewrite (bind_Done _ _ _ _ _ Hcb).
    rewrite (bind_Done _ _ _ tt (withStateData SNormal w1)) by done.
    exact Hloop. }
  exists w'. split; [done|]. split; [by apply (effect_settled fuel sources callback w)|].
  pose proof (subscribe_loop _ _ _ _ Hloop) as (_ & Hreg & _ & Hkept).
  pose proof (subscribe_loop_effects _ _ _ _ Hloop) as (Heff & Harr & Htk & Hna & Hiff).
  split.
  { intros s Hs.
    apply (forEach_modify_makes g (λ tr, run ∈ downstreamEffects tr)) with (s := s) in Hloop;
      try done.
    + intros tr Hin. simpl. apply elem_of_JsSet_add. by right.
    + intros tr. simpl. apply elem_of_JsSet_add. by left. }
  split.
  { intros x tr Hx.
    destruct (Hkept x tr) as (tr' & Hx' & _ & Hv & _).
    { simpl. by rewrite Ht1. }
    unfold valueOf. rewrite Hx'. simpl. by rewrite Hv. }
  do 6 (split; [done|]).
  intros x tr1 Hx.
  destruct (Hkept x tr1 Hx) as (tr' & Hx' & Hty & Hv & Hf & Hup & Hdn & Hfl).
  destruct (Hiff x tr1 Hx) as (tr'' & Hx'' & Hmem).
  assert (tr'' = tr') as -> by congruence.
  exists tr'. do 7 (split; [done|]). exact Hmem.
Qed.

(** ** Edit scripts *)

Lemma map_fmap {A B} (f : A → B) (l : list A) : List.map f l = f <$> l.
Proof. induction l as [|x l IH]; simpl; [done|]. by rewrite IH. Qed.

(** X6. [updateArrayFromChanges] applies the records of a script in order:
    applying [cs1 ++ cs2] is applying [cs1] and then [cs2]; a [Move] record
    aborts the script where it stands, with the records before it applied
    and the ones after it not. *)
Theorem script_application_is_sequential {T} (a : JsArray T) (cs1 cs2 : list (Change T)) :
  updateArrayFromChanges a (cs1 ++ cs2)
  = match updateArrayFromChanges a cs1 with
    | (a1, None) => updateArrayFromChanges a1 cs2
    | (a1, Some e) => (a1, Some e)
    end
  ∧ ∀ p q, updateArrayFromChanges a (cs1 ++ Move p q :: cs2)
           = (fst (updateArrayFromChanges a cs1),
              Some (default UnimplementedOperation (snd (updateArrayFromChanges a cs1)))).
Proof.
  split.
  - revert a. induction cs1 as [|c cs1 IH]; intros a; simpl; [done|].
    destruct c; simpl; auto.
  - intros p q. revert a. induction cs1 as [|c cs1 IH]; intros a; simpl; [done|].
    destruct c; simpl; auto.
Qed.

Section MapScript.
Context (f : Value → Value).

Lemma arr_splice_map (a b : JsArray Value) start deleteCount items :
  slots b = slots (arr_map f a) →
  slots (arr_splice b start deleteCount (List.map f items))
  = slots (arr_map f (arr_splice a start deleteCount items)).
Proof.
  intros Hb. unfold arr_splice, arr_length. simpl in *. rewrite Hb.
  rewrite !map_fmap, length_fmap, !fmap_app, fmap_take, fmap_drop.
  rewrite <- !list_fmap_compose. done.
Qed.

Lemma arr_set_map (a b : JsArray Value) i v :
  slots b = slots (arr_map f a) →
  slots (arr_set b i (f v)) = slots (arr_map f (arr_set a i v)).
Proof.
  intros Hb. unfold arr_set. simpl in *. destruct (i <? 0); simpl; [done|].
  rewrite Hb, !map_fmap, length_fmap.
  destruct (Z.to_nat i <? length (slots a))%nat; simpl.
  - by rewrite list_fmap_insert.
  - by rewrite !fmap_app, fmap_replicate.
Qed.

(** X7. [map]'s rewriting of an edit script commutes with applying it: on
    an array that is the image of [a] under [func], the rewritten script
    leaves the image of what the script makes of [a], and fails exactly
    when the script does. *)
Theorem mapped_script_yields_mapped_array (a b : JsArray Value) (cs : list (Change Value)) :
  slots b = slots (arr_map f a) →
  slots (fst (updateArrayFromChanges b (List.map (mapChange f) cs)))
  = slots (arr_map f (fst (updateArrayFromChanges a cs)))
  ∧ snd (updateArrayFromChanges b (List.map (mapChange f) cs))
    = snd (updateArrayFromChanges a cs).
Proof.
  revert a b. induction cs as [|c cs IH]; intros a b Hb; simpl; [done|].
  destruct c as [i vs|s l|p q|i v]; simpl.
  - apply IH. by apply arr_splice_map.
  - apply IH. by apply (arr_splice_map a b s l []).
  - done.
  - apply IH. by apply arr_set_map.
Qed.
End MapScript.

Lemma mapped_script_yields_mapped_array_witness :
  slots (fst (updateArrayFromChanges (arr_map (onNumber (λ n, n * 2)) (arrayOf (numbers [1; 2; 3])))
                (List.map (mapChange (onNumber (λ n, n * 2)))
                          [Insert 3 (numbers [4]); Delete 0 1])))
  = slots (arr_map (onNumber (λ n, n * 2))
             (fst (updateArrayFromChanges (arrayOf (numbers [1; 2; 3]))
                     [Insert 3 (numbers [4]); Delete 0 1])))
  ∧ snd (updateArrayFromChanges (arr_map (onNumber (λ n, n * 2)) (arrayOf (numbers [1; 2; 3])))
           (List.map (mapChange (onNumber (λ n, n * 2)))
                     [Insert 3 (numbers [4]); Delete 0 1]))
    = snd (updateArrayFromChanges (arrayOf (numbers [1; 2; 3]))
             [Insert 3 (numbers [4]); Delete 0 1]).
Proof.
  apply (mapped_script_yields_mapped_array (onNumber (λ n, n * 2))
           (arrayOf (numbers [1; 2; 3]))
           (arr_map (onNumber (λ n, n * 2)) (arrayOf (numbers [1; 2; 3])))).
  reflexivity.
Defined.

Section Concatenation.
Context {T : Type}.
Implicit Types pre post : list (option T).

Lemma arr_splice_fits (a : JsArray T) i count items :
  0 ≤ i → 0 ≤ count → i + count ≤ arr_length a →
  slots (arr_splice a i count items)
  = take (Z.to_nat i) (slots a) ++ (Some <$> items)
    ++ drop (Z.to_nat i + Z.to_nat count) (slots a).
Proof.
  intros Hi Hc Hlen. unfold arr_splice, arr_length in *. simpl.
  replace (i <? 0) with false by lia.
  rewrite Z.min_l by lia. rewrite Z.max_l by lia. rewrite Z.min_l by lia.
  by rewrite Z2Nat.inj_add by lia.
Qed.

Lemma arr_length_splice_fits (a : JsArray T) i count items :
  0 ≤ i → 0 ≤ count → i + count ≤ arr_length a →
  arr_length (arr_splice a i count items)
  = arr_length a - count + Z.of_nat (length items).
Proof.
  intros Hi Hc Hlen. unfold arr_length at 1. rewrite arr_splice_fits by done.
  unfold arr_length in *.
  rewrite !length_app, length_take, length_fmap, length_drop. lia.
Qed.

Lemma arr_splice_concatenation pre post (a : JsArray T) p i count items :
  0 ≤ i → 0 ≤ count → i + count ≤ arr_length a →
  arr_splice (mkArray (pre ++ slots a ++ post) p) (Z.of_nat (length pre) + i) count items
  = mkArray (pre ++ slots (arr_splice a i count items) ++ post) p.
Proof.
  intros Hi Hc Hlen. rewrite (arr_splice_fits a) by done.
  unfold arr_splice, arr_length in *. simpl. f_equal.
  rewrite !length_app.
  replace (Z.of_nat (length pre) + i <? 0) with false by lia.
  rewrite Z.min_l by lia. rewrite Z.max_l by lia. rewrite Z.min_l by lia.
  replace (Z.to_nat (Z.of_nat (length pre) + i)) with (length pre + Z.to_nat i)%nat by lia.
  replace (Z.to_nat (Z.of_nat (length pre) + i + count))
    with (length pre + (Z.to_nat i + Z.to_nat count))%nat by lia.
  rewrite take_app_add, drop_app_add.
  rewrite take_app_le by lia. rewrite drop_app_le by lia.
  by rewrite <- !app_assoc.
Qed.

Lemma arr_set_concatenation pre post (a : JsArray T) p i v :
  0 ≤ i → i < arr_length a →
  arr_set (mkArray (pre ++ slots a ++ post) p) (Z.of_nat (length pre) + i) v
  = mkArray (pre ++ slots (arr_set a i v) ++ post) p
  ∧ arr_length (arr_set a i v) = arr_length a.
Proof.
  intros Hi Hlen. unfold arr_set, arr_length in *. simpl.
  replace (Z.of_nat (length pre) + i <? 0) with false by lia.
  replace (i <? 0) with false by lia.
  rewrite !length_app.
  replace (Z.to_nat (Z.of_nat (length pre) + i)) with (length pre + Z.to_nat i)%nat by lia.
  replace (length pre + Z.to_nat i <? length pre + (length (slots a) + length post))%nat
    with true by (symmetry; apply Nat.ltb_lt; lia).
  replace (Z.to_nat i <? length (slots a))%nat
    with true by (symmetry; apply Nat.ltb_lt; lia).
  simpl. rewrite length_insert. split; [|done]. f_equal.
  rewrite insert_app_r. f_equal. apply insert_app_l. lia.
Qed.
End Concatenation.

(** X8. [join] moves every record of a part's script by the part's offset.
    For a script within bounds, applying the moved script to an array that
    holds the part's elements at that offset edits the part where it lies
    and leaves what is before and after it alone. *)
Theorem offset_script_edits_in_place (pre post : list (option Value))
    (a : JsArray Value) (p : list (Z * Value)) (cs : list (Change Value)) :
  scriptFits (arr_length a) cs = true →
  ∃ moved a',
    offsetChanges (Z.of_nat (length pre)) cs = Some moved
    ∧ updateArrayFromChanges a cs = (a', None)
    ∧ updateArrayFromChanges (mkArray (pre ++ slots a ++ post) p) moved
      = (mkArray (pre ++ slots a' ++ post) p, None).
Proof.
  revert a. induction cs as [|c cs IH]; intros a Hfits.
  - exists [], a. done.
  - destruct c as [i vs|s l|x y|i v]; simpl in Hfits; [| |done|].
    + apply andb_prop in Hfits as [Hb Hrest]. apply andb_prop in Hb as [Hi Hl].
      destruct (IH (arr_splice a i 0 vs)) as (moved & a' & Hoff & Hown & Hall).
      { rewrite arr_length_splice_fits by lia. rewrite <- Hrest. f_equal. lia. }
      exists (Insert (Z.of_nat (length pre) + i) vs :: moved), a'.
      simpl. rewrite Hoff. split; [done|]. split; [done|].
      rewrite arr_splice_concatenation by lia. done.
    + apply andb_prop in Hfits as [Hb Hrest]. apply andb_prop in Hb as [Hb Hl].
      apply andb_prop in Hb as [Hs Hc].
      destruct (IH (arr_splice a s l [])) as (moved & a' & Hoff & Hown & Hall).
      { rewrite arr_length_splice_fits by lia. rewrite <- Hrest. f_equal. simpl. lia. }
      exists (Delete (Z.of_nat (length pre) + s) l :: moved), a'.
      simpl. rewrite Hoff. split; [done|]. split; [done|].
      rewrite arr_splice_concatenation by lia. done.
    + apply andb_prop in Hfits as [Hb Hrest]. apply andb_prop in Hb as [Hi Hl].
      destruct (arr_set_concatenation pre post a p i v) as [Hset Hlen]; [lia..|].
      destruct (IH (arr_set a i v)) as (moved & a' & Hoff & Hown & Hall).
      { by rewrite Hlen. }
      exists (Replace (Z.of_nat (length pre) + i) v :: moved), a'.
      simpl. rewrite Hoff. split; [done|]. split; [done|].
      rewrite Hset. done.
Qed.

Lemma offset_script_edits_in_place_witness :
  ∃ moved a',
    offsetChanges (Z.of_nat (length [Some (VNum 0)]))
      [Insert 3 (numbers [4]); Delete 0 1; Replace 1 (VNum 9)] = Some moved
    ∧ updateArrayFromChanges (arrayOf (numbers [1; 2; 3]))
        [Insert 3 (numbers [4]); Delete 0 1; Replace 1 (VNum 9)] = (a', None)
    ∧ updateArrayFromChanges
        (mkArray ([Some (VNum 0)] ++ slots (arrayOf (numbers [1; 2; 3])) ++ [Some (VNum 7)]) [])
        moved
      = (mkArray ([Some (VNum 0)] ++ slots a' ++ [Some (VNum 7)]) [], None).
Proof.
  apply (offset_script_edits_in_place [Some (VNum 0)] [Some (VNum 7)]
           (arrayOf (numbers [1; 2; 3])) []
           [Insert 3 (numbers [4]); Delete 0 1; Replace 1 (VNum 9)]).
  reflexivity.
Defined.

(** ** Edits of an array state in a batch *)

Lemma updateArrayFromChanges_app {T} (a : JsArray T) (cs1 cs2 : list (Change T)) :
  updateArrayFromChanges a (cs1 ++ cs2)
  = match updateArrayFromChanges a cs1 with
    | (a1, None) => updateArrayFromChanges a1 cs2
    | (a1, Some e) => (a1, Some e)
    end.
Proof.
  revert a. induction cs1 as [|c cs1 IH]; intros a; simpl; [done|].
  destruct c; simpl; auto.
Qed.

Section Recording.
Variable pull : TrackerId → M unit.
Variable this : ImmutableArray.

Lemma holding_read c cur w :
  holding this c cur w →
  handle pull (ArrayRead (arrValue this)) w = Done cur w.
Proof. intros (_ & tr & addr & _ & _ & _ & _ & Harr). by apply readArray_Some. Qed.

Lemma holding_write c cur new w :
  holding this c cur w →
  ∃ w', handle pull (ArrayWrite (arrValue this) new) w = Done tt w'
        ∧ holding this c new w'.
Proof.
  intros (Hmode & tr & addr & Htr & Hty & Hfl & Hv & Harr).
  eexists. split.
  - simpl. unfold writeArray. rewrite Harr. reflexivity.
  - split; [done|]. exists tr, addr. repeat split; try done.
    simpl. apply list_lookup_insert_eq. by eapply lookup_lt_Some.
Qed.

Lemma holding_push extra change c cur w :
  holding this c cur w →
  ∃ w', handle pull (Update (arrChanges this) (onChanges (pushChange extra change))) w
        = Done tt w'
        ∧ holding this (pushChange extra change c) cur w'.
Proof.
  intros (Hmode & tr & addr & Htr & Hty & Hfl & Hv & Harr).
  assert (Hlt : (arrChanges this < length (trackers w))%nat) by (by eapply lookup_lt_Some).
  set (tr' := setValue (onChanges (pushChange extra change) (value tr)) tr).
  set (w1 := withTrackers (λ ts, <[arrChanges this := tr']> ts) w).
  assert (Hs1 : trackers w1 !! arrChanges this = Some tr')
    by (by apply list_lookup_insert_eq).
  exists w1. split.
  - simpl. rewrite (bind_Done _ _ _ _ _ (getTracker_Some _ _ _ Htr)).
    rewrite (bind_Done _ _ _ (stateData w) w) by done. rewrite Hty, Hmode.
    rewrite (bind_Done _ _ _ tt w1) by (unfold modifyTracker; by rewrite Htr).
    by apply (handleValueChange_flagged w1 _ tr').
  - split; [done|]. exists tr', addr. repeat split; try done.
    unfold tr'. simpl. by rewrite Hv.
Qed.

Lemma scripted_reset base w :
  scripted this base w →
  ∃ w1 c cur, runProg pull (ArrayStateClass.resetOnFirstMutation this) w = Done tt w1
              ∧ holding this c cur w1
              ∧ arrays w !! arrValue this = Some cur
              ∧ updateArrayFromChanges base (changes c) = (cur, None)
              ∧ newLength c = arr_length cur.
Proof.
  unfold ArrayStateClass.resetOnFirstMutation.
  intros [(c & cur & Hhold & Hscript & Hlen)|(Hmode & tr & addr & c & Htr & Hty & Hfl & Hv & Haddr & Harr)].
  - exists w, c, cur. pose proof Hhold as (Hmode & tr & addr & Htr & Hty & Hfl & Hv & Harr).
    split; [|done]. rewrite runProg_pbind.
    rewrite (bind_Done _ _ _ true w); [done|].
    rewrite runProg_call. simpl.
    rewrite (bind_Done _ _ _ _ _ (getTracker_Some _ _ _ Htr)).
    rewrite (bind_Done _ _ _ (stateData w) w) by done. by rewrite Hty, Hmode, Hfl.
  - assert (Hlt : (arrChanges this < length (trackers w))%nat) by (by eapply lookup_lt_Some).
    destruct (stateData w) as [|ch st ef| | | |] eqn:Hsd; try done.
    set (fresh := VChanges (nextAddress w) (mkChanges [] (arr_length base))).
    set (wa := mkWorld (trackers w) (effects w) (arrays w) (stateData w)
                       (S (nextAddress w)) (derivationRegistry w) (ticks w)).
    set (wb := withTrackers (λ ts, <[arrChanges this := setValue fresh tr]> ts) wa).
    eexists _, (mkChanges [] (arr_length base)), base. split; [|split; [|done]].
    + rewrite runProg_pbind. rewrite (bind_Done _ _ _ false w).
      2:{ rewrite runProg_call. simpl.
          rewrite (bind_Done _ _ _ _ _ (getTracker_Some _ _ _ Htr)).
          rewrite (bind_Done _ _ _ (stateData w) w) by done.
          by rewrite Hty, Hsd, Hfl. }
      rewrite runProg_pbind. rewrite (bind_Done _ _ _ base w)
        by (rewrite runProg_call; by apply readArray_Some).
      rewrite runProg_pbind. rewrite (bind_Done _ _ _ fresh wa)
        by (by rewrite runProg_call).
      rewrite runProg_call. simpl.
      rewrite (bind_Done _ _ _ tr wa) by (by apply getTracker_Some).
      rewrite (bind_Done _ _ _ (stateData wa) wa) by done.
      change (stateData wa) with (stateData w). rewrite Hty, Hsd. simpl.
      rewrite Hv. simpl. replace (addr =? nextAddress w)%nat with false by lia.
      rewrite (bind_Done _ _ _ tt wb)
        by (unfold modifyTracker; change (trackers wa) with (trackers w); by rewrite Htr).
      apply (handleValueChange_unflagged wb _ (setValue fresh tr) ch st ef); try done.
      by apply list_lookup_insert_eq.
    + split; [done|]. exists (setHasChanged true (setValue fresh tr)), (nextAddress w).
      split; [|split; [done|split; [done|split; [done|exact Harr]]]].
      simpl. rewrite list_lookup_insert_eq; [done|]. by rewrite length_insert.
Qed.

Lemma push_then_write base c cur w extra change (F : JsArray Value → JsArray Value) :
  holding this c cur w →
  updateArrayFromChanges base (changes c) = (cur, None) →
  newLength c = arr_length cur →
  updateArrayFromChanges cur [change] = (F cur, None) →
  arr_length (F cur) = arr_length cur + extra →
  ∃ w', runProg pull
          (call (Update (arrChanges this) (onChanges (pushChange extra change))) ;;;
           a' <- call (ArrayRead (arrValue this)) ;;
           call (ArrayWrite (arrValue this) (F a')))%prog w = Done tt w'
        ∧ recorded this base w'.
Proof.
  intros Hhold Hscript Hlen Hstep Hnew.
  destruct (holding_push extra change c cur w Hhold) as (w1 & Hpush & Hhold1).
  destruct (holding_write _ cur (F cur) w1 Hhold1) as (w2 & Hwrite & Hhold2).
  exists w2. split.
  - rewrite runProg_pbind, (bind_Done _ _ _ tt w1) by (by rewrite runProg_call).
    rewrite runProg_pbind, (bind_Done _ _ _ cur w1)
      by (rewrite runProg_call; by eapply holding_read).
    by rewrite runProg_call.
  - exists (pushChange extra change c), (F cur). split; [done|]. split.
    + simpl. by rewrite updateArrayFromChanges_app, Hscript.
    + simpl. lia.
Qed.

Lemma write_then_push base c cur w extra change (F : JsArray Value → JsArray Value) :
  holding this c cur w →
  updateArrayFromChanges base (changes c) = (cur, None) →
  newLength c = arr_length cur →
  updateArrayFromChanges cur [change] = (F cur, None) →
  arr_length (F cur) = arr_length cur + extra →
  ∃ w', runProg pull
          (a' <- call (ArrayRead (arrValue this)) ;;
           call (ArrayWrite (arrValue this) (F a')) ;;;
           call (Update (arrChanges this) (onChanges (pushChange extra change))))%prog w
        = Done tt w'
        ∧ recorded this base w'.
Proof.
  intros Hhold Hscript Hlen Hstep Hnew.
  destruct (holding_write _ cur (F cur) w Hhold) as (w1 & Hwrite & Hhold1).
  destruct (holding_push extra change c (F cur) w1 Hhold1) as (w2 & Hpush & Hhold2).
  exists w2. split.
  - rewrite runProg_pbind, (bind_Done _ _ _ cur w)
      by (rewrite runProg_call; by eapply holding_read).
    rewrite runProg_pbind, (bind_Done _ _ _ tt w1) by (by rewrite runProg_call).
    by rewrite runProg_call.
  - exists (pushChange extra change c), (F cur). split; [done|]. split.
    + simpl. by rewrite updateArrayFromChanges_app, Hscript.
    + simpl. lia.
Qed.

Lemma insertAt_recorded base w index values cur :
  scripted this base w → arrays w !! arrValue this = Some cur →
  0 ≤ index ≤ arr_length cur →
  ∃ w', runProg pull (ArrayStateClass.insertAt this index values) w = Done tt w'
        ∧ recorded this base w'.
Proof.
  intros Hs Harr Hrange. unfold ArrayStateClass.insertAt.
  rewrite runProg_pbind, (bind_Done _ _ _ cur w)
    by (rewrite runProg_call; by apply readArray_Some).
  replace ((index <? 0) || (index >? arr_length cur)) with false by lia.
  destruct (scripted_reset base w Hs) as (w1 & c & cur' & Hreset & Hhold & Harr' & Hscript & Hlen).
  assert (cur' = cur) as -> by congruence.
  rewrite runProg_pbind, (bind_Done _ _ _ _ _ Hreset).
  apply (push_then_write base c cur w1 _ _ (λ a', arr_splice a' index 0 values)); try done.
  rewrite arr_length_splice_fits by lia. lia.
Qed.

Lemma delete_recorded base w startIndex endIndex cur :
  scripted this base w → arrays w !! arrValue this = Some cur →
  0 ≤ startIndex → startIndex ≤ default startIndex endIndex ≤ arr_length cur - 1 →
  ∃ w', runProg pull (ArrayStateClass.delete this startIndex endIndex) w = Done tt w'
        ∧ recorded this base w'.
Proof.
  intros Hs Harr Hstart Hrange. unfold ArrayStateClass.delete.
  replace (startIndex <? 0) with false by lia.
  rewrite runProg_pbind, (bind_Done _ _ _ cur w)
    by (rewrite runProg_call; by apply readArray_Some).
  replace ((default startIndex endIndex <? startIndex)
           || (default startIndex endIndex >? arr_length cur - 1)) with false by lia.
  destruct (scripted_reset base w Hs) as (w1 & c & cur' & Hreset & Hhold & Harr' & Hscript & Hlen).
  assert (cur' = cur) as -> by congruence.
  rewrite runProg_pbind, (bind_Done _ _ _ _ _ Hreset).
  apply (push_then_write base c cur w1 _ _
           (λ a', arr_splice a' startIndex (default startIndex endIndex - startIndex + 1) []));
    try done.
  rewrite arr_length_splice_fits by lia. simpl. lia.
Qed.

Lemma arr_length_set_present (a : JsArray Value) index v :
  (index < 0 ∨ index < arr_length a) →
  arr_length (arr_set a index v) = arr_length a.
Proof.
  intros Hi. unfold arr_set, arr_length in *.
  destruct (index <? 0) eqn:Hneg; [done|].
  replace (Z.to_nat index <? length (slots a))%nat with true
    by (symmetry; apply Nat.ltb_lt; lia).
  simpl. by rewrite length_insert.
Qed.

Lemma arr_get_present (a : JsArray Value) index elem :
  arr_get a index = Some elem → index < 0 ∨ index < arr_length a.
Proof.
  unfold arr_get, arr_length. destruct (index <? 0) eqn:Hneg; [lia|].
  intros Hget. right.
  destruct (slots a !! Z.to_nat index) as [x|] eqn:Hx; [|done].
  apply lookup_lt_Some in Hx. lia.
Qed.

Lemma update_recorded base w index func cur elem :
  scripted this base w → arrays w !! arrValue this = Some cur →
  arr_get cur index = Some elem →
  ∃ w', runProg pull (ArrayStateClass.update this index func) w = Done tt w'
        ∧ recorded this base w'.
Proof.
  intros Hs Harr Hget. unfold ArrayStateClass.update.
  rewrite runProg_pbind, (bind_Done _ _ _ cur w)
    by (rewrite runProg_call; by apply readArray_Some).
  rewrite Hget.
  destruct (scripted_reset base w Hs) as (w1 & c & cur' & Hreset & Hhold & Harr' & Hscript & Hlen).
  assert (cur' = cur) as -> by congruence.
  rewrite runProg_pbind, (bind_Done _ _ _ _ _ Hreset).
  apply (write_then_push base c cur w1 0 (Replace index (func elem))
           (λ a', arr_set a' index (func elem))); try done.
  rewrite arr_length_set_present by (by eapply arr_get_present). lia.
Qed.

Lemma replace_recorded base w index newValue cur :
  scripted this base w → arrays w !! arrValue this = Some cur →
  index < arr_length cur →
  ∃ w', runProg pull (ArrayStateClass.replace this index newValue) w = Done tt w'
        ∧ recorded this base w'.
Proof.
  intros Hs Harr Hrange. unfold ArrayStateClass.replace.
  destruct (scripted_reset base w Hs) as (w1 & c & cur' & Hreset & Hhold & Harr' & Hscript & Hlen).
  assert (cur' = cur) as -> by congruence.
  rewrite runProg_pbind, (bind_Done _ _ _ _ _ Hreset).
  apply (write_then_push base c cur w1 0 (Replace index newValue)
           (λ a', arr_set a' index newValue)); try done.
  rewrite arr_length_set_present by lia. lia.
Qed.
End Recording.

Lemma scripted_array this base w :
  scripted this base w → ∃ cur, arrays w !! arrValue this = Some cur.
Proof.
  intros [(c & cur & (_ & tr & addr & _ & _ & _ & _ & Harr) & _)
         |(_ & tr & addr & c & _ & _ & _ & _ & _ & Harr)]; eauto.
Qed.

(** X9. In a batch, an edit of an array state that passes the range checks
    ([insertAt], [insert], [append], [delete], [update]; [replace] at an
    index below the length) returns, and afterwards the changes signal is
    flagged and holds a script that turns the backing array as it was when
    the batch began into the backing array as it is now, with [newLength]
    the current length. *)
Theorem array_edit_is_recorded pull (w : World) (m : Mutation) (this : ImmutableArray)
    (base : JsArray Value) :
  receiverOf m = inr this → scripted this base w → recordable w m = true →
  ∃ w', runProg pull (mutation m) w = Done tt w' ∧ recorded this base w'.
Proof.
  intros Hrecv Hs Hok. destruct (scripted_array this base w Hs) as (cur & Harr).
  destruct m as [s v|s cb|a i vs|a vs|a vs|a s e|a i f|a i v|a i j];
    simpl in Hrecv; try done; injection Hrecv as ->; simpl in Hok; simpl mutation.
  - rewrite Harr in Hok. apply (insertAt_recorded pull this base w i vs cur); [done..|lia].
  - apply (insertAt_recorded pull this base w 0 vs cur); [done..|].
    unfold arr_length. lia.
  - unfold ArrayStateClass.append.
    rewrite runProg_pbind, (bind_Done _ _ _ cur w)
      by (rewrite runProg_call; by apply readArray_Some).
    apply (insertAt_recorded pull this base w _ vs cur); [done..|].
    unfold arr_length. lia.
  - rewrite Harr in Hok. apply (delete_recorded pull this base w s e cur); [done|done|lia|lia].
  - rewrite Harr in Hok. apply negb_true_iff, bool_decide_eq_false in Hok.
    destruct (arr_get cur i) as [elem|] eqn:Hget; [|done].
    by apply (update_recorded pull this base w i f cur elem).
  - rewrite Harr in Hok. apply (replace_recorded pull this base w i v cur); [done..|lia].
Qed.

Lemma effect_first_run_witness :
  (effect 0 [Diamond.doubleModulo] RemoveEffect.callback PureDiamond.world
   = (runProg (updateSignal 0)
        (RemoveEffect.callback
           ((λ s, (default VNull (valueOf s PureDiamond.world), false))
              <$> [Diamond.doubleModulo])) ;;;
      setStateData SNormal ;;;
      forEach [Diamond.doubleModulo] (λ source,
        modifyTracker source
          (λ t, setDownstreamEffects
                  (JsSet.add (length (effects PureDiamond.world)) (downstreamEffects t)) t)))
       (mkWorld (trackers PureDiamond.world)
          (effects PureDiamond.world ++ [mkEffect [Diamond.doubleModulo] RemoveEffect.callback])
          (arrays PureDiamond.world) SCreatingEffect (nextAddress PureDiamond.world)
          (derivationRegistry PureDiamond.world) (ticks PureDiamond.world))
   ∧ (∀ e w1,
        runProg (updateSignal 0)
          (RemoveEffect.callback
             ((λ s, (default VNull (valueOf s PureDiamond.world), false))
                <$> [Diamond.doubleModulo]))
          (mkWorld (trackers PureDiamond.world)
             (effects PureDiamond.world
              ++ [mkEffect [Diamond.doubleModulo] RemoveEffect.callback])
             (arrays PureDiamond.world) SCreatingEffect (nextAddress PureDiamond.world)
             (derivationRegistry PureDiamond.world) (ticks PureDiamond.world))
        = Throw e w1 →
        effect 0 [Diamond.doubleModulo] RemoveEffect.callback PureDiamond.world = Throw e w1)
   ∧ ∀ w1,
       runProg (updateSignal 0)
         (RemoveEffect.callback
            ((λ s, (default VNull (valueOf s PureDiamond.world), false))
               <$> [Diamond.doubleModulo]))
         (mkWorld (trackers PureDiamond.world)
            (effects PureDiamond.world
             ++ [mkEffect [Diamond.doubleModulo] RemoveEffect.callback])
            (arrays PureDiamond.world) SCreatingEffect (nextAddress PureDiamond.world)
            (derivationRegistry PureDiamond.world) (ticks PureDiamond.world))
       = Done tt w1 →
       ∃ w', effect 0 [Diamond.doubleModulo] RemoveEffect.callback PureDiamond.world
             = Done tt w'
             ∧ settled w'
             ∧ (∀ s, s ∈ [Diamond.doubleModulo] →
                     ∃ tr, trackers w' !! s = Some tr
                           ∧ length (effects PureDiamond.world) ∈ downstreamEffects tr)
             ∧ (∀ x tr, trackers PureDiamond.world !! x = Some tr →
                        valueOf x w' = Some (value tr))
             ∧ effects w' = effects w1 ∧ arrays w' = arrays w1 ∧ ticks w' = ticks w1
             ∧ nextAddress w' = nextAddress w1
             ∧ derivationRegistry w' = derivationRegistry w1
             ∧ length (trackers w') = length (trackers w1)
             ∧ ∀ x tr1, trackers w1 !! x = Some tr1 →
                 ∃ tr', trackers w' !! x = Some tr'
                        ∧ type tr' = type tr1 ∧ value tr' = value tr1
                        ∧ hasChanged tr' = hasChanged tr1 ∧ func tr' = func tr1
                        ∧ upstreamSignals tr' = upstreamSignals tr1
                        ∧ downstreamSignals tr' = downstreamSignals tr1
                        ∧ ∀ y, y ∈ downstreamEffects tr'
                               ↔ y ∈ downstreamEffects tr1
                                 ∨ (y = length (effects PureDiamond.world)
                                    ∧ x ∈ [Diamond.doubleModulo]))
  ∧ ∃ w1,
      runProg (updateSignal 0)
        (RemoveEffect.callback
           ((λ s, (default VNull (valueOf s PureDiamond.world), false))
              <$> [Diamond.doubleModulo]))
        (mkWorld (trackers PureDiamond.world)
           (effects PureDiamond.world
            ++ [mkEffect [Diamond.doubleModulo] RemoveEffect.callback])
           (arrays PureDiamond.world) SCreatingEffect (nextAddress PureDiamond.world)
           (derivationRegistry PureDiamond.world) (ticks PureDiamond.world))
      = Done tt w1
      ∧ ticks w1 = [0%nat].
Proof.
  split.
  - apply (effect_first_run 0 [Diamond.doubleModulo] RemoveEffect.callback
             PureDiamond.world).
    + exact pureDiamond_settled.
    + intros s Hs%list_elem_of_singleton. subst s. vm_compute. lia.
  - eexists. split; vm_compute; reflexivity.
Defined.

Lemma array_edit_is_recorded_witness :
  ∃ w', runProg (updateSignal 0) (mutation (Append OutsideBatch.array [VNum 4]))
          (withStateData (SUpdatingState [] [] []) OutsideBatch.world) = Done tt w'
        ∧ recorded OutsideBatch.array (arrayOf (numbers [1; 2; 3])) w'.
Proof.
  apply (array_edit_is_recorded (updateSignal 0)
           (withStateData (SUpdatingState [] [] []) OutsideBatch.world)
           (Append OutsideBatch.array [VNum 4]) OutsideBatch.array
           (arrayOf (numbers [1; 2; 3]))).
  - reflexivity.
  - right. split; [reflexivity|].
    exists (mkTracker State (VChanges 0 (mkChanges [] 3)) false [] [] [] (Ret VNull)),
           0%nat, (mkChanges [] 3).
    repeat split; try reflexivity. vm_compute. lia.
  - reflexivity.
Defined.

(** ** An update cycle returns *)

Section Sound.
Context (n : nat) (effs : list Effect) (E : EffectId → Prop).

Lemma sound_coreKept pending w w' :
  coreKept w w' → sound n effs E pending w → sound n effs E pending w'.
Proof.
  intros Hk [Hfl Hch Hmk Hlen Hef Hsub Hse].
  pose proof Hk as (Hlen' & Hkept & Heff & _ & Hsd & _). split.
  - intros x tr' Hx' Hty Hflag. rewrite Hsd.
    destruct (coreKept_lookup_inv _ _ _ _ Hk Hx') as (tr & Hx & (Ht & _ & Hf & _)).
    apply (Hfl x tr); congruence.
  - by rewrite Hsd.
  - intros x Hx. rewrite Hsd in Hx. destruct (Hmk x Hx) as (tr & Htr & Hflag).
    destruct (Hkept x tr Htr) as (tr' & Htr' & (_ & _ & Hf & _)).
    exists tr'. split; [done|congruence].
  - congruence.
  - congruence.
  - intros x tr' e Hx' He.
    destruct (coreKept_lookup_inv _ _ _ _ Hk Hx') as (tr & Hx & (_ & _ & _ & Hd & _)).
    apply (Hsub x tr e); [done|congruence].
  - by rewrite Hsd.
Qed.

Lemma sound_withStateData pending w sd :
  freshOf sd = freshOf (stateData w) → changedOf sd = changedOf (stateData w) →
  staleEffectsOf sd = staleEffectsOf (stateData w) →
  sound n effs E pending w → sound n effs E pending (withStateData sd w).
Proof.
  intros Hf Hc He [Hfl Hch Hmk Hlen Hef Hsub Hse]. split; simpl; try done.
  - by rewrite Hf.
  - by rewrite Hc.
  - by rewrite Hc.
  - by rewrite He.
Qed.

Lemma sound_addFresh d w :
  mode (stateData w) = UpdatingDerivedSignals →
  sound n effs E [d] w →
  sound n effs E [] (withStateData (addFresh d (stateData w)) w).
Proof.
  intros Hmode [Hfl Hch Hmk Hlen Hef Hsub Hse].
  destruct (stateData_resolving w Hmode) as (c & st & e & f & k & Hsd).
  rewrite Hsd in *. split; simpl in *; try done.
  intros x tr Hx Hty Hflag. left. apply elem_of_JsSet_add.
  destruct (Hfl x tr Hx Hty Hflag) as [?|Hin%list_elem_of_singleton]; auto.
Qed.
End Sound.

Section Returns.
Context (n : nat) (effs : list Effect) (E : EffectId → Prop).
Variable pull : TrackerId → M unit.
Variable bound : nat.
Hypothesis pull_spec : pullSpec pull.
Hypothesis pull_returns : pullReturns n effs E bound pull.

Lemma read_returns w s d :
  resolving w → sound n effs E [] w →
  list.last (stackOf (stateData w)) = Some d →
  (∀ y, y ∈ stackOf (stateData w) → (d ≤ y)%nat) →
  isDerived w d → (s < d)%nat → (d ≤ bound)%nat →
  ∃ x w2, handle pull (GetValue s) w = Done x w2 ∧ sound n effs E [] w2.
Proof using pull_spec pull_returns.
  intros Hres Hsound Hl Hstack Hder Hlt Hb. pose proof Hder as (trd & Hd & Hty).
  assert (Hvalid : (d < length (trackers w))%nat) by (by eapply lookup_lt_Some).
  destruct (lookup_lt_is_Some_2 (trackers w) s) as [trs Hs]; [lia|].
  destruct (handleDerivationLinking_linked w s d trs trd Hl Hs Hd ltac:(lia))
    as (w1 & Hlink & Hk & _).
  destruct (resolving_link w s d trs Hres Hl Hder Hlt Hs)
    as (w1' & Hlink' & Hres1 & Hfr1 & Hown1 & Hup1 & Hsd1 & Hs1).
  assert (w1' = w1) as -> by congruence.
  pose proof (sound_coreKept n effs E [] w w1 Hk Hsound) as Hsound1.
  simpl. rewrite (bind_Done _ _ _ _ _ (getTracker_Some _ _ _ Hs)).
  destruct (type trs) eqn:Htys.
  - rewrite (bind_Done _ _ _ _ _ Hlink).
    rewrite (bind_Done _ _ _ _ _ (getTracker_Some _ _ _ Hs1)). eauto.
  - rewrite (bind_Done _ _ _ (stateData w) w) by done.
    rewrite (resolving_mode _ Hres).
    rewrite (bind_Done _ _ _ _ _ Hlink).
    rewrite (bind_Done _ _ _ (stateData w1) w1) by done.
    rewrite (resolving_mode _ Hres1).
    assert (Hder1 : isDerived w1 s) by (eexists; split; [exact Hs1|done]).
    destruct (pull_returns s w1 Hres1 Hsound1) as (w2 & Hpull & Hsound2); [|done|lia|].
    { intros y Hy. rewrite Hsd1 in Hy. specialize (Hstack y Hy). lia. }
    destruct (pull_spec s w1 w2 Hres1) as (Hres2 & Hfr2 & _); [|done|done|].
    { intros y Hy. rewrite Hsd1 in Hy. specialize (Hstack y Hy). lia. }
    rewrite (bind_Done _ _ _ _ _ Hpull).
    destruct (frame_kept _ _ _ Hfr2 s _ Hs1) as (tr2 & Hs2 & _).
    rewrite (bind_Done _ _ _ _ _ (getTracker_Some _ _ _ Hs2)). eauto.
Qed.

Lemma runProg_returns d p :
  reader d p → ∀ w,
  resolving w → sound n effs E [] w →
  list.last (stackOf (stateData w)) = Some d →
  (∀ y, y ∈ stackOf (stateData w) → (d ≤ y)%nat) →
  isDerived w d → (d ≤ bound)%nat →
  ∃ v w', runProg pull p w = Done v w' ∧ sound n effs E [] w'.
Proof using pull_spec pull_returns.
  induction p as [a|X c k IH]; simpl.
  - intros _ w Hres Hsound Hl Hstack Hder Hb. by exists a, w.
  - destruct c; try done. intros [Hlt Hk] w Hres Hsound Hl Hstack Hder Hb.
    destruct (read_returns w s d Hres Hsound Hl Hstack Hder Hlt Hb)
      as (x & w2 & Hread & Hsound2).
    destruct (read_step pull pull_spec w s d x w2 Hres Hl Hstack Hder Hlt Hread)
      as (Hres2 & Hfr2 & Hown2 & Hup2 & Hstk2 & _).
    destruct (IH x (Hk x) w2 Hres2 Hsound2) as (v & w' & Hrun & Hsound');
      [by rewrite Hstk2
      |intros y; rewrite Hstk2; apply Hstack
      |by apply (frame_isDerived _ _ _ _ Hfr2)
      |done|].
    exists v, w'. split; [|done].
    change (handle pull (GetValue s)) with (handle pull (GetValue s)).
    by rewrite (bind_Done _ _ _ _ _ Hread).
Qed.

(** [updateDerivedSignal] returns: the dependencies are there to remove, the
    function reads trackers that exist, and the recomputed tracker has no
    flag yet. *)
Lemma updateDerivedSignal_returns d w :
  resolving w → sound n effs E [] w →
  (∀ y, y ∈ stackOf (stateData w) → (d < y)%nat) →
  isDerived w d → d ∈ staleOf (stateData w) → (d ≤ bound)%nat →
  ∃ w', updateDerivedSignal pull d w = Done tt w' ∧ sound n effs E [d] w'.
Proof using pull_spec pull_returns.
  intros Hres Hsound Hstack Hder Hstale Hb. pose proof Hder as (trd & Hd & Hty).
  pose proof (tracking_wf _ (resolving_tracking _ Hres)) as Hwf.
  assert (Hflag : hasChanged trd = false).
  { destruct (hasChanged trd) eqn:Hf; [|done].
    destruct (sound_flagged _ _ _ _ _ Hsound d trd Hd Hty Hf) as [Hin|Hin].
    - by destruct (resolving_fresh _ Hres d Hin).
    - by apply elem_of_nil in Hin. }
  unfold updateDerivedSignal.
  rewrite (bind_Done _ _ _ (stateData w) w) by done.
  rewrite (resolving_mode _ Hres).
  destruct (removeTrackerDependencies_spec w d trd (wf_graph _ Hwf) Hd)
    as (w1 & Hrm & Hg1 & Hdown1 & Hup1 & Hk1 & Hrest1).
  rewrite (bind_Done _ _ _ _ _ Hrm).
  assert (Hupd1 : upstreamOf w1 d = []) by (rewrite Hup1; by rewrite decide_True).
  assert (Hres1 : resolving w1).
  { eapply (resolving_relinked d w w1); try done.
    - intros x Hx. rewrite Hup1. by rewrite decide_False.
    - intros u. rewrite Hupd1. intros Hu. by apply elem_of_nil in Hu. }
  pose proof (sound_coreKept n effs E [] w w1 Hk1 Hsound) as Hsound1.
  pose proof Hk1 as (_ & Hkept1 & _ & _ & Hsd1 & _).
  destruct (Hkept1 d trd Hd) as (trd1 & Hd1 & Hcore1).
  rewrite (bind_Done _ _ _ _ _ (getTracker_Some _ _ _ Hd1)).
  assert (Hder1 : isDerived w1 d) by (by apply (coreKept_isDerived _ _ _ Hk1)).
  destruct (resolving_push w1 d Hres1 Hder1) as [Hres2 Hstk2]; [by rewrite Hsd1|].
  set (w2 := withStateData (pushDerivation d (stateData w1)) w1) in *.
  destruct (stateData_resolving w1 (resolving_mode _ Hres1)) as (c1 & st1 & e1 & f1 & k1 & Hsdw1).
  assert (Hsound2 : sound n effs E [] w2).
  { apply sound_withStateData; [..|done]; by rewrite Hsdw1. }
  rewrite (bind_Done _ _ _ tt w2) by done.
  assert (Hty1 : type trd1 = Derived) by (destruct Hcore1 as (-> & _); done).
  destruct (wf_derived _ (tracking_wf _ (resolving_tracking _ Hres1)) d trd1 Hd1 Hty1)
    as [Hreader Hprim1].
  assert (Hl2 : list.last (stackOf (stateData w2)) = Some d).
  { simpl. rewrite Hstk2. apply last_snoc. }
  assert (Hstack2 : ∀ y, y ∈ stackOf (stateData w2) → (d ≤ y)%nat).
  { simpl. rewrite Hstk2, Hsd1.
    intros y [Hy|Hy%list_elem_of_singleton]%elem_of_app; [|lia].
    specialize (Hstack y Hy). lia. }
  destruct (runProg_returns d (func trd1) Hreader w2 Hres2 Hsound2 Hl2 Hstack2 Hder1 Hb)
    as (v & w3 & Hfunc & Hsound3).
  rewrite (bind_Done _ _ _ _ _ Hfunc).
  destruct (runProg_reader pull pull_spec d (func trd1) Hreader w2 v w3 Hres2 Hl2 Hstack2 Hder1)
    as (Hres3 & Hfr3 & Hown3 & Hstk3 & _).
  { intros u. change (upstreamOf w2 d) with (upstreamOf w1 d). rewrite Hupd1.
    intros Hu. by apply elem_of_nil in Hu. }
  { exact Hfunc. }
  destruct Hown3 as (trd2 & trd3 & Hd2 & Hd3 & Hcore3 & Hdn3).
  change (trackers w2) with (trackers w1) in Hd2.
  assert (trd2 = trd1) as -> by congruence.
  assert (Hflag3 : hasChanged trd3 = false).
  { destruct Hcore3 as (_ & _ & -> & _). destruct Hcore1 as (_ & _ & -> & _). done. }
  assert (Hty3 : type trd3 = Derived) by (destruct Hcore3 as (-> & _); done).
  assert (Hval3 : value trd3 = value trd1) by apply Hcore3.
  destruct (stateData_resolving w3 (resolving_mode _ Hres3)) as (c3 & st3 & e3 & f3 & k3 & Hsd3).
  assert (Hlt3 : (d < length (trackers w3))%nat) by (by eapply lookup_lt_Some).
  destruct Hsound3 as [Hfl3 Hch3 Hmk3 Hlen3 Hef3 Hsub3 Hse3].
  rewrite Hsd3 in Hfl3, Hch3, Hmk3, Hse3. simpl in Hfl3, Hch3, Hmk3, Hse3.
  unfold bind, modifyTracker, modifyStateData, modifyWorld.
  rewrite Hd3. simpl. rewrite Hsd3. simpl.
  assert (Hlook : ∀ (t' : Tracker) x,
            <[d := t']> (trackers w3) !! x
            = if decide (x = d) then Some t' else trackers w3 !! x).
  { intros t' x. case_decide as Hx.
    - subst. by apply list_lookup_insert_eq.
    - by apply list_lookup_insert_ne. }
  destruct (strictEq v (value trd1)) eqn:Heq.
  - eexists. split; [reflexivity|]. split; simpl.
    + intros x tr. rewrite Hlook. case_decide as Hx.
      * intros _ _ _. right. subst. by left.
      * intros Htr Ht Hf. left.
        destruct (Hfl3 x tr Htr Ht Hf) as [?|Hin]; [done|by apply elem_of_nil in Hin].
    + done.
    + intros x Hx. destruct (Hmk3 x Hx) as (tr & Htr & Hf).
      rewrite Hlook. case_decide as Hxd.
      * subst x. assert (tr = trd3) as -> by congruence. congruence.
      * eauto.
    + by rewrite length_insert.
    + done.
    + intros x tr e. rewrite Hlook. case_decide as Hx.
      * intros [= <-]. simpl. subst x. by apply (Hsub3 d trd3).
      * apply Hsub3.
    + done.
  - unfold getTracker. simpl. rewrite list_lookup_insert_eq by done. simpl.
    rewrite Hflag3. simpl. rewrite list_lookup_insert_eq by done. simpl.
    eexists. split; [reflexivity|]. split; simpl.
    + intros x tr. rewrite list_insert_insert_eq, Hlook. case_decide as Hx.
      * intros _ _ _. right. subst. by left.
      * intros Htr Ht Hf. left.
        destruct (Hfl3 x tr Htr Ht Hf) as [?|Hin]; [done|by apply elem_of_nil in Hin].
    + apply list.NoDup_app. split; [done|]. split; [|apply NoDup_singleton].
      intros x Hx Hxd%list_elem_of_singleton. subst x.
      destruct (Hmk3 d Hx) as (tr & Htr & Hf). congruence.
    + intros x Hx. rewrite list_insert_insert_eq, Hlook. case_decide as Hxd.
      * eexists. split; [done|]. done.
      * apply elem_of_app in Hx as [Hx|Hx%list_elem_of_singleton]; [|done].
        by apply Hmk3.
    + by rewrite !length_insert.
    + done.
    + intros x tr e. rewrite list_insert_insert_eq, Hlook. case_decide as Hx.
      * intros [= <-]. simpl. subst x. by apply (Hsub3 d trd3).
      * apply Hsub3.
    + intros e [He|He]%elem_of_JsSet_addAll; [|by apply Hse3].
      by apply (Hsub3 d trd3).
Qed.

(** The loop of [updateSignal] over the upstream signals of [t] returns. *)
Lemma pull_upstream_returns t us w :
  resolving w → sound n effs E [] w →
  (∀ y, y ∈ stackOf (stateData w) → (t < y)%nat) →
  (∀ u, u ∈ us → (u < t)%nat) → (t < length (trackers w))%nat → (t ≤ bound)%nat →
  ∃ w', forEach us (λ signal,
          s <- getTracker signal ;;
          match type s with
          | Derived => pull signal
          | State => ret tt
          end) w = Done tt w'
        ∧ sound n effs E [] w'.
Proof using pull_spec pull_returns.
  revert w. induction us as [|u us IH]; intros w Hres Hsound Hstack Hbelow Hvalid Hb.
  - by exists w.
  - assert (Hu : (u < t)%nat) by (apply Hbelow; left).
    destruct (lookup_lt_is_Some_2 (trackers w) u) as [tru Htru]; [lia|].
    assert (Hstep : ∃ w1, (s <- getTracker u ;;
                           match type s with
                           | Derived => pull u
                           | State => ret tt
                           end) w = Done tt w1
                          ∧ resolving w1 ∧ sound n effs E [] w1
                          ∧ stackOf (stateData w1) = stackOf (stateData w)
                          ∧ length (trackers w1) = length (trackers w)).
    { rewrite (bind_Done _ _ _ _ _ (getTracker_Some _ _ _ Htru)).
      destruct (type tru) eqn:Hty.
      - exists w. done.
      - destruct (pull_returns u w Hres Hsound) as (w1 & Hpull & Hsound1);
          [intros y Hy; specialize (Hstack y Hy); lia|by exists tru|lia|].
        destruct (pull_spec u w w1 Hres) as (Hres1 & Hfr1 & Hstk1 & _);
          [intros y Hy; specialize (Hstack y Hy); lia|by exists tru|done|].
        exists w1. split; [done|]. split; [done|]. split; [done|]. split; [done|].
        apply (frame_length _ _ _ Hfr1). }
    destruct Hstep as (w1 & Hbody & Hres1 & Hsound1 & Hstk1 & Hlen1).
    destruct (IH w1 Hres1 Hsound1) as (w' & Hloop & Hsound');
      [by rewrite Hstk1|intros x Hx; apply Hbelow; by right|lia|done|].
    exists w'. split; [|done]. cbn [forEach]. by rewrite (bind_Done _ _ _ _ _ Hbody).
Qed.
End Returns.

Section Fuel.
Context (n : nat) (effs : list Effect) (E : EffectId → Prop).

(** [updateSignal] returns when the fuel exceeds the index of the tracker:
    the recursion goes to older trackers only. *)
Lemma updateSignal_returns fuel : pullReturns n effs E fuel (updateSignal fuel).
Proof.
  induction fuel as [|fuel IH]; intros t w Hres Hsound Hstack Hder Hlt; [lia|].
  pose proof (updateSignal_spec fuel) as Hspec.
  pose proof Hder as (tr & Ht & Hty).
  pose proof (tracking_wf _ (resolving_tracking _ Hres)) as Hwf.
  assert (Hvalid : (t < length (trackers w))%nat) by (by eapply lookup_lt_Some).
  cbn [updateSignal].
  rewrite (bind_Done _ _ _ (stateData w) w) by done.
  rewrite (resolving_mode _ Hres).
  destruct (JsSet.has t (freshOf (stateData w))) eqn:Hfresh; [by exists w|].
  rewrite (bind_Done _ _ _ _ _ (getTracker_Some _ _ _ Ht)).
  assert (Hbelow : ∀ u, u ∈ upstreamSignals tr → (u < t)%nat).
  { intros u Hu. apply (wf_below _ Hwf). by rewrite (upstreamOf_lookup _ _ _ Ht). }
  destruct (pull_upstream_returns n effs E (updateSignal fuel) fuel Hspec IH t
              (upstreamSignals tr) w Hres Hsound Hstack Hbelow Hvalid ltac:(lia))
    as (w1 & Hloop & Hsound1).
  destruct (pull_upstream (updateSignal fuel) Hspec t (upstreamSignals tr) w w1 Hres Hstack
              Hbelow Hloop) as (Hres1 & Hfr1 & Habove1 & Hstk1 & Hfresh1).
  rewrite (bind_Done _ _ _ _ _ Hloop).
  rewrite (bind_Done _ _ _ (stateData w1) w1) by done.
  assert (Hder1 : isDerived w1 t) by (by apply (frame_isDerived _ _ _ _ Hfr1)).
  assert (Hstack1 : ∀ y, y ∈ stackOf (stateData w1) → (t < y)%nat) by (by rewrite Hstk1).
  destruct (JsSet.has t (staleOf (stateData w1))) eqn:Hstale.
  - apply JsSet_has_true in Hstale.
    destruct (updateDerivedSignal_returns n effs E (updateSignal fuel) fuel Hspec IH t w1
                Hres1 Hsound1 Hstack1 Hder1 Hstale ltac:(lia)) as (w2 & Hupd & Hsound2).
    destruct (updateDerivedSignal_spec (updateSignal fuel) Hspec t w1 w2 Hres1 Hstack1 Hder1
                Hstale Hupd) as (Hres2 & _).
    rewrite (bind_Done _ _ _ _ _ Hupd).
    eexists. split; [reflexivity|].
    by apply sound_addFresh; [apply (resolving_mode _ Hres2)|].
  - rewrite (bind_Done _ _ _ tt w1) by done.
    eexists. split; [reflexivity|].
    apply sound_addFresh; [apply (resolving_mode _ Hres1)|].
    destruct Hsound1 as [Hfl ? ? ? ? ? ?]. split; try done.
    intros x trx Hx Htx Hf. destruct (Hfl x trx Hx Htx Hf) as [?|Hin]; [by left|].
    by apply elem_of_nil in Hin.
Qed.
End Fuel.

Lemma filter_length_mono {A} (P Q : A → Prop) `{∀ x, Decision (P x)} `{∀ x, Decision (Q x)}
    (l : list A) :
  (∀ y, Q y → P y) → (length (filter Q l) ≤ length (filter P l))%nat.
Proof.
  intros Hsub. induction l as [|a l IH]; [done|].
  rewrite !filter_cons. destruct (decide (Q a)) as [Hq|Hq].
  - rewrite decide_True by auto. simpl. lia.
  - destruct (decide (P a)); simpl; lia.
Qed.

Lemma filter_length_shrinks {A} (P Q : A → Prop) `{∀ x, Decision (P x)}
    `{∀ x, Decision (Q x)} (l : list A) x :
  (∀ y, Q y → P y) → x ∈ l → P x → ¬ Q x →
  (length (filter Q l) < length (filter P l))%nat.
Proof.
  intros Hsub Hin Hp Hq. induction l as [|a l IH]; [by apply elem_of_nil in Hin|].
  rewrite !filter_cons. apply elem_of_cons in Hin as [<-|Hin].
  - rewrite decide_False, decide_True by done. simpl.
    pose proof (filter_length_mono P Q l Hsub). lia.
  - specialize (IH Hin). destruct (decide (Q a)) as [Hqa|Hqa].
    + rewrite decide_True by auto. simpl. lia.
    + destruct (decide (P a)); simpl; lia.
Qed.

Section Rounds.
Context (n : nat) (effs : list Effect) (E : EffectId → Prop).

(** The [while (true)] of [updateState] returns: every round makes one more
    tracker fresh, and a fresh tracker never becomes stale again. *)
Lemma resolveStale_returns fuel rounds w :
  resolving w → sound n effs E [] w → stackOf (stateData w) = [] →
  (n < fuel)%nat → (length (notFresh w) < rounds)%nat →
  ∃ w', resolveStale fuel rounds w = Done tt w' ∧ sound n effs E [] w'.
Proof.
  revert w. induction rounds as [|rounds IH]; intros w Hres Hsound Hstk Hfuel Hrounds; [lia|].
  cbn [resolveStale]. rewrite (bind_Done _ _ _ (stateData w) w) by done.
  destruct (staleOf (stateData w)) as [|first rest] eqn:Hstale; [by exists w|].
  assert (Hin : first ∈ staleOf (stateData w)) by (rewrite Hstale; left).
  pose proof (tracking_stale _ (resolving_tracking _ Hres) first Hin) as Hder.
  pose proof Hder as (trf & Hf & _).
  assert (Hvalid : (first < length (trackers w))%nat) by (by eapply lookup_lt_Some).
  pose proof (sound_length _ _ _ _ _ Hsound) as Hlen.
  assert (Habove : ∀ y, y ∈ stackOf (stateData w) → (first < y)%nat).
  { rewrite Hstk. intros y Hy. by apply elem_of_nil in Hy. }
  destruct (updateDerivedSignal_returns n effs E (updateSignal fuel) fuel
              (updateSignal_spec fuel) (updateSignal_returns n effs E fuel) first w
              Hres Hsound Habove Hder Hin ltac:(lia)) as (w1 & Hupd & Hsound1).
  destruct (updateDerivedSignal_spec (updateSignal fuel) (updateSignal_spec fuel)
              first w w1 Hres Habove Hder Hin Hupd) as (Hres1 & Hfr1 & Hstk1 & Hns1 & Hup1).
  rewrite (bind_Done _ _ _ _ _ Hupd).
  destruct (resolving_addFresh first w1 Hres1 Hns1) as (Hres2 & Hfr2 & Hstk2 & Hin2);
    [rewrite Hstk1, Hstk; apply not_elem_of_nil|done|].
  set (w2 := withStateData (addFresh first (stateData w1)) w1) in *.
  rewrite (bind_Done _ _ _ tt w2) by done.
  apply IH; try done.
  - by apply sound_addFresh; [apply (resolving_mode _ Hres1)|].
  - simpl in Hstk2. simpl. congruence.
  - assert (length (notFresh w2) < length (notFresh w))%nat; [|lia].
    unfold notFresh.
    replace (length (trackers w2)) with (length (trackers w))
      by (symmetry; apply (frame_length _ _ _ Hfr1)).
    apply (filter_length_shrinks _ _ _ first).
    + intros y Hy Hfresh. apply Hy.
      apply (frame_fresh _ _ _ Hfr2). by apply (frame_fresh _ _ _ Hfr1).
    + apply elem_of_seq. lia.
    + intros Hfresh. by apply (resolving_fresh _ Hres first).
    + intros Hnot. by apply Hnot.
Qed.
End Rounds.

(** A call that is not a write leaves the effect closures alone, too. *)
Lemma handle_quiet_effects pull {X} (c : Call X) w x w1 :
  stackOf (stateData w) = [] → mode (stateData w) ≠ UpdatingDerivedSignals →
  (mode (stateData w) = UpdatingState → ¬ writes c) →
  handle pull c w = Done x w1 → effects w1 = effects w.
Proof.
  intros Hstk Hmode Hw.
  assert (Hlink : ∀ s, handleDerivationLinking s w = Done tt w).
  { intros s. apply handleDerivationLinking_none. by rewrite Hstk. }
  destruct c; simpl; unfold bind, getTracker, getStateData, raise, ret,
    readArray, writeArray, newChanges, tick, modifyWorld.
  - destruct (trackers w !! s) as [tr|] eqn:Hs; [|done].
    destruct (type tr).
    + rewrite Hlink. simpl. rewrite Hs. by (intros Heq; inversion Heq; subst).
    + destruct (mode (stateData w)) eqn:Hm; try done;
        rewrite Hlink; simpl; rewrite ?Hm; simpl; rewrite Hs;
        by (intros Heq; inversion Heq; subst).
  - destruct (trackers w !! s) as [tr|] eqn:Hs; [|done].
    destruct (type tr), (mode (stateData w)) eqn:Hm; try done;
      by (intros Heq; inversion Heq; subst).
  - destruct (trackers w !! s) as [tr|] eqn:Hs; [|done].
    destruct (type tr), (mode (stateData w)) eqn:Hm; try done;
      by (intros Heq; inversion Heq; subst).
  - destruct (trackers w !! s) as [tr|] eqn:Hs; [|done].
    destruct (type tr), (mode (stateData w)) eqn:Hm; try done.
    exfalso. by apply Hw.
  - destruct (trackers w !! s) as [tr|] eqn:Hs; [|done].
    destruct (type tr), (mode (stateData w)) eqn:Hm; try done.
    exfalso. by apply Hw.
  - by (intros Heq; inversion Heq; subst).
  - destruct (arrays w !! a); [|done]. by (intros Heq; inversion Heq; subst).
  - destruct (arrays w !! a); [|done]. by (intros Heq; inversion Heq; subst).
  - by (intros Heq; inversion Heq; subst).
  - done.
  - by (intros Heq; inversion Heq; subst).
Qed.

Lemma runProg_quiet_effects pull {A} (p : prog A) w a w1 :
  stackOf (stateData w) = [] → mode (stateData w) ≠ UpdatingDerivedSignals →
  mode (stateData w) ≠ UpdatingState →
  runProg pull p w = Done a w1 → effects w1 = effects w.
Proof.
  revert w. induction p as [b|X c k IH]; intros w Hstk Hm1 Hm2 Hrun; simpl in Hrun.
  - by injection Hrun as _ <-.
  - apply bind_Done_inv in Hrun as (x & w0 & Hc & Hrun).
    pose proof (handle_quiet pull c w x w0 Hstk Hm1 ltac:(done) Hc) as (_ & Hsd & _).
    pose proof (handle_quiet_effects pull c w x w0 Hstk Hm1 ltac:(done) Hc) as Heff.
    rewrite <- Heff. apply (IH x w0); [by rewrite Hsd..|done].
Qed.

Lemma runEffect_quiet_effects pull e w w1 :
  stackOf (stateData w) = [] → mode (stateData w) ≠ UpdatingDerivedSignals →
  mode (stateData w) ≠ UpdatingState →
  runEffect pull e w = Done tt w1 → effects w1 = effects w.
Proof.
  intros Hstk Hm1 Hm2 Hrun. unfold runEffect in Hrun.
  apply bind_Done_inv in Hrun as (eff & w0 & Hget & Hrun).
  assert (w0 = w) as ->.
  { revert Hget. unfold getEffect. destruct (effects w !! e); [|done]. by intros [= _ <-]. }
  apply bind_Done_inv in Hrun as (infos & w2 & Hmap & Hrun).
  assert (Hsame : sameGraph w w2 ∧ effects w2 = effects w).
  { clear Hrun Hget. revert w infos Hstk Hm1 Hm2 Hmap.
    induction (from eff) as [|f fs IH]; intros w infos Hstk Hm1 Hm2 Hmap; cbn [mapM] in Hmap.
    - by injection Hmap as _ <-.
    - apply bind_Done_inv in Hmap as (y & wa & Hf & Hmap).
      apply bind_Done_inv in Hf as (v & wb & Hh & Hf).
      pose proof (handle_quiet_effects pull (GetValue f) w v wb Hstk Hm1 ltac:(done) Hh)
        as Heff.
      apply (handle_quiet pull (GetValue f) w v wb) in Hh; [|done..].
      apply bind_Done_inv in Hf as (tr & wc & Hget & Hf).
      apply getTracker_Done_inv in Hget as [-> _]. injection Hf as _ <-.
      apply bind_Done_inv in Hmap as (ys & wd & Hrest & Hmap).
      injection Hmap as _ <-. pose proof Hh as (_ & Hsd & _).
      destruct (IH wb ys) as [Hsame Heff']; [by rewrite Hsd..|done|].
      split; [by apply (sameGraph_trans _ wb)|congruence]. }
  destruct Hsame as [(_ & Hsd & _) Heff].
  rewrite <- Heff.
  apply (runProg_quiet_effects pull (onUpdate eff infos) w2 tt w1); [by rewrite Hsd..|done].
Qed.

(** The loop that clears the changed flags returns when the changed list
    has no duplicate and lists flagged trackers. *)
Lemma clear_flags_returns xs w :
  NoDup xs →
  (∀ x, x ∈ xs → ∃ tr, trackers w !! x = Some tr ∧ hasChanged tr = true) →
  ∃ w', forEach xs (λ signal,
          tr <- getTracker signal ;;
          if hasChanged tr then modifyTracker signal (setHasChanged false)
          else raise Unreachable) w = Done tt w'.
Proof.
  revert w. induction xs as [|s xs IH]; intros w Hnd Hmk; [by exists w|].
  apply list.NoDup_cons in Hnd as [Hs Hnd].
  destruct (Hmk s) as (tr & Htr & Hflag); [left|].
  cbn [forEach].
  set (w1 := withTrackers (λ ts, <[s := setHasChanged false tr]> ts) w).
  destruct (IH w1 Hnd) as (w' & Hloop).
  { intros x Hx. destruct (Hmk x) as (trx & Hx' & Hfx); [by right|].
    exists trx. split; [|done]. simpl. rewrite list_lookup_insert_ne; [done|].
    intros ->. done. }
  exists w'. rewrite (bind_Done _ _ _ tt w1); [done|].
  rewrite (bind_Done _ _ _ _ _ (getTracker_Some _ _ _ Htr)). rewrite Hflag.
  unfold modifyTracker. by rewrite Htr.
Qed.

Section Batch.
Context (n : nat) (effs : list Effect) (E : EffectId → Prop).

Lemma write_sound w s tr g v w1 :
  collecting w → sound n effs E [] w →
  trackers w !! s = Some tr → type tr = State → g tr = setValue v tr →
  (modifyTracker s g ;;; handleValueChange s) w = Done tt w1 →
  sound n effs E [] w1.
Proof.
  intros Hcol Hsound Hs Hty Hg Hrun.
  pose proof (write_collecting w s tr g v w1 Hcol Hs Hty Hg Hrun) as Hcol1.
  assert (Hlt : (s < length (trackers w))%nat) by (by eapply lookup_lt_Some).
  destruct (stateData_collecting w (collecting_mode _ Hcol)) as (c & st & e & Hsd).
  destruct Hsound as [Hfl Hch Hmk Hlen Hef Hsub Hse].
  rewrite Hsd in Hch, Hmk, Hse. simpl in Hch, Hmk, Hse.
  unfold bind, modifyTracker in Hrun. rewrite Hs, Hg in Hrun.
  set (w0 := withTrackers (λ ts, <[s := setValue v tr]> ts) w) in *.
  assert (Hs0 : trackers w0 !! s = Some (setValue v tr))
    by (by apply list_lookup_insert_eq).
  assert (Hderived : ∀ x trx, trackers w1 !! x = Some trx → type trx = Derived →
                              hasChanged trx = true →
                              x ∈ freshOf (stateData w1) ∨ x ∈ []).
  { intros x trx Hx Htx Hf. by rewrite (collecting_derived _ Hcol1 x trx Hx Htx) in Hf. }
  assert (Hlook : ∀ (t' : Tracker) x,
            <[s := t']> (trackers w) !! x
            = if decide (x = s) then Some t' else trackers w !! x).
  { intros t' x. case_decide as Hx.
    - subst. by apply list_lookup_insert_eq.
    - by apply list_lookup_insert_ne. }
  destruct (hasChanged tr) eqn:Hflag.
  - rewrite (handleValueChange_flagged w0 s _ Hs0) in Hrun;
      [|done|simpl; by rewrite Hsd].
    injection Hrun as Heq. split; [exact Hderived|..]; rewrite <- Heq;
      change (stateData w0) with (stateData w); rewrite ?Hsd;
      change (trackers w0) with (<[s := setValue v tr]> (trackers w));
      change (effects w0) with (effects w).
    + done.
    + intros x Hx. destruct (Hmk x Hx) as (trx & Htrx & Hfx).
      rewrite Hlook. case_decide as Hxs; [|eauto].
      subst x. eexists. split; [done|]. simpl. congruence.
    + by rewrite length_insert.
    + done.
    + intros x trx e0. rewrite Hlook. case_decide as Hxs; [|apply Hsub].
      intros [= <-]. simpl. subst x. by apply (Hsub s tr).
    + done.
  - rewrite (handleValueChange_unflagged w0 s _ c st e Hs0) in Hrun; [|done|done].
    injection Hrun as Heq. split; [exact Hderived|..]; rewrite <- Heq; simpl.
    + apply list.NoDup_app. split; [done|]. split; [|apply NoDup_singleton].
      intros x Hx Hxs%list_elem_of_singleton. subst x.
      destruct (Hmk s Hx) as (trx & Htrx & Hfx). congruence.
    + intros x Hx. rewrite list_insert_insert_eq, Hlook. case_decide as Hxs.
      * eexists. split; [done|]. done.
      * apply elem_of_app in Hx as [Hx|Hx%list_elem_of_singleton]; [|done].
        by apply Hmk.
    + by rewrite !length_insert.
    + done.
    + intros x trx e0. rewrite list_insert_insert_eq, Hlook. case_decide as Hxs; [|apply Hsub].
      intros [= <-]. simpl. subst x. by apply (Hsub s tr).
    + intros e0 [He|He]%elem_of_JsSet_addAll; [|by apply Hse].
      by apply (Hsub s tr).
Qed.

Lemma handle_sound pull {X} (c : Call X) w x w1 :
  collecting w → sound n effs E [] w →
  handle pull c w = Done x w1 → sound n effs E [] w1.
Proof.
  intros Hcol Hsound Hrun.
  assert (Hstk : stackOf (stateData w) = []).
  { destruct (stateData_collecting w (collecting_mode _ Hcol)) as (? & ? & ? & ->). done. }
  assert (Hquiet : ¬ writes c → sound n effs E [] w1).
  { intros Hw.
    assert (Hm : mode (stateData w) ≠ UpdatingDerivedSignals)
      by (by rewrite (collecting_mode _ Hcol)).
    destruct (handle_quiet pull c w x w1 Hstk Hm ltac:(done) Hrun) as (Ht & Hsd & _).
    pose proof (handle_quiet_effects pull c w x w1 Hstk Hm ltac:(done) Hrun) as Heff.
    destruct Hsound as [Hfl Hch Hmk Hlen Hef Hsub Hse].
    split; rewrite ?Ht, ?Hsd, ?Heff; done. }
  destruct c; try (apply Hquiet; simpl; tauto); simpl in Hrun.
  - apply bind_Done_inv in Hrun as (tr & w0 & Hget & Hrun).
    apply getTracker_Done_inv in Hget as [-> Hs].
    rewrite (bind_Done _ _ _ (stateData w) w) in Hrun by done.
    destruct (type tr) eqn:Hty; [|done].
    rewrite (collecting_mode _ Hcol) in Hrun.
    destruct (strictEq (value tr) newValue).
    + by injection Hrun as _ <-.
    + assert (x = tt) as -> by (by destruct x).
      by apply (write_sound w s tr (setValue newValue) newValue w1).
  - apply bind_Done_inv in Hrun as (tr & w0 & Hget & Hrun).
    apply getTracker_Done_inv in Hget as [-> Hs].
    rewrite (bind_Done _ _ _ (stateData w) w) in Hrun by done.
    destruct (type tr) eqn:Hty; [|done].
    rewrite (collecting_mode _ Hcol) in Hrun.
    assert (x = tt) as -> by (by destruct x).
    by apply (write_sound w s tr _ (callback (value tr)) w1) in Hrun.
Qed.

Lemma runProg_sound pull {A} (p : prog A) w a w1 :
  collecting w → sound n effs E [] w →
  runProg pull p w = Done a w1 → sound n effs E [] w1.
Proof.
  revert w. induction p as [b|X c k IH]; intros w Hcol Hsound Hrun; simpl in Hrun.
  - by injection Hrun as _ <-.
  - apply bind_Done_inv in Hrun as (x & w0 & Hc & Hrun).
    apply (IH x w0); [by apply (handle_collecting pull c w x)| |done].
    by apply (handle_sound pull c w x).
Qed.
End Batch.

(** The effects that are stale run one after the other and leave the graph
    alone. *)
Lemma runEffects_return pull (P : EffectId → Prop) effs n es w :
  (∀ e wx, P e → effects wx = effs → length (trackers wx) = n →
           mode (stateData wx) = RunningEffects →
           ∃ wy, runEffect pull e wx = Done tt wy) →
  (∀ e, e ∈ es → P e) →
  effects w = effs → length (trackers w) = n → mode (stateData w) = RunningEffects →
  ∃ w', forEach es (runEffect pull) w = Done tt w' ∧ sameGraph w w'.
Proof.
  intros Heff. revert w. induction es as [|e es IH]; intros w HP He Hlen Hmode.
  - exists w. split; [done|apply sameGraph_refl].
  - destruct (Heff e w) as (w1 & Hrun); [apply HP; left|done..|].
    assert (Hstk : stackOf (stateData w) = []) by (by destruct (stateData w)).
    assert (Hm1 : mode (stateData w) ≠ UpdatingDerivedSignals) by (by rewrite Hmode).
    assert (Hm2 : mode (stateData w) ≠ UpdatingState) by (by rewrite Hmode).
    pose proof (runEffect_quiet pull e w w1 Hstk Hm1 Hm2 Hrun) as Hsame.
    pose proof (runEffect_quiet_effects pull e w w1 Hstk Hm1 Hm2 Hrun) as Heffs.
    pose proof Hsame as (Ht & Hsd & _).
    destruct (IH w1) as (w' & Hloop & Hsame');
      [intros x Hx; apply HP; by right|congruence|by rewrite Ht|by rewrite Hsd|].
    exists w'. split; [|by eapply sameGraph_trans].
    cbn [forEach]. by rewrite (bind_Done _ _ _ _ _ Hrun).
Qed.

(** X10. On a graph that is consistent between update cycles and whose
    derivation functions only read older trackers, [updateState] returns
    whenever the batch callback returns and the subscribed effects return:
    none of its "Unreachable" errors is thrown, and its loop over the stale
    trackers ends (in the model: fuel above the number of trackers is
    enough).  The world it leaves is consistent again. *)
Theorem updateState_returns fuel run w w1 :
  settled w → (length (trackers w) < fuel)%nat →
  runProg (updateSignal fuel) run (withStateData (SUpdatingState [] [] []) w)
  = Done tt w1 →
  (∀ e wx, subscribed w e → effects wx = effects w →
           length (trackers wx) = length (trackers w) →
           mode (stateData wx) = RunningEffects →
           ∃ wy, runEffect (updateSignal fuel) e wx = Done tt wy) →
  ∃ w', updateState fuel run w = Done tt w' ∧ settled w'.
Proof.
  intros Hset Hfuel Hrun Heff.
  set (n := length (trackers w)) in *. set (effs := effects w) in *.
  set (E := subscribed w) in *.
  set (wA := withStateData (SUpdatingState [] [] []) w) in *.
  pose proof (settled_collecting w Hset) as HcolA. fold wA in HcolA.
  assert (HsoundA : sound n effs E [] wA).
  { split; simpl; try done.
    - intros x tr Hx _ Hf. by rewrite (settled_flags _ Hset x tr Hx) in Hf.
    - apply NoDup_nil_2.
    - intros x Hx. by apply elem_of_nil in Hx.
    - intros x tr e Hx He. by exists x, tr.
    - intros e He. by apply elem_of_nil in He. }
  pose proof (runProg_collecting _ run wA tt w1 HcolA Hrun) as HcolB.
  pose proof (runProg_sound n effs E _ run wA tt w1 HcolA HsoundA Hrun) as HsoundB.
  set (wC := withStateData
               (SUpdatingDerivedSignals (changedOf (stateData w1)) (staleOf (stateData w1))
                  (staleEffectsOf (stateData w1)) [] []) w1).
  pose proof (collecting_resolving w1 HcolB) as HresC. fold wC in HresC.
  assert (HsoundC : sound n effs E [] wC).
  { destruct HsoundB as [Hfl Hch Hmk Hlen He Hsub Hse]. split; simpl; try done.
    intros x tr Hx Hty Hf. by rewrite (collecting_derived _ HcolB x tr Hx Hty) in Hf. }
  destruct (resolveStale_returns n effs E fuel fuel wC HresC HsoundC eq_refl Hfuel)
    as (wD & HD & HsoundD).
  { unfold notFresh. eapply Nat.le_lt_trans; [apply length_filter|].
    rewrite length_seq. simpl. by rewrite (sound_length _ _ _ _ _ HsoundB). }
  destruct (resolveStale_spec fuel fuel wC wD HresC eq_refl HD) as (HresD & HstkD & HstaleD).
  destruct HsoundD as [HflD HchD HmkD HlenD HeD HsubD HseD].
  set (wE := withStateData (SRunningEffects (changedOf (stateData wD))) wD).
  destruct (runEffects_return (updateSignal fuel) E effs n (staleEffectsOf (stateData wD)) wE)
    as (wF & HF & (HtF & HsdF & HregF)); try done.
  simpl in HtF, HsdF.
  destruct (clear_flags_returns (changedOf (stateData wD)) wF HchD) as (wG & HG).
  { intros x Hx. rewrite HtF. by apply HmkD. }
  assert (Hdone : updateState fuel run w = Done tt (withStateData SNormal wG)).
  { unfold updateState. rewrite (bind_Done _ _ _ (stateData w) w) by done.
    rewrite (settled_mode _ Hset). simpl.
    rewrite (bind_Done _ _ _ tt wA) by done.
    rewrite (bind_Done _ _ _ _ _ Hrun).
    rewrite (bind_Done _ _ _ (stateData w1) w1) by done.
    rewrite (bind_Done _ _ _ tt wC) by done.
    rewrite (bind_Done _ _ _ _ _ HD).
    rewrite (bind_Done _ _ _ (stateData wD) wD) by done.
    rewrite HstkD.
    rewrite (bind_Done _ _ _ tt wE) by done.
    rewrite (bind_Done _ _ _ _ _ HF).
    rewrite (bind_Done _ _ _ (stateData wF) wF) by done.
    rewrite HsdF. simpl.
    by rewrite (bind_Done _ _ _ _ _ HG). }
  eexists. split; [exact Hdone|].
  by apply (updateState_settled fuel run w).
Qed.

Lemma updateState_returns_witness :
  ∃ w', updateState 5 Diamond.batch PureDiamond.world = Done tt w' ∧ settled w'.
Proof.
  eapply (updateState_returns 5 Diamond.batch PureDiamond.world).
  - exact pureDiamond_settled.
  - vm_compute. lia.
  - cbv. reflexivity.
  - intros e wx (x & tr & Hx & He). exfalso.
    do 4 (destruct x as [|x]; [vm_compute in Hx; injection Hx as <-;
                               by apply elem_of_nil in He|]).
    vm_compute in Hx. discriminate Hx.
Defined.

(** ** Programs of readers *)

(** X11. In a program whose derived signals all have functions that only
    read older trackers, between operations (each having returned) the value
    cached for every derived tracker is what its function returns when it is
    evaluated afresh, and evaluating it changes nothing; no changed flag is
    set and the phase is normal. *)
Theorem built_settled w :
  built w →
  settled w
  ∧ ∀ fuel d tr, trackers w !! d = Some tr → type tr = Derived →
                 runProg (updateSignal fuel) (func tr) w = Done (value tr) w.
Proof.
  intros Hb.
  assert (Hset : settled w).
  { induction Hb as [|fuel op w w' Hb IH Hop Hrun]; [apply settled_emptyWorld|].
    destruct op; simpl in Hop, Hrun; try done.
    - apply bind_Done_inv in Hrun as (t & w1 & Hst & Hret). injection Hret as <-.
      by apply (state_settled v w t w1).
    - apply bind_Done_inv in Hrun as (t & w1 & Hd & Hret). injection Hret as <-.
      by apply (derive_settled fuel f w t w1).
    - by apply (effect_settled fuel sources callback w).
    - by apply (access_settled fuel p w).
    - by apply (updateState_settled fuel run w).
    - apply bind_Done_inv in Hrun as (a & w1 & Harr & Hret). injection Hret as <-.
      unfold arrayState in Harr.
      apply bind_Done_inv in Harr as (cell & wa & Ha & Harr).
      apply bind_Done_inv in Harr as (fresh & wb & Hn & Harr).
      apply bind_Done_inv in Harr as (t & wc & Hst & Hret). injection Hret as _ <-.
      apply (state_settled fresh wb t wc); [|done].
      unfold allocArray in Ha. injection Ha as _ <-.
      unfold newChanges in Hn. injection Hn as _ <-.
      by apply (settled_sameGraph w). }
  split; [done|]. intros fuel d tr Hd Hty.
  destruct (settled_consistent _ Hset d tr Hd Hty) as (rs & Hev & _).
  by apply (runProg_evaluate _ _ _ _ rs (settled_mode _ Hset)).
Qed.

Lemma built_settled_witness :
  settled FreedDerived.world
  ∧ ∀ fuel d tr, trackers FreedDerived.world !! d = Some tr → type tr = Derived →
                 runProg (updateSignal fuel) (func tr) FreedDerived.world
                 = Done (value tr) FreedDerived.world.
Proof.
  apply built_settled.
  eapply (built_step 1
            (OpDerive (v <- call (GetValue FreedDerived.source) ;;
                       Ret (onNumber (λ n, n * 2) v))%prog) _ FreedDerived.world).
  - eapply (built_step 1 (OpState (VNum 1)) emptyWorld); [apply built_empty|done|].
    reflexivity.
  - simpl. split; [unfold FreedDerived.source; lia|]. intros v. by destruct v.
  - reflexivity.
Defined.

(** ** Projections at their creation *)

Lemma handleDerivationLinking_coreKept s w w1 :
  handleDerivationLinking s w = Done tt w1 → coreKept w w1.
Proof.
  unfold handleDerivationLinking.
  rewrite (bind_Done _ _ _ _ _ (getDerivationBeingComputed_eq w)).
  destruct (list.last (stackOf (stateData w))) as [d|]; [|intros [= <-]; apply coreKept_refl].
  intros Hrun. apply bind_Done_inv in Hrun as ([] & w0 & Hs & Hd).
  apply modifyTracker_Done in Hs as (trs & Hs & ->).
  apply modifyTracker_Done in Hd as (trd & Hd & ->).
  eapply coreKept_trans.
  - apply (coreKept_modify w s trs
             (λ t, setDownstreamSignals (JsSet.add d (downstreamSignals t)) t) Hs).
    by repeat split.
  - apply (coreKept_modify _ d trd
             (λ t, setUpstreamSignals (JsSet.add s (upstreamSignals t)) t) Hd).
    by repeat split.
Qed.

(** Reading a signal while a derived signal is created: the value is the
    one the tracker holds, and only edges move. *)
Lemma creating_GetValue pull s w x w1 :
  mode (stateData w) = CreatingDerivedSignal →
  handle pull (GetValue s) w = Done x w1 →
  coreKept w w1 ∧ ∃ tr, trackers w !! s = Some tr ∧ x = value tr.
Proof.
  intros Hmode Hrun. simpl in Hrun.
  apply bind_Done_inv in Hrun as (tr & w0 & Hget & Hrun).
  apply getTracker_Done_inv in Hget as [-> Hs].
  assert (Hend : ∀ wl, coreKept w wl →
            (tr' <- getTracker s ;; ret (value tr')) wl = Done x w1 →
            coreKept w w1 ∧ ∃ tr, trackers w !! s = Some tr ∧ x = value tr).
  { intros wl Hk Hg. apply bind_Done_inv in Hg as (tr1 & wy & Hget & Hret).
    apply getTracker_Done_inv in Hget as [-> Hs1]. injection Hret as <- <-.
    split; [done|]. exists tr. split; [done|].
    destruct (proj1 (proj2 Hk) s tr Hs) as (tr2 & Hs2 & (_ & Hv & _)). congruence. }
  destruct (type tr).
  - apply bind_Done_inv in Hrun as ([] & wl & Hlink & Hrun).
    apply (Hend wl); [by apply (handleDerivationLinking_coreKept s)|done].
  - rewrite (bind_Done _ _ _ (stateData w) w) in Hrun by done.
    rewrite Hmode in Hrun.
    apply bind_Done_inv in Hrun as ([] & wl & Hlink & Hrun).
    pose proof (handleDerivationLinking_coreKept s w wl Hlink) as Hk.
    pose proof Hk as (_ & _ & _ & _ & Hsd & _).
    rewrite (bind_Done _ _ _ (stateData wl) wl) in Hrun by done.
    rewrite Hsd, Hmode in Hrun.
    rewrite (bind_Done _ _ _ tt wl) in Hrun by done.
    by apply (Hend wl).
Qed.

Lemma creating_HasChanged pull s w b w1 :
  mode (stateData w) = CreatingDerivedSignal →
  handle pull (HasChangedSinceLastDerivationExecution s) w = Done b w1 →
  w1 = w ∧ ∃ tr, trackers w !! s = Some tr ∧ b = hasChanged tr.
Proof.
  intros Hmode Hrun. simpl in Hrun.
  apply bind_Done_inv in Hrun as (tr & w0 & Hget & Hrun).
  apply getTracker_Done_inv in Hget as [-> Hs].
  rewrite (bind_Done _ _ _ (stateData w) w) in Hrun by done.
  rewrite Hmode in Hrun.
  destruct (type tr); injection Hrun as <- <-; eauto.
Qed.

(** Creating a derived signal: the worlds before and after the function
    runs. *)
Lemma derive_Done_inv fuel f w t w' :
  derive fuel f w = Done t w' →
  stateData w = SNormal
  ∧ ∃ v w3,
      runProg (updateSignal fuel) f
        (withStateData (SCreatingDerivedSignal [length (trackers w)])
           (withTrackers (λ ts, ts ++ [mkTracker Derived VNull false [] [] [] f]) w))
      = Done v w3
      ∧ t = length (trackers w)
      ∧ arrays w' = arrays w3
      ∧ valueOf t w' = Some v.
Proof.
  unfold derive. intros Hrun.
  rewrite (bind_Done _ _ _ (stateData w) w) in Hrun by done.
  destruct (stateData w) eqn:Hsd; try done. split; [done|]. simpl in Hrun.
  apply bind_Done_inv in Hrun as (t0 & wa & Ha & Hrun).
  unfold allocTracker in Ha. injection Ha as <- <-.
  apply bind_Done_inv in Hrun as ([] & wb & Hb & Hrun).
  unfold setStateData, modifyWorld in Hb. injection Hb as <-.
  apply bind_Done_inv in Hrun as (v & w3 & Hf & Hrun).
  exists v, w3. split; [exact Hf|].
  apply bind_Done_inv in Hrun as ([] & wc & Hc & Hrun).
  apply modifyTracker_Done in Hc as (tr & Htr & ->).
  unfold bind, setStateData, modifyWorld in Hrun. injection Hrun as <- <-.
  split; [done|]. split; [done|].
  unfold valueOf. simpl. rewrite list_lookup_insert_eq by (by eapply lookup_lt_Some).
  done.
Qed.

Lemma runProg_throw pull {A} e w : runProg pull (throw e : prog A) w = Throw e w.
Proof. reflexivity. Qed.

Lemma runProg_bind_inv pull {A B} (p : prog A) (k : A → prog B) w b w' :
  runProg pull (pbind p k) w = Done b w' →
  ∃ a w1, runProg pull p w = Done a w1 ∧ runProg pull (k a) w1 = Done b w'.
Proof. rewrite runProg_pbind. apply bind_Done_inv. Qed.

Lemma updateArrayFromChangesAt_Done pull cell c w w' :
  runProg pull (updateArrayFromChangesAt cell c) w = Done tt w' →
  ∃ a a', arrays w !! cell = Some a
          ∧ updateArrayFromChanges a (changes c) = (a', None)
          ∧ arrays w' = <[cell := a']> (arrays w).
Proof.
  unfold updateArrayFromChangesAt. intros Hrun.
  apply runProg_bind_inv in Hrun as (a & w1 & Hread & Hrun).
  rewrite runProg_call in Hread. simpl in Hread. unfold readArray in Hread.
  destruct (arrays w !! cell) as [a0|] eqn:Ha; [|done]. injection Hread as <- <-.
  destruct (updateArrayFromChanges a0 (changes c)) as [a' err] eqn:Hupd.
  apply runProg_bind_inv in Hrun as ([] & w2 & Hwrite & Hrun).
  rewrite runProg_call in Hwrite. simpl in Hwrite. unfold writeArray in Hwrite.
  rewrite Ha in Hwrite. injection Hwrite as <-.
  destruct err as [e|]; [by rewrite runProg_throw in Hrun|].
  simpl in Hrun. injection Hrun as <-. by exists a0, a'.
Qed.

Lemma mapChange_commutes func (a b : JsArray Value) (cs : list (Change Value)) :
  slots b = slots (arr_map func a) →
  slots (fst (updateArrayFromChanges b (List.map (mapChange func) cs)))
  = slots (arr_map func (fst (updateArrayFromChanges a cs))).
Proof.
  revert a b. induction cs as [|c cs IH]; intros a b Hb; simpl; [done|].
  destruct c as [i vs|s l|p q|i v]; simpl.
  - apply IH. by apply arr_splice_map.
  - apply IH. by apply (arr_splice_map func a b s l []).
  - done.
  - apply IH. by apply arr_set_map.
Qed.

(** X12. A [map] runs its derivation once when it is made, and the
    derivation has no guard: the projection holds the image of the source
    array under [func] with the source's current script, rewritten by
    [func], applied to it once more.  It is the element-wise image of the
    source when that script is empty, and in general it is the image of the
    source with its script applied a second time. *)
Theorem map_at_creation fuel inValue inChanges func w m w' :
  map fuel inValue inChanges func w = Done m w' →
  ∃ a tr addr c made,
    arrays w !! inValue = Some a
    ∧ trackers w !! inChanges = Some tr ∧ value tr = VChanges addr c
    ∧ arrValue m = length (arrays w)
    ∧ updateArrayFromChanges (arr_map func a) (List.map (mapChange func) (changes c))
      = (made, None)
    ∧ arrays w' !! arrValue m = Some made
    ∧ slots made = slots (arr_map func (fst (updateArrayFromChanges a (changes c))))
    ∧ (changes c = [] → made = arr_map func a).
Proof.
  unfold map. intros Hrun.
  apply bind_Done_inv in Hrun as (a & w0 & Hread & Hrun).
  unfold readArray in Hread. destruct (arrays w !! inValue) as [a0|] eqn:Ha; [|done].
  injection Hread as <- <-.
  apply bind_Done_inv in Hrun as (cell & w1 & Halloc & Hrun).
  unfold allocArray in Halloc. injection Halloc as <- <-.
  apply bind_Done_inv in Hrun as (t & w2 & Hder & Hret). injection Hret as <- <-.
  apply derive_Done_inv in Hder as (Hsd & v & w3 & Hfunc & -> & Harr & _).
  set (wS := withStateData _ _) in Hfunc.
  unfold mapDerivation in Hfunc.
  apply runProg_bind_inv in Hfunc as (v1 & wA & Hv1 & Hfunc).
  rewrite runProg_call in Hv1.
  apply creating_GetValue in Hv1 as (HkA & tr1 & Htr1 & ->); [|done].
  destruct (value tr1) as [| |addr c] eqn:Hval; try by rewrite runProg_throw in Hfunc.
  apply runProg_bind_inv in Hfunc as (v2 & wB & Hv2 & Hfunc).
  rewrite runProg_call in Hv2.
  pose proof HkA as (_ & HkeptA & _ & HarrA & HsdA & _).
  apply creating_GetValue in Hv2 as (HkB & tr2 & Htr2 & ->); [|by rewrite HsdA].
  destruct (HkeptA inChanges tr1 Htr1) as (tr2' & Htr2' & (_ & Hv2' & _)).
  assert (tr2' = tr2) as -> by congruence.
  rewrite Hv2', Hval in Hfunc.
  apply runProg_bind_inv in Hfunc as (o & wC & Hnew & Hfunc).
  rewrite runProg_call in Hnew. simpl in Hnew. unfold newChanges in Hnew.
  injection Hnew as <- <-.
  apply runProg_bind_inv in Hfunc as ([] & wD & Hupd & Hret).
  simpl in Hret. injection Hret as _ <-.
  apply updateArrayFromChangesAt_Done in Hupd as (b & made & Hb & Hscript & HarrD).
  pose proof HkB as (_ & _ & _ & HarrB & _).
  simpl in Hb, HarrD. rewrite HarrB, HarrA in Hb, HarrD. simpl in Hb, HarrD.
  rewrite lookup_app_r, Nat.sub_diag in Hb by lia. injection Hb as <-.
  assert (Hold : trackers w !! inChanges = Some tr1).
  { simpl in Htr1. apply lookup_alloc in Htr1 as [[_ ->]|[_ ?]]; [done|done]. }
  exists a0, tr1, addr, c, made. simpl in Hscript.
  split; [done|]. split; [done|]. split; [done|]. split; [done|]. split; [done|].
  split; [|split].
  - rewrite Harr, HarrD. simpl.
    apply list_lookup_insert_eq. rewrite length_app. simpl. lia.
  - pose proof (mapChange_commutes func a0 (arr_map func a0) (changes c) eq_refl) as Hslots.
    by rewrite Hscript in Hslots.
  - intros Hnil. rewrite Hnil in Hscript. simpl in Hscript. by injection Hscript as <-.
Qed.

(** Flattening the parts between update cycles reads and changes nothing. *)
Lemma flatMapParts_Done pull parts w elements w0 :
  stateData w = SNormal →
  runProg pull (flatMapParts parts) w = Done elements w0 → w0 = w.
Proof.
  intros Hsd. revert elements w0.
  induction parts as [|part parts IH]; intros elements w0 Hrun; cbn [flatMapParts] in Hrun.
  - simpl in Hrun. by injection Hrun as _ <-.
  - apply runProg_bind_inv in Hrun as (here & w1 & Hhere & Hrun).
    assert (w1 = w) as ->.
    { destruct part as [v|s|array]; simpl in Hhere.
      - by injection Hhere as _ <-.
      - apply bind_Done_inv in Hhere as (x & wx & Hh & Hret). injection Hret as _ <-.
        change (handle pull (GetValue s) w = Done x wx) in Hh.
        assert (Hs : is_Some (trackers w !! s)).
        { simpl in Hh. unfold bind, getTracker in Hh.
          destruct (trackers w !! s); [eauto|done]. }
        destruct Hs as [tr Hs].
        rewrite (handle_GetValue_plain pull s tr w) in Hh; try done; try by rewrite Hsd.
        by injection Hh as _ <-.
      - unfold partElements, arrayValue in Hhere.
        apply runProg_bind_inv in Hhere as (a & wx & Ha & Hret).
        simpl in Hret. injection Hret as _ <-.
        destruct (arrIsDerived array).
        + apply runProg_bind_inv in Ha as (m & wy & Hm & Ha).
          rewrite runProg_call in Hm. simpl in Hm. unfold bind, getStateData in Hm.
          injection Hm as <- <-. rewrite Hsd in Ha. simpl in Ha.
          unfold bind, readArray in Ha.
          destruct (arrays w !! arrValue array); [|done]. by injection Ha as _ <-.
        + rewrite runProg_call in Ha. simpl in Ha. unfold readArray in Ha.
          destruct (arrays w !! arrValue array); [|done]. by injection Ha as _ <-. }
    apply runProg_bind_inv in Hrun as (there & w2 & Hthere & Hret).
    simpl in Hret. injection Hret as _ <-. by apply (IH there).
Qed.

(** The loop of [join]'s derivation while no tracker is flagged: no record
    is added. *)
Lemma joinParts_unflagged pull parts index updates w r w1 :
  mode (stateData w) = CreatingDerivedSignal →
  (∀ x tr, trackers w !! x = Some tr → hasChanged tr = false) →
  runProg pull (joinParts parts index updates) w = Done r w1 →
  snd r = updates ∧ coreKept w w1.
Proof.
  revert index updates w.
  induction parts as [|part parts IH]; intros index updates w Hmode Hflags Hrun;
    cbn [joinParts] in Hrun.
  - simpl in Hrun. injection Hrun as <- <-. split; [done|apply coreKept_refl].
  - assert (Hstep : ∀ s wa x, handle pull (GetValue s) w = Done x wa →
              coreKept w wa ∧ mode (stateData wa) = CreatingDerivedSignal
              ∧ (∀ y tr, trackers wa !! y = Some tr → hasChanged tr = false)
              ∧ ∀ b wb, handle pull (HasChangedSinceLastDerivationExecution s) wa
                        = Done b wb → wb = wa ∧ b = false).
    { intros s wa x Hget. apply creating_GetValue in Hget as (Hk & _); [|done].
      pose proof Hk as (_ & _ & _ & _ & Hsd & _).
      assert (Hflags' : ∀ y tr, trackers wa !! y = Some tr → hasChanged tr = false).
      { intros y tr' Hy.
        destruct (coreKept_lookup_inv _ _ _ _ Hk Hy) as (tr & Hy0 & (_ & _ & -> & _)).
        by apply (Hflags y). }
      split; [done|]. split; [by rewrite Hsd|]. split; [done|].
      intros b wb Hb. apply creating_HasChanged in Hb as (-> & tr & Htr & ->);
        [|by rewrite Hsd]. split; [done|]. by apply (Hflags' s). }
    destruct part as [v|s|array].
    + by apply (IH (index + 1) updates w).
    + apply runProg_bind_inv in Hrun as (x & wa & Hget & Hrun).
      rewrite runProg_call in Hget.
      destruct (Hstep s wa x Hget) as (Hk & Hmode' & Hflags' & Hflag).
      apply runProg_bind_inv in Hrun as (b & wb & Hb & Hrun).
      rewrite runProg_call in Hb. destruct (Hflag b wb Hb) as [-> ->].
      destruct (IH _ _ wa Hmode' Hflags' Hrun) as [Hr Hk'].
      split; [done|by eapply coreKept_trans].
    + apply runProg_bind_inv in Hrun as (x & wa & Hget & Hrun).
      rewrite runProg_call in Hget.
      destruct (Hstep (arrChanges array) wa x Hget) as (Hk & Hmode' & Hflags' & Hflag).
      destruct x as [| |addr c]; try by rewrite runProg_throw in Hrun.
      apply runProg_bind_inv in Hrun as (b & wb & Hb & Hrun).
      rewrite runProg_call in Hb. destruct (Hflag b wb Hb) as [-> ->].
      destruct (IH _ _ wa Hmode' Hflags' Hrun) as [Hr Hk'].
      split; [done|by eapply coreKept_trans].
Qed.

(** X13. A [join] made between update cycles (the phase is normal and no
    changed flag is set) holds the flattening of its parts as they are then:
    reading the parts changes nothing, and the derivation, run once at
    creation, finds no part changed and applies an empty script. *)
Theorem join_at_creation fuel parts w a w' :
  stateData w = SNormal →
  (∀ x tr, trackers w !! x = Some tr → hasChanged tr = false) →
  join fuel parts w = Done a w' →
  ∃ elements,
    runProg (updateSignal fuel) (flatMapParts parts) w = Done elements w
    ∧ arrValue a = length (arrays w)
    ∧ arrays w' !! arrValue a = Some (arrayOf elements)
    ∧ ∃ addr newLength,
        valueOf (arrChanges a) w' = Some (VChanges addr (mkChanges [] newLength)).
Proof.
  unfold join. intros Hsd Hflags Hrun.
  apply bind_Done_inv in Hrun as (elements & w0 & Hflat & Hrun).
  pose proof (flatMapParts_Done _ _ _ _ _ Hsd Hflat) as ->.
  apply bind_Done_inv in Hrun as (cell & w1 & Halloc & Hrun).
  unfold allocArray in Halloc. injection Halloc as <- <-.
  apply bind_Done_inv in Hrun as (t & w2 & Hder & Hret). injection Hret as <- <-.
  apply derive_Done_inv in Hder as (_ & v & w3 & Hfunc & -> & Harr & Hval).
  set (wS := withStateData _ _) in Hfunc.
  unfold joinDerivation in Hfunc.
  apply runProg_bind_inv in Hfunc as (r & wA & Hparts & Hfunc).
  apply joinParts_unflagged in Hparts as [Hr HkA]; [|done|].
  2:{ intros x tr Hx. simpl in Hx.
      apply lookup_alloc in Hx as [[_ ->]|[_ Hx]]; [done|by apply (Hflags x)]. }
  rewrite Hr in Hfunc.
  apply runProg_bind_inv in Hfunc as (o & wB & Hnew & Hfunc).
  rewrite runProg_call in Hnew. simpl in Hnew. unfold newChanges in Hnew.
  injection Hnew as <- <-.
  apply runProg_bind_inv in Hfunc as ([] & wD & Hupd & Hret).
  simpl in Hret. injection Hret as <- <-.
  apply updateArrayFromChangesAt_Done in Hupd as (b & made & Hb & Hscript & HarrD).
  simpl in Hscript. injection Hscript as <-.
  pose proof HkA as (_ & _ & _ & HarrA & _).
  simpl in Hb, HarrD. rewrite HarrA in Hb, HarrD. simpl in Hb, HarrD.
  rewrite list_insert_id in HarrD by done.
  rewrite lookup_app_r, Nat.sub_diag in Hb by lia. injection Hb as <-.
  exists elements. split; [done|]. split; [done|]. split.
  - rewrite Harr, HarrD. simpl. by rewrite lookup_app_r, Nat.sub_diag by lia.
  - eauto.
Qed.

Lemma map_at_creation_witness :
  ∃ a tr addr c made,
    arrays Projections.world !! 0%nat = Some a
    ∧ trackers Projections.world !! 0%nat = Some tr
    ∧ value tr = VChanges addr c
    ∧ 1%nat = length (arrays Projections.world)
    ∧ updateArrayFromChanges (arr_map Projections.twice a)
        (List.map (mapChange Projections.twice) (changes c)) = (made, None)
    ∧ arrays Projections.mapped !! 1%nat = Some made
    ∧ slots made
      = slots (arr_map Projections.twice (fst (updateArrayFromChanges a (changes c))))
    ∧ (changes c = [] → made = arr_map Projections.twice a).
Proof.
  apply (map_at_creation 1 0 0 Projections.twice Projections.world
           (mkImmutableArray 1 1 true) Projections.mapped).
  vm_compute. reflexivity.
Defined.

Lemma join_at_creation_witness :
  ∃ elements,
    runProg (updateSignal 1) (flatMapParts Projections.parts) Projections.world
    = Done elements Projections.world
    ∧ 1%nat = length (arrays Projections.world)
    ∧ arrays Projections.joined !! 1%nat = Some (arrayOf elements)
    ∧ ∃ addr newLength,
        valueOf 1%nat Projections.joined = Some (VChanges addr (mkChanges [] newLength)).
Proof.
  apply (join_at_creation 1 Projections.parts Projections.world
           (mkImmutableArray 1 1 true) Projections.joined).
  - reflexivity.
  - intros x tr Hx. destruct x as [|x]; [by injection Hx as <-|done].
  - vm_compute. reflexivity.
Defined.

(** ** What the effects of an update cycle observe *)

(** X18. Effects observe no glitch.  When [updateState] returns on a graph
    that was consistent, its run went through three stages: the callback,
    the resolution of the stale trackers, and the stale effects.  When the
    effects start, every derived tracker already holds what its function
    returns on the values the trackers then have; the effects change no
    tracker; and the values they find are the values [updateState]
    leaves. *)
Theorem effects_observe_final_values fuel run w w' :
  settled w → updateState fuel run w = Done tt w' →
  ∃ w1 wD wF,
    runProg (updateSignal fuel) run (withStateData (SUpdatingState [] [] []) w) = Done tt w1
    ∧ resolveStale fuel fuel
        (withStateData
           (SUpdatingDerivedSignals (changedOf (stateData w1)) (staleOf (stateData w1))
              (staleEffectsOf (stateData w1)) [] []) w1) = Done tt wD
    ∧ forEach (staleEffectsOf (stateData wD)) (runEffect (updateSignal fuel))
        (withStateData (SRunningEffects (changedOf (stateData wD))) wD) = Done tt wF
    ∧ (∀ d tr, trackers wD !! d = Some tr → type tr = Derived →
               consistent (trackers wD) tr)
    ∧ trackers wF = trackers wD
    ∧ ∀ x tr, trackers wD !! x = Some tr → valueOf x w' = Some (value tr).
Proof.
  intros Hset Hrun. unfold updateState in Hrun.
  rewrite (bind_Done _ _ _ (stateData w) w) in Hrun by done.
  rewrite (settled_mode _ Hset) in Hrun. simpl in Hrun.
  apply bind_Done_inv in Hrun as ([] & wA & HA & Hrun).
  unfold setStateData, modifyWorld in HA. injection HA as <-.
  apply bind_Done_inv in Hrun as ([] & wB & HB & Hrun).
  pose proof (runProg_collecting _ _ _ _ _ (settled_collecting w Hset) HB) as HcolB.
  rewrite (bind_Done _ _ _ (stateData wB) wB) in Hrun by done.
  apply bind_Done_inv in Hrun as ([] & wC & HC & Hrun).
  unfold setStateData, modifyWorld in HC. injection HC as <-.
  apply bind_Done_inv in Hrun as ([] & wD & HD & Hrun).
  pose proof HD as HDrun.
  apply resolveStale_spec in HD as (HresD & HstkD & HstaleD);
    [|by apply collecting_resolving|done].
  rewrite (bind_Done _ _ _ (stateData wD) wD) in Hrun by done.
  rewrite HstkD in Hrun.
  apply bind_Done_inv in Hrun as ([] & wE & HE & Hrun).
  unfold setStateData, modifyWorld in HE. injection HE as <-.
  apply bind_Done_inv in Hrun as ([] & wF & HF & Hrun).
  pose proof HF as HFrun.
  apply runEffects_quiet in HF as (HtF & HsdF & HregF); [|done..].
  simpl in HtF, HsdF, HregF.
  rewrite (bind_Done _ _ _ (stateData wF) wF) in Hrun by done.
  apply bind_Done_inv in Hrun as ([] & wG & HG & Hrun).
  unfold setStateData, modifyWorld in Hrun. injection Hrun as <-.
  rewrite HsdF in HG. simpl in HG.
  apply clear_flags in HG as (HsdG & HregG & HlenG & HkeptG).
  exists wB, wD, wF. split; [exact HB|]. split; [exact HDrun|]. split; [exact HFrun|].
  split; [|split; [exact HtF|]].
  - intros d tr Hd Hty.
    apply (tracking_consistent _ (resolving_tracking _ HresD) d tr Hd Hty).
    rewrite HstaleD. apply not_elem_of_nil.
  - intros x tr Hx. rewrite <- HtF in Hx.
    destruct (HkeptG x tr Hx) as (tr' & Hx' & _ & Hv & _).
    unfold valueOf. simpl. rewrite Hx'. simpl. by rewrite Hv.
Qed.

Lemma watched_settled : settled Watched.world.
Proof.
  apply (effect_settled 3 [Diamond.doubled; Diamond.doubleModulo] Watched.callback
           PureDiamond.world); [exact pureDiamond_settled|].
  vm_compute. reflexivity.
Qed.

Lemma effects_observe_final_values_witness :
  ∃ w1 wD wF,
    runProg (updateSignal 3) Diamond.batch
      (withStateData (SUpdatingState [] [] []) Watched.world) = Done tt w1
    ∧ resolveStale 3 3
        (withStateData
           (SUpdatingDerivedSignals (changedOf (stateData w1)) (staleOf (stateData w1))
              (staleEffectsOf (stateData w1)) [] []) w1) = Done tt wD
    ∧ forEach (staleEffectsOf (stateData wD)) (runEffect (updateSignal 3))
        (withStateData (SRunningEffects (changedOf (stateData wD))) wD) = Done tt wF
    ∧ (∀ d tr, trackers wD !! d = Some tr → type tr = Derived →
               consistent (trackers wD) tr)
    ∧ trackers wF = trackers wD
    ∧ ∀ x tr, trackers wD !! x = Some tr → valueOf x Watched.after = Some (value tr).
Proof.
  apply (effects_observe_final_values 3 Diamond.batch Watched.world Watched.after).
  - exact watched_settled.
  - vm_compute. reflexivity.
Defined.

(** ** A map follows its source through a batch of edits *)

Lemma JsSet_add_nil x : JsSet.add x [] = [x].
Proof. reflexivity. Qed.
Lemma JsSet_has_same x : JsSet.has x [x] = true.
Proof. apply JsSet_has_true. by left. Qed.
Lemma JsSet_add_same x : JsSet.add x [x] = [x].
Proof. unfold JsSet.add. by rewrite JsSet_has_same. Qed.
Lemma JsSet_delete_same x : JsSet.delete x [x] = [].
Proof.
  apply list.elem_of_nil_inv. intros y Hy.
  apply elem_of_JsSet_delete in Hy as [Hne Hy]. by apply list_elem_of_singleton in Hy.
Qed.

Section During.
Context (w : World) (this mapped : ImmutableArray).
Hypothesis trackers_apart : arrChanges this ≠ arrChanges mapped.
Hypothesis arrays_apart : arrValue this ≠ arrValue mapped.
Hypothesis source_bound : (arrChanges this < length (trackers w))%nat.
Hypothesis derivation_bound : (arrChanges mapped < length (trackers w))%nat.
Hypothesis array_bound : (arrValue this < length (arrays w))%nat.
Hypothesis mapped_bound : (arrValue mapped < length (arrays w))%nat.

Local Abbreviation D := (during w this mapped).

Lemma getTracker_source s t a b sd n :
  getTracker (arrChanges this) (D s t a b sd n) = Done s (D s t a b sd n).
Proof using All.
  apply getTracker_Some. simpl.
  rewrite list_lookup_insert_ne by done. by apply list_lookup_insert_eq.
Qed.

Lemma getTracker_derivation s t a b sd n :
  getTracker (arrChanges mapped) (D s t a b sd n) = Done t (D s t a b sd n).
Proof using All.
  apply getTracker_Some. simpl.
  apply list_lookup_insert_eq. by rewrite length_insert.
Qed.

Lemma modifyTracker_source g s t a b sd n :
  modifyTracker (arrChanges this) g (D s t a b sd n) = Done tt (D (g s) t a b sd n).
Proof using All.
  pose proof (getTracker_source s t a b sd n) as Hget.
  unfold getTracker in Hget. unfold modifyTracker.
  destruct (trackers (D s t a b sd n) !! arrChanges this) as [x|]; [|done].
  injection Hget as ->. unfold during, withTrackers. simpl. f_equal. f_equal.
  rewrite list_insert_insert_ne by done. by rewrite list_insert_insert_eq.
Qed.

Lemma modifyTracker_derivation g s t a b sd n :
  modifyTracker (arrChanges mapped) g (D s t a b sd n) = Done tt (D s (g t) a b sd n).
Proof using All.
  pose proof (getTracker_derivation s t a b sd n) as Hget.
  unfold getTracker in Hget. unfold modifyTracker.
  destruct (trackers (D s t a b sd n) !! arrChanges mapped) as [x|]; [|done].
  injection Hget as ->. unfold during, withTrackers. simpl. f_equal. f_equal.
  by rewrite list_insert_insert_eq.
Qed.

Lemma readArray_source s t a b sd n :
  readArray (arrValue this) (D s t a b sd n) = Done a (D s t a b sd n).
Proof using All.
  apply readArray_Some. simpl.
  rewrite list_lookup_insert_ne by done. by apply list_lookup_insert_eq.
Qed.

Lemma readArray_mapped s t a b sd n :
  readArray (arrValue mapped) (D s t a b sd n) = Done b (D s t a b sd n).
Proof using All.
  apply readArray_Some. simpl. apply list_lookup_insert_eq. by rewrite length_insert.
Qed.

Lemma writeArray_source new s t a b sd n :
  writeArray (arrValue this) new (D s t a b sd n) = Done tt (D s t new b sd n).
Proof using All.
  pose proof (readArray_source s t a b sd n) as Hget.
  unfold readArray in Hget. unfold writeArray.
  destruct (arrays (D s t a b sd n) !! arrValue this) as [x|]; [|done].
  unfold during, withArrays. simpl. f_equal. f_equal.
  rewrite list_insert_insert_ne by done. by rewrite list_insert_insert_eq.
Qed.

Lemma writeArray_mapped new s t a b sd n :
  writeArray (arrValue mapped) new (D s t a b sd n) = Done tt (D s t a new sd n).
Proof using All.
  pose proof (readArray_mapped s t a b sd n) as Hget.
  unfold readArray in Hget. unfold writeArray.
  destruct (arrays (D s t a b sd n) !! arrValue mapped) as [x|]; [|done].
  unfold during, withArrays. simpl. f_equal. f_equal.
  by rewrite list_insert_insert_eq.
Qed.

Lemma getStateData_during s t a b sd n :
  getStateData (D s t a b sd n) = Done sd (D s t a b sd n).
Proof. reflexivity. Qed.

Lemma setStateData_during sd' s t a b sd n :
  setStateData sd' (D s t a b sd n) = Done tt (D s t a b sd' n).
Proof. reflexivity. Qed.

Lemma modifyStateData_during g s t a b sd n :
  modifyStateData g (D s t a b sd n) = Done tt (D s t a b (g sd) n).
Proof. reflexivity. Qed.

Lemma newChanges_during c s t a b sd n :
  newChanges c (D s t a b sd n) = Done (VChanges n c) (D s t a b sd (S n)).
Proof. reflexivity. Qed.

End During.

Lemma runProg_mapDerivation pull value inChanges func :
  runProg pull (mapDerivation value inChanges func)
  = runProg pull
      (v1 <- call (GetValue inChanges) ;;
       match v1 with
       | VChanges _ c1 =>
           let rewritten := List.map (mapChange func) (changes c1) in
           v2 <- call (GetValue inChanges) ;;
           match v2 with
           | VChanges _ c2 =>
               let out := mkChanges rewritten (newLength c2) in
               o <- call (NewChanges out) ;;
               updateArrayFromChangesAt value out ;;;
               Ret o
           | _ => throw TypeError
           end
       | _ => throw TypeError
       end)%prog.
Proof. reflexivity. Qed.

Lemma mapChange_succeeds func (a b a' : JsArray Value) (cs : list (Change Value)) :
  slots b = slots (arr_map func a) →
  updateArrayFromChanges a cs = (a', None) →
  ∃ b', updateArrayFromChanges b (List.map (mapChange func) cs) = (b', None)
        ∧ slots b' = slots (arr_map func a').
Proof.
  revert a b. induction cs as [|c cs IH]; intros a b Hb Hrun; simpl in *.
  - injection Hrun as <-. eauto.
  - destruct c as [i vs|s l|p q|i v]; simpl; [| |done|].
    + apply (IH _ _ (arr_splice_map func a b i 0 vs Hb) Hrun).
    + apply (IH _ _ (arr_splice_map func a b s l [] Hb) Hrun).
    + apply (IH _ _ (arr_set_map func a b i v Hb) Hrun).
Qed.

Lemma scriptFits_app (a a' : JsArray Value) (cs1 cs2 : list (Change Value)) :
  updateArrayFromChanges a cs1 = (a', None) →
  scriptFits (arr_length a) cs1 = true →
  scriptFits (arr_length a) (cs1 ++ cs2) = scriptFits (arr_length a') cs2.
Proof.
  revert a. induction cs1 as [|c cs1 IH]; intros a Hrun Hfits; simpl in *.
  - by injection Hrun as <-.
  - destruct c as [i vs|s l|p q|i v]; simpl in *; [| |done|].
    + apply andb_prop in Hfits as [Hb Hrest]. rewrite Hb. simpl.
      rewrite <- (IH _ Hrun).
      * f_equal. rewrite arr_length_splice_fits by lia. lia.
      * rewrite arr_length_splice_fits by lia. rewrite <- Hrest. f_equal. lia.
    + apply andb_prop in Hfits as [Hb Hrest]. rewrite Hb. simpl.
      rewrite <- (IH _ Hrun).
      * f_equal. rewrite arr_length_splice_fits by lia. simpl. lia.
      * rewrite arr_length_splice_fits by lia. rewrite <- Hrest. f_equal. simpl. lia.
    + apply andb_prop in Hfits as [Hb Hrest]. rewrite Hb. simpl.
      rewrite <- (IH _ Hrun).
      * f_equal. rewrite arr_length_set_present by lia. done.
      * rewrite arr_length_set_present by lia. done.
Qed.

Lemma whenDone_bind {A B} (m : M A) (k : A → M B) w (Q : B → World → Prop) :
  whenDone (m w) (λ a w1, whenDone (k a w1) Q) → whenDone (bind m k w) Q.
Proof. unfold bind. by destruct (m w). Qed.

Ltac run_step :=
  first
    [ rewrite getTracker_source by done
    | rewrite getTracker_derivation by done
    | rewrite modifyTracker_source by done
    | rewrite modifyTracker_derivation by done
    | rewrite readArray_source by done
    | rewrite readArray_mapped by done
    | rewrite writeArray_source by done
    | rewrite writeArray_mapped by done
    | rewrite getStateData_during
    | rewrite setStateData_during
    | rewrite modifyStateData_during
    | rewrite newChanges_during
    | rewrite runProg_mapDerivation
    | rewrite JsSet_has_same
    | rewrite JsSet_add_same
    | rewrite JsSet_add_nil
    | rewrite JsSet_delete_same ].

Ltac run_simpl :=
  cbn [bind ret raise whenDone handle runProg pbind call throw forEach
       resolveStale updateArrayFromChangesAt edits mutation
       ArrayStateClass.insertAt ArrayStateClass.insert ArrayStateClass.append
       ArrayStateClass.delete ArrayStateClass.update ArrayStateClass.replace
       ArrayStateClass.move
       mode type value hasChanged downstreamSignals downstreamEffects upstreamSignals func
       pushDerivation popDerivation deleteStale pushChanged addStale addFresh
       staleOf staleEffectsOf freshOf changedOf stackOf strictEq
       JsSet.addAll foldl list.last removelast app
       onChanges pushChange changes newLength fst snd].

Ltac run_unfold :=
  unfold updateState, updateDerivedSignal, removeTrackerDependencies,
    handleDerivationLinking, getDerivationBeingComputed, handleValueChange,
    setValue, setHasChanged, setDownstreamSignals, setUpstreamSignals.

Ltac run := repeat (run_unfold; run_simpl; run_step); run_unfold; run_simpl.

Local Arguments bind {A B} m k _ /.

(** *** The callback: edits of the source *)

Section Editing.
Context (w : World) (this mapped : ImmutableArray).
Context (addr : nat) (c : Changes Value) (ups : list TrackerId) (fn : prog Value).
Context (derivation0 : Tracker) (a0 b0 : JsArray Value) (next0 : nat).
Hypothesis trackers_apart : arrChanges this ≠ arrChanges mapped.
Hypothesis arrays_apart : arrValue this ≠ arrValue mapped.
Hypothesis source_bound : (arrChanges this < length (trackers w))%nat.
Hypothesis derivation_bound : (arrChanges mapped < length (trackers w))%nat.
Hypothesis array_bound : (arrValue this < length (arrays w))%nat.
Hypothesis mapped_bound : (arrValue mapped < length (arrays w))%nat.
Hypothesis source_address : (addr < next0)%nat.

Local Abbreviation D := (during w this mapped).
Local Abbreviation source0 :=
  (mkTracker State (VChanges addr c) false [arrChanges mapped] [] ups fn).

(** Where a batch of edits stands: nothing was edited yet, or the array
    was. *)
Local Abbreviation editing fit source a sd next :=
  ((source = source0 ∧ a = a0 ∧ sd = SUpdatingState [] [] [] ∧ next = next0)
   ∨ edited this (arrChanges mapped) a0 source0 next0 fit source a sd next).

Lemma reset_during pull fit source a sd next :
  editing fit source a sd next →
  ∃ source' sd' next',
    runProg pull (ArrayStateClass.resetOnFirstMutation this) (D source derivation0 a b0 sd next)
    = Done tt (D source' derivation0 a b0 sd' next')
    ∧ edited this (arrChanges mapped) a0 source0 next0 fit source' a sd' next'.
Proof using All.
  unfold ArrayStateClass.resetOnFirstMutation.
  intros [(-> & -> & -> & ->)|(addr' & c' & -> & -> & Hscript & Haddr & Hnext & Hfit)].
  - eexists _, _, _. split.
    + run. replace (addr =? next0)%nat with false by lia. run. reflexivity.
    + eexists _, _. split; [reflexivity|]. split; [reflexivity|]. split; [done|].
      split; [lia|]. split; [lia|]. done.
  - eexists _, _, _. split.
    + run. reflexivity.
    + by eexists _, _.
Qed.

Ltac reset_then Hed :=
  let Hreset := fresh "Hreset" in
  let Hscript := fresh "Hscript" in
  let Hfits := fresh "Hfits" in
  rewrite runProg_pbind;
  lazymatch goal with
  | |- context [runProg ?p (ArrayStateClass.resetOnFirstMutation _)] =>
      destruct (reset_during p _ _ _ _ _ Hed)
        as (? & ? & ? & Hreset & (? & ? & -> & -> & Hscript & ? & ? & Hfits))
  end;
  run_simpl; rewrite Hreset; run.

Ltac edited_with Hscript :=
  eexists _, _, _, _; split; [reflexivity|];
  eexists _, _; split; [reflexivity|]; split; [reflexivity|];
  cbn [changes pushChange]; split; [by rewrite updateArrayFromChanges_app, Hscript|];
  split; [done|]; split; [done|].

Ltac fits_with Hscript Hfits :=
  let Hfit := fresh "Hfit" in
  let Hck := fresh "Hck" in
  intros Hfit; apply andb_prop in Hfit as [Hfit Hck];
  rewrite (scriptFits_app _ _ _ _ Hscript (Hfits Hfit)); cbn [scriptFits].

Lemma insertAt_during pull fit index values source a sd next :
  editing fit source a sd next →
  whenDone (runProg pull (ArrayStateClass.insertAt this index values)
              (D source derivation0 a b0 sd next))
    (λ _ w2, ∃ source' a' sd' next',
       w2 = D source' derivation0 a' b0 sd' next'
       ∧ edited this (arrChanges mapped) a0 source0 next0 fit source' a' sd' next').
Proof using All.
  intros Hed. unfold ArrayStateClass.insertAt. run.
  destruct ((index <? 0) || (index >? arr_length a)) eqn:Hrange; run; [done|].
  reset_then Hed. edited_with Hscript.
  intros Hfit. rewrite (scriptFits_app _ _ _ _ Hscript (Hfits Hfit)). cbn [scriptFits]. lia.
Qed.

Lemma mutation_during pull fit m source a sd next :
  receiverOf m = inr this → editing fit source a sd next →
  whenDone (runProg pull (mutation m) (D source derivation0 a b0 sd next))
    (λ _ w2, ∃ source' a' sd' next',
       w2 = D source' derivation0 a' b0 sd' next'
       ∧ edited this (arrChanges mapped) a0 source0 next0 (fit && checked m)
           source' a' sd' next').
Proof using All.
  intros Hrecv Hed.
  assert (Hweak : ∀ o : Outcome unit,
    whenDone o (λ _ w2, ∃ source' a' sd' next',
       w2 = D source' derivation0 a' b0 sd' next'
       ∧ edited this (arrChanges mapped) a0 source0 next0 fit source' a' sd' next') →
    whenDone o (λ _ w2, ∃ source' a' sd' next',
       w2 = D source' derivation0 a' b0 sd' next'
       ∧ edited this (arrChanges mapped) a0 source0 next0 (fit && true) source' a' sd' next')).
  { intros o. by rewrite andb_true_r. }
  destruct m as [s v|s cb|x i vs|x vs|x vs|x s e|x i g|x i v|x i j];
    simpl in Hrecv; try done; injection Hrecv as ->; cbn [mutation checked].
  - by apply Hweak, insertAt_during.
  - by apply Hweak, insertAt_during.
  - apply Hweak. unfold ArrayStateClass.append, ArrayStateClass.insertAt. run.
    destruct ((arr_length a <? 0) || (arr_length a >? arr_length a)) eqn:Hrange;
      run; [done|].
    reset_then Hed. edited_with Hscript.
    intros Hfit. rewrite (scriptFits_app _ _ _ _ Hscript (Hfits Hfit)). cbn [scriptFits].
    unfold arr_length. lia.
  - apply Hweak. unfold ArrayStateClass.delete.
    destruct (s <? 0) eqn:Hstart; run; [done|].
    destruct ((default s e <? s) || (default s e >? arr_length a - 1)) eqn:Hrange;
      run; [done|].
    reset_then Hed. edited_with Hscript.
    intros Hfit. rewrite (scriptFits_app _ _ _ _ Hscript (Hfits Hfit)). cbn [scriptFits]. lia.
  - unfold ArrayStateClass.update. run.
    destruct (arr_get a i) as [elem|] eqn:Hget; run; [|done].
    reset_then Hed. edited_with Hscript.
    fits_with Hscript Hfits.
    pose proof (arr_get_present _ _ _ Hget). lia.
  - unfold ArrayStateClass.replace.
    reset_then Hed. edited_with Hscript.
    rewrite andb_false_r. done.
  - unfold ArrayStateClass.move.
    reset_then Hed. done.
Qed.

Lemma edits_during pull ms :
  Forall (λ m, receiverOf m = inr this) ms →
  ∀ fit source a sd next,
    editing fit source a sd next →
    whenDone (runProg pull (edits ms) (D source derivation0 a b0 sd next))
      (λ _ w2, ∃ source' a' sd' next',
         w2 = D source' derivation0 a' b0 sd' next'
         ∧ editing (fit && forallb checked ms) source' a' sd' next').
Proof using All.
  induction 1 as [|m ms Hm _ IH]; intros fit source a sd next Hed; cbn [edits forallb].
  - run. rewrite andb_true_r. by eexists _, _, _, _.
  - rewrite runProg_pbind. apply whenDone_bind.
    pose proof (mutation_during pull fit m source a sd next Hm Hed) as Hstep.
    destruct (runProg pull (mutation m) _) as [[] w2| |]; [|done..].
    cbn [whenDone] in *. destruct Hstep as (source' & a' & sd' & next' & -> & Hed').
    rewrite andb_assoc. apply IH. by right.
Qed.

End Editing.

(** *** The update cycle of a map *)

Section Following.
Context (w : World) (this mapped : ImmutableArray) (f : Value → Value).
Context (addr : nat) (c : Changes Value) (ups : list TrackerId) (fn : prog Value).
Context (addrD : nat) (cD : Changes Value) (a0 b0 : JsArray Value) (next0 : nat).
Hypothesis trackers_apart : arrChanges this ≠ arrChanges mapped.
Hypothesis arrays_apart : arrValue this ≠ arrValue mapped.
Hypothesis source_bound : (arrChanges this < length (trackers w))%nat.
Hypothesis derivation_bound : (arrChanges mapped < length (trackers w))%nat.
Hypothesis array_bound : (arrValue this < length (arrays w))%nat.
Hypothesis mapped_bound : (arrValue mapped < length (arrays w))%nat.
Hypothesis source_address : (addr < next0)%nat.
Hypothesis derivation_address : (addrD < next0)%nat.
Hypothesis image : slots b0 = slots (arr_map f a0).

Local Abbreviation D := (during w this mapped).
Local Abbreviation source0 :=
  (mkTracker State (VChanges addr c) false [arrChanges mapped] [] ups fn).
Local Abbreviation derivation0 :=
  (mkTracker Derived (VChanges addrD cD) false [] [] [arrChanges this]
     (mapDerivation (arrValue mapped) (arrChanges this) f)).

Lemma updateState_during fuel run fit source a sd next :
  (source = source0 ∧ a = a0 ∧ sd = SUpdatingState [] [] [] ∧ next = next0)
  ∨ edited this (arrChanges mapped) a0 source0 next0 fit source a sd next →
  runProg (updateSignal (S (S fuel))) run
    (D source0 derivation0 a0 b0 (SUpdatingState [] [] []) next0)
  = Done tt (D source derivation0 a b0 sd next) →
  ∃ addr' c' addrD' cD' b' next',
    updateState (S (S fuel)) run (D source0 derivation0 a0 b0 SNormal next0)
    = Done tt (D (mkTracker State (VChanges addr' c') false [arrChanges mapped] [] ups fn)
                 (mkTracker Derived (VChanges addrD' cD') false [] [] [arrChanges this]
                    (mapDerivation (arrValue mapped) (arrChanges this) f))
                 a b' SNormal next')
    ∧ (addr' < next')%nat ∧ (addrD' < next')%nat
    ∧ slots b' = slots (arr_map f a).
Proof using All.
  intros [(-> & -> & -> & ->)|(addr' & c' & -> & -> & Hscript & Haddr & Hnext & _)] Hrun.
  - eexists _, _, _, _, _, _. split.
    + run. rewrite Hrun. run. reflexivity.
    + done.
  - destruct (mapChange_succeeds f a0 b0 a (changes c') image Hscript) as (b' & Hb' & Himg).
    eexists _, _, _, _, _, _. split.
    + run. rewrite Hrun. run. rewrite Hb'. run.
      replace (next =? addrD)%nat with false by lia. run. reflexivity.
    + split; [lia|]. split; [lia|done].
Qed.

End Following.

Lemma during_id w this mapped source derivation a b :
  trackers w !! arrChanges this = Some source →
  trackers w !! arrChanges mapped = Some derivation →
  arrays w !! arrValue this = Some a →
  arrays w !! arrValue mapped = Some b →
  ∀ sd, withStateData sd w = during w this mapped source derivation a b sd (nextAddress w).
Proof.
  intros Hs Hd Ha Hb sd. unfold during, withStateData. f_equal.
  - rewrite (list_insert_id _ _ _ Hs). by rewrite (list_insert_id _ _ _ Hd).
  - rewrite (list_insert_id _ _ _ Ha). by rewrite (list_insert_id _ _ _ Hb).
Qed.

(** X14. A map follows its source through a batch of edits.  When [mapped]
    is an up-to-date map of the array state [this], and the callback of an
    [updateState] makes edits of [this] and returns, then [updateState]
    returns and [mapped] is again an up-to-date map of [this], whose backing
    array is as the callback left it. *)
Theorem map_follows_source fuel this mapped f ms w w1 :
  follows this mapped f w → (2 ≤ fuel)%nat →
  Forall (λ m, receiverOf m = inr this) ms →
  runProg (updateSignal fuel) (edits ms) (withStateData (SUpdatingState [] [] []) w)
  = Done tt w1 →
  ∃ w', updateState fuel (edits ms) w = Done tt w'
        ∧ follows this mapped f w'
        ∧ arrays w' !! arrValue this = arrays w1 !! arrValue this.
Proof.
  intros [Hmode Harrays (addr & c & ups & fn & Hs & Haddr) (addrD & cD & Hd & HaddrD)
            (a & b & Ha & Hb & Himg)] Hfuel Hms Hrun.
  destruct fuel as [|[|fuel]]; [lia..|].
  assert (Htrackers : arrChanges this ≠ arrChanges mapped).
  { intros Heq. rewrite Heq, Hd in Hs. by injection Hs. }
  pose proof (lookup_lt_Some _ _ _ Hs) as Hsb.
  pose proof (lookup_lt_Some _ _ _ Hd) as Hdb.
  pose proof (lookup_lt_Some _ _ _ Ha) as Hab.
  pose proof (lookup_lt_Some _ _ _ Hb) as Hbb.
  pose proof (during_id w this mapped _ _ a b Hs Hd Ha Hb) as Hw.
  rewrite Hw in Hrun.
  pose proof (edits_during w this mapped addr c ups fn
                (mkTracker Derived (VChanges addrD cD) false [] [] [arrChanges this]
                   (mapDerivation (arrValue mapped) (arrChanges this) f))
                a b (nextAddress w)
                Htrackers Harrays Hsb Hdb Hab Hbb Haddr
                (updateSignal (S (S fuel))) ms Hms
                false _ _ _ _ (or_introl (conj eq_refl (conj eq_refl (conj eq_refl eq_refl)))))
    as Hedits.
  rewrite Hrun in Hedits. cbn [whenDone] in Hedits.
  destruct Hedits as (source' & a' & sd' & next' & -> & Hed).
  destruct (updateState_during w this mapped f addr c ups fn addrD cD a b (nextAddress w)
              Htrackers Harrays Hsb Hdb Hab Hbb Haddr HaddrD Himg fuel (edits ms)
              _ source' a' sd' next' Hed Hrun)
    as (addr' & c' & addrD' & cD' & b' & next'' & Hupd & Haddr' & HaddrD' & Himg').
  rewrite <- Hw in Hupd.
  replace (withStateData SNormal w) with w in Hupd by (destruct w; simpl in *; by subst).
  eexists. split; [exact Hupd|]. split.
  - split.
    + done.
    + done.
    + exists addr', c', ups, fn. split; [|done]. simpl.
      rewrite list_lookup_insert_ne by done. by apply list_lookup_insert_eq.
    + exists addrD', cD'. split; [|done]. simpl.
      apply list_lookup_insert_eq. by rewrite length_insert.
    + exists a', b'. simpl. split; [|split; [|done]].
      * rewrite list_lookup_insert_ne by done. by apply list_lookup_insert_eq.
      * apply list_lookup_insert_eq. by rewrite length_insert.
  - simpl. rewrite (list_lookup_insert_ne _ (arrValue mapped) (arrValue this) b') by done.
    by rewrite (list_lookup_insert_ne _ (arrValue mapped) (arrValue this) b) by done.
Qed.

Lemma map_follows_source_witness :
  ∃ w', updateState 2 (edits Following.batch) Following.world = Done tt w'
        ∧ follows Following.source Following.mapped Following.twice w'
        ∧ arrays w' !! arrValue Following.source
          = arrays Following.edited !! arrValue Following.source.
Proof.
  apply (map_follows_source 2 Following.source Following.mapped Following.twice
           Following.batch Following.world Following.edited).
  - split.
    + reflexivity.
    + simpl. lia.
    + exists 0%nat, (mkChanges [] 3), [], (Ret VNull). split; [reflexivity|]. simpl. lia.
    + exists 1%nat, (mkChanges [] 3). split; [reflexivity|]. simpl. lia.
    + eexists _, _. split; [reflexivity|]. split; [reflexivity|]. reflexivity.
  - lia.
  - repeat constructor.
  - vm_compute. reflexivity.
Defined.

Section Creation.
Context (w : World) (this mapped : ImmutableArray) (f : Value → Value).
Hypothesis trackers_apart : arrChanges this ≠ arrChanges mapped.
Hypothesis arrays_apart : arrValue this ≠ arrValue mapped.
Hypothesis source_bound : (arrChanges this < length (trackers w))%nat.
Hypothesis derivation_bound : (arrChanges mapped < length (trackers w))%nat.
Hypothesis array_bound : (arrValue this < length (arrays w))%nat.
Hypothesis mapped_bound : (arrValue mapped < length (arrays w))%nat.

Local Abbreviation D := (during w this mapped).

(** [derive], from the point where the new tracker is in the arena, on the
    derivation of a map of an array that has no reader and an empty
    script. *)
Lemma derive_map_during pull addr len ups fn a b next :
  (setStateData (SCreatingDerivedSignal [arrChanges mapped]) ;;;
   v <- runProg pull (mapDerivation (arrValue mapped) (arrChanges this) f) ;;
   modifyTracker (arrChanges mapped) (setValue v) ;;;
   setStateData SNormal ;;;
   modifyWorld (withRegistry (λ r, r ++ [arrChanges mapped])) ;;;
   ret (arrChanges mapped))
    (D (mkTracker State (VChanges addr (mkChanges [] len)) false [] [] ups fn)
       (mkTracker Derived VNull false [] [] []
          (mapDerivation (arrValue mapped) (arrChanges this) f))
       a b SNormal next)
  = Done (arrChanges mapped)
      (withRegistry (λ r, r ++ [arrChanges mapped])
         (D (mkTracker State (VChanges addr (mkChanges [] len)) false
               [arrChanges mapped] [] ups fn)
            (mkTracker Derived (VChanges next (mkChanges [] len)) false [] []
               [arrChanges this] (mapDerivation (arrValue mapped) (arrChanges this) f))
            a b SNormal (S next))).
Proof using All.
  run. cbn [List.map updateArrayFromChanges]. run. reflexivity.
Qed.
End Creation.

(** X15. A map made of an array state that was just made follows it: the
    two calls return, in any world between update cycles, and leave the map
    up to date and wired to its source as [follows] asks. *)
Theorem new_map_follows fuel vs f w :
  stateData w = SNormal →
  ∃ this mapped w',
    (a <- arrayState vs ;; m <- mapOf fuel a f ;; ret (a, m)) w = Done (this, mapped) w'
    ∧ follows this mapped f w'
    ∧ arrays w' !! arrValue this = Some (arrayOf vs)
    ∧ arrValue this = length (arrays w).
Proof.
  intros Hsd. destruct w as [ts effs ars sd na reg tk]. simpl in Hsd. subst sd.
  set (len := Z.of_nat (length vs)).
  set (S0 := mkTracker State (VChanges na (mkChanges [] len)) false [] [] [] (Ret VNull)).
  set (a := arrayOf vs). set (b := arr_map f a).
  set (this := mkImmutableArray (length ars) (length ts) false).
  set (mapped := mkImmutableArray (length (ars ++ [a])) (length (ts ++ [S0])) true).
  set (D0 := mkTracker Derived VNull false [] [] []
               (mapDerivation (arrValue mapped) (arrChanges this) f)).
  set (wA := mkWorld (ts ++ [S0]) effs (ars ++ [a]) SNormal (S na) reg tk).
  set (wB := mkWorld (ts ++ [S0]) effs ((ars ++ [a]) ++ [b]) SNormal (S na) reg tk).
  set (wC := mkWorld ((ts ++ [S0]) ++ [D0]) effs ((ars ++ [a]) ++ [b]) SNormal (S na) reg tk).
  assert (Hta : arrChanges this ≠ arrChanges mapped)
    by (simpl; rewrite length_app; simpl; lia).
  assert (Haa : arrValue this ≠ arrValue mapped)
    by (simpl; rewrite length_app; simpl; lia).
  assert (Hsb : (arrChanges this < length (trackers wC))%nat)
    by (simpl; rewrite !length_app; simpl; lia).
  assert (Hdb : (arrChanges mapped < length (trackers wC))%nat)
    by (simpl; rewrite !length_app; simpl; lia).
  assert (Hab : (arrValue this < length (arrays wC))%nat)
    by (simpl; rewrite !length_app; simpl; lia).
  assert (Hmb : (arrValue mapped < length (arrays wC))%nat)
    by (simpl; rewrite !length_app; simpl; lia).
  assert (Hs : trackers wC !! arrChanges this = Some S0).
  { simpl. rewrite lookup_app_l by (rewrite length_app; simpl; lia).
    by rewrite lookup_app_r, Nat.sub_diag by done. }
  assert (Hd : trackers wC !! arrChanges mapped = Some D0).
  { simpl. by rewrite lookup_app_r, Nat.sub_diag by done. }
  assert (Ha : arrays wC !! arrValue this = Some a).
  { simpl. rewrite lookup_app_l by (rewrite length_app; simpl; lia).
    by rewrite lookup_app_r, Nat.sub_diag by done. }
  assert (Hb : arrays wC !! arrValue mapped = Some b).
  { simpl. by rewrite lookup_app_r, Nat.sub_diag by done. }
  pose proof (derive_map_during wC this mapped f Hta Haa Hsb Hdb Hab Hmb
                (updateSignal fuel) na len [] (Ret VNull) a b (nextAddress wC)) as Hrun.
  pose proof (during_id wC this mapped S0 D0 a b Hs Hd Ha Hb SNormal) as Hid.
  unfold S0, D0 in Hid. rewrite <- Hid in Hrun.
  set (wF := withRegistry _ _) in Hrun.
  exists this, mapped, wF. split; [|split; [|split]].
  - rewrite (bind_Done _ _ _ this wA) by reflexivity.
    rewrite (bind_Done _ _ _ mapped wF); [reflexivity|].
    unfold mapOf, map.
    rewrite (bind_Done _ _ _ a wA)
      by (apply readArray_Some; simpl; by rewrite lookup_app_r, Nat.sub_diag by done).
    rewrite (bind_Done _ _ _ (arrValue mapped) wB) by reflexivity.
    rewrite (bind_Done _ _ _ (arrChanges mapped) wF); [reflexivity|].
    unfold derive. rewrite (bind_Done _ _ _ SNormal wB) by reflexivity.
    cbn [mode]. rewrite (bind_Done _ _ _ (arrChanges mapped) wC) by reflexivity.
    exact Hrun.
  - split.
    + reflexivity.
    + done.
    + exists na, (mkChanges [] len), [], (Ret VNull). split; [|simpl; lia].
      cbn [wF trackers withRegistry during].
      rewrite list_lookup_insert_ne by done. by apply list_lookup_insert_eq.
    + exists (S na), (mkChanges [] len). split; [|simpl; lia].
      cbn [wF trackers withRegistry during].
      apply list_lookup_insert_eq. by rewrite length_insert.
    + exists a, b. cbn [wF arrays withRegistry during]. split; [|split; [|done]].
      * rewrite list_lookup_insert_ne by done. by apply list_lookup_insert_eq.
      * apply list_lookup_insert_eq. by rewrite length_insert.
  - cbn [wF arrays withRegistry during].
    rewrite list_lookup_insert_ne by done. by apply list_lookup_insert_eq.
  - reflexivity.
Qed.

Lemma new_map_follows_witness :
  ∃ this mapped w',
    (a <- arrayState (numbers [1; 2; 3]) ;; m <- mapOf 1 a Following.twice ;; ret (a, m))
      emptyWorld = Done (this, mapped) w'
    ∧ follows this mapped Following.twice w'
    ∧ arrays w' !! arrValue this = Some (arrayOf (numbers [1; 2; 3]))
    ∧ arrValue this = length (arrays emptyWorld).
Proof. apply (new_map_follows 1 (numbers [1; 2; 3]) Following.twice emptyWorld). reflexivity. Defined.

(** *** The update cycle of a join *)

Lemma offsetChanges_in_place (pre post : list (option Value))
    (a a' : JsArray Value) (p : list (Z * Value)) (cs : list (Change Value)) :
  scriptFits (arr_length a) cs = true →
  updateArrayFromChanges a cs = (a', None) →
  ∃ moved,
    offsetChanges (Z.of_nat (length pre)) cs = Some moved
    ∧ updateArrayFromChanges (mkArray (pre ++ slots a ++ post) p) moved
      = (mkArray (pre ++ slots a' ++ post) p, None).
Proof.
  revert a. induction cs as [|c cs IH]; intros a Hfits Hrun; simpl in Hrun.
  - injection Hrun as <-. by exists [].
  - destruct c as [i vs|s l|x y|i v]; simpl in Hfits; [| |done|].
    + apply andb_prop in Hfits as [Hb Hrest]. apply andb_prop in Hb as [Hi Hl].
      destruct (IH (arr_splice a i 0 vs)) as (moved & Hoff & Hall); [|done|].
      { rewrite arr_length_splice_fits by lia. rewrite <- Hrest. f_equal. lia. }
      exists (Insert (Z.of_nat (length pre) + i) vs :: moved).
      simpl. rewrite Hoff. split; [done|].
      by rewrite arr_splice_concatenation by lia.
    + apply andb_prop in Hfits as [Hb Hrest]. apply andb_prop in Hb as [Hb Hl].
      apply andb_prop in Hb as [Hs Hc].
      destruct (IH (arr_splice a s l [])) as (moved & Hoff & Hall); [|done|].
      { rewrite arr_length_splice_fits by lia. rewrite <- Hrest. f_equal. simpl. lia. }
      exists (Delete (Z.of_nat (length pre) + s) l :: moved).
      simpl. rewrite Hoff. split; [done|].
      by rewrite arr_splice_concatenation by lia.
    + apply andb_prop in Hfits as [Hb Hrest]. apply andb_prop in Hb as [Hi Hl].
      destruct (arr_set_concatenation pre post a p i v) as [Hset Hlen]; [lia..|].
      destruct (IH (arr_set a i v)) as (moved & Hoff & Hall); [by rewrite Hlen|done|].
      exists (Replace (Z.of_nat (length pre) + i) v :: moved).
      simpl. rewrite Hoff. split; [done|]. by rewrite Hset.
Qed.

Lemma joinParts_literals pre rest index updates :
  joinParts ((Literal <$> pre) ++ rest) index updates
  = joinParts rest (index + Z.of_nat (length pre)) updates.
Proof.
  revert index. induction pre as [|v pre IH]; intros index; simpl.
  - by rewrite Z.add_0_r.
  - rewrite IH. f_equal. lia.
Qed.

Lemma joinParts_tail post index updates :
  joinParts (Literal <$> post) index updates
  = Ret (index + Z.of_nat (length post), updates).
Proof.
  rewrite <- (app_nil_r (Literal <$> post)). by rewrite joinParts_literals.
Qed.

Lemma runProg_joinDerivation pull value pre post this :
  runProg pull (joinDerivation value (around pre post this))
  = runProg pull
      (r <- joinParts (Spread this :: (Literal <$> post)) (Z.of_nat (length pre)) [] ;;
       let out := mkChanges (snd r) (fst r) in
       o <- call (NewChanges out) ;;
       updateArrayFromChangesAt value out ;;;
       Ret o)%prog.
Proof. unfold joinDerivation, around. by rewrite joinParts_literals. Qed.

Section Joining.
Context (w : World) (this joined : ImmutableArray) (pre post : list Value).
Context (addr : nat) (c : Changes Value) (ups : list TrackerId) (fn : prog Value).
Context (addrD : nat) (cD : Changes Value) (a0 : JsArray Value) (p : list (Z * Value)).
Context (next0 : nat).
Hypothesis trackers_apart : arrChanges this ≠ arrChanges joined.
Hypothesis arrays_apart : arrValue this ≠ arrValue joined.
Hypothesis source_bound : (arrChanges this < length (trackers w))%nat.
Hypothesis derivation_bound : (arrChanges joined < length (trackers w))%nat.
Hypothesis array_bound : (arrValue this < length (arrays w))%nat.
Hypothesis joined_bound : (arrValue joined < length (arrays w))%nat.
Hypothesis source_address : (addr < next0)%nat.
Hypothesis derivation_address : (addrD < next0)%nat.

Local Abbreviation D := (during w this joined).
Local Abbreviation source0 :=
  (mkTracker State (VChanges addr c) false [arrChanges joined] [] ups fn).
Local Abbreviation derivation0 :=
  (mkTracker Derived (VChanges addrD cD) false [] [] [arrChanges this]
     (joinDerivation (arrValue joined) (around pre post this))).
Local Abbreviation wrapping a := (mkArray ((Some <$> pre) ++ slots a ++ (Some <$> post)) p).

Lemma updateState_joining fuel run source a sd next :
  (source = source0 ∧ a = a0 ∧ sd = SUpdatingState [] [] [] ∧ next = next0)
  ∨ edited this (arrChanges joined) a0 source0 next0 true source a sd next →
  runProg (updateSignal (S (S fuel))) run
    (D source0 derivation0 a0 (wrapping a0) (SUpdatingState [] [] []) next0)
  = Done tt (D source derivation0 a (wrapping a0) sd next) →
  ∃ addr' c' addrD' cD' next',
    updateState (S (S fuel)) run (D source0 derivation0 a0 (wrapping a0) SNormal next0)
    = Done tt (D (mkTracker State (VChanges addr' c') false [arrChanges joined] [] ups fn)
                 (mkTracker Derived (VChanges addrD' cD') false [] [] [arrChanges this]
                    (joinDerivation (arrValue joined) (around pre post this)))
                 a (wrapping a) SNormal next')
    ∧ (addr' < next')%nat ∧ (addrD' < next')%nat.
Proof using All.
  intros [(-> & -> & -> & ->)|(addr' & c' & -> & -> & Hscript & Haddr & Hnext & Hfit)] Hrun.
  - eexists _, _, _, _, _. split.
    + run. rewrite Hrun. run. reflexivity.
    + done.
  - destruct (offsetChanges_in_place (Some <$> pre) (Some <$> post) a0 a p (changes c')
                (Hfit eq_refl) Hscript) as (moved & Hoff & Hall).
    rewrite length_fmap in Hoff.
    eexists _, _, _, _, _. split.
    + run. rewrite Hrun. run. rewrite runProg_joinDerivation.
      cbn [joinParts]. run. rewrite Hoff. rewrite joinParts_tail. run.
      rewrite Hall. run.
      replace (next =? addrD)%nat with false by lia. run. reflexivity.
    + split; lia.
Qed.

End Joining.

(** X16. A join follows the array among its parts through a batch of
    edits.  When [joined] is an up-to-date join of the values [pre], the
    array state [this] and the values [post], and the callback of an
    [updateState] makes edits of [this] that check their index ([insertAt],
    [insert], [append], [delete], [update] at an index that is not negative)
    and returns, then [updateState] returns and [joined] is again an
    up-to-date join of the same parts: the edits were made in place, between
    [pre] and [post]. *)
Theorem join_follows_part fuel pre post this joined ms w w1 :
  joins pre post this joined w → (2 ≤ fuel)%nat →
  Forall (λ m, receiverOf m = inr this ∧ checked m = true) ms →
  runProg (updateSignal fuel) (edits ms) (withStateData (SUpdatingState [] [] []) w)
  = Done tt w1 →
  ∃ w', updateState fuel (edits ms) w = Done tt w'
        ∧ joins pre post this joined w'
        ∧ arrays w' !! arrValue this = arrays w1 !! arrValue this.
Proof.
  intros [Hmode Harrays (addr & c & ups & fn & Hs & Haddr) (addrD & cD & Hd & HaddrD)
            (a & p & Ha & Hb)] Hfuel Hms Hrun.
  destruct fuel as [|[|fuel]]; [lia..|].
  assert (Htrackers : arrChanges this ≠ arrChanges joined).
  { intros Heq. rewrite Heq, Hd in Hs. by injection Hs. }
  assert (Hrecv : Forall (λ m, receiverOf m = inr this) ms)
    by (clear -Hms; induction Hms as [|m ms [? _] _ IH]; constructor; done).
  assert (Hchecked : forallb checked ms = true).
  { clear -Hms. induction Hms as [|m ms [_ Hm] _ IH]; [done|]. simpl. by rewrite Hm, IH. }
  pose proof (lookup_lt_Some _ _ _ Hs) as Hsb.
  pose proof (lookup_lt_Some _ _ _ Hd) as Hdb.
  pose proof (lookup_lt_Some _ _ _ Ha) as Hab.
  pose proof (lookup_lt_Some _ _ _ Hb) as Hbb.
  pose proof (during_id w this joined _ _ a _ Hs Hd Ha Hb) as Hw.
  rewrite Hw in Hrun.
  pose proof (edits_during w this joined addr c ups fn
                (mkTracker Derived (VChanges addrD cD) false [] [] [arrChanges this]
                   (joinDerivation (arrValue joined) (around pre post this)))
                a (mkArray ((Some <$> pre) ++ slots a ++ (Some <$> post)) p) (nextAddress w)
                Htrackers Harrays Hsb Hdb Hab Hbb Haddr
                (updateSignal (S (S fuel))) ms Hrecv
                true _ _ _ _ (or_introl (conj eq_refl (conj eq_refl (conj eq_refl eq_refl)))))
    as Hedits.
  rewrite Hrun in Hedits. cbn [whenDone] in Hedits.
  destruct Hedits as (source' & a' & sd' & next' & -> & Hed).
  rewrite Hchecked in Hed.
  destruct (updateState_joining w this joined pre post addr c ups fn addrD cD a p
              (nextAddress w) Htrackers Harrays Hsb Hdb Hab Hbb Haddr HaddrD fuel (edits ms)
              source' a' sd' next' Hed Hrun)
    as (addr' & c' & addrD' & cD' & next'' & Hupd & Haddr' & HaddrD').
  rewrite <- Hw in Hupd.
  replace (withStateData SNormal w) with w in Hupd by (destruct w; simpl in *; by subst).
  eexists. split; [exact Hupd|]. split.
  - split.
    + done.
    + done.
    + exists addr', c', ups, fn. split; [|done]. simpl.
      rewrite list_lookup_insert_ne by done. by apply list_lookup_insert_eq.
    + exists addrD', cD'. split; [|done]. simpl.
      apply list_lookup_insert_eq. by rewrite length_insert.
    + exists a', p. simpl. split.
      * rewrite list_lookup_insert_ne by done. by apply list_lookup_insert_eq.
      * apply list_lookup_insert_eq. by rewrite length_insert.
  - simpl.
    rewrite (list_lookup_insert_ne _ (arrValue joined) (arrValue this)) by done.
    by rewrite (list_lookup_insert_ne _ (arrValue joined) (arrValue this)) by done.
Qed.

Lemma join_follows_part_witness :
  ∃ w', updateState 2 (edits Joining.batch) Joining.world = Done tt w'
        ∧ joins [VNum (-2)] [VNum 7] Joining.source Joining.joined w'
        ∧ arrays w' !! arrValue Joining.source
          = arrays Joining.edited !! arrValue Joining.source.
Proof.
  apply (join_follows_part 2 [VNum (-2)] [VNum 7] Joining.source Joining.joined
           Joining.batch Joining.world Joining.edited).
  - split.
    + reflexivity.
    + simpl. lia.
    + exists 0%nat, (mkChanges [] 3), [], (Ret VNull). split; [reflexivity|]. simpl. lia.
    + exists 1%nat, (mkChanges [] 5). split; [reflexivity|]. simpl. lia.
    + eexists _, _. split; reflexivity.
  - lia.
  - repeat constructor.
  - vm_compute. reflexivity.
Defined.

Lemma flatMapParts_literals pull pre rest w els :
  runProg pull (flatMapParts rest) w = Done els w →
  runProg pull (flatMapParts ((Literal <$> pre) ++ rest)) w = Done (pre ++ els) w.
Proof.
  intros Hrest. induction pre as [|v pre IH]; [done|].
  cbn [fmap list_fmap app flatMapParts partElements pbind].
  rewrite runProg_pbind, (bind_Done _ _ _ _ _ IH). done.
Qed.

Lemma arr_elements_arrayOf {T} (vs : list T) : arr_elements (arrayOf vs) = vs.
Proof.
  unfold arr_elements, arrayOf. simpl.
  induction vs as [|v vs IH]; [done|]. simpl. f_equal. exact IH.
Qed.

Lemma flatMapParts_around pull pre post this a w :
  arrIsDerived this = false → arrays w !! arrValue this = Some a →
  runProg pull (flatMapParts (around pre post this)) w
  = Done (pre ++ arr_elements a ++ post) w.
Proof.
  intros Hplain Ha. unfold around. apply flatMapParts_literals.
  cbn [flatMapParts partElements spread]. unfold arrayValue. rewrite Hplain.
  rewrite !runProg_pbind.
  rewrite (bind_Done _ _ _ (arr_elements a) w).
  2:{ rewrite runProg_pbind, (bind_Done _ _ _ a w); [done|].
      rewrite runProg_call. by apply readArray_Some. }
  rewrite runProg_pbind.
  rewrite (bind_Done _ _ _ post w); [done|].
  pose proof (flatMapParts_literals pull post [] w [] eq_refl) as Htail.
  by rewrite !app_nil_r in Htail.
Qed.

Section JoinCreation.
Context (w : World) (this joined : ImmutableArray) (pre post : list Value).
Hypothesis trackers_apart : arrChanges this ≠ arrChanges joined.
Hypothesis arrays_apart : arrValue this ≠ arrValue joined.
Hypothesis source_bound : (arrChanges this < length (trackers w))%nat.
Hypothesis derivation_bound : (arrChanges joined < length (trackers w))%nat.
Hypothesis array_bound : (arrValue this < length (arrays w))%nat.
Hypothesis joined_bound : (arrValue joined < length (arrays w))%nat.

Local Abbreviation D := (during w this joined).

(** [derive], from the point where the new tracker is in the arena, on the
    derivation of a join around an array that has no reader and was not
    edited. *)
Lemma derive_join_during pull addr c ups fn a b next :
  ∃ len,
    (setStateData (SCreatingDerivedSignal [arrChanges joined]) ;;;
     v <- runProg pull (joinDerivation (arrValue joined) (around pre post this)) ;;
     modifyTracker (arrChanges joined) (setValue v) ;;;
     setStateData SNormal ;;;
     modifyWorld (withRegistry (λ r, r ++ [arrChanges joined])) ;;;
     ret (arrChanges joined))
      (D (mkTracker State (VChanges addr c) false [] [] ups fn)
         (mkTracker Derived VNull false [] [] []
            (joinDerivation (arrValue joined) (around pre post this)))
         a b SNormal next)
    = Done (arrChanges joined)
        (withRegistry (λ r, r ++ [arrChanges joined])
           (D (mkTracker State (VChanges addr c) false [arrChanges joined] [] ups fn)
              (mkTracker Derived (VChanges next (mkChanges [] len)) false [] []
                 [arrChanges this] (joinDerivation (arrValue joined) (around pre post this)))
              a b SNormal (S next))).
Proof using All.
  eexists. run. rewrite runProg_joinDerivation. cbn [joinParts]. run.
  rewrite joinParts_tail. run. cbn [updateArrayFromChanges]. run. reflexivity.
Qed.
End JoinCreation.

(** X17. A join made around an array state that was just made follows it:
    the two calls return, in any world between update cycles, and leave the
    join up to date and wired to the array as [joins] asks. *)
Theorem new_join_follows fuel vs pre post w :
  stateData w = SNormal →
  ∃ this joined w',
    (a <- arrayState vs ;; j <- join fuel (around pre post a) ;; ret (a, j)) w
    = Done (this, joined) w'
    ∧ joins pre post this joined w'
    ∧ arrays w' !! arrValue this = Some (arrayOf vs)
    ∧ arrays w' !! arrValue joined = Some (arrayOf (pre ++ vs ++ post)).
Proof.
  intros Hsd. destruct w as [ts effs ars sd na reg tk]. simpl in Hsd. subst sd.
  set (c := mkChanges ([] : list (Change Value)) (Z.of_nat (length vs))).
  set (S0 := mkTracker State (VChanges na c) false [] [] [] (Ret VNull)).
  set (a := arrayOf vs). set (b := arrayOf (pre ++ vs ++ post)).
  set (this := mkImmutableArray (length ars) (length ts) false).
  set (joined := mkImmutableArray (length (ars ++ [a])) (length (ts ++ [S0])) true).
  set (D0 := mkTracker Derived VNull false [] [] []
               (joinDerivation (arrValue joined) (around pre post this))).
  set (wA := mkWorld (ts ++ [S0]) effs (ars ++ [a]) SNormal (S na) reg tk).
  set (wB := mkWorld (ts ++ [S0]) effs ((ars ++ [a]) ++ [b]) SNormal (S na) reg tk).
  set (wC := mkWorld ((ts ++ [S0]) ++ [D0]) effs ((ars ++ [a]) ++ [b]) SNormal (S na) reg tk).
  assert (Hta : arrChanges this ≠ arrChanges joined)
    by (simpl; rewrite length_app; simpl; lia).
  assert (Haa : arrValue this ≠ arrValue joined)
    by (simpl; rewrite length_app; simpl; lia).
  assert (Hsb : (arrChanges this < length (trackers wC))%nat)
    by (simpl; rewrite !length_app; simpl; lia).
  assert (Hdb : (arrChanges joined < length (trackers wC))%nat)
    by (simpl; rewrite !length_app; simpl; lia).
  assert (Hab : (arrValue this < length (arrays wC))%nat)
    by (simpl; rewrite !length_app; simpl; lia).
  assert (Hmb : (arrValue joined < length (arrays wC))%nat)
    by (simpl; rewrite !length_app; simpl; lia).
  assert (Hs : trackers wC !! arrChanges this = Some S0).
  { simpl. rewrite lookup_app_l by (rewrite length_app; simpl; lia).
    by rewrite lookup_app_r, Nat.sub_diag by done. }
  assert (Hd : trackers wC !! arrChanges joined = Some D0).
  { simpl. by rewrite lookup_app_r, Nat.sub_diag by done. }
  assert (Ha : arrays wC !! arrValue this = Some a).
  { simpl. rewrite lookup_app_l by (rewrite length_app; simpl; lia).
    by rewrite lookup_app_r, Nat.sub_diag by done. }
  assert (Hb : arrays wC !! arrValue joined = Some b).
  { simpl. by rewrite lookup_app_r, Nat.sub_diag by done. }
  destruct (derive_join_during wC this joined pre post Hta Haa Hsb Hdb Hab Hmb
              (updateSignal fuel) na c [] (Ret VNull) a b (nextAddress wC)) as (len & Hrun).
  pose proof (during_id wC this joined S0 D0 a b Hs Hd Ha Hb SNormal) as Hid.
  unfold S0, D0 in Hid. rewrite <- Hid in Hrun.
  set (wF := withRegistry _ _) in Hrun.
  exists this, joined, wF. split; [|split; [|split]].
  - rewrite (bind_Done _ _ _ this wA) by reflexivity.
    rewrite (bind_Done _ _ _ joined wF); [reflexivity|].
    unfold join.
    rewrite (bind_Done _ _ _ (pre ++ vs ++ post) wA).
    2:{ pose proof (flatMapParts_around (updateSignal fuel) pre post this a wA eq_refl)
          as Hflat.
        unfold a in Hflat at 2. rewrite arr_elements_arrayOf in Hflat. apply Hflat.
        simpl. by rewrite lookup_app_r, Nat.sub_diag by done. }
    rewrite (bind_Done _ _ _ (arrValue joined) wB) by reflexivity.
    rewrite (bind_Done _ _ _ (arrChanges joined) wF); [reflexivity|].
    unfold derive. rewrite (bind_Done _ _ _ SNormal wB) by reflexivity.
    cbn [mode]. rewrite (bind_Done _ _ _ (arrChanges joined) wC) by reflexivity.
    exact Hrun.
  - split.
    + reflexivity.
    + done.
    + exists na, c, [], (Ret VNull). split; [|simpl; lia].
      cbn [wF trackers withRegistry during].
      rewrite list_lookup_insert_ne by done. by apply list_lookup_insert_eq.
    + exists (S na), (mkChanges [] len). split; [|simpl; lia].
      cbn [wF trackers withRegistry during].
      apply list_lookup_insert_eq. by rewrite length_insert.
    + exists a, []. cbn [wF arrays withRegistry during]. split.
      * rewrite list_lookup_insert_ne by done. by apply list_lookup_insert_eq.
      * rewrite list_lookup_insert_eq by (by rewrite length_insert).
        unfold b, a, arrayOf. simpl. by rewrite !fmap_app.
  - cbn [wF arrays withRegistry during].
    rewrite list_lookup_insert_ne by done. by apply list_lookup_insert_eq.
  - cbn [wF arrays withRegistry during].
    apply list_lookup_insert_eq. by rewrite length_insert.
Qed.

Lemma new_join_follows_witness :
  ∃ this joined w',
    (a <- arrayState (numbers [1; 2; 3]) ;;
     j <- join 1 (around [VNum (-2)] [VNum 7] a) ;; ret (a, j)) emptyWorld
    = Done (this, joined) w'
    ∧ joins [VNum (-2)] [VNum 7] this joined w'
    ∧ arrays w' !! arrValue this = Some (arrayOf (numbers [1; 2; 3]))
    ∧ arrays w' !! arrValue joined
      = Some (arrayOf ([VNum (-2)] ++ numbers [1; 2; 3] ++ [VNum 7])).
Proof.
  apply (new_join_follows 1 (numbers [1; 2; 3]) [VNum (-2)] [VNum 7] emptyWorld).
  reflexivity.
Defined.

